(** * The HTML content processor of rspamd (src/libserver/html/html.cxx)

    A shallow embedding of the tag-tree builder, the attribute lexer, the
    URL resolver, the style handling and the tokenizer loop of
    [rspamd_html_process_part_full], with the properties the specification
    states about them.

    Conventions.
    - A byte is a [Z] in [0, 256); a buffer is a [list Z]; a pointer into a
      buffer is an index ([nat]); [NULL] is [None].
    - Heap objects (tags, tree nodes, blocks, URLs, images) live in typed
      stores; a pointer is an index into its store, allocation appends.
      Reading through a pointer that is not live is a fault, and every
      function that dereferences returns an [option].
    - [guint] arithmetic wraps at [2^32].
    - Declarations the sources do not contain (html_tags.h, html.h, url.h,
      glib, libutil, the CSS and URL collaborators) are taken as parameters,
      bundled in classes; one concrete instance is built for the literal
      scenarios of the specification. *)

From Stdlib Require Import ZArith QArith Qround Lia String Ascii List.
From stdpp Require Import base option list gmap.

Local Open Scope Z_scope.

(** ** Bytes and the ASCII classes of glib *)

Abbreviation bytes := (list Z).

Definition byte_of_ascii (a : ascii) : Z := Z.of_nat (nat_of_ascii a).

Fixpoint bytes_of_string (s : string) : bytes :=
  match s with
  | EmptyString => []
  | String a r => byte_of_ascii a :: bytes_of_string r
  end.

(** The characters the parsers compare with. *)
Definition c_dquote : Z := 34.   (* the double quote *)
Definition c_squote : Z := 39.   (* ' *)
Definition c_lt : Z := 60.       (* < *)
Definition c_gt : Z := 62.       (* > *)
Definition c_slash : Z := 47.    (* / *)
Definition c_eq : Z := 61.       (* = *)
Definition c_amp : Z := 38.      (* & *)
Definition c_excl : Z := 33.     (* ! *)
Definition c_quest : Z := 63.    (* ? *)
Definition c_minus : Z := 45.    (* - *)
Definition c_lbracket : Z := 91. (* [ *)
Definition c_rbracket : Z := 93. (* ] *)
Definition c_colon : Z := 58.    (* : *)
Definition c_semicolon : Z := 59.
Definition c_at : Z := 64.       (* @ *)
Definition c_hash : Z := 35.     (* # *)
Definition c_percent : Z := 37.  (* % *)
Definition c_comma : Z := 44.
Definition c_lparen : Z := 40.
Definition c_rparen : Z := 41.
Definition c_nl : Z := 10.
Definition c_cr : Z := 13.
Definition c_space : Z := 32.

Definition g_ascii_isspace (b : Z) : bool :=
  (b =? 32) || ((9 <=? b) && (b <=? 13)).

Definition g_ascii_isdigit (b : Z) : bool := (48 <=? b) && (b <=? 57).

Definition g_ascii_isalpha (b : Z) : bool :=
  ((65 <=? b) && (b <=? 90)) || ((97 <=? b) && (b <=? 122)).

Definition g_ascii_isalnum (b : Z) : bool :=
  g_ascii_isalpha b || g_ascii_isdigit b.

Definition g_ascii_isgraph (b : Z) : bool := (33 <=? b) && (b <=? 126).

Definition g_ascii_tolower (b : Z) : Z :=
  if (65 <=? b) && (b <=? 90) then b + 32 else b.

(** [guint] increment. *)
Definition guint_max : Z := 2 ^ 32.
Definition guint_incr (x : Z) : Z := (x + 1) mod guint_max.

(** Flag tests as the C code writes them. *)
Definition has_flag (x mask : Z) : bool := negb (Z.land x mask =? 0).

(** ** Constants *)

(** html.cxx, line 46. *)
Definition max_tags : Z := 8192.

(** Modelled from the spec: the flag constants of the content root are
    declared in html.h, which is not among the sources; the specification
    (section 6) lists them as a stable public enumeration. *)
Definition RSPAMD_HTML_FLAG_BAD_START : Z := 1.
Definition RSPAMD_HTML_FLAG_XML : Z := 2.
Definition RSPAMD_HTML_FLAG_UNBALANCED : Z := 4.
Definition RSPAMD_HTML_FLAG_BAD_ELEMENTS : Z := 8.
Definition RSPAMD_HTML_FLAG_UNKNOWN_ELEMENTS : Z := 16.
Definition RSPAMD_HTML_FLAG_DUPLICATE_ELEMENTS : Z := 32.
Definition RSPAMD_HTML_FLAG_TOO_MANY_TAGS : Z := 64.
Definition RSPAMD_HTML_FLAG_HAS_DATA_URLS : Z := 128.

(** The tag class and state flags and the tag ids of html_tags.h, and the
    URL and image flags of url.h and html.h.  None of these headers is
    among the sources, so the values are parameters. *)
Class html_tags_h := {
  CM_EMPTY : Z; CM_HEAD : Z; CM_INLINE : Z; CM_UNKNOWN : Z; CM_UNIQUE : Z;
  FL_CLOSING : Z; FL_HREF : Z; FL_CLOSED : Z; FL_BROKEN : Z; FL_IGNORE : Z;
  FL_BLOCK : Z; FL_IMAGE : Z;
  Tag_A : Z; Tag_BASE : Z; Tag_BODY : Z; Tag_BR : Z; Tag_DIV : Z; Tag_HR : Z;
  Tag_IMG : Z; Tag_LINK : Z; Tag_P : Z; Tag_STYLE : Z; Tag_TR : Z;
  N_TAGS : Z;
  RSPAMD_URL_FLAG_OBSCURED : Z; RSPAMD_URL_FLAG_SCHEMALESS : Z;
  RSPAMD_URL_FLAG_NO_TLD : Z; RSPAMD_URL_FLAG_QUERY : Z;
  RSPAMD_URL_FLAG_IMAGE : Z; RSPAMD_URL_FLAG_DISPLAY_URL : Z;
  RSPAMD_URL_FLAG_FROM_TEXT : Z; RSPAMD_URL_FLAG_HTML_DISPLAYED : Z;
  PROTOCOL_UNKNOWN : Z; PROTOCOL_MAILTO : Z;
  URI_ERRNO_OK : Z;
  RSPAMD_HTML_FLAG_IMAGE_EMBEDDED : Z; RSPAMD_HTML_FLAG_IMAGE_EXTERNAL : Z;
  RSPAMD_HTML_FLAG_IMAGE_DATA : Z;
}.

(** ** Data model *)

(** html_tag.hxx: the closed set of attribute kinds. *)
Inductive html_component_type :=
  | RSPAMD_HTML_COMPONENT_NAME
  | RSPAMD_HTML_COMPONENT_HREF
  | RSPAMD_HTML_COMPONENT_COLOR
  | RSPAMD_HTML_COMPONENT_BGCOLOR
  | RSPAMD_HTML_COMPONENT_STYLE
  | RSPAMD_HTML_COMPONENT_CLASS
  | RSPAMD_HTML_COMPONENT_WIDTH
  | RSPAMD_HTML_COMPONENT_HEIGHT
  | RSPAMD_HTML_COMPONENT_SIZE
  | RSPAMD_HTML_COMPONENT_REL
  | RSPAMD_HTML_COMPONENT_ALT.

Definition component_code (k : html_component_type) : nat :=
  match k with
  | RSPAMD_HTML_COMPONENT_NAME => 0 | RSPAMD_HTML_COMPONENT_HREF => 1
  | RSPAMD_HTML_COMPONENT_COLOR => 2 | RSPAMD_HTML_COMPONENT_BGCOLOR => 3
  | RSPAMD_HTML_COMPONENT_STYLE => 4 | RSPAMD_HTML_COMPONENT_CLASS => 5
  | RSPAMD_HTML_COMPONENT_WIDTH => 6 | RSPAMD_HTML_COMPONENT_HEIGHT => 7
  | RSPAMD_HTML_COMPONENT_SIZE => 8 | RSPAMD_HTML_COMPONENT_REL => 9
  | RSPAMD_HTML_COMPONENT_ALT => 10
  end%nat.

Definition component_of_code (n : nat) : option html_component_type :=
  match n with
  | 0 => Some RSPAMD_HTML_COMPONENT_NAME | 1 => Some RSPAMD_HTML_COMPONENT_HREF
  | 2 => Some RSPAMD_HTML_COMPONENT_COLOR | 3 => Some RSPAMD_HTML_COMPONENT_BGCOLOR
  | 4 => Some RSPAMD_HTML_COMPONENT_STYLE | 5 => Some RSPAMD_HTML_COMPONENT_CLASS
  | 6 => Some RSPAMD_HTML_COMPONENT_WIDTH | 7 => Some RSPAMD_HTML_COMPONENT_HEIGHT
  | 8 => Some RSPAMD_HTML_COMPONENT_SIZE | 9 => Some RSPAMD_HTML_COMPONENT_REL
  | 10 => Some RSPAMD_HTML_COMPONENT_ALT
  | _ => None
  end%nat.

#[global] Instance html_component_type_eq_dec : EqDecision html_component_type :=
  ltac:(solve_decision).

#[global] Instance html_component_type_countable :
  Countable html_component_type :=
  inj_countable component_code component_of_code ltac:(by intros []).

(** html.h: a color is a 32-bit word overlaid with four byte components,
    and a validity mark.  The record keeps the components; [color_set_val]
    is the overlay for the little-endian layout of html.h ([b] the lowest
    byte, [alpha] the highest). *)
Record html_color := {
  col_r : Z; col_g : Z; col_b : Z; col_alpha : Z; col_valid : bool;
}.

Definition color_zero : html_color :=
  {| col_r := 0; col_g := 0; col_b := 0; col_alpha := 0; col_valid := false |}.

Definition color_set_val (v : Z) (c : html_color) : html_color :=
  {| col_b := Z.land v 255;
     col_g := Z.land (Z.shiftr v 8) 255;
     col_r := Z.land (Z.shiftr v 16) 255;
     col_alpha := Z.land (Z.shiftr v 24) 255;
     col_valid := col_valid c |}.

Definition color_set_alpha (a : Z) (c : html_color) : html_color :=
  {| col_r := col_r c; col_g := col_g c; col_b := col_b c;
     col_alpha := a; col_valid := col_valid c |}.

Definition color_set_valid (v : bool) (c : html_color) : html_color :=
  {| col_r := col_r c; col_g := col_g c; col_b := col_b c;
     col_alpha := col_alpha c; col_valid := v |}.

(** html.h: one attribute of the list [tag->params] that the handlers
    of html.cxx walk. *)
Record html_tag_component := {
  comp_type : html_component_type;
  comp_val : bytes;
}.

(** What [tag->extra] points to. *)
Inductive extra_ptr :=
  | ExtraUrl (p : nat)
  | ExtraImage (p : nat)
  | ExtraBlock (p : nat).

(** html_tag.hxx, with the [params] list of html.h that the handlers of
    html.cxx still read. *)
Record html_tag := {
  tag_id : Z;
  tag_flags : Z;
  content_length : Z;
  content_offset : Z;
  tag_name : bytes;
  parameters : gmap html_component_type bytes;
  params : list html_tag_component;
  extra : option extra_ptr;
  tag_parent : option nat;
}.

Definition tag_zero : html_tag :=
  {| tag_id := 0; tag_flags := 0; content_length := 0; content_offset := 0;
     tag_name := []; parameters := ∅; params := []; extra := None;
     tag_parent := None |}.

Definition set_tag_id (v : Z) (t : html_tag) : html_tag :=
  {| tag_id := v; tag_flags := tag_flags t;
     content_length := content_length t; content_offset := content_offset t;
     tag_name := tag_name t; parameters := parameters t; params := params t;
     extra := extra t; tag_parent := tag_parent t |}.

Definition set_tag_flags (v : Z) (t : html_tag) : html_tag :=
  {| tag_id := tag_id t; tag_flags := v;
     content_length := content_length t; content_offset := content_offset t;
     tag_name := tag_name t; parameters := parameters t; params := params t;
     extra := extra t; tag_parent := tag_parent t |}.

Definition or_tag_flags (m : Z) (t : html_tag) : html_tag :=
  set_tag_flags (Z.lor (tag_flags t) m) t.

Definition set_content_length (v : Z) (t : html_tag) : html_tag :=
  {| tag_id := tag_id t; tag_flags := tag_flags t;
     content_length := v; content_offset := content_offset t;
     tag_name := tag_name t; parameters := parameters t; params := params t;
     extra := extra t; tag_parent := tag_parent t |}.

Definition set_content_offset (v : Z) (t : html_tag) : html_tag :=
  {| tag_id := tag_id t; tag_flags := tag_flags t;
     content_length := content_length t; content_offset := v;
     tag_name := tag_name t; parameters := parameters t; params := params t;
     extra := extra t; tag_parent := tag_parent t |}.

Definition set_tag_name (v : bytes) (t : html_tag) : html_tag :=
  {| tag_id := tag_id t; tag_flags := tag_flags t;
     content_length := content_length t; content_offset := content_offset t;
     tag_name := v; parameters := parameters t; params := params t;
     extra := extra t; tag_parent := tag_parent t |}.

Definition set_parameters (v : gmap html_component_type bytes)
    (t : html_tag) : html_tag :=
  {| tag_id := tag_id t; tag_flags := tag_flags t;
     content_length := content_length t; content_offset := content_offset t;
     tag_name := tag_name t; parameters := v; params := params t;
     extra := extra t; tag_parent := tag_parent t |}.

Definition set_params (v : list html_tag_component) (t : html_tag) : html_tag :=
  {| tag_id := tag_id t; tag_flags := tag_flags t;
     content_length := content_length t; content_offset := content_offset t;
     tag_name := tag_name t; parameters := parameters t; params := v;
     extra := extra t; tag_parent := tag_parent t |}.

Definition set_extra (v : option extra_ptr) (t : html_tag) : html_tag :=
  {| tag_id := tag_id t; tag_flags := tag_flags t;
     content_length := content_length t; content_offset := content_offset t;
     tag_name := tag_name t; parameters := parameters t; params := params t;
     extra := v; tag_parent := tag_parent t |}.

Definition set_tag_parent (v : option nat) (t : html_tag) : html_tag :=
  {| tag_id := tag_id t; tag_flags := tag_flags t;
     content_length := content_length t; content_offset := content_offset t;
     tag_name := tag_name t; parameters := parameters t; params := params t;
     extra := extra t; tag_parent := v |}.

(** glib's GNode: the payload, the parent link and the ordered children
    (the [next]/[prev] links of glib are the order of [children]). *)
Record GNode := {
  data : option nat;
  gparent : option nat;
  children : list nat;
}.

(** url.h: the fields of [struct rspamd_url] that html.cxx reads or
    writes. *)
Record rspamd_url := {
  url_string : bytes;
  url_protocol : Z;
  url_protocollen : Z;
  url_host : bytes;
  url_hostlen : Z;
  url_tldlen : Z;
  url_userlen : Z;
  url_query : bytes;
  url_querylen : Z;
  url_datalen : Z;
  url_urllen : Z;
  url_flags : Z;
  url_count : Z;
  visible_part : option bytes;
}.

Definition set_url_flags (v : Z) (u : rspamd_url) : rspamd_url :=
  {| url_string := url_string u; url_protocol := url_protocol u;
     url_protocollen := url_protocollen u; url_host := url_host u;
     url_hostlen := url_hostlen u; url_tldlen := url_tldlen u;
     url_userlen := url_userlen u; url_query := url_query u;
     url_querylen := url_querylen u; url_datalen := url_datalen u;
     url_urllen := url_urllen u; url_flags := v; url_count := url_count u;
     visible_part := visible_part u |}.

Definition set_url_count (v : Z) (u : rspamd_url) : rspamd_url :=
  {| url_string := url_string u; url_protocol := url_protocol u;
     url_protocollen := url_protocollen u; url_host := url_host u;
     url_hostlen := url_hostlen u; url_tldlen := url_tldlen u;
     url_userlen := url_userlen u; url_query := url_query u;
     url_querylen := url_querylen u; url_datalen := url_datalen u;
     url_urllen := url_urllen u; url_flags := url_flags u; url_count := v;
     visible_part := visible_part u |}.

Definition set_visible_part (v : option bytes) (u : rspamd_url) : rspamd_url :=
  {| url_string := url_string u; url_protocol := url_protocol u;
     url_protocollen := url_protocollen u; url_host := url_host u;
     url_hostlen := url_hostlen u; url_tldlen := url_tldlen u;
     url_userlen := url_userlen u; url_query := url_query u;
     url_querylen := url_querylen u; url_datalen := url_datalen u;
     url_urllen := url_urllen u; url_flags := url_flags u;
     url_count := url_count u; visible_part := v |}.

Definition or_url_flags (m : Z) (u : rspamd_url) : rspamd_url :=
  set_url_flags (Z.lor (url_flags u) m) u.

(** images.h: what the image detector reports. *)
Record rspamd_image := {
  image_width : Z;
  image_height : Z;
}.

(** html.h: [struct html_image]. *)
Record html_image := {
  img_tag : nat;
  img_src : option bytes;
  img_url : option nat;
  img_width : Z;
  img_height : Z;
  img_flags : Z;
  embedded_image : option rspamd_image;
}.

(** html.h: [struct html_block]. *)
Record html_block := {
  bl_tag : nat;
  font_color : html_color;
  background_color : html_color;
  bl_style : bytes;
  font_size : Z;
  visible : bool;
  html_class : option bytes;
}.

Definition set_font_color (c : html_color) (b : html_block) : html_block :=
  {| bl_tag := bl_tag b; font_color := c;
     background_color := background_color b; bl_style := bl_style b;
     font_size := font_size b; visible := visible b;
     html_class := html_class b |}.

Definition set_background_color (c : html_color) (b : html_block) : html_block :=
  {| bl_tag := bl_tag b; font_color := font_color b;
     background_color := c; bl_style := bl_style b;
     font_size := font_size b; visible := visible b;
     html_class := html_class b |}.

Definition set_bl_style (s : bytes) (b : html_block) : html_block :=
  {| bl_tag := bl_tag b; font_color := font_color b;
     background_color := background_color b; bl_style := s;
     font_size := font_size b; visible := visible b;
     html_class := html_class b |}.

Definition set_font_size (v : Z) (b : html_block) : html_block :=
  {| bl_tag := bl_tag b; font_color := font_color b;
     background_color := background_color b; bl_style := bl_style b;
     font_size := v; visible := visible b; html_class := html_class b |}.

Definition set_visible (v : bool) (b : html_block) : html_block :=
  {| bl_tag := bl_tag b; font_color := font_color b;
     background_color := background_color b; bl_style := bl_style b;
     font_size := font_size b; visible := v; html_class := html_class b |}.

Definition set_html_class (v : option bytes) (b : html_block) : html_block :=
  {| bl_tag := bl_tag b; font_color := font_color b;
     background_color := background_color b; bl_style := bl_style b;
     font_size := font_size b; visible := visible b; html_class := v |}.

(** html.h: the content root. *)
Record html_content := {
  base_url : option nat;
  html_tags : option nat;
  hc_flags : Z;
  total_tags : Z;
  bgcolor : html_color;
  tags_seen : gset Z;
  hc_images : option (list nat);
  hc_blocks : option (list nat);
  parsed : option bytes;
  css_style : option bytes;
}.

Definition set_base_url (v : option nat) (hc : html_content) : html_content :=
  {| base_url := v; html_tags := html_tags hc; hc_flags := hc_flags hc;
     total_tags := total_tags hc; bgcolor := bgcolor hc;
     tags_seen := tags_seen hc; hc_images := hc_images hc;
     hc_blocks := hc_blocks hc; parsed := parsed hc;
     css_style := css_style hc |}.

Definition set_html_tags (v : option nat) (hc : html_content) : html_content :=
  {| base_url := base_url hc; html_tags := v; hc_flags := hc_flags hc;
     total_tags := total_tags hc; bgcolor := bgcolor hc;
     tags_seen := tags_seen hc; hc_images := hc_images hc;
     hc_blocks := hc_blocks hc; parsed := parsed hc;
     css_style := css_style hc |}.

Definition set_hc_flags (v : Z) (hc : html_content) : html_content :=
  {| base_url := base_url hc; html_tags := html_tags hc; hc_flags := v;
     total_tags := total_tags hc; bgcolor := bgcolor hc;
     tags_seen := tags_seen hc; hc_images := hc_images hc;
     hc_blocks := hc_blocks hc; parsed := parsed hc;
     css_style := css_style hc |}.

Definition or_hc_flags (m : Z) (hc : html_content) : html_content :=
  set_hc_flags (Z.lor (hc_flags hc) m) hc.

Definition set_total_tags (v : Z) (hc : html_content) : html_content :=
  {| base_url := base_url hc; html_tags := html_tags hc;
     hc_flags := hc_flags hc; total_tags := v; bgcolor := bgcolor hc;
     tags_seen := tags_seen hc; hc_images := hc_images hc;
     hc_blocks := hc_blocks hc; parsed := parsed hc;
     css_style := css_style hc |}.

Definition incr_total_tags (hc : html_content) : html_content :=
  set_total_tags (guint_incr (total_tags hc)) hc.

Definition set_bgcolor (v : html_color) (hc : html_content) : html_content :=
  {| base_url := base_url hc; html_tags := html_tags hc;
     hc_flags := hc_flags hc; total_tags := total_tags hc; bgcolor := v;
     tags_seen := tags_seen hc; hc_images := hc_images hc;
     hc_blocks := hc_blocks hc; parsed := parsed hc;
     css_style := css_style hc |}.

Definition set_tags_seen (v : gset Z) (hc : html_content) : html_content :=
  {| base_url := base_url hc; html_tags := html_tags hc;
     hc_flags := hc_flags hc; total_tags := total_tags hc;
     bgcolor := bgcolor hc; tags_seen := v; hc_images := hc_images hc;
     hc_blocks := hc_blocks hc; parsed := parsed hc;
     css_style := css_style hc |}.

Definition set_hc_images (v : option (list nat)) (hc : html_content)
    : html_content :=
  {| base_url := base_url hc; html_tags := html_tags hc;
     hc_flags := hc_flags hc; total_tags := total_tags hc;
     bgcolor := bgcolor hc; tags_seen := tags_seen hc; hc_images := v;
     hc_blocks := hc_blocks hc; parsed := parsed hc;
     css_style := css_style hc |}.

Definition set_hc_blocks (v : option (list nat)) (hc : html_content)
    : html_content :=
  {| base_url := base_url hc; html_tags := html_tags hc;
     hc_flags := hc_flags hc; total_tags := total_tags hc;
     bgcolor := bgcolor hc; tags_seen := tags_seen hc;
     hc_images := hc_images hc; hc_blocks := v; parsed := parsed hc;
     css_style := css_style hc |}.

Definition set_parsed (v : option bytes) (hc : html_content) : html_content :=
  {| base_url := base_url hc; html_tags := html_tags hc;
     hc_flags := hc_flags hc; total_tags := total_tags hc;
     bgcolor := bgcolor hc; tags_seen := tags_seen hc;
     hc_images := hc_images hc; hc_blocks := hc_blocks hc; parsed := v;
     css_style := css_style hc |}.

Definition set_css_style (v : option bytes) (hc : html_content) : html_content :=
  {| base_url := base_url hc; html_tags := html_tags hc;
     hc_flags := hc_flags hc; total_tags := total_tags hc;
     bgcolor := bgcolor hc; tags_seen := tags_seen hc;
     hc_images := hc_images hc; hc_blocks := hc_blocks hc;
     parsed := parsed hc; css_style := v |}.

(** A content root as [rspamd_mempool_alloc0] hands it out. *)
Definition hc_zero : html_content :=
  {| base_url := None; html_tags := None; hc_flags := 0; total_tags := 0;
     bgcolor := color_zero; tags_seen := ∅; hc_images := None;
     hc_blocks := None; parsed := None; css_style := None |}.

(** ** The heap *)

Record heap := {
  tags : list html_tag;
  nodes : list (option GNode);
  blocks : list html_block;
  urls : list rspamd_url;
  images : list html_image;
}.

Definition heap_empty : heap :=
  {| tags := []; nodes := []; blocks := []; urls := []; images := [] |}.

Definition set_tags (v : list html_tag) (h : heap) : heap :=
  {| tags := v; nodes := nodes h; blocks := blocks h; urls := urls h;
     images := images h |}.

Definition set_nodes (v : list (option GNode)) (h : heap) : heap :=
  {| tags := tags h; nodes := v; blocks := blocks h; urls := urls h;
     images := images h |}.

Definition set_blocks (v : list html_block) (h : heap) : heap :=
  {| tags := tags h; nodes := nodes h; blocks := v; urls := urls h;
     images := images h |}.

Definition set_urls (v : list rspamd_url) (h : heap) : heap :=
  {| tags := tags h; nodes := nodes h; blocks := blocks h; urls := v;
     images := images h |}.

Definition set_images (v : list html_image) (h : heap) : heap :=
  {| tags := tags h; nodes := nodes h; blocks := blocks h; urls := urls h;
     images := v |}.

Definition load_tag (h : heap) (p : nat) : option html_tag := tags h !! p.

(** A write through a tag pointer; a dangling pointer is a fault. *)
Definition update_tag (f : html_tag → html_tag) (p : nat) (h : heap)
    : option heap :=
  t ← tags h !! p; Some (set_tags (<[p := f t]> (tags h)) h).

Definition alloc_tag (t : html_tag) (h : heap) : heap * nat :=
  (set_tags (tags h ++ [t]) h, length (tags h)).

Definition load_node (h : heap) (n : nat) : option GNode :=
  mjoin (nodes h !! n).

(** ** glib's n-ary tree *)

Definition g_node_new (d : option nat) (h : heap) : heap * nat :=
  (set_nodes (nodes h ++ [Some {| data := d; gparent := None; children := [] |}]) h,
   length (nodes h)).

(** [g_node_append (parent, node)]: glib refuses a [NULL] parent with a
    critical warning; here this and a dangling pointer are faults. *)
Definition g_node_append (parent : option nat) (node : nat) (h : heap)
    : option heap :=
  p ← parent;
  pn ← load_node h p;
  nn ← load_node h node;
  let ns1 := <[node := Some {| data := data nn; gparent := Some p;
                               children := children nn |}]> (nodes h) in
  pn' ← mjoin (ns1 !! p);
  Some (set_nodes (<[p := Some {| data := data pn'; gparent := gparent pn';
                                 children := children pn' ++ [node] |}]> ns1) h).

(** Releasing a subtree: the node and, recursively, its children. *)
Fixpoint g_nodes_free (fuel : nat) (ns : list (option GNode)) (n : nat)
    : list (option GNode) :=
  match fuel with
  | O => ns
  | S f =>
      match ns !! n with
      | Some (Some nd) => <[n := None]> (fold_left (g_nodes_free f) (children nd) ns)
      | _ => ns
      end
  end.

(** [g_node_destroy (node)]: unlink the node from its parent, then free
    its subtree. *)
Definition g_node_destroy (node : nat) (h : heap) : option heap :=
  nd ← load_node h node;
  let ns1 :=
    match gparent nd with
    | Some p =>
        match nodes h !! p with
        | Some (Some pn) =>
            <[p := Some {| data := data pn; gparent := gparent pn;
                           children := filter (λ c, c ≠ node) (children pn) |}]>
              (nodes h)
        | _ => nodes h
        end
    | None => nodes h
    end in
  Some (set_nodes (g_nodes_free (length ns1) ns1 node) h).

(** ** The tree builder (html.cxx, lines 74-228) *)

Section tree_builder.
Context `{html_tags_h}.

(** The loop of [rspamd_html_check_balance]: from [cur] upwards, the first
    node whose tag has the id [arg_id] and is not yet [FL_CLOSED]; the walk
    ends at [NULL] or at a node without a tag (the root).  The parent chain
    of a tree repeats no node, so the number of nodes bounds the loop;
    [None] is a fault or an exhausted bound. *)
Fixpoint balance_walk (fuel : nat) (h : heap) (arg_id : Z) (cur : option nat)
    : option (option nat) :=
  match fuel with
  | O => None
  | S f =>
      match cur with
      | None => Some None
      | Some c =>
          nd ← load_node h c;
          match data nd with
          | None => Some None
          | Some tp =>
              tmp ← load_tag h tp;
              if (tag_id tmp =? arg_id) && negb (has_flag (tag_flags tmp) FL_CLOSED)
              then Some (Some c)
              else balance_walk f h arg_id (gparent nd)
          end
      end
  end.

(** Returns the heap, [*cur_level] and the result. *)
Definition rspamd_html_check_balance (h : heap) (node : nat)
    (cur_level : option nat) : option (heap * option nat * bool) :=
  nd ← load_node h node;
  tp ← data nd;
  arg ← load_tag h tp;
  if has_flag (tag_flags arg) FL_CLOSING then
    r ← balance_walk (length (nodes h)) h (tag_id arg) (gparent nd);
    match r with
    | Some cur =>
        cn ← load_node h cur;
        ctp ← data cn;
        h1 ← update_tag (or_tag_flags FL_CLOSED) ctp h;
        (* Destroy current node as we find corresponding parent node *)
        h2 ← g_node_destroy node h1;
        (* Change level *)
        cn' ← load_node h2 cur;
        Some (h2, gparent cn', true)
    | None => Some (h, cur_level, false)
    end
  else Some (h, cur_level, true).

(** The results of [rspamd_html_process_tag]: the heap, the content root,
    [*cur_level], [*balanced] and the returned boolean. *)
Definition process_tag_result : Type :=
  heap * html_content * option nat * bool * bool.

(** Lines 170-185: an opening block tag directly inside an open tag of the
    same id that is not a block container. *)
Definition process_tag_bad_nesting (h : heap) (hc : html_content) (tag : nat)
    (parent : html_tag) (cur_level : option nat)
    : option process_tag_result :=
  let hc := or_hc_flags RSPAMD_HTML_FLAG_UNBALANCED hc in
  h ← update_tag (set_tag_parent (tag_parent parent)) tag h;
  if total_tags hc <? max_tags then
    let '(h, nnode) := g_node_new (Some tag) h in
    h ← g_node_append (tag_parent parent) nnode h;
    Some (h, incr_total_tags hc, Some nnode, false, true)
  else Some (h, hc, cur_level, false, true).

(** Lines 189-204: the opening block tag is pushed. *)
Definition process_tag_push (h : heap) (hc : html_content) (tag : nat)
    (cur_level : option nat) (balanced : bool) : option process_tag_result :=
  '(h, hc, cur_level) ←
    (if total_tags hc <? max_tags then
       let '(h, nnode) := g_node_new (Some tag) h in
       h ← g_node_append cur_level nnode h;
       t ← load_tag h tag;
       Some (h, incr_total_tags hc,
             if negb (has_flag (tag_flags t) FL_CLOSED) then Some nnode
             else cur_level)
     else Some (h, hc, cur_level));
  t ← load_tag h tag;
  if has_flag (tag_flags t) (Z.lor (Z.lor CM_HEAD CM_UNKNOWN) FL_IGNORE) then
    h ← update_tag (or_tag_flags FL_IGNORE) tag h;
    Some (h, hc, cur_level, balanced, false)
  else Some (h, hc, cur_level, balanced, true).

Definition rspamd_html_process_tag (h : heap) (hc : html_content) (tag : nat)
    (cur_level : option nat) (balanced : bool) : option process_tag_result :=
  let '(h, hc, cur_level) :=
    match html_tags hc with
    | None =>
        let '(h', nnode) := g_node_new None h in
        (h', set_html_tags (Some nnode) hc, Some nnode)
    | Some _ => (h, hc, cur_level)
    end in
  let hc :=
    if max_tags <? total_tags hc
    then or_hc_flags RSPAMD_HTML_FLAG_TOO_MANY_TAGS hc else hc in
  t ← load_tag h tag;
  if tag_id t =? -1 then
    (* Ignore unknown tags *)
    Some (h, incr_total_tags hc, cur_level, balanced, false)
  else
    h ← update_tag (set_tag_parent cur_level) tag h;
    t ← load_tag h tag;
    if negb (has_flag (tag_flags t) (Z.lor CM_INLINE CM_EMPTY)) then
      (* Block tag *)
      if has_flag (tag_flags t) (Z.lor FL_CLOSING FL_CLOSED) then
        match cur_level with
        | None => Some (h, hc, cur_level, balanced, false)
        | Some _ =>
            if total_tags hc <? max_tags then
              let '(h, nnode) := g_node_new (Some tag) h in
              h ← g_node_append cur_level nnode h;
              '(h, cur_level, ok) ← rspamd_html_check_balance h nnode cur_level;
              let hc :=
                if (ok : bool) then hc else or_hc_flags RSPAMD_HTML_FLAG_UNBALANCED hc in
              Some (h, incr_total_tags hc, cur_level, ok, true)
            else Some (h, hc, cur_level, balanced, true)
        end
      else
        cl ← cur_level;
        cn ← load_node h cl;
        match data cn with
        | Some pp =>
            parent ← load_tag h pp;
            h ← (if has_flag (tag_flags parent) FL_IGNORE
                 then update_tag (or_tag_flags FL_IGNORE) tag h else Some h);
            t ← load_tag h tag;
            parent ← load_tag h pp;
            if negb (has_flag (tag_flags t) FL_CLOSED)
               && negb (has_flag (tag_flags parent) FL_BLOCK)
               && (tag_id parent =? tag_id t)
            then process_tag_bad_nesting h hc tag parent cur_level
            else process_tag_push h hc tag cur_level balanced
        | None => process_tag_push h hc tag cur_level balanced
        end
    else
      (* Inline tag *)
      cl ← cur_level;
      cn ← load_node h cl;
      match data cn with
      | Some pp =>
          '(h, hc) ←
            (if total_tags hc <? max_tags then
               let '(h, nnode) := g_node_new (Some tag) h in
               h ← g_node_append cur_level nnode h;
               Some (h, incr_total_tags hc)
             else Some (h, hc));
          parent ← load_tag h pp;
          if has_flag (tag_flags parent) (Z.lor (Z.lor CM_HEAD CM_UNKNOWN) FL_IGNORE)
          then
            h ← update_tag (or_tag_flags FL_IGNORE) tag h;
            Some (h, hc, cur_level, balanced, false)
          else Some (h, hc, cur_level, balanced, true)
      | None => Some (h, hc, cur_level, balanced, true)
      end.

End tree_builder.

(** ** Collaborators of the lexer and of the text emitter *)

(** The tag registry (html_tag_defs.hxx), the entity decoder
    (html_entities.hxx) and the string helpers of libutil are not among the
    sources.  The decoder works in place and returns the new length: what it
    leaves is the decoded prefix of its buffer. *)
Class text_collaborators := {
  (** [html_tags_defs.by_name]: the id and the static flags of a tag name *)
  by_name : bytes → option (Z * Z);
  (** [decode_html_entitles_inplace (s, len)]: the decoded prefix *)
  decode_html_entitles_inplace : bytes → bytes;
  (** [rspamd_str_lc_utf8 (s, len)]: the lowercased prefix *)
  rspamd_str_lc_utf8 : bytes → bytes;
  (** [rspamd_strlcpy (dst, src, siz)]: the bytes copied before the
      terminator *)
  rspamd_strlcpy : bytes → Z → bytes;
}.

(** Reading [buf[i]]; outside the buffer the read is a fault. *)
Definition peek (buf : bytes) (i : Z) : option Z :=
  if i <? 0 then None else buf !! Z.to_nat i.

(** The bytes of [[from, to)]. *)
Definition slice (buf : bytes) (from to : Z) : bytes :=
  take (Z.to_nat (to - from)) (drop (Z.to_nat from) buf).

(** ** The attribute lexer (html.cxx, lines 231-634) *)

Module TagParser.

Inductive tag_parser_state :=
  | parse_start
  | parse_name
  | parse_attr_name
  | parse_equal
  | parse_start_dquote
  | parse_dqvalue
  | parse_end_dquote
  | parse_start_squote
  | parse_sqvalue
  | parse_end_squote
  | parse_value
  | spaces_after_name
  | spaces_before_eq
  | spaces_after_eq
  | spaces_after_param
  | ignore_bad_tag.

Definition int_of_state (s : tag_parser_state) : Z :=
  match s with
  | parse_start => 0 | parse_name => 1 | parse_attr_name => 2
  | parse_equal => 3 | parse_start_dquote => 4 | parse_dqvalue => 5
  | parse_end_dquote => 6 | parse_start_squote => 7 | parse_sqvalue => 8
  | parse_end_squote => 9 | parse_value => 10 | spaces_after_name => 11
  | spaces_before_eq => 12 | spaces_after_eq => 13
  | spaces_after_param => 14 | ignore_bad_tag => 15
  end.

(** [static_cast<enum tag_parser_state>]: an integer outside the
    enumeration selects no case of the switch. *)
Definition state_of_int (z : Z) : option tag_parser_state :=
  match z with
  | 0 => Some parse_start | 1 => Some parse_name | 2 => Some parse_attr_name
  | 3 => Some parse_equal | 4 => Some parse_start_dquote
  | 5 => Some parse_dqvalue | 6 => Some parse_end_dquote
  | 7 => Some parse_start_squote | 8 => Some parse_sqvalue
  | 9 => Some parse_end_squote | 10 => Some parse_value
  | 11 => Some spaces_after_name | 12 => Some spaces_before_eq
  | 13 => Some spaces_after_eq | 14 => Some spaces_after_param
  | 15 => Some ignore_bad_tag
  | _ => None
  end.

(** [struct tag_content_parser_state]. *)
Record tag_content_parser_state := {
  cur_state : Z;
  saved_p : option Z;
  cur_component : option html_component_type;
}.

Definition reset : tag_content_parser_state :=
  {| cur_state := 0; saved_p := None; cur_component := None |}.

Definition set_cur_state (v : Z) (e : tag_content_parser_state) :=
  {| cur_state := v; saved_p := saved_p e; cur_component := cur_component e |}.

Definition set_saved_p (v : option Z) (e : tag_content_parser_state) :=
  {| cur_state := cur_state e; saved_p := v;
     cur_component := cur_component e |}.

Definition set_cur_component (v : option html_component_type)
    (e : tag_content_parser_state) :=
  {| cur_state := cur_state e; saved_p := saved_p e; cur_component := v |}.

(** [html_components_map] (lines 50-65). *)
Definition html_components_map : list (string * html_component_type) :=
  [ ("name", RSPAMD_HTML_COMPONENT_NAME);
    ("href", RSPAMD_HTML_COMPONENT_HREF);
    ("src", RSPAMD_HTML_COMPONENT_HREF);
    ("action", RSPAMD_HTML_COMPONENT_HREF);
    ("color", RSPAMD_HTML_COMPONENT_COLOR);
    ("bgcolor", RSPAMD_HTML_COMPONENT_BGCOLOR);
    ("style", RSPAMD_HTML_COMPONENT_STYLE);
    ("class", RSPAMD_HTML_COMPONENT_CLASS);
    ("width", RSPAMD_HTML_COMPONENT_WIDTH);
    ("height", RSPAMD_HTML_COMPONENT_HEIGHT);
    ("size", RSPAMD_HTML_COMPONENT_SIZE);
    ("rel", RSPAMD_HTML_COMPONENT_REL);
    ("alt", RSPAMD_HTML_COMPONENT_ALT) ]%string.

Definition components_find (key : bytes) : option html_component_type :=
  (λ r, snd (snd r)) <$>
    list_find (λ e, bytes_of_string (fst e) = key) html_components_map.

(** While the lexer reads a tag name, [tag->name] is a view of the input
    that starts at [name_start]; the record keeps the start beside the
    tag. *)
Record lexed_tag := {
  lt_tag : html_tag;
  name_start : option Z;
}.

Section lexer.
Context `{html_tags_h} `{text_collaborators}.

Definition find_tag_component_name (buf : bytes) (begin end_ : Z)
    : option html_component_type :=
  if end_ <=? begin then None
  else components_find (decode_html_entitles_inplace (slice buf begin end_)).

(** The lambda [store_tag_component] (lines 301-320). *)
Definition store_tag_component (buf : bytes) (in_ : Z) (tag : html_tag)
    (parser_env : tag_content_parser_state)
    : html_tag * tag_content_parser_state :=
  let tag :=
    match saved_p parser_env, cur_component parser_env with
    | Some sp, Some k =>
        if sp <? in_ then
          (* We ignore repeated attributes *)
          match parameters tag !! k with
          | None =>
              set_parameters
                (<[k := decode_html_entitles_inplace (slice buf sp in_)]>
                   (parameters tag)) tag
          | Some _ => tag
          end
        else tag
    | _, _ => tag
    end in
  (tag, set_cur_component None (set_saved_p None parser_env)).

(** The backward scan of [parse_attr_name] for the end of the name. *)
Fixpoint attr_name_end_scan (fuel : nat) (buf : bytes) (sp e : Z) : option Z :=
  match fuel with
  | O => Some e
  | S f =>
      if sp <? e then
        b ← peek buf e;
        if negb (g_ascii_isalnum b) then attr_name_end_scan f buf sp (e - 1)
        else Some e
      else Some e
  end.

(** The body of [parse_tag_content]: the content root, the tag and the
    local copy of the parser state when the function returns.  [in_] is
    the position of the byte the call looks at. *)
Definition parse_tag_content_body (buf : bytes) (hc : html_content)
    (tag : lexed_tag) (in_ : Z) (parser_env : tag_content_parser_state)
    : option (html_content * lexed_tag * tag_content_parser_state) :=
  let with_tag f := {| lt_tag := f (lt_tag tag); name_start := name_start tag |} in
  let finish hc tag env st := Some (hc, tag, set_cur_state (int_of_state st) env) in
  let bad hc := or_hc_flags RSPAMD_HTML_FLAG_BAD_ELEMENTS hc in
  let save env := match saved_p env with
                  | Some _ => set_saved_p (Some in_) env
                  | None => env
                  end in
  match state_of_int (cur_state parser_env) with
  | None => Some (hc, tag, parser_env)
  | Some parse_start =>
      c ← peek buf in_;
      if negb (g_ascii_isalpha c) && negb (g_ascii_isspace c) then
        finish (bad hc)
          (with_tag (λ t, or_tag_flags FL_BROKEN (set_tag_id (-1) t)))
          parser_env ignore_bad_tag
      else if g_ascii_isalpha c then
        finish hc {| lt_tag := set_tag_name [] (lt_tag tag);
                     name_start := Some in_ |} parser_env parse_name
      else finish hc tag parser_env parse_start
  | Some parse_name =>
      c ← peek buf in_;
      if g_ascii_isspace c || (c =? c_gt) || (c =? c_slash) then
        start ← name_start tag;
        if in_ <? start then None (* g_assert (in >= start) *)
        else
          let t := lt_tag tag in
          let t := if c =? c_slash then or_tag_flags FL_CLOSED t else t in
          let name := slice buf start in_ in
          let size := Z.of_nat (length name) in
          let t := set_tag_name name t in
          if size =? 0 then
            finish (bad hc)
              {| lt_tag := or_tag_flags FL_BROKEN (set_tag_id (-1) t);
                 name_start := Some start |} parser_env ignore_bad_tag
          else
            (* Copy tag name to the temporary buffer for modifications *)
            let s := take (length name)
                       (rspamd_strlcpy name size ++ repeat 0 (length name)) in
            let lname := rspamd_str_lc_utf8 (decode_html_entitles_inplace s) in
            let t := set_tag_name lname t in
            match by_name lname with
            | None =>
                finish (or_hc_flags RSPAMD_HTML_FLAG_UNKNOWN_ELEMENTS hc)
                  {| lt_tag := set_tag_id (-1) t; name_start := None |}
                  parser_env spaces_after_name
            | Some (id, fl) =>
                finish hc
                  {| lt_tag := set_tag_flags fl (set_tag_id id t);
                     name_start := None |}
                  parser_env spaces_after_name
            end
      else finish hc tag parser_env parse_name
  | Some parse_attr_name =>
      match saved_p parser_env with
      | None => finish hc tag parser_env ignore_bad_tag
      | Some sp =>
          c ← peek buf in_;
          let scan :=
            e ← attr_name_end_scan (Z.to_nat (in_ - sp)) buf sp (in_ - 1);
            (* One character forward to obtain length *)
            Some (e + 1) in
          r ← (if c =? c_eq then Some (Some (tag, parse_equal, in_))
               else if c =? c_dquote then
                 (* No equal or something sane but we have quote character *)
                 e ← scan; Some (Some (tag, parse_start_dquote, e))
               else if g_ascii_isspace c then
                 Some (Some (tag, spaces_before_eq, in_))
               else if c =? c_slash then
                 Some (Some (with_tag (or_tag_flags FL_CLOSED), parse_attr_name, in_))
               else if negb (g_ascii_isgraph c) then
                 e ← scan; Some (Some (tag, parse_value, e))
               else Some None);
          match r with
          | None => Some (hc, tag, parser_env) (* return *)
          | Some (tag, state, attr_name_end) =>
              let comp := find_tag_component_name buf sp attr_name_end in
              let env := set_cur_component comp parser_env in
              let env :=
                match comp with
                | None => set_saved_p None env (* Ignore unknown params *)
                | Some _ =>
                    match state with
                    | parse_value => set_saved_p (Some (in_ + 1)) env
                    | _ => env
                    end
                end in
              finish hc tag env state
          end
      end
  | Some spaces_after_name =>
      c ← peek buf in_;
      if negb (g_ascii_isspace c) then
        let env := set_saved_p (Some in_) parser_env in
        if c =? c_slash then
          finish hc (with_tag (or_tag_flags FL_CLOSED)) env spaces_after_name
        else if negb (c =? c_gt) then finish hc tag env parse_attr_name
        else finish hc tag env spaces_after_name
      else finish hc tag parser_env spaces_after_name
  | Some spaces_before_eq =>
      c ← peek buf in_;
      if c =? c_eq then finish hc tag parser_env parse_equal
      else if negb (g_ascii_isspace c) then
        if c =? c_gt then
          (* Attribute name followed by end of tag *)
          finish hc tag parser_env spaces_before_eq
        else if (c =? c_dquote) || (c =? c_squote) then
          finish (bad hc) (with_tag (or_tag_flags FL_BROKEN)) parser_env
            ignore_bad_tag
        else finish hc tag (set_saved_p (Some in_) parser_env) parse_attr_name
      else finish hc tag parser_env spaces_before_eq
  | Some spaces_after_eq =>
      c ← peek buf in_;
      if c =? c_dquote then finish hc tag parser_env parse_start_dquote
      else if c =? c_squote then finish hc tag parser_env parse_start_squote
      else if negb (g_ascii_isspace c) then
        finish hc tag (save parser_env) parse_value
      else finish hc tag parser_env spaces_after_eq
  | Some parse_equal =>
      c ← peek buf in_;
      if g_ascii_isspace c then finish hc tag parser_env spaces_after_eq
      else if c =? c_dquote then finish hc tag parser_env parse_start_dquote
      else if c =? c_squote then finish hc tag parser_env parse_start_squote
      else finish hc tag (save parser_env) parse_value
  | Some parse_start_dquote =>
      c ← peek buf in_;
      if c =? c_dquote then
        (* We have an empty attribute value *)
        finish hc tag (set_saved_p None parser_env) spaces_after_param
      else finish hc tag (save parser_env) parse_dqvalue
  | Some parse_start_squote =>
      c ← peek buf in_;
      if c =? c_squote then
        finish hc tag (set_saved_p None parser_env) spaces_after_param
      else finish hc tag (save parser_env) parse_sqvalue
  | Some parse_dqvalue =>
      c ← peek buf in_;
      if c =? c_dquote then
        let '(t, env) := store_tag_component buf in_ (lt_tag tag) parser_env in
        finish hc (with_tag (λ _, t)) env parse_end_dquote
      else finish hc tag parser_env parse_dqvalue
  | Some parse_sqvalue =>
      c ← peek buf in_;
      if c =? c_squote then
        let '(t, env) := store_tag_component buf in_ (lt_tag tag) parser_env in
        finish hc (with_tag (λ _, t)) env parse_end_squote
      else finish hc tag parser_env parse_sqvalue
  | Some parse_value =>
      c ← peek buf in_;
      closed ← (if c =? c_slash then n ← peek buf (in_ + 1); Some (n =? c_gt)
                else Some false);
      if closed : bool then
        let '(t, env) :=
          store_tag_component buf in_ (or_tag_flags FL_CLOSED (lt_tag tag))
            parser_env in
        finish hc (with_tag (λ _, t)) env parse_value
      else if g_ascii_isspace c || (c =? c_gt) || (c =? c_dquote) then
        let '(t, env) := store_tag_component buf in_ (lt_tag tag) parser_env in
        finish hc (with_tag (λ _, t)) env spaces_after_param
      else finish hc tag parser_env parse_value
  | Some (parse_end_dquote as st) | Some (parse_end_squote as st) =>
      c ← peek buf in_;
      if g_ascii_isspace c then finish hc tag parser_env spaces_after_param
      else
        closed ← (if c =? c_slash then n ← peek buf (in_ + 1); Some (n =? c_gt)
                  else Some false);
        if closed : bool then
          finish hc (with_tag (or_tag_flags FL_CLOSED)) parser_env st
        else
          (* No space, proceed immediately to the attribute name *)
          finish hc tag (set_saved_p (Some in_) parser_env) parse_attr_name
  | Some spaces_after_param =>
      c ← peek buf in_;
      if negb (g_ascii_isspace c) then
        closed ← (if c =? c_slash then n ← peek buf (in_ + 1); Some (n =? c_gt)
                  else Some false);
        let tag := if closed : bool then with_tag (or_tag_flags FL_CLOSED)
                   else tag in
        finish hc tag (set_saved_p (Some in_) parser_env) parse_attr_name
      else finish hc tag parser_env spaces_after_param
  | Some ignore_bad_tag => finish hc tag parser_env ignore_bad_tag
  end.

(** [parse_tag_content] as its caller sees it.  The parser state is the
    parameter [struct tag_content_parser_state parser_env], passed by
    value: the function works on its own copy, and the struct of the caller
    is after the call what it was before.  The third component of the
    result is the struct of the caller. *)
Definition parse_tag_content (buf : bytes) (hc : html_content)
    (tag : lexed_tag) (in_ : Z) (parser_env : tag_content_parser_state)
    : option (html_content * lexed_tag * tag_content_parser_state) :=
  '(hc, tag, _) ← parse_tag_content_body buf hc tag in_ parser_env;
  Some (hc, tag, parser_env).

End lexer.
End TagParser.

(** ** Collaborators of the URL resolver *)

(** The URL parser and finder (url.h), the phishing check and the Unicode
    helpers are not among the sources. *)
Class url_collaborators := {
  (** [rspamd_substring_search (in, inlen, srch, srchlen)]: the offset of
      the first occurrence, or -1 *)
  rspamd_substring_search : bytes → bytes → Z;
  rspamd_substring_search_caseless : bytes → bytes → Z;
  (** the macro [rspamd_url_normalise_propagate_flags]: the normalised
      buffer and the flags it adds to [saved_flags] *)
  rspamd_url_normalise_propagate_flags : bytes → Z → bytes * Z;
  (** [rspamd_url_parse]: the return code and the filled structure *)
  rspamd_url_parse : bytes → Z * rspamd_url;
  (** the identity of URLs in the URL set *)
  rspamd_urls_cmp : rspamd_url → rspamd_url → bool;
  (** [rspamd_url_find_multiple] over a query string: the URLs it hands to
      its callback, in order *)
  rspamd_url_find_multiple : bytes → list rspamd_url;
  (** [rspamd_html_url_is_phished]: the URL as the check leaves it,
      [url_found] and the displayed URL *)
  rspamd_html_url_is_phished :
    rspamd_url → bytes → rspamd_url * bool * option rspamd_url;
  rspamd_string_unicode_trim_inplace : bytes → bytes;
  rspamd_normalise_unicode_inplace : bytes → bytes;
}.

Definition load_url (h : heap) (p : nat) : option rspamd_url := urls h !! p.

Definition update_url (f : rspamd_url → rspamd_url) (p : nat) (h : heap)
    : option heap :=
  u ← urls h !! p; Some (set_urls (<[p := f u]> (urls h)) h).

Definition alloc_url (u : rspamd_url) (h : heap) : heap * nat :=
  (set_urls (urls h ++ [u]) h, length (urls h)).

(** [memcmp (s, lit, n) == 0] for a literal of [n] bytes, where the caller
    has checked that [s] is long enough. *)
Definition starts_with (lit : string) (s : bytes) : bool :=
  bool_decide (take (length (bytes_of_string lit)) s = bytes_of_string lit).

(** [g_ascii_strncasecmp (s, lit, n) == 0]. *)
Definition starts_with_caseless (lit : string) (s : bytes) : bool :=
  bool_decide (g_ascii_tolower <$> take (length (bytes_of_string lit)) s
               = g_ascii_tolower <$> bytes_of_string lit).

Definition blen (s : bytes) : Z := Z.of_nat (length s).

(** ** The URL resolver (html.cxx, lines 647-818) *)

Section url_resolver.
Context `{html_tags_h} `{url_collaborators}.

(** Strip spaces from the url: the two loops of lines 666-687. *)
Fixpoint strip_head (s : bytes) : bytes :=
  match s with
  | b :: r => if g_ascii_isspace b then strip_head r else s
  | [] => []
  end.

Definition strip_tail (s : bytes) : bytes := reverse (strip_head (reverse s)).

Definition hexdigests : bytes := bytes_of_string "0123456789abcdef".

(** The outcome of the prefix scan of lines 701-741: [None] is the early
    [return NULL], otherwise [prefix] and [no_prefix]. *)
Definition url_prefix_scan (s : bytes) : option (bytes * bool) :=
  let http := bytes_of_string "http://" in
  if rspamd_substring_search s (bytes_of_string "://") =? -1 then
    if (8 <=? blen s)
       && (starts_with "mailto:" s || starts_with "tel:" s
           || starts_with "callto:" s)
    then Some (http, false) (* Exclusion, has valid but 'strange' prefix *)
    else
      match list_find (λ b, ¬ (128 ≤ b ∨ g_ascii_isalnum b = true)) s with
      | None => Some (http, false)
      | Some (i, b) =>
          if bool_decide (i = 0%nat) && (2 <? blen s) && (b =? c_slash)
             && bool_decide (s !! 1%nat = Some c_slash)
          then Some (bytes_of_string "http:", true)
          else if b =? c_at then
            (* Likely email prefix *)
            Some (bytes_of_string "mailto://", true)
          else if (b =? c_colon) && negb (bool_decide (i = 0%nat)) then
            (* Special case *)
            Some (http, false)
          else if bool_decide (i = 0%nat) then None (* No valid data *)
          else Some (http, true)
      end
  else Some (http, false).

(** The copy loop of lines 756-770: internal spaces are dropped, the other
    ASCII bytes that are not graphic are percent-encoded.  The second
    component is [has_bad_chars]. *)
Fixpoint url_encode (s : bytes) : bytes * bool :=
  match s with
  | [] => ([], false)
  | b :: r =>
      let '(d, bad) := url_encode r in
      if g_ascii_isspace b then (d, bad)
      else if (b <? 128) && negb (g_ascii_isgraph b) then
        (c_percent :: default 0 (hexdigests !! Z.to_nat (Z.land (Z.shiftr b 4) 15))
                   :: default 0 (hexdigests !! Z.to_nat (Z.land b 15)) :: d, true)
      else (b :: d, bad)
  end.

(** The filter of lines 781-817 on what the parser returned.  The result
    is the URL to return, if any. *)
Definition url_filter (rc : Z) (url : rspamd_url) (saved_flags : Z)
    (has_bad_chars no_prefix : bool) : option rspamd_url :=
  (* Filter some completely damaged urls *)
  if (rc =? URI_ERRNO_OK) && (0 <? url_hostlen url)
     && negb (has_flag (url_protocol url) PROTOCOL_UNKNOWN) then
    let url := or_url_flags saved_flags url in
    let url := if has_bad_chars then or_url_flags RSPAMD_URL_FLAG_OBSCURED url
               else url in
    if no_prefix then
      let url := or_url_flags RSPAMD_URL_FLAG_SCHEMALESS url in
      if (url_tldlen url =? 0) || has_flag (url_flags url) RSPAMD_URL_FLAG_NO_TLD
      then None (* Ignore urls with both no schema and no tld *)
      else Some url
    else Some url
  else None.

(** [rspamd_html_process_url (pool, start, len, comp)]: the heap, the URL
    returned ([None] is [NULL]) and the component as the call leaves it.
    The URL structure is allocated before it is parsed, so a rejected URL
    stays in the store, unreferenced. *)
Definition rspamd_html_process_url (h : heap) (start : bytes)
    (comp : option html_tag_component)
    : heap * option nat * option html_tag_component :=
  let s1 := strip_head start in
  let s := strip_tail s1 in
  let comp :=
    (λ c, {| comp_type := comp_type c; comp_val := s |}) <$> comp in
  match url_prefix_scan s with
  | None => (h, None, comp)
  | Some (prefix, no_prefix) =>
      let '(body, has_bad_chars) := url_encode s in
      let decoded := (if no_prefix then prefix else []) ++ body in
      let '(decoded, saved_flags) :=
        rspamd_url_normalise_propagate_flags decoded 0 in
      let '(rc, parsed_url) := rspamd_url_parse decoded in
      match url_filter rc parsed_url saved_flags has_bad_chars no_prefix with
      | Some url =>
          let '(h, p) := alloc_url url h in
          (h, Some p,
           (λ c, {| comp_type := comp_type c;
                    comp_val := take (Z.to_nat (url_urllen url)) (url_string url) |})
             <$> comp)
      | None =>
          let '(h, _) := alloc_url parsed_url h in
          (h, None, comp)
      end
  end.

(** [rspamd_snprintf] with the format of line 870, into a buffer of
    [len + 1] bytes: the base URL, an optional slash, the attribute. *)
Definition join_base (base : rspamd_url) (start : bytes) : bytes :=
  let need_slash := url_datalen base =? 0 in
  let len := blen start + url_urllen base + (if need_slash then 1 else 0) in
  take (Z.to_nat len)
    (take (Z.to_nat (url_urllen base)) (url_string base)
     ++ (if need_slash then [c_slash] else []) ++ start).

(** The same with the format of line 882: scheme, host and the attribute;
    the buffer leaves room for [len] bytes, [len] counting the three bytes
    of the scheme separator. *)
Definition join_host (base : rspamd_url) (start : bytes) : bytes :=
  let len := blen start + url_hostlen base + url_protocollen base + 3 in
  take (Z.to_nat len)
    (take (Z.to_nat (url_protocollen base)) (url_string base)
     ++ bytes_of_string "://"
     ++ take (Z.to_nat (url_hostlen base)) (url_host base)
     ++ [c_slash] ++ start).

(** [rspamd_html_process_url_tag] (lines 820-903): the heap and the URL. *)
Definition rspamd_html_process_url_tag (h : heap) (tag : nat)
    (hc : html_content) : option (heap * option nat) :=
  t ← load_tag h tag;
  match list_find (λ c, comp_type c = RSPAMD_HTML_COMPONENT_HREF
                        ∧ comp_val c ≠ []) (params t) with
  | None => Some (h, None)
  | Some (i, comp) =>
      let start := comp_val comp in
      (* Check base url *)
      r ← match base_url hc with
          | Some bp =>
              if 2 <? blen start then
                base ← load_url h bp;
                if rspamd_substring_search start (bytes_of_string "://") =? -1
                then
                  if (6 <=? blen start) && starts_with_caseless "data:" start
                  then Some None (* Image data url, never insert as url *)
                  else Some (Some (join_base base start))
                else if bool_decide (start !! 0%nat = Some c_slash)
                        && negb (bool_decide (start !! 1%nat = Some c_slash))
                then Some (Some (join_host base start))
                else Some (Some start)
              else Some (Some start)
          | None => Some (Some start)
          end;
      match r with
      | None => Some (h, None)
      | Some start =>
          let '(h, url, comp') := rspamd_html_process_url h start (Some comp) in
          h ← update_tag
                (λ t, set_params (<[i := default comp comp']> (params t)) t)
                tag h;
          h ← match url with
              | Some _ =>
                  update_tag (λ t, match extra t with
                                   | None => set_extra (ExtraUrl <$> url) t
                                   | Some _ => t
                                   end) tag h
              | None => Some h
              end;
          Some (h, url)
      end
  end.

(** Modelled from the spec: [rspamd_url_set_add_or_return] and
    [rspamd_url_set_add_or_increase] are declared in url.h, which is not
    among the sources.  Section 6 describes the URL set as a hash set keyed
    by normalized URL identity, where duplicates increment a count and
    OR-merge flags.  The set is the list of its members in insertion
    order; [None] is the [NULL] set. *)
Definition url_set_find (h : heap) (set : list nat) (u : rspamd_url)
    : option nat :=
  snd <$> list_find (λ q, from_option (λ v, rspamd_urls_cmp v u) false
                            (urls h !! q) = true) set.

Definition rspamd_url_set_add_or_return (h : heap) (set : option (list nat))
    (p : nat) : option (option (list nat) * option nat) :=
  match set with
  | None => Some (None, None)
  | Some s =>
      u ← load_url h p;
      match url_set_find h s u with
      | Some q => Some (Some s, Some q)
      | None => Some (Some (s ++ [p]), Some p)
      end
  end.

Definition rspamd_url_set_add_or_increase (h : heap)
    (set : option (list nat)) (p : nat)
    : option (heap * option (list nat) * bool) :=
  s ← set;
  u ← load_url h p;
  match url_set_find h s u with
  | Some q =>
      h ← update_url (λ e, set_url_count (url_count e + 1)
                             (or_url_flags (url_flags u) e)) q h;
      Some (h, Some s, false)
  | None => Some (h, Some (s ++ [p]), true)
  end.

(** [struct rspamd_html_url_query_cbd]. *)
Record rspamd_html_url_query_cbd := {
  cbd_url_set : option (list nat);
  cbd_url : nat;
  cbd_part_urls : option (list nat);
}.

(** [rspamd_html_url_query_callback] (lines 912-939). *)
Definition rspamd_html_url_query_callback (h : heap) (url : nat)
    (cbd : rspamd_html_url_query_cbd)
    : option (heap * rspamd_html_url_query_cbd * bool) :=
  u ← load_url h url;
  if (url_protocol u =? PROTOCOL_MAILTO) && (url_userlen u =? 0) then
    Some (h, cbd, false)
  else
    h ← update_url (or_url_flags RSPAMD_URL_FLAG_QUERY) url h;
    '(h, set, added) ← rspamd_url_set_add_or_increase h (cbd_url_set cbd) url;
    let part_urls :=
      match cbd_part_urls cbd with
      | Some l => if added : bool then Some (l ++ [url]) else Some l
      | None => None
      end in
    Some (h, {| cbd_url_set := set; cbd_url := cbd_url cbd;
                cbd_part_urls := part_urls |}, true).

(** The finder hands each URL it finds in the query to the callback, and
    stops at the first one the callback refuses. *)
Fixpoint query_urls_iter (found : list rspamd_url) (h : heap)
    (cbd : rspamd_html_url_query_cbd)
    : option (heap * rspamd_html_url_query_cbd) :=
  match found with
  | [] => Some (h, cbd)
  | u :: rest =>
      let '(h, p) := alloc_url u h in
      '(h, cbd, continue) ← rspamd_html_url_query_callback h p cbd;
      if continue : bool then query_urls_iter rest h cbd else Some (h, cbd)
  end.

(** [rspamd_process_html_url] (lines 941-962): the heap, the URL set and
    [part_urls]. *)
Definition rspamd_process_html_url (h : heap) (url : nat)
    (url_set : option (list nat)) (part_urls : option (list nat))
    : option (heap * option (list nat) * option (list nat)) :=
  u ← load_url h url;
  '(h, cbd) ←
    (let cbd := {| cbd_url_set := url_set; cbd_url := url;
                   cbd_part_urls := part_urls |} in
     if 0 <? url_querylen u then
       query_urls_iter
         (rspamd_url_find_multiple
            (take (Z.to_nat (url_querylen u)) (url_query u))) h cbd
     else Some (h, cbd));
  Some (h, cbd_url_set cbd, (λ l, l ++ [url]) <$> cbd_part_urls cbd).

End url_resolver.

(** ** Collaborators of the image and style handlers *)

(** The C doubles of the size and opacity computations.  The handlers use
    them through [strtod], products, quotients, comparisons and casts to
    unsigned integers; these are parameters, so nothing below depends on a
    rounding mode. *)
Class double_ops := {
  gdouble : Type;
  d_of_Z : Z → gdouble;
  (** the literals 2.54 and 9.6 *)
  d_2_54 : gdouble;
  d_9_6 : gdouble;
  (** [strtod (buf, &err)]: the value and the bytes from [err] on *)
  d_strtod : bytes → gdouble * bytes;
  d_mul : gdouble → gdouble → gdouble;
  d_div : gdouble → gdouble → gdouble;
  d_ltb : gdouble → gdouble → bool;
  d_leb : gdouble → gdouble → bool;
  (** the casts [(guint)] and [(guint8)] *)
  d_to_guint : gdouble → Z;
  d_to_guint8 : gdouble → Z;
}.

(** libc, libutil, the CSS library, the base64 decoder and the image
    detector. *)
Class style_collaborators := {
  (** [strtoul (buf, NULL, 16)] *)
  strtoul_hex : bytes → Z;
  (** [rspamd_strtoul (s, len, &value)]: the result and [value] *)
  rspamd_strtoul : bytes → bool * Z;
  (** [css_value::maybe_color_from_string], then [to_number] *)
  maybe_color_from_string : bytes → option Z;
  (** [rspamd_css_parse_style (pool, begin, len, existing, &err)] *)
  rspamd_css_parse_style : bytes → option bytes → option bytes;
  rspamd_cryptobox_base64_decode : bytes → bytes;
  rspamd_maybe_process_image : bytes → option rspamd_image;
}.

Definition load_block (h : heap) (p : nat) : option html_block := blocks h !! p.

Definition update_block (f : html_block → html_block) (p : nat) (h : heap)
    : option heap :=
  b ← blocks h !! p; Some (set_blocks (<[p := f b]> (blocks h)) h).

Definition alloc_block (b : html_block) (h : heap) : heap * nat :=
  (set_blocks (blocks h ++ [b]) h, length (blocks h)).

Definition alloc_image (i : html_image) (h : heap) : heap * nat :=
  (set_images (images h ++ [i]) h, length (images h)).

(** [(guint) -1], the mark of a font size that is not set. *)
Definition font_size_unset : Z := guint_max - 1.

(** [rspamd_lc_cmp (s, lit, n) == 0] and [rspamd_str_lc]: ASCII
    lowercasing. *)
Definition rspamd_lc_cmp_eq (lit : string) (s : bytes) : bool :=
  starts_with_caseless lit s.

Definition rspamd_str_lc (s : bytes) : bytes := g_ascii_tolower <$> s.

(** The last byte of a buffer. *)
Definition last_byte (d : bytes) : option Z := last d.

(** ** Colors, sizes and inline styles (html.cxx, lines 1208-1680) *)

Section style_parser.
Context `{html_tags_h} `{text_collaborators} `{url_collaborators}
        `{double_ops} `{style_collaborators}.

Inductive color_state := obrace | num1 | num2 | num3 | num4 | cs_skip_spaces.

(** What the [rgb(...)] scanner has when it reaches the label [stop]. *)
Record rgb_scan := {
  rgb_r : Z; rgb_g : Z; rgb_b : Z; rgb_opacity : Z; rgb_valid : bool;
}.

(** The loop of lines 1246-1356.  A byte is looked at once by
    [skip_spaces] and once by the state that follows, so twice the length
    bounds the loop. *)
Fixpoint rgb_loop (fuel : nat) (line : bytes) (p c : Z)
    (state next_state : color_state) (acc : rgb_scan) : rgb_scan :=
  match fuel with
  | O => acc
  | S f =>
      match peek line p with
      | None => acc (* p == end *)
      | Some b =>
          (* [rspamd_strtoul] writes its target also when it fails *)
          let number (set : Z → bool → rgb_scan) (k : rgb_scan → rgb_scan) :=
            let '(ok, v) := rspamd_strtoul (slice line c p) in
            if ok : bool then k (set v true) else set v false in
          let with_r v (_ : bool) :=
            {| rgb_r := v; rgb_g := rgb_g acc; rgb_b := rgb_b acc;
               rgb_opacity := rgb_opacity acc; rgb_valid := rgb_valid acc |} in
          let with_g v (_ : bool) :=
            {| rgb_r := rgb_r acc; rgb_g := v; rgb_b := rgb_b acc;
               rgb_opacity := rgb_opacity acc; rgb_valid := rgb_valid acc |} in
          let with_b v (ok : bool) :=
            {| rgb_r := rgb_r acc; rgb_g := rgb_g acc; rgb_b := v;
               rgb_opacity := rgb_opacity acc;
               rgb_valid := ok || rgb_valid acc |} in
          let with_o v (ok : bool) :=
            {| rgb_r := rgb_r acc; rgb_g := rgb_g acc; rgb_b := rgb_b acc;
               rgb_opacity := v; rgb_valid := ok || rgb_valid acc |} in
          match state with
          | obrace =>
              if b =? c_lparen then
                rgb_loop f line (p + 1) c cs_skip_spaces num1 acc
              else if g_ascii_isspace b then
                rgb_loop f line p c cs_skip_spaces obrace acc
              else acc
          | num1 =>
              if b =? c_comma then
                number with_r (rgb_loop f line (p + 1) c cs_skip_spaces num2)
              else if negb (g_ascii_isdigit b) then acc
              else rgb_loop f line (p + 1) c state next_state acc
          | num2 =>
              if b =? c_comma then
                number with_g (rgb_loop f line (p + 1) c cs_skip_spaces num3)
              else if negb (g_ascii_isdigit b) then acc
              else rgb_loop f line (p + 1) c state next_state acc
          | num3 =>
              if b =? c_comma then
                number with_b (rgb_loop f line (p + 1) c cs_skip_spaces num4)
              else if b =? c_rparen then number with_b (λ a, a)
              else if negb (g_ascii_isdigit b) then acc
              else rgb_loop f line (p + 1) c state next_state acc
          | num4 =>
              if (b =? c_comma) || (b =? c_rparen) then number with_o (λ a, a)
              else if negb (g_ascii_isdigit b) then acc
              else rgb_loop f line (p + 1) c state next_state acc
          | cs_skip_spaces =>
              if negb (g_ascii_isspace b) then
                rgb_loop f line p p next_state next_state acc
              else rgb_loop f line (p + 1) c state next_state acc
          end
      end
  end.

(** [rspamd_html_process_color (line, len, cl)]: the color written to
    [cl].  The function reads [line[0]] whatever [len] is; on an empty
    slice that is a read outside the slice, a fault here. *)
Definition rspamd_html_process_color (line : bytes) : option html_color :=
  b0 ← line !! 0%nat;
  if b0 =? c_hash then
    (* HEX color *)
    let rest := drop 1 line in
    let hexbuf := rspamd_strlcpy rest (Z.min 7 (blen rest + 1)) in
    Some (color_set_valid true
            (color_set_alpha 255
               (color_set_val (strtoul_hex hexbuf mod guint_max) color_zero)))
  else if (4 <? blen line) && rspamd_lc_cmp_eq "rgb" line then
    (* We have something like rgba(x,x,x,x) or rgb(x,x,x) *)
    let p := if bool_decide (line !! 3%nat = Some 97) then 4 else 3 in
    let r := rgb_loop (2 * length line + 1) line p p cs_skip_spaces obrace
               {| rgb_r := 0; rgb_g := 0; rgb_b := 0; rgb_opacity := 255;
                  rgb_valid := false |} in
    if rgb_valid r then
      Some {| col_r := rgb_r r mod 256; col_g := rgb_g r mod 256;
              col_b := rgb_b r mod 256; col_alpha := rgb_opacity r mod 256;
              col_valid := true |}
    else Some color_zero
  else
    match maybe_color_from_string line with
    | Some n =>
        (* Non transparent *)
        Some (color_set_alpha 255 (color_set_val (n mod guint_max) color_zero))
    | None => Some color_zero
    end.

(** [rspamd_html_process_css_size (suffix, len, tgt)]: the result and
    [*tgt]. *)
Definition rspamd_html_process_css_size (suffix : bytes) (sz : gdouble)
    : bool * gdouble :=
  let len := blen suffix in
  let round x := d_of_Z (d_to_guint x) in
  let times k := round (d_mul sz (d_of_Z k)) in
  if 2 <=? len then
    if starts_with "px" suffix then (true, round sz)
    else if starts_with "em" suffix then (true, times 16)
    else if (3 <=? len) && starts_with "rem" suffix then (true, times 16)
    else if starts_with "ex" suffix then (true, times 8)
    else if starts_with "vw" suffix then (true, times 8)
    else if starts_with "vh" suffix then (true, times 6)
    else if (4 <=? len) && starts_with "vmax" suffix then (true, times 8)
    else if (4 <=? len) && starts_with "vmin" suffix then (true, times 6)
    else if starts_with "pt" suffix then
      (true, round (d_div (d_mul sz (d_of_Z 96)) (d_of_Z 72)))
    else if starts_with "cm" suffix then
      (true, round (d_div (d_mul sz (d_of_Z 96)) d_2_54))
    else if starts_with "mm" suffix then
      (true, round (d_div (d_mul sz d_9_6) d_2_54))
    else if starts_with "in" suffix then (true, times 96)
    else if starts_with "pc" suffix then
      (true, round (d_div (d_mul sz (d_of_Z 96)) (d_of_Z 6)))
    else (false, sz)
  else if bool_decide (suffix !! 0%nat = Some c_percent) then
    (* Percentages from 16 px *)
    (true, round (d_mul (d_div sz (d_of_Z 100)) (d_of_Z 16)))
  else (false, sz).

(** [rspamd_html_process_font_size (line, len, fs, is_css)]: [*fs].  The
    function reads the first byte after the leading spaces whatever [len]
    is; on a slice of spaces only that is a read outside the slice, a
    fault here. *)
Definition rspamd_html_process_font_size (line : bytes) (is_css : bool)
    : option Z :=
  let rest := strip_head line in
  b0 ← rest !! 0%nat;
  let '(sz, err, failsafe) :=
    if g_ascii_isdigit b0 then
      let numbuf := rspamd_strlcpy rest (Z.min 64 (blen rest + 1)) in
      let '(sz, err) := d_strtod numbuf in
      (* Now check leftover *)
      (if d_ltb sz (d_of_Z 0) then d_of_Z 0 else sz, Some err, false)
    else
      (* Ignore the rest *)
      (d_of_Z (if is_css then 16 else 1), None, true) in
  let '(sz, failsafe) :=
    match err with
    | Some ((_ :: _) as e) =>
        let e := rspamd_str_lc (strip_head e) in
        let '(ok, sz') := rspamd_html_process_css_size e sz in
        if ok : bool then (sz', failsafe) else (sz, true)
    | _ => (sz, true) (* Failsafe naked number *)
    end in
  let sz :=
    if failsafe : bool then
      if is_css then
        if d_ltb sz (d_of_Z 1) then d_of_Z 0 else d_of_Z 16 (* Ignore *)
      else
        (* In non-css mode we have to check legacy size *)
        if d_leb (d_of_Z 1) sz then d_mul sz (d_of_Z 16) else d_of_Z 16
    else sz in
  let sz := if d_ltb (d_of_Z 32) sz then d_of_Z 32 else sz in
  Some (d_to_guint sz).

Inductive style_state := read_key | read_colon | read_value | ss_skip_spaces.

(** [klen == n && g_ascii_strncasecmp (key, lit, n) == 0]. *)
Definition style_key_is (key : bytes) (lit : string) : bool :=
  (blen key =? blen (bytes_of_string lit)) && starts_with_caseless lit key.

(** One [key : value] pair of an inline style (lines 1603-1657). *)
Definition style_pair (key val : bytes) (bl : html_block)
    : option html_block :=
  if style_key_is key "color" || style_key_is key "font-color" then
    cl ← rspamd_html_process_color val; Some (set_font_color cl bl)
  else if style_key_is key "background-color" || style_key_is key "background" then
    cl ← rspamd_html_process_color val; Some (set_background_color cl bl)
  else if style_key_is key "display" then
    if (4 <=? blen val)
       && negb (rspamd_substring_search_caseless val (bytes_of_string "none")
                =? -1)
    then Some (set_visible false bl) else Some bl
  else if style_key_is key "font-size" then
    fs ← rspamd_html_process_font_size val true; Some (set_font_size fs bl)
  else if style_key_is key "opacity" then
    let numbuf := rspamd_strlcpy val (Z.min 64 (blen val + 1)) in
    let opacity := fst (d_strtod numbuf) in
    let opacity :=
      if d_ltb (d_of_Z 1) opacity then d_of_Z 1
      else if d_ltb opacity (d_of_Z 0) then d_of_Z 0 else opacity in
    Some (set_font_color
            (color_set_alpha (d_to_guint8 (d_mul opacity (d_of_Z 255)))
               (font_color bl)) bl)
  else if style_key_is key "visibility" then
    if (6 <=? blen val)
       && negb (rspamd_substring_search_caseless val (bytes_of_string "hidden")
                =? -1)
    then Some (set_visible false bl) else Some bl
  else Some bl.

(** The loop of [rspamd_html_process_style], [while (p <= end)].  A
    position is looked at once by [skip_spaces] and once by the state that
    follows. *)
Fixpoint style_loop (fuel : nat) (style : bytes) (p c : Z)
    (state next_state : style_state) (key : option Z) (klen : Z)
    (bl : html_block) : option html_block :=
  match fuel with
  | O => Some bl
  | S f =>
      let end_ := blen style in
      if end_ <? p then Some bl
      else
        let b := peek style p in
        let at_end := p =? end_ in
        let is_char x := bool_decide (b = Some x) in
        match state with
        | read_key =>
            if at_end || is_char c_colon then
              style_loop f style (p + 1) c ss_skip_spaces read_value
                (Some c) (p - c) bl
            else if from_option g_ascii_isspace false b then
              style_loop f style (p + 1) c ss_skip_spaces read_colon
                (Some c) (p - c) bl
            else style_loop f style (p + 1) c state next_state key klen bl
        | read_colon =>
            if at_end || is_char c_colon then
              style_loop f style (p + 1) c ss_skip_spaces read_value key klen bl
            else style_loop f style (p + 1) c state next_state key klen bl
        | read_value =>
            if at_end || is_char c_semicolon then
              bl ← match key with
                   | Some k =>
                       if negb (klen =? 0) && (0 <? p - c) then
                         style_pair (slice style k (k + klen))
                           (slice style c p) bl
                       else Some bl
                   | None => Some bl
                   end;
              style_loop f style (p + 1) c ss_skip_spaces read_key None 0 bl
            else style_loop f style (p + 1) c state next_state key klen bl
        | ss_skip_spaces =>
            if (p <? end_) && negb (from_option g_ascii_isspace true b) then
              style_loop f style p p next_state next_state key klen bl
            else style_loop f style (p + 1) c state next_state key klen bl
        end
  end.

Definition rspamd_html_process_style (bl : html_block) (style : bytes)
    : option html_block :=
  style_loop (2 * length style + 3) style 0 0 ss_skip_spaces read_key None 0 bl.

(** ** Images, links and blocks (html.cxx, lines 964-1206, 1682-1765) *)

(** [rspamd_html_process_data_image]: the embedded image, if the payload
    after the first semicolon is base64 and the detector knows it. *)
Definition rspamd_html_process_data_image (src : bytes) : option rspamd_image :=
  match list_find (λ b, b = c_semicolon) src with
  | None => None
  | Some (i, _) =>
      let rest := drop i src in
      if 8 <? blen rest then
        if starts_with "base64," (drop 1 rest) then
          rspamd_maybe_process_image
            (rspamd_cryptobox_base64_decode (drop 8 rest))
        else None
      else None (* Nothing useful *)
  end.

(** The scan of lines 1107-1119 and 1131-1143 after the word [height] or
    [width] of a style: the first run of digits, unless something else
    than spaces, [=] and [:] comes first. *)
Fixpoint style_dimension (rest : bytes) : option Z :=
  match rest with
  | [] => None
  | b :: r =>
      if g_ascii_isdigit b then Some (snd (rspamd_strtoul rest) mod guint_max)
      else if negb (g_ascii_isspace b) && negb (b =? c_eq) && negb (b =? c_colon)
      then None (* Fallback *)
      else style_dimension r
  end.

Definition style_dimension_of (word : string) (style : bytes) : option Z :=
  let pos := rspamd_substring_search_caseless style (bytes_of_string word) in
  if pos =? -1 then None
  else style_dimension
         (drop (Z.to_nat pos + length (bytes_of_string word)) style).

(** The locals of [rspamd_html_process_img_tag] and what it updates while
    it walks the attributes. *)
Record img_walk := {
  iw_heap : heap;
  iw_hc : html_content;
  iw_img : html_image;
  seen_width : bool;
  seen_height : bool;
  iw_url_set : option (list nat);
  iw_part_urls : option (list nat);
  iw_dest : option bytes;
}.

Definition img_set (f : html_image → html_image) (w : img_walk) : img_walk :=
  {| iw_heap := iw_heap w; iw_hc := iw_hc w; iw_img := f (iw_img w);
     seen_width := seen_width w; seen_height := seen_height w;
     iw_url_set := iw_url_set w; iw_part_urls := iw_part_urls w;
     iw_dest := iw_dest w |}.

Definition img_or_flags (m : Z) (i : html_image) : html_image :=
  {| img_tag := img_tag i; img_src := img_src i; img_url := img_url i;
     img_width := img_width i; img_height := img_height i;
     img_flags := Z.lor (img_flags i) m; embedded_image := embedded_image i |}.

Definition img_with_src (v : option bytes) (i : html_image) : html_image :=
  {| img_tag := img_tag i; img_src := v; img_url := img_url i;
     img_width := img_width i; img_height := img_height i;
     img_flags := img_flags i; embedded_image := embedded_image i |}.

Definition img_with_url (v : option nat) (i : html_image) : html_image :=
  {| img_tag := img_tag i; img_src := img_src i; img_url := v;
     img_width := img_width i; img_height := img_height i;
     img_flags := img_flags i; embedded_image := embedded_image i |}.

Definition img_with_width (v : Z) (i : html_image) : html_image :=
  {| img_tag := img_tag i; img_src := img_src i; img_url := img_url i;
     img_width := v; img_height := img_height i;
     img_flags := img_flags i; embedded_image := embedded_image i |}.

Definition img_with_height (v : Z) (i : html_image) : html_image :=
  {| img_tag := img_tag i; img_src := img_src i; img_url := img_url i;
     img_width := img_width i; img_height := v;
     img_flags := img_flags i; embedded_image := embedded_image i |}.

Definition img_with_embedded (v : option rspamd_image) (i : html_image)
    : html_image :=
  {| img_tag := img_tag i; img_src := img_src i; img_url := img_url i;
     img_width := img_width i; img_height := img_height i;
     img_flags := img_flags i; embedded_image := v |}.

(** The external image of lines 1057-1083: resolve the source, flag the
    URL as an image and enter it into the URL set. *)
Definition img_external (src : bytes) (w : img_walk) : option img_walk :=
  let w := img_set (img_or_flags RSPAMD_HTML_FLAG_IMAGE_EXTERNAL) w in
  let '(h, url, _) := rspamd_html_process_url (iw_heap w) src None in
  match url with
  | None =>
      Some {| iw_heap := h; iw_hc := iw_hc w; iw_img := iw_img w;
              seen_width := seen_width w; seen_height := seen_height w;
              iw_url_set := iw_url_set w; iw_part_urls := iw_part_urls w;
              iw_dest := iw_dest w |}
  | Some p =>
      h ← update_url (or_url_flags RSPAMD_URL_FLAG_IMAGE) p h;
      '(set, existing) ← rspamd_url_set_add_or_return h (iw_url_set w) p;
      e ← existing;
      '(h, part_urls) ←
        (if bool_decide (e ≠ p) then
           (* Some other URL that could be found, e.g. from another part *)
           u ← load_url h p;
           h ← update_url (λ x, set_url_count (url_count x + 1)
                                  (or_url_flags (url_flags u) x)) e h;
           Some (h, iw_part_urls w)
         else
           (* New url *)
           Some (h, (λ l, l ++ [p]) <$> iw_part_urls w));
      Some {| iw_heap := h; iw_hc := iw_hc w;
              iw_img := img_with_url (Some p) (iw_img w);
              seen_width := seen_width w; seen_height := seen_height w;
              iw_url_set := set; iw_part_urls := part_urls;
              iw_dest := iw_dest w |}
  end.

(** One attribute of the tag in the loop of lines 1034-1162. *)
Definition img_component (comp : html_tag_component) (w : img_walk)
    : option img_walk :=
  let v := comp_val comp in
  match comp_type comp with
  | RSPAMD_HTML_COMPONENT_HREF =>
      if 0 <? blen v then
        let w := img_set (img_with_src (Some v)) w in
        if (4 <? blen v) && starts_with "cid:" v then
          (* We have an embedded image *)
          Some (img_set (img_or_flags RSPAMD_HTML_FLAG_IMAGE_EMBEDDED) w)
        else if (5 <? blen v) && starts_with "data:" v then
          (* We have an embedded image in HTML tag *)
          let w :=
            img_set (λ i,
              let i := img_or_flags (Z.lor RSPAMD_HTML_FLAG_IMAGE_EMBEDDED
                                           RSPAMD_HTML_FLAG_IMAGE_DATA) i in
              match rspamd_html_process_data_image v with
              | Some e => img_with_embedded (Some e) i
              | None => i
              end) w in
          Some {| iw_heap := iw_heap w;
                  iw_hc := or_hc_flags RSPAMD_HTML_FLAG_HAS_DATA_URLS (iw_hc w);
                  iw_img := iw_img w;
                  seen_width := seen_width w; seen_height := seen_height w;
                  iw_url_set := iw_url_set w; iw_part_urls := iw_part_urls w;
                  iw_dest := iw_dest w |}
        else img_external v w
      else Some w
  | RSPAMD_HTML_COMPONENT_HEIGHT =>
      let w := img_set (img_with_height (snd (rspamd_strtoul v) mod guint_max)) w in
      Some {| iw_heap := iw_heap w; iw_hc := iw_hc w; iw_img := iw_img w;
              seen_width := seen_width w; seen_height := true;
              iw_url_set := iw_url_set w; iw_part_urls := iw_part_urls w;
              iw_dest := iw_dest w |}
  | RSPAMD_HTML_COMPONENT_WIDTH =>
      let w := img_set (img_with_width (snd (rspamd_strtoul v) mod guint_max)) w in
      Some {| iw_heap := iw_heap w; iw_hc := iw_hc w; iw_img := iw_img w;
              seen_width := true; seen_height := seen_height w;
              iw_url_set := iw_url_set w; iw_part_urls := iw_part_urls w;
              iw_dest := iw_dest w |}
  | RSPAMD_HTML_COMPONENT_STYLE =>
      (* Try to search for height= or width= in style tag *)
      let w :=
        if negb (seen_height w) && (0 <? blen v) then
          match style_dimension_of "height" v with
          | Some n => img_set (img_with_height n) w
          | None => w
          end
        else w in
      let w :=
        if negb (seen_width w) && (0 <? blen v) then
          match style_dimension_of "width" v with
          | Some n => img_set (img_with_width n) w
          | None => w
          end
        else w in
      Some w
  | RSPAMD_HTML_COMPONENT_ALT =>
      match iw_dest w with
      | Some dest =>
          if 0 <? blen v then
            let dest :=
              if (0 <? blen dest)
                 && negb (from_option g_ascii_isspace true (last_byte dest))
              then dest ++ [c_space] (* Add a space *) else dest in
            let dest := dest ++ v in
            let dest :=
              if negb (from_option g_ascii_isspace true (last_byte dest))
              then dest ++ [c_space] else dest in
            Some {| iw_heap := iw_heap w; iw_hc := iw_hc w; iw_img := iw_img w;
                    seen_width := seen_width w; seen_height := seen_height w;
                    iw_url_set := iw_url_set w; iw_part_urls := iw_part_urls w;
                    iw_dest := Some dest |}
          else Some w
      | None => Some w
      end
  | _ => Some w
  end.

Fixpoint img_components (comps : list html_tag_component) (w : img_walk)
    : option img_walk :=
  match comps with
  | [] => Some w
  | comp :: rest => w ← img_component comp w; img_components rest w
  end.

(** [rspamd_html_process_img_tag]: the heap, the content root, the URL
    set, [part_urls] and the visible text. *)
Definition rspamd_html_process_img_tag (h : heap) (tag : nat)
    (hc : html_content) (url_set part_urls : option (list nat))
    (dest : option bytes)
    : option (heap * html_content * option (list nat) * option (list nat)
              * option bytes) :=
  t ← load_tag h tag;
  let img := {| img_tag := tag; img_src := None; img_url := None;
                img_width := 0; img_height := 0; img_flags := 0;
                embedded_image := None |} in
  h ← update_tag (or_tag_flags FL_IMAGE) tag h;
  w ← img_components (params t)
        {| iw_heap := h; iw_hc := hc; iw_img := img; seen_width := false;
           seen_height := false; iw_url_set := url_set;
           iw_part_urls := part_urls; iw_dest := dest |};
  let img := iw_img w in
  let img :=
    match embedded_image img with
    | Some e =>
        let img := if seen_height w then img
                   else img_with_height (image_height e) img in
        if seen_width w then img else img_with_width (image_width e) img
    | None => img
    end in
  let '(h, ip) := alloc_image img (iw_heap w) in
  let hc := set_hc_images (Some (default [] (hc_images (iw_hc w)) ++ [ip]))
              (iw_hc w) in
  h ← update_tag (set_extra (Some (ExtraImage ip))) tag h;
  Some (h, hc, iw_url_set w, iw_part_urls w, iw_dest w).

(** [rspamd_html_process_link_tag]: a [rel] attribute that reads [icon]
    hands the tag to the image handler. *)
Fixpoint link_components (comps : list html_tag_component) (h : heap)
    (tag : nat) (hc : html_content) (url_set part_urls : option (list nat))
    : option (heap * html_content * option (list nat) * option (list nat)) :=
  match comps with
  | [] => Some (h, hc, url_set, part_urls)
  | comp :: rest =>
      '(h, hc, url_set, part_urls) ←
        (if bool_decide (comp_type comp = RSPAMD_HTML_COMPONENT_REL)
            && (blen (comp_val comp) =? 4)
            && rspamd_lc_cmp_eq "icon" (comp_val comp)
         then
           '(h, hc, url_set, part_urls, _) ←
             rspamd_html_process_img_tag h tag hc url_set part_urls None;
           Some (h, hc, url_set, part_urls)
         else Some (h, hc, url_set, part_urls));
      link_components rest h tag hc url_set part_urls
  end.

Definition rspamd_html_process_link_tag (h : heap) (tag : nat)
    (hc : html_content) (url_set part_urls : option (list nat))
    : option (heap * html_content * option (list nat) * option (list nat)) :=
  t ← load_tag h tag;
  link_components (params t) h tag hc url_set part_urls.

(** One attribute of a block tag (lines 1700-1751): the block and the
    content root. *)
Definition block_component (tag_is_body : bool) (comp : html_tag_component)
    (st : html_block * html_content) : option (html_block * html_content) :=
  let '(bl, hc) := st in
  let v := comp_val comp in
  if 0 <? blen v then
    match comp_type comp with
    | RSPAMD_HTML_COMPONENT_COLOR =>
        cl ← rspamd_html_process_color v; Some (set_font_color cl bl, hc)
    | RSPAMD_HTML_COMPONENT_BGCOLOR =>
        cl ← rspamd_html_process_color v;
        (* Set global background color *)
        Some (set_background_color cl bl,
              if tag_is_body then set_bgcolor cl hc else hc)
    | RSPAMD_HTML_COMPONENT_STYLE =>
        bl ← rspamd_html_process_style (set_bl_style v bl) v; Some (bl, hc)
    | RSPAMD_HTML_COMPONENT_CLASS => Some (set_html_class (Some v) bl, hc)
    | RSPAMD_HTML_COMPONENT_SIZE =>
        (* Not supported by html5 *)
        Some (set_font_size 16 bl, hc)
    | _ => Some st (* NYI *)
    end
  else Some st.

Fixpoint block_components (tag_is_body : bool)
    (comps : list html_tag_component) (st : html_block * html_content)
    : option (html_block * html_content) :=
  match comps with
  | [] => Some st
  | comp :: rest =>
      st ← block_component tag_is_body comp st;
      block_components tag_is_body rest st
  end.

(** [rspamd_html_process_block_tag] (lines 1682-1765). *)
Definition rspamd_html_process_block_tag (h : heap) (tag : nat)
    (hc : html_content) : option (heap * html_content) :=
  t ← load_tag h tag;
  let bl := {| bl_tag := tag; font_color := color_set_alpha 255 color_zero;
               background_color := color_zero; bl_style := [];
               font_size := font_size_unset; visible := true;
               html_class := None |} in
  '(bl, hc) ← block_components (tag_id t =? Tag_BODY) (params t) (bl, hc);
  let '(h, bp) := alloc_block bl h in
  let hc := set_hc_blocks (Some (default [] (hc_blocks hc) ++ [bp])) hc in
  h ← update_tag (set_extra (Some (ExtraBlock bp))) tag h;
  Some (h, hc).

(** [rspamd_html_propagate_style] (lines 1861-1936) on the block value:
    the block and [push_block]. *)
Definition propagate_style_block (hc : html_content)
    (bl_parent : option html_block) (bl : html_block) : html_block * bool :=
  let '(bl, push_block) :=
    match bl_parent with
    | Some bp =>
        let '(bl, push1) :=
          if negb (col_valid (background_color bl)) then
            (* Try to propagate background color from parent nodes *)
            (if col_valid (background_color bp)
             then set_background_color (background_color bp) bl else bl, false)
          else (bl, true) in
        let '(bl, push2) :=
          if negb (col_valid (font_color bl)) then
            (if col_valid (font_color bp)
             then set_font_color (font_color bp) bl else bl, false)
          else (bl, true) in
        (* Propagate font size *)
        let '(bl, push3) :=
          if font_size bl =? font_size_unset then
            (if negb (font_size bp =? font_size_unset)
             then set_font_size (font_size bp) bl else bl, false)
          else (bl, true) in
        (bl, push1 || push2 || push3)
    | None => (bl, false)
    end in
  (* Set bgcolor to the html bgcolor and font color to black as a last
     resort *)
  let '(bl, push4) :=
    if negb (col_valid (font_color bl)) then
      (* Don't touch opacity as it can be set separately *)
      (set_font_color {| col_r := 0; col_g := 0; col_b := 0;
                         col_alpha := col_alpha (font_color bl);
                         col_valid := true |} bl, false)
    else (bl, true) in
  let '(bl, push5) :=
    if negb (col_valid (background_color bl))
    then (set_background_color (bgcolor hc) bl, false) else (bl, true) in
  let '(bl, push6) :=
    if font_size bl =? font_size_unset
    then (set_font_size 16 bl (* Default for browsers *), false)
    else (bl, true) in
  (bl, push_block || push4 || push5 || push6).

(** [rspamd_html_propagate_style]: the heap and the queue of open
    blocks. *)
Definition rspamd_html_propagate_style (h : heap) (hc : html_content)
    (tag : nat) (bl : nat) (blocks : list nat) : option (heap * list nat) :=
  bl_parent ← match last blocks with
              | Some q => b ← load_block h q; Some (Some b)
              | None => Some None
              end;
  b ← load_block h bl;
  let '(b, push_block) := propagate_style_block hc bl_parent b in
  h ← update_block (λ _, b) bl h;
  t ← load_tag h tag;
  if push_block && negb (has_flag (tag_flags t) FL_CLOSED)
  then Some (h, blocks ++ [bl]) else Some (h, blocks).

(** ** Displayed URLs and content lengths (html.cxx, lines 1767-1859) *)

(** [struct rspamd_process_exception] with the type [RSPAMD_EXCEPTION_URL]. *)
Record rspamd_process_exception := {
  ex_pos : Z;
  ex_len : Z;
  ex_ptr : nat;
}.

(** [rspamd_html_check_displayed_url]: the heap, the exceptions and the
    URL set. *)
Definition rspamd_html_check_displayed_url (h : heap)
    (exceptions : option (list rspamd_process_exception))
    (url_set : option (list nat)) (dest : bytes) (href_offset : Z)
    (url : nat)
    : option (heap * option (list rspamd_process_exception)
              * option (list nat)) :=
  if href_offset <? 0 then
    (* No displayed url, just some text within <a> tag *)
    Some (h, exceptions, url_set)
  else
    u ← load_url h url;
    let tail := drop (Z.to_nat href_offset) dest in
    (* Strip unicode spaces from the start and the end *)
    let visible :=
      rspamd_string_unicode_trim_inplace
        (rspamd_strlcpy tail (blen dest - href_offset + 1)) in
    let '(u, url_found, displayed_url) :=
      rspamd_html_url_is_phished (set_visible_part (Some visible) u) visible in
    let u := if url_found : bool
             then or_url_flags RSPAMD_URL_FLAG_DISPLAY_URL u else u in
    h ← update_url (λ _, u) url h;
    let exceptions :=
      if url_found then
        (λ l, {| ex_pos := href_offset; ex_len := blen dest - href_offset;
                 ex_ptr := url |} :: l) <$> exceptions
      else exceptions in
    '(h, url_set) ←
      match displayed_url, url_set with
      | Some d, Some _ =>
          let '(h, dp) := alloc_url d h in
          '(set, turl) ← rspamd_url_set_add_or_return h url_set dp;
          match turl with
          | Some tp =>
              h ← update_url
                    (λ x,
                       let x :=
                         if has_flag (url_flags x) RSPAMD_URL_FLAG_FROM_TEXT
                         then set_url_flags
                                (Z.land (Z.lor (url_flags x)
                                               RSPAMD_URL_FLAG_HTML_DISPLAYED)
                                        (Z.lnot RSPAMD_URL_FLAG_FROM_TEXT)) x
                         else x in
                       set_url_count (url_count x + 1) x) tp h;
              Some (h, set)
          | None => Some (h, set)
          end
      | _, _ => Some (h, url_set)
      end;
    h ← update_url
          (λ x, set_visible_part
                  (rspamd_normalise_unicode_inplace <$> visible_part x) x)
          url h;
    Some (h, exceptions, url_set).

(** [rspamd_html_propagate_lengths] on one node: the content lengths of
    the children are added to the tag of the node. *)
Fixpoint add_children_lengths (cs : list nat) (tp : nat) (h : heap)
    : option heap :=
  match cs with
  | [] => Some h
  | child :: rest =>
      cn ← load_node h child;
      cp ← data cn;
      cld_tag ← load_tag h cp;
      h ← update_tag
            (λ t, set_content_length
                    ((content_length t + content_length cld_tag) mod guint_max) t)
            tp h;
      add_children_lengths rest tp h
  end.

Definition rspamd_html_propagate_lengths (h : heap) (node : nat)
    : option heap :=
  nd ← load_node h node;
  match data nd with
  | Some tp => add_children_lengths (children nd) tp h
  | None => Some h
  end.

(** [g_node_traverse (root, G_POST_ORDER, G_TRAVERSE_ALL, -1, ...)]: the
    children first, then the node.  The depth of a tree is at most the
    number of its nodes, which is the bound. *)
Fixpoint g_node_traverse_post_order (fuel : nat) (node : nat) (h : heap)
    : option heap :=
  match fuel with
  | O => None
  | S f =>
      nd ← load_node h node;
      h ← foldl (λ acc child, h ← acc; g_node_traverse_post_order f child h)
            (Some h) (children nd);
      rspamd_html_propagate_lengths h node
  end.

(** [cur_level->prev]: the sibling before a node. *)
Definition g_node_prev (h : heap) (node : nat) : option (option nat) :=
  nd ← load_node h node;
  match gparent nd with
  | None => Some None
  | Some p =>
      pn ← load_node h p;
      match list_find (λ c, c = node) (children pn) with
      | Some (S i, _) => Some (children pn !! i)
      | _ => Some None
      end
  end.

End style_parser.

(** ** The tokenizer (html.cxx, lines 1939-2590) *)

(** The attribute lexer that the tokenizer calls,
    [rspamd_html_parse_tag_content (pool, hc, cur_tag, p, &substate,
    &savep)], is not among the sources: the input, the content root, the
    tag, the position, [substate] and [savep] go in, and the content root,
    the tag, [substate] and [savep] come out. *)
Class lexer_collaborator := {
  rspamd_html_parse_tag_content :
    bytes → html_content → html_tag → Z → Z → option Z →
    html_content * html_tag * Z * option Z;
}.

Module Tokenizer.

Inductive tokenizer_state :=
  | parse_start
  | tag_begin
  | sgml_tag
  | xml_tag
  | compound_tag
  | comment_tag
  | comment_content
  | sgml_content
  | tag_content
  | tag_end
  | xml_tag_end
  | content_ignore
  | content_write
  | content_style
  | content_ignore_sp.

(** The locals of [rspamd_html_process_part_full], with the heap, the
    content root and the three optional outputs. *)
Record tokenizer := {
  tk_heap : heap;
  tk_hc : html_content;
  tk_p : Z;
  tk_c : Z;
  savep : option Z;
  substate : Z;
  closing : bool;
  need_decode : bool;
  save_space : bool;
  balanced : bool;
  dest : bytes;
  tk_obrace : Z;
  tk_ebrace : Z;
  cur_level : option nat;
  href_offset : Z;
  cur_tag : option nat;
  content_tag : option nat;
  tk_url : option nat;
  styles_blocks : list nat;
  tk_state : tokenizer_state;
  tk_exceptions : option (list rspamd_process_exception);
  tk_url_set : option (list nat);
  tk_part_urls : option (list nat);
}.

Definition set_tk_heap (v : heap) (s : tokenizer) : tokenizer :=
  {| tk_heap := v; tk_hc := tk_hc s; tk_p := tk_p s; tk_c := tk_c s;
     savep := savep s; substate := substate s; closing := closing s;
     need_decode := need_decode s; save_space := save_space s;
     balanced := balanced s; dest := dest s; tk_obrace := tk_obrace s;
     tk_ebrace := tk_ebrace s; cur_level := cur_level s;
     href_offset := href_offset s; cur_tag := cur_tag s;
     content_tag := content_tag s; tk_url := tk_url s;
     styles_blocks := styles_blocks s; tk_state := tk_state s;
     tk_exceptions := tk_exceptions s; tk_url_set := tk_url_set s;
     tk_part_urls := tk_part_urls s |}.

Definition set_tk_hc (v : html_content) (s : tokenizer) : tokenizer :=
  {| tk_heap := tk_heap s; tk_hc := v; tk_p := tk_p s; tk_c := tk_c s;
     savep := savep s; substate := substate s; closing := closing s;
     need_decode := need_decode s; save_space := save_space s;
     balanced := balanced s; dest := dest s; tk_obrace := tk_obrace s;
     tk_ebrace := tk_ebrace s; cur_level := cur_level s;
     href_offset := href_offset s; cur_tag := cur_tag s;
     content_tag := content_tag s; tk_url := tk_url s;
     styles_blocks := styles_blocks s; tk_state := tk_state s;
     tk_exceptions := tk_exceptions s; tk_url_set := tk_url_set s;
     tk_part_urls := tk_part_urls s |}.

Definition set_tk_p (v : Z) (s : tokenizer) : tokenizer :=
  {| tk_heap := tk_heap s; tk_hc := tk_hc s; tk_p := v; tk_c := tk_c s;
     savep := savep s; substate := substate s; closing := closing s;
     need_decode := need_decode s; save_space := save_space s;
     balanced := balanced s; dest := dest s; tk_obrace := tk_obrace s;
     tk_ebrace := tk_ebrace s; cur_level := cur_level s;
     href_offset := href_offset s; cur_tag := cur_tag s;
     content_tag := content_tag s; tk_url := tk_url s;
     styles_blocks := styles_blocks s; tk_state := tk_state s;
     tk_exceptions := tk_exceptions s; tk_url_set := tk_url_set s;
     tk_part_urls := tk_part_urls s |}.

Definition set_tk_c (v : Z) (s : tokenizer) : tokenizer :=
  {| tk_heap := tk_heap s; tk_hc := tk_hc s; tk_p := tk_p s; tk_c := v;
     savep := savep s; substate := substate s; closing := closing s;
     need_decode := need_decode s; save_space := save_space s;
     balanced := balanced s; dest := dest s; tk_obrace := tk_obrace s;
     tk_ebrace := tk_ebrace s; cur_level := cur_level s;
     href_offset := href_offset s; cur_tag := cur_tag s;
     content_tag := content_tag s; tk_url := tk_url s;
     styles_blocks := styles_blocks s; tk_state := tk_state s;
     tk_exceptions := tk_exceptions s; tk_url_set := tk_url_set s;
     tk_part_urls := tk_part_urls s |}.

Definition set_savep (v : option Z) (s : tokenizer) : tokenizer :=
  {| tk_heap := tk_heap s; tk_hc := tk_hc s; tk_p := tk_p s;
     tk_c := tk_c s; savep := v; substate := substate s;
     closing := closing s; need_decode := need_decode s;
     save_space := save_space s; balanced := balanced s; dest := dest s;
     tk_obrace := tk_obrace s; tk_ebrace := tk_ebrace s;
     cur_level := cur_level s; href_offset := href_offset s;
     cur_tag := cur_tag s; content_tag := content_tag s;
     tk_url := tk_url s; styles_blocks := styles_blocks s;
     tk_state := tk_state s; tk_exceptions := tk_exceptions s;
     tk_url_set := tk_url_set s; tk_part_urls := tk_part_urls s |}.

Definition set_substate (v : Z) (s : tokenizer) : tokenizer :=
  {| tk_heap := tk_heap s; tk_hc := tk_hc s; tk_p := tk_p s;
     tk_c := tk_c s; savep := savep s; substate := v;
     closing := closing s; need_decode := need_decode s;
     save_space := save_space s; balanced := balanced s; dest := dest s;
     tk_obrace := tk_obrace s; tk_ebrace := tk_ebrace s;
     cur_level := cur_level s; href_offset := href_offset s;
     cur_tag := cur_tag s; content_tag := content_tag s;
     tk_url := tk_url s; styles_blocks := styles_blocks s;
     tk_state := tk_state s; tk_exceptions := tk_exceptions s;
     tk_url_set := tk_url_set s; tk_part_urls := tk_part_urls s |}.

Definition set_closing (v : bool) (s : tokenizer) : tokenizer :=
  {| tk_heap := tk_heap s; tk_hc := tk_hc s; tk_p := tk_p s;
     tk_c := tk_c s; savep := savep s; substate := substate s;
     closing := v; need_decode := need_decode s;
     save_space := save_space s; balanced := balanced s; dest := dest s;
     tk_obrace := tk_obrace s; tk_ebrace := tk_ebrace s;
     cur_level := cur_level s; href_offset := href_offset s;
     cur_tag := cur_tag s; content_tag := content_tag s;
     tk_url := tk_url s; styles_blocks := styles_blocks s;
     tk_state := tk_state s; tk_exceptions := tk_exceptions s;
     tk_url_set := tk_url_set s; tk_part_urls := tk_part_urls s |}.

Definition set_need_decode (v : bool) (s : tokenizer) : tokenizer :=
  {| tk_heap := tk_heap s; tk_hc := tk_hc s; tk_p := tk_p s;
     tk_c := tk_c s; savep := savep s; substate := substate s;
     closing := closing s; need_decode := v; save_space := save_space s;
     balanced := balanced s; dest := dest s; tk_obrace := tk_obrace s;
     tk_ebrace := tk_ebrace s; cur_level := cur_level s;
     href_offset := href_offset s; cur_tag := cur_tag s;
     content_tag := content_tag s; tk_url := tk_url s;
     styles_blocks := styles_blocks s; tk_state := tk_state s;
     tk_exceptions := tk_exceptions s; tk_url_set := tk_url_set s;
     tk_part_urls := tk_part_urls s |}.

Definition set_save_space (v : bool) (s : tokenizer) : tokenizer :=
  {| tk_heap := tk_heap s; tk_hc := tk_hc s; tk_p := tk_p s;
     tk_c := tk_c s; savep := savep s; substate := substate s;
     closing := closing s; need_decode := need_decode s; save_space := v;
     balanced := balanced s; dest := dest s; tk_obrace := tk_obrace s;
     tk_ebrace := tk_ebrace s; cur_level := cur_level s;
     href_offset := href_offset s; cur_tag := cur_tag s;
     content_tag := content_tag s; tk_url := tk_url s;
     styles_blocks := styles_blocks s; tk_state := tk_state s;
     tk_exceptions := tk_exceptions s; tk_url_set := tk_url_set s;
     tk_part_urls := tk_part_urls s |}.

Definition set_balanced (v : bool) (s : tokenizer) : tokenizer :=
  {| tk_heap := tk_heap s; tk_hc := tk_hc s; tk_p := tk_p s;
     tk_c := tk_c s; savep := savep s; substate := substate s;
     closing := closing s; need_decode := need_decode s;
     save_space := save_space s; balanced := v; dest := dest s;
     tk_obrace := tk_obrace s; tk_ebrace := tk_ebrace s;
     cur_level := cur_level s; href_offset := href_offset s;
     cur_tag := cur_tag s; content_tag := content_tag s;
     tk_url := tk_url s; styles_blocks := styles_blocks s;
     tk_state := tk_state s; tk_exceptions := tk_exceptions s;
     tk_url_set := tk_url_set s; tk_part_urls := tk_part_urls s |}.

Definition set_dest (v : bytes) (s : tokenizer) : tokenizer :=
  {| tk_heap := tk_heap s; tk_hc := tk_hc s; tk_p := tk_p s;
     tk_c := tk_c s; savep := savep s; substate := substate s;
     closing := closing s; need_decode := need_decode s;
     save_space := save_space s; balanced := balanced s; dest := v;
     tk_obrace := tk_obrace s; tk_ebrace := tk_ebrace s;
     cur_level := cur_level s; href_offset := href_offset s;
     cur_tag := cur_tag s; content_tag := content_tag s;
     tk_url := tk_url s; styles_blocks := styles_blocks s;
     tk_state := tk_state s; tk_exceptions := tk_exceptions s;
     tk_url_set := tk_url_set s; tk_part_urls := tk_part_urls s |}.

Definition set_tk_obrace (v : Z) (s : tokenizer) : tokenizer :=
  {| tk_heap := tk_heap s; tk_hc := tk_hc s; tk_p := tk_p s;
     tk_c := tk_c s; savep := savep s; substate := substate s;
     closing := closing s; need_decode := need_decode s;
     save_space := save_space s; balanced := balanced s; dest := dest s;
     tk_obrace := v; tk_ebrace := tk_ebrace s; cur_level := cur_level s;
     href_offset := href_offset s; cur_tag := cur_tag s;
     content_tag := content_tag s; tk_url := tk_url s;
     styles_blocks := styles_blocks s; tk_state := tk_state s;
     tk_exceptions := tk_exceptions s; tk_url_set := tk_url_set s;
     tk_part_urls := tk_part_urls s |}.

Definition set_tk_ebrace (v : Z) (s : tokenizer) : tokenizer :=
  {| tk_heap := tk_heap s; tk_hc := tk_hc s; tk_p := tk_p s;
     tk_c := tk_c s; savep := savep s; substate := substate s;
     closing := closing s; need_decode := need_decode s;
     save_space := save_space s; balanced := balanced s; dest := dest s;
     tk_obrace := tk_obrace s; tk_ebrace := v; cur_level := cur_level s;
     href_offset := href_offset s; cur_tag := cur_tag s;
     content_tag := content_tag s; tk_url := tk_url s;
     styles_blocks := styles_blocks s; tk_state := tk_state s;
     tk_exceptions := tk_exceptions s; tk_url_set := tk_url_set s;
     tk_part_urls := tk_part_urls s |}.

Definition set_cur_level (v : option nat) (s : tokenizer) : tokenizer :=
  {| tk_heap := tk_heap s; tk_hc := tk_hc s; tk_p := tk_p s;
     tk_c := tk_c s; savep := savep s; substate := substate s;
     closing := closing s; need_decode := need_decode s;
     save_space := save_space s; balanced := balanced s; dest := dest s;
     tk_obrace := tk_obrace s; tk_ebrace := tk_ebrace s; cur_level := v;
     href_offset := href_offset s; cur_tag := cur_tag s;
     content_tag := content_tag s; tk_url := tk_url s;
     styles_blocks := styles_blocks s; tk_state := tk_state s;
     tk_exceptions := tk_exceptions s; tk_url_set := tk_url_set s;
     tk_part_urls := tk_part_urls s |}.

Definition set_href_offset (v : Z) (s : tokenizer) : tokenizer :=
  {| tk_heap := tk_heap s; tk_hc := tk_hc s; tk_p := tk_p s;
     tk_c := tk_c s; savep := savep s; substate := substate s;
     closing := closing s; need_decode := need_decode s;
     save_space := save_space s; balanced := balanced s; dest := dest s;
     tk_obrace := tk_obrace s; tk_ebrace := tk_ebrace s;
     cur_level := cur_level s; href_offset := v; cur_tag := cur_tag s;
     content_tag := content_tag s; tk_url := tk_url s;
     styles_blocks := styles_blocks s; tk_state := tk_state s;
     tk_exceptions := tk_exceptions s; tk_url_set := tk_url_set s;
     tk_part_urls := tk_part_urls s |}.

Definition set_cur_tag (v : option nat) (s : tokenizer) : tokenizer :=
  {| tk_heap := tk_heap s; tk_hc := tk_hc s; tk_p := tk_p s;
     tk_c := tk_c s; savep := savep s; substate := substate s;
     closing := closing s; need_decode := need_decode s;
     save_space := save_space s; balanced := balanced s; dest := dest s;
     tk_obrace := tk_obrace s; tk_ebrace := tk_ebrace s;
     cur_level := cur_level s; href_offset := href_offset s; cur_tag := v;
     content_tag := content_tag s; tk_url := tk_url s;
     styles_blocks := styles_blocks s; tk_state := tk_state s;
     tk_exceptions := tk_exceptions s; tk_url_set := tk_url_set s;
     tk_part_urls := tk_part_urls s |}.

Definition set_content_tag (v : option nat) (s : tokenizer) : tokenizer :=
  {| tk_heap := tk_heap s; tk_hc := tk_hc s; tk_p := tk_p s;
     tk_c := tk_c s; savep := savep s; substate := substate s;
     closing := closing s; need_decode := need_decode s;
     save_space := save_space s; balanced := balanced s; dest := dest s;
     tk_obrace := tk_obrace s; tk_ebrace := tk_ebrace s;
     cur_level := cur_level s; href_offset := href_offset s;
     cur_tag := cur_tag s; content_tag := v; tk_url := tk_url s;
     styles_blocks := styles_blocks s; tk_state := tk_state s;
     tk_exceptions := tk_exceptions s; tk_url_set := tk_url_set s;
     tk_part_urls := tk_part_urls s |}.

Definition set_tk_url (v : option nat) (s : tokenizer) : tokenizer :=
  {| tk_heap := tk_heap s; tk_hc := tk_hc s; tk_p := tk_p s;
     tk_c := tk_c s; savep := savep s; substate := substate s;
     closing := closing s; need_decode := need_decode s;
     save_space := save_space s; balanced := balanced s; dest := dest s;
     tk_obrace := tk_obrace s; tk_ebrace := tk_ebrace s;
     cur_level := cur_level s; href_offset := href_offset s;
     cur_tag := cur_tag s; content_tag := content_tag s; tk_url := v;
     styles_blocks := styles_blocks s; tk_state := tk_state s;
     tk_exceptions := tk_exceptions s; tk_url_set := tk_url_set s;
     tk_part_urls := tk_part_urls s |}.

Definition set_styles_blocks (v : list nat) (s : tokenizer) : tokenizer :=
  {| tk_heap := tk_heap s; tk_hc := tk_hc s; tk_p := tk_p s;
     tk_c := tk_c s; savep := savep s; substate := substate s;
     closing := closing s; need_decode := need_decode s;
     save_space := save_space s; balanced := balanced s; dest := dest s;
     tk_obrace := tk_obrace s; tk_ebrace := tk_ebrace s;
     cur_level := cur_level s; href_offset := href_offset s;
     cur_tag := cur_tag s; content_tag := content_tag s;
     tk_url := tk_url s; styles_blocks := v; tk_state := tk_state s;
     tk_exceptions := tk_exceptions s; tk_url_set := tk_url_set s;
     tk_part_urls := tk_part_urls s |}.

Definition set_tk_state (v : tokenizer_state) (s : tokenizer) : tokenizer :=
  {| tk_heap := tk_heap s; tk_hc := tk_hc s; tk_p := tk_p s;
     tk_c := tk_c s; savep := savep s; substate := substate s;
     closing := closing s; need_decode := need_decode s;
     save_space := save_space s; balanced := balanced s; dest := dest s;
     tk_obrace := tk_obrace s; tk_ebrace := tk_ebrace s;
     cur_level := cur_level s; href_offset := href_offset s;
     cur_tag := cur_tag s; content_tag := content_tag s;
     tk_url := tk_url s; styles_blocks := styles_blocks s; tk_state := v;
     tk_exceptions := tk_exceptions s; tk_url_set := tk_url_set s;
     tk_part_urls := tk_part_urls s |}.

Definition set_tk_exceptions (v : option (list rspamd_process_exception)) (s : tokenizer) : tokenizer :=
  {| tk_heap := tk_heap s; tk_hc := tk_hc s; tk_p := tk_p s;
     tk_c := tk_c s; savep := savep s; substate := substate s;
     closing := closing s; need_decode := need_decode s;
     save_space := save_space s; balanced := balanced s; dest := dest s;
     tk_obrace := tk_obrace s; tk_ebrace := tk_ebrace s;
     cur_level := cur_level s; href_offset := href_offset s;
     cur_tag := cur_tag s; content_tag := content_tag s;
     tk_url := tk_url s; styles_blocks := styles_blocks s;
     tk_state := tk_state s; tk_exceptions := v; tk_url_set := tk_url_set s;
     tk_part_urls := tk_part_urls s |}.

Definition set_tk_url_set (v : option (list nat)) (s : tokenizer) : tokenizer :=
  {| tk_heap := tk_heap s; tk_hc := tk_hc s; tk_p := tk_p s;
     tk_c := tk_c s; savep := savep s; substate := substate s;
     closing := closing s; need_decode := need_decode s;
     save_space := save_space s; balanced := balanced s; dest := dest s;
     tk_obrace := tk_obrace s; tk_ebrace := tk_ebrace s;
     cur_level := cur_level s; href_offset := href_offset s;
     cur_tag := cur_tag s; content_tag := content_tag s;
     tk_url := tk_url s; styles_blocks := styles_blocks s;
     tk_state := tk_state s; tk_exceptions := tk_exceptions s; tk_url_set := v;
     tk_part_urls := tk_part_urls s |}.

Definition set_tk_part_urls (v : option (list nat)) (s : tokenizer) : tokenizer :=
  {| tk_heap := tk_heap s; tk_hc := tk_hc s; tk_p := tk_p s;
     tk_c := tk_c s; savep := savep s; substate := substate s;
     closing := closing s; need_decode := need_decode s;
     save_space := save_space s; balanced := balanced s; dest := dest s;
     tk_obrace := tk_obrace s; tk_ebrace := tk_ebrace s;
     cur_level := cur_level s; href_offset := href_offset s;
     cur_tag := cur_tag s; content_tag := content_tag s;
     tk_url := tk_url s; styles_blocks := styles_blocks s;
     tk_state := tk_state s; tk_exceptions := tk_exceptions s;
     tk_url_set := tk_url_set s; tk_part_urls := v |}.

Section tokenizer.
Context `{html_tags_h} `{text_collaborators} `{url_collaborators}
        `{double_ops} `{style_collaborators} `{lexer_collaborator}.
Variable input : bytes.
Variable allow_css : bool.

Definition hc_or (m : Z) (s : tokenizer) : tokenizer :=
  set_tk_hc (or_hc_flags m (tk_hc s)) s.

Definition advance (s : tokenizer) : tokenizer := set_tk_p (tk_p s + 1) s.

(** The conversion of a [guint] length to [gint]. *)
Definition to_gint (x : Z) : Z := if x <? 2 ^ 31 then x else x - 2 ^ 32.

(** The bookkeeping of [content_tag] around an emission of [add] bytes
    that starts at [offset]. *)
Definition touch_content_tag (offset add : Z) (s : tokenizer)
    : option tokenizer :=
  match content_tag s with
  | Some ct =>
      h ← update_tag
            (λ t, let t := if content_length t =? 0
                           then set_content_offset offset t else t in
                  set_content_length ((content_length t + add) mod guint_max) t)
            ct (tk_heap s);
      Some (set_tk_heap h s)
  | None => Some s
  end.

(** The same after a synthetic space or line break of [k] bytes has been
    appended: the special case sets the offset and counts nothing. *)
Definition touch_content_tag_synthetic (k : Z) (s : tokenizer)
    : option tokenizer :=
  match content_tag s with
  | Some ct =>
      h ← update_tag
            (λ t, if content_length t =? 0
                  then set_content_offset (blen (dest s)) t
                  else set_content_length ((content_length t + k) mod guint_max) t)
            ct (tk_heap s);
      Some (set_tk_heap h s)
  | None => Some s
  end.

(** The emission of the text between [c] and [p] (lines 2174-2206 and
    2240-2271): verbatim, or copied and decoded in place. *)
Definition flush_text (s : tokenizer) : option tokenizer :=
  let chunk := slice input (tk_c s) (tk_p s) in
  let old_offset := blen (dest s) in
  let emitted := if need_decode s then decode_html_entitles_inplace chunk
                 else chunk in
  s ← touch_content_tag old_offset (blen emitted) s;
  Some (set_dest (dest s ++ emitted) s).

Definition step_content_write (t : Z) (s : tokenizer) : option tokenizer :=
  if negb (t =? c_lt) then
    s ← (if t =? c_amp then Some (set_need_decode true s)
         else if g_ascii_isspace t then
           let s := set_save_space true s in
           s ← (if tk_c s <? tk_p s then flush_text s else Some s);
           Some (set_tk_state content_ignore_sp (set_tk_c (tk_p s) s))
         else if save_space s then
           (* Append one space if needed *)
           s ← (if (0 <? blen (dest s))
                   && negb (from_option g_ascii_isspace true (last (dest s)))
                then touch_content_tag_synthetic 1
                       (set_dest (dest s ++ [c_space]) s)
                else Some s);
           Some (set_save_space false s)
         else Some s);
    Some (advance s)
  else
    s ← (if negb (tk_c s =? tk_p s) then flush_text s else Some s);
    Some (set_tk_state tag_begin (set_content_tag None s)).

(** Lines 2391-2436: the line break after [br], [hr], [p], [tr] and
    [div]. *)
Definition append_newline (s : tokenizer) : option tokenizer :=
  if (0 <? blen (dest s)) && negb (bool_decide (last (dest s) = Some c_nl))
  then touch_content_tag_synthetic 2 (set_dest (dest s ++ [c_cr; c_nl]) s)
  else Some s.

Definition tag_end_newlines (id : Z) (s : tokenizer) : option tokenizer :=
  s ← (if (id =? Tag_BR) || (id =? Tag_HR) then
         s ← append_newline s; Some (set_save_space false s)
       else Some s);
  if (id =? Tag_P) || (id =? Tag_TR) || (id =? Tag_DIV) then
    s ← append_newline s; Some (set_save_space false s)
  else Some s.

(** Lines 2360-2375: the tag goes to the tree builder. *)
Definition tag_end_process_tag (tag : nat) (s : tokenizer) : option tokenizer :=
  '(h, hc, cl, bal, ret) ←
    rspamd_html_process_tag (tk_heap s) (tk_hc s) tag (cur_level s) true;
  let s := set_balanced bal (set_cur_level cl (set_tk_hc hc (set_tk_heap h s))) in
  if ret : bool then Some (set_need_decode false (set_tk_state content_write s))
  else
    t ← load_tag (tk_heap s) tag;
    if tag_id t =? Tag_STYLE then Some (set_tk_state content_style s)
    else Some (set_tk_state content_ignore s).

(** Lines 2377-2389: [tags_seen] and the tag that receives content. *)
Definition tag_end_seen (tag : nat) (s : tokenizer) : option tokenizer :=
  t ← load_tag (tk_heap s) tag;
  let s :=
    if negb (tag_id t =? -1) && (tag_id t <? N_TAGS) then
      let hc := tk_hc s in
      let hc :=
        if has_flag (tag_flags t) CM_UNIQUE
           && bool_decide (tag_id t ∈ tags_seen hc)
        then (* Duplicate tag has been found *)
          or_hc_flags RSPAMD_HTML_FLAG_DUPLICATE_ELEMENTS hc
        else hc in
      set_tk_hc (set_tags_seen ({[ tag_id t ]} ∪ tags_seen hc) hc) s
    else s in
  if negb (has_flag (tag_flags t) (Z.lor FL_CLOSED FL_CLOSING))
  then Some (set_content_tag (Some tag) s) else Some s.

(** Lines 2441-2461: the URL of an opening tag with [FL_HREF]. *)
Definition tag_end_href_open (tag : nat) (s : tokenizer) : option tokenizer :=
  '(h, url) ← rspamd_html_process_url_tag (tk_heap s) tag (tk_hc s);
  let s := set_tk_url url (set_tk_heap h s) in
  match url with
  | None => Some s
  | Some u =>
      s ← match tk_url_set s with
          | Some _ =>
              '(set, maybe_existing) ←
                rspamd_url_set_add_or_return (tk_heap s) (tk_url_set s) u;
              e ← maybe_existing;
              let s := set_tk_url_set set s in
              if bool_decide (e = u) then
                '(h, set, pu) ←
                  rspamd_process_html_url (tk_heap s) u (tk_url_set s) (tk_part_urls s);
                Some (set_tk_part_urls pu (set_tk_url_set set (set_tk_heap h s)))
              else
                (* Increase count to avoid odd checks failure *)
                h ← update_url (λ x, set_url_count (url_count x + 1) x) e
                      (tk_heap s);
                Some (set_tk_url (Some e) (set_tk_heap h s))
          | None => Some s
          end;
      Some (set_href_offset (to_gint (blen (dest s))) s)
  end.

Definition check_displayed (url : nat) (s : tokenizer) : option tokenizer :=
  '(h, ex, set) ←
    rspamd_html_check_displayed_url (tk_heap s) (tk_exceptions s) (tk_url_set s)
      (dest s) (href_offset s) url;
  Some (set_tk_url_set set (set_tk_exceptions ex (set_tk_heap h s))).

(** Lines 2463-2496: the displayed URL of an anchor. *)
Definition tag_end_anchor (tag : nat) (s : tokenizer) : option tokenizer :=
  s ← (if negb (balanced s) then
         match cur_level s with
         | Some cl =>
             prev ← g_node_prev (tk_heap s) cl;
             match prev with
             | Some pn =>
                 nd ← load_node (tk_heap s) pn;
                 pp ← data nd;
                 prev_tag ← load_tag (tk_heap s) pp;
                 if (tag_id prev_tag =? Tag_A)
                    && negb (has_flag (tag_flags prev_tag) FL_CLOSING)
                 then
                   match extra prev_tag with
                   | Some (ExtraUrl prev_url) => check_displayed prev_url s
                   | Some _ => None
                   | None => Some s
                   end
                 else Some s
             | None => Some s
             end
         | None => Some s
         end
       else Some s);
  t ← load_tag (tk_heap s) tag;
  if has_flag (tag_flags t) FL_CLOSING then
    (* Insert exception *)
    s ← match tk_url s with
        | Some u =>
            if href_offset s <? to_gint (blen (dest s))
            then check_displayed u s else Some s
        | None => Some s
        end;
    Some (set_tk_url None (set_href_offset (-1) s))
  else Some s.

(** Lines 2439-2515: anchors and the base URL. *)
Definition tag_end_href (tag : nat) (s : tokenizer) : option tokenizer :=
  t ← load_tag (tk_heap s) tag;
  if has_flag (tag_flags t) FL_HREF then
    s ← (if negb (has_flag (tag_flags t) FL_CLOSING)
         then tag_end_href_open tag s else Some s);
    t ← load_tag (tk_heap s) tag;
    if tag_id t =? Tag_A then tag_end_anchor tag s else Some s
  else if (tag_id t =? Tag_BASE) && negb (has_flag (tag_flags t) FL_CLOSING)
  then
    (* Base is allowed only within head tag *)
    match base_url (tk_hc s) with
    | None =>
        '(h, url) ← rspamd_html_process_url_tag (tk_heap s) tag (tk_hc s);
        let s := set_tk_url url (set_tk_heap h s) in
        match url with
        | Some u =>
            h ← update_tag
                  (λ t, or_tag_flags FL_HREF (set_extra (Some (ExtraUrl u)) t))
                  tag (tk_heap s);
            Some (set_tk_hc (set_base_url (Some u) (tk_hc s)) (set_tk_heap h s))
        | None => Some s
        end
    | Some _ => Some s
    end
  else Some s.

(** Lines 2542-2556: the visibility of a block, after its style has been
    propagated. *)
Definition block_visibility (bl : html_block) : html_block :=
  if (font_size bl <? 3) || (col_alpha (font_color bl) <? 10)
  then set_visible false bl else bl.

(** Lines 2517-2558: images, links and blocks. *)
Definition tag_end_semantic (tag : nat) (s : tokenizer) : option tokenizer :=
  t ← load_tag (tk_heap s) tag;
  let closing_tag := has_flag (tag_flags t) FL_CLOSING in
  if (tag_id t =? Tag_IMG) && negb closing_tag then
    '(h, hc, set, pu, d) ←
      rspamd_html_process_img_tag (tk_heap s) tag (tk_hc s) (tk_url_set s)
        (tk_part_urls s) (Some (dest s));
    Some (set_dest (default (dest s) d)
            (set_tk_part_urls pu (set_tk_url_set set (set_tk_hc hc (set_tk_heap h s)))))
  else if (tag_id t =? Tag_LINK) && negb closing_tag then
    '(h, hc, set, pu) ←
      rspamd_html_process_link_tag (tk_heap s) tag (tk_hc s) (tk_url_set s)
        (tk_part_urls s);
    Some (set_tk_part_urls pu (set_tk_url_set set (set_tk_hc hc (set_tk_heap h s))))
  else if has_flag (tag_flags t) FL_BLOCK then
    if closing_tag then
      (* Just remove block element from the queue if any *)
      Some (set_styles_blocks
              (take (length (styles_blocks s) - 1) (styles_blocks s)) s)
    else
      '(h, hc) ← rspamd_html_process_block_tag (tk_heap s) tag (tk_hc s);
      t ← load_tag h tag;
      match extra t with
      | Some (ExtraBlock bl) =>
          '(h, queue) ← rspamd_html_propagate_style h hc tag bl (styles_blocks s);
          (* Check visibility *)
          h ← update_block block_visibility bl h;
          b ← load_block h bl;
          let s := set_styles_blocks queue (set_tk_hc hc (set_tk_heap h s)) in
          if negb (visible b) then Some (set_tk_state content_ignore s)
          else Some s
      | Some _ => None
      | None => Some (set_tk_hc hc (set_tk_heap h s))
      end
  else Some s.

(** The state [tag_end] (lines 2356-2568). *)
Definition step_tag_end (s : tokenizer) : option tokenizer :=
  let s := set_savep None (set_substate 0 s) in
  s ← match cur_tag s with
      | Some tag =>
          s ← tag_end_process_tag tag s;
          s ← tag_end_seen tag s;
          t ← load_tag (tk_heap s) tag;
          s ← tag_end_newlines (tag_id t) s;
          s ← tag_end_href tag s;
          tag_end_semantic tag s
      | None => Some (set_tk_state content_write s)
      end;
  let s := advance s in
  Some (set_cur_tag None (set_tk_c (tk_p s) s)).

Definition bad_elements (s : tokenizer) : tokenizer :=
  hc_or RSPAMD_HTML_FLAG_BAD_ELEMENTS s.

(** The state [tag_begin] (lines 2013-2048). *)
Definition step_tag_begin (t : Z) (s : tokenizer) : tokenizer :=
  if t =? c_lt then set_closing false (advance s)
  else if t =? c_excl then advance (set_tk_state sgml_tag s)
  else if t =? c_quest then
    advance (hc_or RSPAMD_HTML_FLAG_XML (set_tk_state xml_tag s))
  else if t =? c_slash then advance (set_closing true s)
  else if t =? c_gt then
    (* Empty tag *)
    set_tk_state tag_end (bad_elements s)
  else
    let '(h, tag) := alloc_tag tag_zero (tk_heap s) in
    set_cur_tag (Some tag)
      (set_tk_heap h
         (set_savep None (set_substate 0 (set_tk_state tag_content s)))).

(** The state [comment_tag] (lines 2108-2138).  After the second hyphen
    the code reads [p[0]] without a look at [end]. *)
Definition step_comment_tag (t : Z) (s : tokenizer) : option tokenizer :=
  if negb (t =? c_minus) then Some (set_tk_state tag_end (bad_elements s))
  else
    let s := set_tk_ebrace 0 (advance s) in
    p0 ← peek input (tk_p s);
    if (p0 =? c_minus) && (tk_p s + 1 <? blen input)
       && bool_decide (peek input (tk_p s + 1) = Some c_gt)
    then Some (set_tk_state tag_end (advance (bad_elements s)))
    else if p0 =? c_gt then Some (set_tk_state tag_end (bad_elements s))
    else Some (set_tk_state comment_content s).

(** The state [content_style] (lines 2283-2312). *)
Definition step_content_style (s : tokenizer) : option tokenizer :=
  let rest := drop (Z.to_nat (tk_p s)) input in
  let end_style := rspamd_substring_search rest (bytes_of_string "</") in
  invalid ← (if end_style =? -1 then Some true
             else b ← peek input (tk_p s + end_style + 2);
                  Some (negb (g_ascii_tolower b =? 115)));
  if invalid : bool then
    (* Invalid style *)
    Some (set_tk_state content_ignore s)
  else
    let s :=
      if allow_css then
        set_tk_hc
          (set_css_style
             (rspamd_css_parse_style (take (Z.to_nat end_style) rest)
                (css_style (tk_hc s))) (tk_hc s)) s
      else s in
    Some (set_tk_state tag_begin (set_tk_p (tk_p s + end_style) s)).

(** The state [tag_content] (lines 2335-2354). *)
Definition step_tag_content (t : Z) (s : tokenizer) : option tokenizer :=
  tag ← cur_tag s;
  tg ← load_tag (tk_heap s) tag;
  let '(hc, tg, sub, sp) :=
    rspamd_html_parse_tag_content input (tk_hc s) tg (tk_p s) (substate s)
      (savep s) in
  h ← update_tag (λ _, tg) tag (tk_heap s);
  let s := set_savep sp (set_substate sub (set_tk_hc hc (set_tk_heap h s))) in
  if t =? c_gt then
    s ← (if closing s then
           h ← update_tag (or_tag_flags FL_CLOSING) tag (tk_heap s);
           tg ← load_tag h tag;
           let s := set_tk_heap h s in
           let s := if has_flag (tag_flags tg) FL_CLOSED
                    then (* Bad mix of closed and closing *) bad_elements s
                    else s in
           Some (set_closing false s)
         else Some s);
    Some (set_tk_state tag_end s)
  else Some (advance s).

(** One turn of the loop [while (p < end)], on the byte [t = *p]. *)
Definition tokenizer_step (s : tokenizer) : option tokenizer :=
  t ← peek input (tk_p s);
  match tk_state s with
  | parse_start =>
      if t =? c_lt then Some (set_tk_state tag_begin s)
      else
        (* We have no starting tag, so assume that it's content *)
        Some (set_tk_state content_write
                (hc_or RSPAMD_HTML_FLAG_BAD_START s))
  | tag_begin => Some (step_tag_begin t s)
  | sgml_tag =>
      if t =? c_lbracket then
        Some (advance (set_tk_ebrace 0 (set_tk_obrace 1
                (set_tk_state compound_tag s))))
      else if t =? c_minus then Some (advance (set_tk_state comment_tag s))
      else Some (set_tk_state sgml_content s)
  | xml_tag =>
      if t =? c_quest then Some (advance (set_tk_state xml_tag_end s))
      else if t =? c_gt then
        (* Misformed xml tag *)
        Some (set_tk_state tag_end (bad_elements s))
      else Some (advance s) (* We efficiently ignore xml tags *)
  | xml_tag_end =>
      if t =? c_gt then Some (set_tk_state tag_end s)
      else Some (advance (bad_elements s))
  | compound_tag =>
      if t =? c_lbracket then
        Some (advance (set_tk_obrace (guint_incr (tk_obrace s)) s))
      else if t =? c_rbracket then
        Some (advance (set_tk_ebrace (guint_incr (tk_ebrace s)) s))
      else if (t =? c_gt) && (tk_obrace s =? tk_ebrace s) then
        Some (set_tk_state tag_end s)
      else Some (advance s)
  | comment_tag => step_comment_tag t s
  | comment_content =>
      if t =? c_minus then
        Some (advance (set_tk_ebrace (guint_incr (tk_ebrace s)) s))
      else if (t =? c_gt) && (2 <=? tk_ebrace s) then
        Some (set_tk_state tag_end s)
      else Some (advance (set_tk_ebrace 0 s))
  | content_ignore =>
      if negb (t =? c_lt) then Some (advance s)
      else Some (set_tk_state tag_begin s)
  | content_write => step_content_write t s
  | content_style => step_content_style s
  | content_ignore_sp =>
      if negb (g_ascii_isspace t) then
        Some (set_tk_state content_write (set_tk_c (tk_p s) s))
      else Some (advance s)
  | sgml_content =>
      (* We don't know a lot about sgml tags, ignore them *)
      if t =? c_gt then Some (set_cur_tag None (set_tk_state tag_end s))
      else Some (advance s)
  | tag_content => step_tag_content t s
  | tag_end => step_tag_end s
  end.

(** The loop.  Every turn moves [p] forward or moves to a state that is
    closer to one that does, at most four turns per byte; five turns per
    byte bound the loop. *)
Fixpoint tokenizer_loop (fuel : nat) (s : tokenizer) : option tokenizer :=
  if blen input <=? tk_p s then Some s
  else
    match fuel with
    | O => None
    | S f => s ← tokenizer_step s; tokenizer_loop f s
    end.

(** The prologue of [rspamd_html_process_part_full] (lines 1978-1996). *)
Definition process_part_init (h : heap) (hc : html_content)
    (exceptions : option (list rspamd_process_exception))
    (url_set part_urls : option (list nat)) : tokenizer :=
  let hc := set_tags_seen ∅ hc in
  (* Set white background color by default *)
  let hc := set_bgcolor {| col_alpha := 0; col_r := 255; col_g := 255;
                           col_b := 255; col_valid := true |} hc in
  {| tk_heap := h; tk_hc := hc; tk_p := 0; tk_c := 0; savep := None;
     substate := 0; closing := false; need_decode := false;
     save_space := false; balanced := false; dest := []; tk_obrace := 0;
     tk_ebrace := 0; cur_level := None; href_offset := -1; cur_tag := None;
     content_tag := None; tk_url := None; styles_blocks := [];
     tk_state := parse_start; tk_exceptions := exceptions;
     tk_url_set := url_set; tk_part_urls := part_urls |}.

(** The epilogue (lines 2572-2580). *)
Definition process_part_finish (s : tokenizer) : option tokenizer :=
  h ← match html_tags (tk_hc s) with
      | Some root =>
          g_node_traverse_post_order (S (length (nodes (tk_heap s)))) root
            (tk_heap s)
      | None => Some (tk_heap s)
      end;
  Some (set_tk_hc (set_parsed (Some (dest s)) (tk_hc s)) (set_tk_heap h s)).

End tokenizer.

(** The result of a run: the returned buffer [dest] and everything the
    call has written through its pointer arguments. *)
Record part_result := {
  res_dest : bytes;
  res_heap : heap;
  res_hc : html_content;
  res_exceptions : option (list rspamd_process_exception);
  res_url_set : option (list nat);
  res_part_urls : option (list nat);
}.

Section entry_points.
Context `{html_tags_h} `{text_collaborators} `{url_collaborators}
        `{double_ops} `{style_collaborators} `{lexer_collaborator}.

Definition rspamd_html_process_part_full (h : heap) (hc : html_content)
    (input : bytes) (exceptions : option (list rspamd_process_exception))
    (url_set part_urls : option (list nat)) (allow_css : bool)
    : option part_result :=
  s ← tokenizer_loop input allow_css (5 * length input + 5)
        (process_part_init h hc exceptions url_set part_urls);
  s ← process_part_finish s;
  Some {| res_dest := dest s; res_heap := tk_heap s; res_hc := tk_hc s;
          res_exceptions := tk_exceptions s; res_url_set := tk_url_set s;
          res_part_urls := tk_part_urls s |}.

(** Lines 2583-2590. *)
Definition rspamd_html_process_part (h : heap) (hc : html_content)
    (input : bytes) : option part_result :=
  rspamd_html_process_part_full h hc input None None None false.

End entry_points.
End Tokenizer.

(** ** A concrete setting for the scenarios of the specification *)

Module Scenario.

(** Modelled from the spec: html_tags.h is not among the sources.  The
    class flags and the state flags are distinct bits, [CM_UNKNOWN] is the
    empty class, and the tag ids are distinct numbers below [N_TAGS]; the
    URL flags and protocols of url.h are distinct bits as well. *)
#[global] Instance tags_h : html_tags_h := {|
  CM_UNKNOWN := 0; CM_EMPTY := 1; CM_HEAD := 4; CM_INLINE := 16;
  CM_UNIQUE := 131072;
  FL_CLOSING := 262144; FL_HREF := 524288; FL_CLOSED := 1048576;
  FL_BROKEN := 2097152; FL_IGNORE := 4194304; FL_BLOCK := 8388608;
  FL_IMAGE := 16777216;
  Tag_A := 1; Tag_BASE := 9; Tag_BODY := 15; Tag_BR := 16; Tag_DIV := 30;
  Tag_HR := 45; Tag_IMG := 50; Tag_LINK := 58; Tag_P := 74; Tag_STYLE := 92;
  Tag_TR := 104;
  N_TAGS := 120;
  RSPAMD_URL_FLAG_OBSCURED := 2; RSPAMD_URL_FLAG_SCHEMALESS := 4;
  RSPAMD_URL_FLAG_NO_TLD := 8; RSPAMD_URL_FLAG_QUERY := 16;
  RSPAMD_URL_FLAG_IMAGE := 32; RSPAMD_URL_FLAG_DISPLAY_URL := 64;
  RSPAMD_URL_FLAG_FROM_TEXT := 128; RSPAMD_URL_FLAG_HTML_DISPLAYED := 256;
  PROTOCOL_UNKNOWN := 128; PROTOCOL_MAILTO := 8;
  URI_ERRNO_OK := 0;
  RSPAMD_HTML_FLAG_IMAGE_EMBEDDED := 1; RSPAMD_HTML_FLAG_IMAGE_EXTERNAL := 2;
  RSPAMD_HTML_FLAG_IMAGE_DATA := 4;
|}.

(** Modelled from the spec: the tag registry (section 4.1) with the tags
    that the scenarios of section 8 and the handlers of html.cxx name, and
    the class each has in HTML: [b] and [i] are inline, [br], [hr] and [img]
    are empty, [style], [link] and [base] belong to the head, [head] and
    [body] are unique, and [body], [div], [p], [tr] and [span] carry a block
    style. *)
Definition registry : list (string * (Z * Z)) :=
  [ ("a", (Tag_A, FL_HREF));
    ("b", (5, CM_INLINE));
    ("i", (48, CM_INLINE));
    ("base", (Tag_BASE, Z.lor CM_HEAD CM_EMPTY));
    ("body", (Tag_BODY, Z.lor CM_UNIQUE FL_BLOCK));
    ("br", (Tag_BR, Z.lor CM_INLINE CM_EMPTY));
    ("div", (Tag_DIV, FL_BLOCK));
    ("head", (43, Z.lor CM_HEAD CM_UNIQUE));
    ("hr", (Tag_HR, CM_EMPTY));
    ("img", (Tag_IMG, Z.lor CM_INLINE CM_EMPTY));
    ("link", (Tag_LINK, Z.lor (Z.lor CM_HEAD CM_EMPTY) FL_HREF));
    ("p", (Tag_P, FL_BLOCK));
    ("span", (88, FL_BLOCK));
    ("style", (Tag_STYLE, CM_HEAD));
    ("tr", (Tag_TR, FL_BLOCK)) ]%string.

Definition registry_by_name (name : bytes) : option (Z * Z) :=
  (λ r, snd (snd r)) <$>
    list_find (λ e, bytes_of_string (fst e) = name) registry.

(** Modelled from the spec: the entity decoder (html_entities.hxx) is not
    among the sources.  It replaces the references [&amp;], [&lt;], [&gt;],
    [&quot;] and [&nbsp;] (U+00A0, in UTF-8) and copies everything else. *)
Definition entities : list (string * bytes) :=
  [ ("&amp;", [38]); ("&lt;", [60]); ("&gt;", [62]); ("&quot;", [34]);
    ("&nbsp;", [194; 160]) ]%string.

Definition entity_at (s : bytes) : option (bytes * nat) :=
  (λ r, (snd (snd r), length (bytes_of_string (fst (snd r))))) <$>
    list_find (λ e, take (length (bytes_of_string (fst e))) s
                    = bytes_of_string (fst e)) entities.

Fixpoint decode_entities_fuel (fuel : nat) (s : bytes) : bytes :=
  match fuel with
  | O => []
  | S f =>
      match s with
      | [] => []
      | b :: r =>
          match entity_at s with
          | Some (repl, n) => repl ++ decode_entities_fuel f (drop n s)
          | None => b :: decode_entities_fuel f r
          end
      end
  end.

Definition decode_entities (s : bytes) : bytes :=
  decode_entities_fuel (length s) s.

(** Modelled from the spec: [rspamd_strlcpy] of libutil copies at most
    [siz - 1] bytes and stops at a zero byte. *)
Fixpoint strlcpy_model (src : bytes) (n : nat) : bytes :=
  match n, src with
  | S n', b :: r => if b =? 0 then [] else b :: strlcpy_model r n'
  | _, _ => []
  end.

Definition strlcpy (src : bytes) (siz : Z) : bytes :=
  strlcpy_model src (Z.to_nat (siz - 1)).

(** Modelled from the spec: [rspamd_substring_search] of libutil, the
    offset of the first occurrence or -1. *)
Fixpoint substring_search_from (fuel : nat) (s pat : bytes) (off : Z) : Z :=
  if bool_decide (take (length pat) s = pat) then off
  else
    match fuel, s with
    | S f, _ :: r => substring_search_from f r pat (off + 1)
    | _, _ => -1
    end.

Definition substring_search (s pat : bytes) : Z :=
  substring_search_from (length s) s pat 0.

Definition substring_search_caseless (s pat : bytes) : Z :=
  substring_search (g_ascii_tolower <$> s) (g_ascii_tolower <$> pat).

(** [span f l]: the longest prefix of bytes that satisfy [f], and the
    rest. *)
Fixpoint span (f : Z → bool) (l : bytes) : bytes * bytes :=
  match l with
  | b :: r => if f b then let '(x, y) := span f r in (b :: x, y) else ([], l)
  | [] => ([], [])
  end.

(** Modelled from the spec: [rspamd_url_parse] of url.h.  The parser
    accepts [scheme://[user@]host[/path][?query]] with a scheme of section
    4.5 ([http], [https], [ftp], [mailto]); the host ends at the first
    slash or question mark, the top-level domain is what follows the last
    dot of the host. *)
Definition known_protocols : list (string * Z) :=
  [ ("http", 1); ("https", 2); ("ftp", 4); ("mailto", PROTOCOL_MAILTO) ]%string.

Definition url_error : Z := 1.

Definition url_zero : rspamd_url :=
  {| url_string := []; url_protocol := PROTOCOL_UNKNOWN; url_protocollen := 0;
     url_host := []; url_hostlen := 0; url_tldlen := 0; url_userlen := 0;
     url_query := []; url_querylen := 0; url_datalen := 0; url_urllen := 0;
     url_flags := 0; url_count := 0; visible_part := None |}.

Definition tld_of (host : bytes) : bytes :=
  let '(rtld, rest) := span (λ b, negb (b =? 46)) (reverse host) in
  match rest with
  | [] => []
  | _ :: _ => reverse rtld
  end.

Definition url_parse (s : bytes) : Z * rspamd_url :=
  let pos := substring_search s (bytes_of_string "://") in
  if pos <? 1 then (url_error, url_zero)
  else
    let scheme := take (Z.to_nat pos) s in
    let after := drop (Z.to_nat pos + 3) s in
    let '(authority, tail) :=
      span (λ b, negb (b =? c_slash) && negb (b =? c_quest)) after in
    let '(user, host) :=
      let '(u, r) := span (λ b, negb (b =? c_at)) authority in
      match r with
      | _ :: hst => (u, hst)
      | [] => ([], authority)
      end in
    let '(path, q) := span (λ b, negb (b =? c_quest)) tail in
    let query := drop 1 q in
    let proto :=
      default PROTOCOL_UNKNOWN
        ((λ r, snd (snd r)) <$>
           list_find (λ e, bytes_of_string (fst e) = scheme) known_protocols) in
    let tld := tld_of host in
    (URI_ERRNO_OK,
     {| url_string := s; url_protocol := proto; url_protocollen := blen scheme;
        url_host := host; url_hostlen := blen host; url_tldlen := blen tld;
        url_userlen := blen user; url_query := query;
        url_querylen := blen query; url_datalen := blen (drop 1 path);
        url_urllen := blen s;
        url_flags := if blen tld =? 0 then RSPAMD_URL_FLAG_NO_TLD else 0;
        url_count := 1; visible_part := None |}).

(** Modelled from the spec: [strtoul] with base 16 and [rspamd_strtoul],
    on the digits they accept. *)
Definition hex_digit (b : Z) : option Z :=
  if g_ascii_isdigit b then Some (b - 48)
  else if (97 <=? b) && (b <=? 102) then Some (b - 87)
  else if (65 <=? b) && (b <=? 70) then Some (b - 55)
  else None.

Fixpoint strtoul_hex_acc (s : bytes) (acc : Z) : Z :=
  match s with
  | b :: r =>
      match hex_digit b with
      | Some d => strtoul_hex_acc r (16 * acc + d)
      | None => acc
      end
  | [] => acc
  end.

Definition gulong_max : Z := 2 ^ 64 - 1.

Fixpoint strtoul_dec_acc (s : bytes) (v : Z) : bool * Z :=
  match s with
  | b :: r =>
      if g_ascii_isdigit b then
        let d := b - 48 in
        if (gulong_max / 10 <? v)
           || ((v =? gulong_max / 10) && (gulong_max mod 10 <? d))
        then (false, gulong_max)
        else strtoul_dec_acc r (v * 10 + d)
      else (false, v)
  | [] => (true, v)
  end.

(** Modelled from the spec: the named colors of the CSS collaborator
    (section 4.7), as [0xRRGGBB]. *)
Definition named_colors : list (string * Z) :=
  [ ("black", 0); ("white", 16777215); ("red", 16711680);
    ("green", 32768); ("blue", 255) ]%string.

Definition color_from_string (s : bytes) : option Z :=
  (λ r, snd (snd r)) <$>
    list_find (λ e, bytes_of_string (fst e) = rspamd_str_lc s) named_colors.

(** Modelled from the spec: the doubles of the size parser (section 4.7)
    on the decimal numbers it reads, as exact rationals.  [strtod] reads
    digits, and a fraction after a dot. *)
Fixpoint digits_value (s : bytes) (acc : Z) : Z :=
  match s with
  | b :: r => digits_value r (10 * acc + (b - 48))
  | [] => acc
  end.

Definition strtod (s : bytes) : Q * bytes :=
  let '(ip, rest) := span g_ascii_isdigit s in
  match rest with
  | 46 :: r =>
      let '(fp, rest') := span g_ascii_isdigit r in
      ((digits_value (ip ++ fp) 0 # Pos.of_nat (10 ^ length fp))%Q, rest')
  | _ => (inject_Z (digits_value ip 0), rest)
  end.

(** The casts truncate; the numbers here are not negative. *)
Definition q_to_guint (q : Q) : Z := Qfloor q mod guint_max.
Definition q_to_guint8 (q : Q) : Z := Qfloor q mod 256.

#[global] Instance text : text_collaborators := {|
  by_name := registry_by_name;
  decode_html_entitles_inplace := decode_entities;
  rspamd_str_lc_utf8 := rspamd_str_lc;
  rspamd_strlcpy := strlcpy;
|}.

#[global] Instance url : url_collaborators := {|
  rspamd_substring_search := substring_search;
  rspamd_substring_search_caseless := substring_search_caseless;
  rspamd_url_normalise_propagate_flags := λ s flags, (s, flags);
  rspamd_url_parse := url_parse;
  rspamd_urls_cmp := λ u v, bool_decide (url_string u = url_string v);
  rspamd_url_find_multiple := λ _, [];
  rspamd_html_url_is_phished := λ u _, (u, false, None);
  rspamd_string_unicode_trim_inplace := strip_tail ∘ strip_head;
  rspamd_normalise_unicode_inplace := λ s, s;
|}.

#[global] Instance doubles : double_ops := {|
  gdouble := Q;
  d_of_Z := inject_Z;
  d_2_54 := (127 # 50)%Q;
  d_9_6 := (48 # 5)%Q;
  d_strtod := strtod;
  d_mul := Qmult;
  d_div := Qdiv;
  d_ltb := λ x y, negb (Qle_bool y x);
  d_leb := Qle_bool;
  d_to_guint := q_to_guint;
  d_to_guint8 := q_to_guint8;
|}.

#[global] Instance style : style_collaborators := {|
  strtoul_hex := λ s, strtoul_hex_acc s 0;
  rspamd_strtoul := λ s, strtoul_dec_acc s 0;
  maybe_color_from_string := color_from_string;
  rspamd_css_parse_style := λ _ existing, existing;
  rspamd_cryptobox_base64_decode := λ _, [];
  rspamd_maybe_process_image := λ _, None;
|}.

(** Modelled from the spec: the attribute lexer that the tokenizer calls
    is not among the sources.  Section 4.2: the tag name ends at the first
    whitespace, slash or [>], a slash sets [FL_CLOSED], an empty name is a
    broken tag; an attribute name is looked up in the component map,
    decoded and lowercased, and an unknown one is dropped with its value; a
    value is quoted, or runs to the next whitespace or double quote; a
    duplicate attribute is ignored.  The tokenizer calls the lexer on every
    byte of the tag; this model notes where the tag begins and does its
    work when it is called on the closing [>]. *)
Definition store_attr (name value : bytes) (t : html_tag) : html_tag :=
  match TagParser.components_find (rspamd_str_lc (decode_entities name)) with
  | Some k =>
      match parameters t !! k, value with
      | None, _ :: _ =>
          let v := decode_entities value in
          set_params (params t ++ [{| comp_type := k; comp_val := v |}])
            (set_parameters (<[k := v]> (parameters t)) t)
      | _, _ => t
      end
  | None => t
  end.

Fixpoint lex_attrs (fuel : nat) (rest : bytes) (t : html_tag) : html_tag :=
  match fuel with
  | O => t
  | S f =>
      match strip_head rest with
      | [] => t
      | b :: r =>
          if b =? c_slash then lex_attrs f r (or_tag_flags FL_CLOSED t)
          else
            let '(name, rest1) :=
              span (λ x, negb (g_ascii_isspace x) && negb (x =? c_eq)
                         && negb (x =? c_slash)) (b :: r) in
            match strip_head rest1 with
            | 61 :: r2 =>
                match strip_head r2 with
                | 34 :: r4 =>
                    let '(v, r5) := span (λ x, negb (x =? c_dquote)) r4 in
                    lex_attrs f (drop 1 r5) (store_attr name v t)
                | 39 :: r4 =>
                    let '(v, r5) := span (λ x, negb (x =? c_squote)) r4 in
                    lex_attrs f (drop 1 r5) (store_attr name v t)
                | r3 =>
                    let '(v, r5) :=
                      span (λ x, negb (g_ascii_isspace x)
                                 && negb (x =? c_dquote)) r3 in
                    lex_attrs f r5 (store_attr name v t)
                end
            | rest2 => lex_attrs f (drop 1 rest2) t
            end
      end
  end.

Definition lex_tag (interior : bytes) (hc : html_content) (t : html_tag)
    : html_content * html_tag :=
  let '(name, rest) :=
    span (λ x, negb (g_ascii_isspace x) && negb (x =? c_slash))
      (strip_head interior) in
  match name with
  | [] =>
      (or_hc_flags RSPAMD_HTML_FLAG_BAD_ELEMENTS hc,
       or_tag_flags FL_BROKEN (set_tag_id (-1) t))
  | _ :: _ =>
      let lname := rspamd_str_lc (decode_entities name) in
      let t := set_tag_name lname t in
      match registry_by_name lname with
      | None =>
          (or_hc_flags RSPAMD_HTML_FLAG_UNKNOWN_ELEMENTS hc, set_tag_id (-1) t)
      | Some (id, fl) =>
          (hc, lex_attrs (S (length rest)) rest
                 (set_tag_flags fl (set_tag_id id t)))
      end
  end.

#[global] Instance lexer : lexer_collaborator := {|
  rspamd_html_parse_tag_content := λ input hc t p substate savep,
    let start := default p savep in
    if bool_decide (peek input p = Some c_gt) then
      let '(hc, t) := lex_tag (slice input start p) hc t in
      (hc, t, substate, Some start)
    else (hc, t, substate, Some start);
|}.

End Scenario.

(** ** Runs of the attribute lexer *)

Section lexer_runs.
Import TagParser.
Context `{html_tags_h} `{text_collaborators}.

(** An occurrence of an attribute, as [store_tag_component] finds it in
    the parser state when a value ends at [in_]: a recognized kind and a
    value of at least one byte that began at [saved_p]; the value is the
    decoded copy of the bytes. *)
Definition attribute_occurrence (buf : bytes) (in_ : Z)
    (env : tag_content_parser_state) : option (html_component_type * bytes) :=
  match saved_p env, cur_component env with
  | Some sp, Some k =>
      if sp <? in_ then Some (k, decode_html_entitles_inplace (slice buf sp in_))
      else None
  | _, _ => None
  end.

(** The calls of [parse_tag_content] at which a value ends: the closing
    quote of a quoted value, and after an unquoted one a space, [>], a
    double quote or [/>]. *)
Definition completes_value (buf : bytes) (in_ : Z)
    (env : tag_content_parser_state) : bool :=
  match state_of_int (cur_state env), peek buf in_ with
  | Some parse_dqvalue, Some c => c =? c_dquote
  | Some parse_sqvalue, Some c => c =? c_squote
  | Some parse_value, Some c =>
      ((c =? c_slash) && bool_decide (peek buf (in_ + 1) = Some c_gt))
      || g_ascii_isspace c || (c =? c_gt) || (c =? c_dquote)
  | _, _ => false
  end.

Definition call_occurrence (buf : bytes)
    (call : Z * tag_content_parser_state)
    : option (html_component_type * bytes) :=
  if completes_value buf (fst call) (snd call)
  then attribute_occurrence buf (fst call) (snd call) else None.

(** The state of a run of the lexer: the content root, the tag and the
    parser state. *)
Definition lexer_state : Type :=
  html_content * lexed_tag * tag_content_parser_state.

(** The calls of [parse_tag_content] on the [n] bytes from [in_] on, one
    call per byte, each from the parser state that the call before has
    computed and stored at line 633.  (What the struct of the caller holds
    between the calls is the matter of [parse_tag_content].) *)
Fixpoint lexer_run (buf : bytes) (n : nat) (in_ : Z) (st : lexer_state)
    : option lexer_state :=
  match n with
  | O => Some st
  | S k =>
      st' ← parse_tag_content_body buf st.1.1 st.1.2 in_ st.2;
      lexer_run buf k (in_ + 1) st'
  end.

(** The value of the first occurrence of a kind in a list of
    occurrences. *)
Definition first_occurrence (k : html_component_type)
    (occs : list (html_component_type * bytes)) : option bytes :=
  (λ r, snd (snd r)) <$> list_find (λ o, fst o = k) occs.

(** An attribute as it is written in a tag: the name, the quote around the
    value, if there is one, and the value. *)
Record attribute := {
  attr_name : bytes;
  attr_quote : option Z;
  attr_value : bytes;
}.

(** The value as it is written, between its quotes or bare. *)
Definition value_text (a : attribute) : bytes :=
  match attr_quote a with
  | Some q => [q] ++ attr_value a ++ [q]
  | None => attr_value a
  end.

(** A space, the name, [=] and the value. *)
Definition attr_text (a : attribute) : bytes :=
  [c_space] ++ attr_name a ++ [c_eq] ++ value_text a.

(** The text of a tag between [<] and [>], and the [>]. *)
Definition tag_text (name : bytes) (attrs : list attribute) : bytes :=
  name ++ flat_map attr_text attrs ++ [c_gt].

(** A tag name: a letter, then bytes that do not end the name. *)
Definition tag_name_ok (name : bytes) : Prop :=
  ∃ a r, name = a :: r ∧ g_ascii_isalpha a = true
         ∧ Forall (λ b, g_ascii_isspace b = false ∧ b ≠ c_gt ∧ b ≠ c_slash) r.

(** A byte of an attribute name. *)
Definition attr_name_byte (b : Z) : Prop :=
  g_ascii_isgraph b = true ∧ b ≠ c_eq ∧ b ≠ c_dquote ∧ b ≠ c_slash
  ∧ b ≠ c_gt.

(** A byte of a value written without quotes. *)
Definition bare_value_byte (b : Z) : Prop :=
  g_ascii_isspace b = false ∧ b ≠ c_gt ∧ b ≠ c_dquote ∧ b ≠ c_slash.

(** An attribute: a name and either one of the two quotes around a value
    without that quote, or a bare value of at least one byte that does not
    begin with a quote. *)
Definition attr_ok (a : attribute) : Prop :=
  attr_name a ≠ [] ∧ Forall attr_name_byte (attr_name a)
  ∧ match attr_quote a with
    | Some q => (q = c_dquote ∨ q = c_squote) ∧ q ∉ attr_value a
    | None => attr_value a ≠ [] ∧ head (attr_value a) ≠ Some c_squote
              ∧ Forall bare_value_byte (attr_value a)
    end.

(** What an attribute stores when its kind has no value yet: the decoded
    value, if [find_tag_component_name] knows the decoded name and the
    value is not empty. *)
Definition attr_stores (a : attribute)
    : option (html_component_type * bytes) :=
  k ← components_find (decode_html_entitles_inplace (attr_name a));
  if bool_decide (attr_value a = []) then None
  else Some (k, decode_html_entitles_inplace (attr_value a)).

(** The first occurrence of a kind as the specification counts it: the
    value that the first attribute with a name of the kind is written
    with, empty or not. *)
Definition first_written (k : html_component_type)
    (attrs : list attribute) : option bytes :=
  (λ r, attr_value (snd r)) <$>
    list_find (λ a, components_find (decode_html_entitles_inplace (attr_name a))
                    = Some k) attrs.

(** The bytes of [l] stand in [buf] from [o] on. *)
Definition reads (buf : bytes) (o : Z) (l : bytes) : Prop :=
  0 ≤ o ∧ ∀ (i : nat) x, l !! i = Some x → buf !! (Z.to_nat o + i)%nat = Some x.

(** A parser state by its three fields. *)
Definition env_of (s : Z) (sp : option Z) (cc : option html_component_type)
    : tag_content_parser_state :=
  {| cur_state := s; saved_p := sp; cur_component := cc |}.

(** The states of a quoted value, by its quote: [parse_start_dquote],
    [parse_dqvalue] and [parse_end_dquote], or those of the single
    quote. *)
Definition q_start (q : Z) : Z := if q =? c_dquote then 4 else 7.
Definition q_value (q : Z) : Z := if q =? c_dquote then 5 else 8.
Definition q_end (q : Z) : Z := if q =? c_dquote then 6 else 9.

(** Between two attributes: the name of the tag or a value has just been
    read.  [pend] is what the byte that follows has yet to store: the
    bare value it ends, if there is one. *)
Definition at_boundary (buf : bytes) (o : Z) (tag : lexed_tag)
    (env : tag_content_parser_state)
    (pend : option (html_component_type * bytes)) : Prop :=
  ∃ s sp cc, env = env_of s sp cc
    ∧ ((sp = None ∧ pend = None
        ∧ (s = 6 ∨ s = 9 ∨ s = 14
           ∨ (s = 1 ∧ ∃ st, name_start tag = Some st ∧ 0 ≤ st < o)))
       ∨ (s = 10 ∧ attribute_occurrence buf o env = pend)).

End lexer_runs.

(** ** URLs that the resolver accepts *)

(** The URL behind a pointer has a host and a known protocol. *)
Definition url_accepted_at `{html_tags_h} (h : heap) (p : nat) : Prop :=
  ∃ u, urls h !! p = Some u ∧ 0 < url_hostlen u
       ∧ has_flag (url_protocol u) PROTOCOL_UNKNOWN = false.

(** The buffer that [rspamd_html_process_url] hands to the URL parser:
    the stripped attribute with the synthesized prefix, encoded and
    normalised. *)
Definition url_parser_input `{html_tags_h} `{url_collaborators}
    (start : bytes) : option (bytes * bool) :=
  let s := strip_tail (strip_head start) in
  '(prefix, no_prefix) ← url_prefix_scan s;
  Some (fst (rspamd_url_normalise_propagate_flags
               ((if no_prefix : bool then prefix else []) ++ fst (url_encode s))
               0),
        no_prefix).

(** The heap [h'] keeps what [h] knows about accepted URLs. *)
Definition urls_kept `{html_tags_h} (h h' : heap) : Prop :=
  ∀ q, url_accepted_at h q → url_accepted_at h' q.

(** The writes of html.cxx to a URL change its flags, its count and its
    visible part, never the host or the protocol. *)
Definition keeps_host_and_protocol (f : rspamd_url → rspamd_url) : Prop :=
  ∀ x, url_hostlen (f x) = url_hostlen x ∧ url_protocol (f x) = url_protocol x.

(** What a step adds to [part_urls] has been accepted by the resolver. *)
Definition pushes_accepted `{html_tags_h} (h' : heap) (pu pu' : option (list nat)) : Prop :=
  ∀ l, pu = Some l →
       ∃ added, pu' = Some (l ++ added) ∧ Forall (url_accepted_at h') added.

(** ** Turns of the tokenizer loop *)

(** The tokenizer after [n] turns of its loop. *)
Fixpoint tokenizer_turns `{html_tags_h} `{text_collaborators}
    `{url_collaborators} `{double_ops} `{style_collaborators}
    `{lexer_collaborator} (input : bytes) (allow_css : bool) (n : nat)
    (s : Tokenizer.tokenizer) : option Tokenizer.tokenizer :=
  match n with
  | O => Some s
  | S k =>
      s ← Tokenizer.tokenizer_step input allow_css s;
      tokenizer_turns input allow_css k s
  end.

(** The tags whose tokens are followed by a line break. *)
Definition breaks_line `{html_tags_h} (id : Z) : bool :=
  (id =? Tag_BR) || (id =? Tag_HR) || (id =? Tag_P) || (id =? Tag_TR)
  || (id =? Tag_DIV).

(** The visible text to which a line break is due. *)
Definition wants_newline (d : bytes) : bool :=
  (0 <? blen d) && negb (bool_decide (last d = Some c_nl)).

(** ** The tag tree as the tree builder keeps it *)

(** A slot of the node store that holds a node with a tag.  Every node
    is linked under its parent in the step that creates it, so the nodes
    that are allocated and not destroyed are the nodes of the tree. *)
Definition is_tag_node (n : option GNode) : bool :=
  match n with
  | Some nd => match data nd with Some _ => true | None => false end
  | None => false
  end.

(** The number of tag records that the tree retains. *)
Fixpoint count_tag_nodes (ns : list (option GNode)) : nat :=
  match ns with
  | [] => 0
  | n :: r => (if is_tag_node n then 1 else 0) + count_tag_nodes r
  end.

(** The tokenizer allocates a tag, fills it, and hands it to the tree
    builder, once; [process_tags] is the tree builder on the tags of an
    input, in the order of their tokens. *)
Fixpoint process_tags `{html_tags_h} (ts : list html_tag) (h : heap)
    (hc : html_content) (cur_level : option nat)
    : option (heap * html_content * option nat) :=
  match ts with
  | [] => Some (h, hc, cur_level)
  | t :: rest =>
      let '(h, tag) := alloc_tag t h in
      '(h, hc, cur_level, _, _) ←
        rspamd_html_process_tag h hc tag cur_level true;
      process_tags rest h hc cur_level
  end.

(** The shape of the node store that the tree builder maintains: a parent
    is older than its children and is not destroyed before them, the tag
    of a node exists and its [parent] field is the parent of the node, and
    once the root exists the current level is a node. *)
Record tree_wf (h : heap) (hc : html_content) (cur_level : option nat)
    : Prop := {
  wf_parent :
    ∀ i nd p, nodes h !! i = Some (Some nd) → gparent nd = Some p →
              (p < i)%nat ∧ ∃ pn, nodes h !! p = Some (Some pn);
  wf_data :
    ∀ i nd tp, nodes h !! i = Some (Some nd) → data nd = Some tp →
               ∃ t, tags h !! tp = Some t ∧ tag_parent t = gparent nd
                    ∧ is_Some (gparent nd);
  wf_level :
    is_Some (html_tags hc) →
    ∃ c cn, cur_level = Some c ∧ nodes h !! c = Some (Some cn);
}.

(** No node of the tree carries the tag yet. *)
Definition tag_unlinked (h : heap) (tag : nat) : Prop :=
  ∀ i nd, nodes h !! i = Some (Some nd) → data nd ≠ Some tag.

(** The open tags above a node: the tags of the node and of its
    ancestors, from the node upwards, up to the root. *)
Inductive open_chain (h : heap) : option nat → list (nat * html_tag) → Prop :=
  | open_chain_null : open_chain h None []
  | open_chain_root c nd :
      nodes h !! c = Some (Some nd) → data nd = None →
      open_chain h (Some c) []
  | open_chain_node c nd tp t l :
      nodes h !! c = Some (Some nd) → data nd = Some tp →
      tags h !! tp = Some t →
      open_chain h (gparent nd) l →
      open_chain h (Some c) ((c, t) :: l).

(** What [rspamd_html_check_balance] looks for: a tag with the id of the
    closing tag that is not closed yet. *)
Definition closes `{html_tags_h} (id : Z) (e : nat * html_tag) : bool :=
  (tag_id (snd e) =? id) && negb (has_flag (tag_flags (snd e)) FL_CLOSED).

(** The weight of a slot in [count_tag_nodes]. *)
Definition tagged (n : option GNode) : nat := if is_tag_node n then 1 else 0.

(** The invariant of the tag counter: the tree retains no more tag
    records than were counted, and no more than [max_tags]. *)
Definition count_bound (h : heap) (hc : html_content) : Prop :=
  Z.of_nat (count_tag_nodes (nodes h)) ≤ Z.min (total_tags hc) max_tags.

(** The node store after [g_node_new] and [g_node_append]: the new leaf
    [leaf d p] is the last slot and the last child of its parent [pn], the
    node at [p]. *)
Definition with_child (pn : GNode) (n : nat) : GNode :=
  {| data := data pn; gparent := gparent pn; children := children pn ++ [n] |}.

Definition leaf (d : option nat) (p : nat) : GNode :=
  {| data := d; gparent := Some p; children := [] |}.

Definition add_child (ns : list (option GNode)) (p : nat) (pn : GNode)
    (d : option nat) : list (option GNode) :=
  <[p := Some (with_child pn (length ns))]> ns ++ [Some (leaf d p)].

(** The parent of a destroyed node. *)
Definition without_child (pn : GNode) (n : nat) : GNode :=
  {| data := data pn; gparent := gparent pn;
     children := filter (λ c, c ≠ n) (children pn) |}.

(** What a write through the pointer [tag] leaves alone: the nodes and
    every other tag. *)
Definition tags_kept (tag : nat) (h h' : heap) : Prop :=
  nodes h' = nodes h ∧ length (tags h') = length (tags h)
  ∧ ∀ p, p ≠ tag → tags h' !! p = tags h !! p.

(** Modelled from the spec: with the registry of [Scenario], an unknown
    tag and the tokens [<div>] and [</div>] as the tokenizer hands them to
    the tree builder. *)
Definition unknown_tag : html_tag :=
  set_tag_id (-1) (set_tag_name (bytes_of_string "x") tag_zero).

Definition div_open : html_tag :=
  set_tag_flags FL_BLOCK
    (set_tag_id Tag_DIV (set_tag_name (bytes_of_string "div") tag_zero)).

Definition div_close : html_tag := or_tag_flags FL_CLOSING div_open.

(** The heap and the content root after [<div>] and 8191 unknown tags. *)
Definition limit_heap : heap :=
  {| tags := set_tag_parent (Some 0%nat) div_open
             :: replicate (Z.to_nat 8191) unknown_tag;
     nodes := [Some {| data := None; gparent := None; children := [1%nat] |};
               Some {| data := Some 0%nat; gparent := Some 0%nat; children := [] |}];
     blocks := []; urls := []; images := [] |}.

Definition limit_content : html_content :=
  set_total_tags 8192 (set_html_tags (Some 0%nat) hc_zero).

(** What every handler of the tokenizer but the tree builder leaves
    alone: the nodes and the tag counter; the cursor does not move back. *)
Definition tree_frame (s s' : Tokenizer.tokenizer) : Prop :=
  nodes (Tokenizer.tk_heap s') = nodes (Tokenizer.tk_heap s)
  ∧ total_tags (Tokenizer.tk_hc s') = total_tags (Tokenizer.tk_hc s)
  ∧ Tokenizer.tk_p s ≤ Tokenizer.tk_p s'.

(** The invariant of the tag counter along a run of the tokenizer: every
    counted tag took a turn of the state [tag_end], which moves the cursor
    by one byte. *)
Definition counter_inv (s : Tokenizer.tokenizer) : Prop :=
  count_bound (Tokenizer.tk_heap s) (Tokenizer.tk_hc s)
  ∧ 0 ≤ total_tags (Tokenizer.tk_hc s) ≤ Tokenizer.tk_p s.

(** The counter has not passed the limit and [TOO_MANY_TAGS] is not
    raised. *)
Definition below_limit (hc : html_content) : Prop :=
  total_tags hc ≤ max_tags
  ∧ has_flag (hc_flags hc) RSPAMD_HTML_FLAG_TOO_MANY_TAGS = false.

(** ** What the handlers of [tag_end] change *)

(** The state flags that the handlers of [tag_end] set on a tag. *)
Definition handler_flags `{html_tags_h} : Z :=
  Z.lor (Z.lor (Z.lor FL_IGNORE FL_CLOSED) FL_HREF) FL_IMAGE.

(** What the handlers of [tag_end] do to a tag: the id stays, and the
    flags gain bits of [handler_flags] at most. *)
Definition tag_grows `{html_tags_h} (t t' : html_tag) : Prop :=
  tag_id t' = tag_id t
  ∧ ∃ m, tag_flags t' = Z.lor (tag_flags t) m ∧ Z.land m handler_flags = m.

(** The same of the tags of a heap: every tag stays where it is. *)
Definition tags_grow `{html_tags_h} (l l' : list html_tag) : Prop :=
  ∀ p t, l !! p = Some t → ∃ t', l' !! p = Some t' ∧ tag_grows t t'.

(** The value of [dest] that the image handler is given and the one it
    leaves: the handler appends. *)
Definition dest_grows (d d' : option bytes) : Prop :=
  match d, d' with
  | Some x, Some y => x `prefix_of` y
  | None, None => True
  | _, _ => False
  end.

(** A handler that leaves the visible text and the position alone. *)
Definition quiet `{html_tags_h} (s s' : Tokenizer.tokenizer) : Prop :=
  Tokenizer.dest s' = Tokenizer.dest s
  ∧ Tokenizer.tk_p s' = Tokenizer.tk_p s
  ∧ tags_grow (tags (Tokenizer.tk_heap s)) (tags (Tokenizer.tk_heap s')).

(** A block whose style is complete: the propagation has given it a font
    color and a font size. *)
Definition style_complete (b : html_block) : Prop :=
  col_valid (font_color b) = true ∧ font_size b ≠ font_size_unset.

(** ** Measures and relations of the further properties *)

(** The test of lines 692 and 760: an ASCII byte that is not graphic. *)
Definition needs_encoding (b : Z) : bool :=
  (b <? 128) && negb (g_ascii_isgraph b).

(** The first loop of [rspamd_html_process_url] (lines 689-699): the size
    it reserves for the bytes of the URL. *)
Definition url_encoded_size (s : bytes) : Z :=
  foldr (λ b n, (if needs_encoding b then 3 else 1) + n) 0 s.

(** [dlen + 1], the size of the buffer [decoded] (line 743): the prefix
    scan adds the length of the prefix it chooses. *)
Definition url_buffer_size `{url_collaborators} (s : bytes) : option Z :=
  '(prefix, no_prefix) ← url_prefix_scan s;
  Some (url_encoded_size s + (if no_prefix : bool then blen prefix else 0) + 1).

(** The four components of a color are bytes. *)
Definition color_in_range (c : html_color) : Prop :=
  0 ≤ col_r c < 256 ∧ 0 ≤ col_g c < 256 ∧ 0 ≤ col_b c < 256
  ∧ 0 ≤ col_alpha c < 256.

(** The turns that the loop of [rspamd_html_process_style] still takes at
    most: two per position up to [end], one more while it skips spaces. *)
Definition style_turns (style : bytes) (p : Z) (state : style_state) : nat :=
  if blen style <? p then 0%nat
  else Z.to_nat (2 * (blen style - p) + 2
                 + match state with ss_skip_spaces => 1 | _ => 0 end).

(** The value that [read_value] hands on starts at [c], a byte of the
    style that is no space. *)
Definition value_start (style : bytes) (c : Z) : Prop :=
  ∃ x, peek style c = Some x ∧ g_ascii_isspace x = false.

(** The sum of the content lengths of the tags of the nodes [cs]. *)
Definition children_length (h : heap) (cs : list nat) : option Z :=
  foldr (λ child acc,
           n ← acc; cn ← load_node h child; cp ← data cn;
           ct ← load_tag h cp; Some (content_length ct + n))
        (Some 0) cs.

(** Every block of the queue has a complete style. *)
Definition queue_complete (h : heap) (queue : list nat) : Prop :=
  Forall (λ q, ∃ b, blocks h !! q = Some b ∧ style_complete b) queue.

(** How many turns a state of the tokenizer can take at most before the
    cursor moves. *)
Definition tk_rank (st : Tokenizer.tokenizer_state) : Z :=
  match st with
  | Tokenizer.tag_end => 0
  | Tokenizer.tag_content | Tokenizer.sgml_content | Tokenizer.xml_tag
  | Tokenizer.xml_tag_end | Tokenizer.compound_tag | Tokenizer.comment_tag
  | Tokenizer.comment_content => 1
  | Tokenizer.tag_begin | Tokenizer.sgml_tag => 2
  | Tokenizer.content_ignore | Tokenizer.content_write => 3
  | Tokenizer.parse_start | Tokenizer.content_style
  | Tokenizer.content_ignore_sp => 4
  end.

(** The turns that the loop [while (p < end)] still takes at most. *)
Definition tk_turns (input : bytes) (s : Tokenizer.tokenizer) : nat :=
  if blen input <=? Tokenizer.tk_p s then 0%nat
  else Z.to_nat (5 * (blen input - Tokenizer.tk_p s)
                 + tk_rank (Tokenizer.tk_state s)).

(** What a handler of the state [tag_end] or of the text emitter does to
    the cursor and to the visible text: the cursor stays, the text
    grows. *)
Definition emits (s s' : Tokenizer.tokenizer) : Prop :=
  Tokenizer.tk_p s' = Tokenizer.tk_p s
  ∧ Tokenizer.dest s `prefix_of` Tokenizer.dest s'.

(** A byte of running text: no [<] and no white space. *)
Definition plain_byte (b : Z) : Prop := b ≠ c_lt ∧ g_ascii_isspace b = false.

(** ** The character table of the configuration parser (rcl_chartable.h) *)

(** The flags of [enum rcl_character_type]; their values are in
    rcl_internal.h, which is not among the sources.  An entry of the table
    is the list of the flags that its initializer joins with [|]. *)
Inductive rcl_character_type :=
  | RCL_CHARACTER_DENIED
  | RCL_CHARACTER_KEY
  | RCL_CHARACTER_KEY_START
  | RCL_CHARACTER_WHITESPACE
  | RCL_CHARACTER_VALUE_END
  | RCL_CHARACTER_VALUE_STR
  | RCL_CHARACTER_VALUE_DIGIT
  | RCL_CHARACTER_VALUE_DIGIT_START.

#[global] Instance rcl_character_type_eq_dec : EqDecision rcl_character_type.
Proof. solve_decision. Defined.

(** [static const unsigned char rcl_chartable[255]] (lines 29-255), in the
    order of the initializer. *)
Definition rcl_chartable : list (list rcl_character_type) :=
  [ [RCL_CHARACTER_VALUE_END]; [RCL_CHARACTER_DENIED]; [RCL_CHARACTER_DENIED];
    [RCL_CHARACTER_DENIED]; [RCL_CHARACTER_DENIED]; [RCL_CHARACTER_DENIED];
    [RCL_CHARACTER_DENIED]; [RCL_CHARACTER_DENIED]; [RCL_CHARACTER_DENIED];
    [RCL_CHARACTER_WHITESPACE];
    [RCL_CHARACTER_WHITESPACE; RCL_CHARACTER_VALUE_END];
    [RCL_CHARACTER_WHITESPACE]; [RCL_CHARACTER_WHITESPACE];
    [RCL_CHARACTER_WHITESPACE; RCL_CHARACTER_VALUE_END];
    [RCL_CHARACTER_DENIED]; [RCL_CHARACTER_DENIED]; [RCL_CHARACTER_DENIED];
    [RCL_CHARACTER_DENIED]; [RCL_CHARACTER_DENIED]; [RCL_CHARACTER_DENIED];
    [RCL_CHARACTER_DENIED]; [RCL_CHARACTER_DENIED]; [RCL_CHARACTER_DENIED];
    [RCL_CHARACTER_DENIED]; [RCL_CHARACTER_DENIED]; [RCL_CHARACTER_DENIED];
    [RCL_CHARACTER_DENIED]; [RCL_CHARACTER_DENIED]; [RCL_CHARACTER_DENIED];
    [RCL_CHARACTER_DENIED]; [RCL_CHARACTER_DENIED]; [RCL_CHARACTER_DENIED];
    [RCL_CHARACTER_WHITESPACE; RCL_CHARACTER_VALUE_STR];
    [RCL_CHARACTER_VALUE_STR]; [RCL_CHARACTER_VALUE_STR];
    [RCL_CHARACTER_VALUE_END]; [RCL_CHARACTER_VALUE_STR];
    [RCL_CHARACTER_VALUE_STR]; [RCL_CHARACTER_VALUE_STR];
    [RCL_CHARACTER_VALUE_STR]; [RCL_CHARACTER_VALUE_STR];
    [RCL_CHARACTER_VALUE_STR]; [RCL_CHARACTER_VALUE_STR];
    [RCL_CHARACTER_VALUE_STR; RCL_CHARACTER_VALUE_DIGIT];
    [RCL_CHARACTER_VALUE_END];
    [RCL_CHARACTER_KEY; RCL_CHARACTER_VALUE_STR; RCL_CHARACTER_VALUE_DIGIT_START; RCL_CHARACTER_VALUE_DIGIT];
    [RCL_CHARACTER_VALUE_STR; RCL_CHARACTER_VALUE_DIGIT];
    [RCL_CHARACTER_VALUE_STR];
    [RCL_CHARACTER_KEY; RCL_CHARACTER_VALUE_STR; RCL_CHARACTER_VALUE_DIGIT_START; RCL_CHARACTER_VALUE_DIGIT];
    [RCL_CHARACTER_KEY; RCL_CHARACTER_VALUE_STR; RCL_CHARACTER_VALUE_DIGIT_START; RCL_CHARACTER_VALUE_DIGIT];
    [RCL_CHARACTER_KEY; RCL_CHARACTER_VALUE_STR; RCL_CHARACTER_VALUE_DIGIT_START; RCL_CHARACTER_VALUE_DIGIT];
    [RCL_CHARACTER_KEY; RCL_CHARACTER_VALUE_STR; RCL_CHARACTER_VALUE_DIGIT_START; RCL_CHARACTER_VALUE_DIGIT];
    [RCL_CHARACTER_KEY; RCL_CHARACTER_VALUE_STR; RCL_CHARACTER_VALUE_DIGIT_START; RCL_CHARACTER_VALUE_DIGIT];
    [RCL_CHARACTER_KEY; RCL_CHARACTER_VALUE_STR; RCL_CHARACTER_VALUE_DIGIT_START; RCL_CHARACTER_VALUE_DIGIT];
    [RCL_CHARACTER_KEY; RCL_CHARACTER_VALUE_STR; RCL_CHARACTER_VALUE_DIGIT_START; RCL_CHARACTER_VALUE_DIGIT];
    [RCL_CHARACTER_KEY; RCL_CHARACTER_VALUE_STR; RCL_CHARACTER_VALUE_DIGIT_START; RCL_CHARACTER_VALUE_DIGIT];
    [RCL_CHARACTER_KEY; RCL_CHARACTER_VALUE_STR; RCL_CHARACTER_VALUE_DIGIT_START; RCL_CHARACTER_VALUE_DIGIT];
    [RCL_CHARACTER_KEY; RCL_CHARACTER_VALUE_STR; RCL_CHARACTER_VALUE_DIGIT_START; RCL_CHARACTER_VALUE_DIGIT];
    [RCL_CHARACTER_VALUE_STR]; [RCL_CHARACTER_VALUE_END];
    [RCL_CHARACTER_VALUE_STR]; [RCL_CHARACTER_VALUE_STR];
    [RCL_CHARACTER_VALUE_STR]; [RCL_CHARACTER_VALUE_STR];
    [RCL_CHARACTER_VALUE_STR];
    [RCL_CHARACTER_KEY_START; RCL_CHARACTER_KEY; RCL_CHARACTER_VALUE_STR; RCL_CHARACTER_VALUE_DIGIT];
    [RCL_CHARACTER_KEY_START; RCL_CHARACTER_KEY; RCL_CHARACTER_VALUE_STR; RCL_CHARACTER_VALUE_DIGIT];
    [RCL_CHARACTER_KEY_START; RCL_CHARACTER_KEY; RCL_CHARACTER_VALUE_STR; RCL_CHARACTER_VALUE_DIGIT];
    [RCL_CHARACTER_KEY_START; RCL_CHARACTER_KEY; RCL_CHARACTER_VALUE_STR; RCL_CHARACTER_VALUE_DIGIT];
    [RCL_CHARACTER_KEY_START; RCL_CHARACTER_KEY; RCL_CHARACTER_VALUE_STR; RCL_CHARACTER_VALUE_DIGIT];
    [RCL_CHARACTER_KEY_START; RCL_CHARACTER_KEY; RCL_CHARACTER_VALUE_STR; RCL_CHARACTER_VALUE_DIGIT];
    [RCL_CHARACTER_KEY_START; RCL_CHARACTER_KEY; RCL_CHARACTER_VALUE_STR; RCL_CHARACTER_VALUE_DIGIT];
    [RCL_CHARACTER_KEY_START; RCL_CHARACTER_KEY; RCL_CHARACTER_VALUE_STR; RCL_CHARACTER_VALUE_DIGIT];
    [RCL_CHARACTER_KEY_START; RCL_CHARACTER_KEY; RCL_CHARACTER_VALUE_STR; RCL_CHARACTER_VALUE_DIGIT];
    [RCL_CHARACTER_KEY_START; RCL_CHARACTER_KEY; RCL_CHARACTER_VALUE_STR; RCL_CHARACTER_VALUE_DIGIT];
    [RCL_CHARACTER_KEY_START; RCL_CHARACTER_KEY; RCL_CHARACTER_VALUE_STR; RCL_CHARACTER_VALUE_DIGIT];
    [RCL_CHARACTER_KEY_START; RCL_CHARACTER_KEY; RCL_CHARACTER_VALUE_STR; RCL_CHARACTER_VALUE_DIGIT];
    [RCL_CHARACTER_KEY_START; RCL_CHARACTER_KEY; RCL_CHARACTER_VALUE_STR; RCL_CHARACTER_VALUE_DIGIT];
    [RCL_CHARACTER_KEY_START; RCL_CHARACTER_KEY; RCL_CHARACTER_VALUE_STR; RCL_CHARACTER_VALUE_DIGIT];
    [RCL_CHARACTER_KEY_START; RCL_CHARACTER_KEY; RCL_CHARACTER_VALUE_STR; RCL_CHARACTER_VALUE_DIGIT];
    [RCL_CHARACTER_KEY_START; RCL_CHARACTER_KEY; RCL_CHARACTER_VALUE_STR; RCL_CHARACTER_VALUE_DIGIT];
    [RCL_CHARACTER_KEY_START; RCL_CHARACTER_KEY; RCL_CHARACTER_VALUE_STR; RCL_CHARACTER_VALUE_DIGIT];
    [RCL_CHARACTER_KEY_START; RCL_CHARACTER_KEY; RCL_CHARACTER_VALUE_STR; RCL_CHARACTER_VALUE_DIGIT];
    [RCL_CHARACTER_KEY_START; RCL_CHARACTER_KEY; RCL_CHARACTER_VALUE_STR; RCL_CHARACTER_VALUE_DIGIT];
    [RCL_CHARACTER_KEY_START; RCL_CHARACTER_KEY; RCL_CHARACTER_VALUE_STR; RCL_CHARACTER_VALUE_DIGIT];
    [RCL_CHARACTER_KEY_START; RCL_CHARACTER_KEY; RCL_CHARACTER_VALUE_STR; RCL_CHARACTER_VALUE_DIGIT];
    [RCL_CHARACTER_KEY_START; RCL_CHARACTER_KEY; RCL_CHARACTER_VALUE_STR; RCL_CHARACTER_VALUE_DIGIT];
    [RCL_CHARACTER_KEY_START; RCL_CHARACTER_KEY; RCL_CHARACTER_VALUE_STR; RCL_CHARACTER_VALUE_DIGIT];
    [RCL_CHARACTER_KEY_START; RCL_CHARACTER_KEY; RCL_CHARACTER_VALUE_STR; RCL_CHARACTER_VALUE_DIGIT];
    [RCL_CHARACTER_KEY_START; RCL_CHARACTER_KEY; RCL_CHARACTER_VALUE_STR; RCL_CHARACTER_VALUE_DIGIT];
    [RCL_CHARACTER_KEY_START; RCL_CHARACTER_KEY; RCL_CHARACTER_VALUE_STR; RCL_CHARACTER_VALUE_DIGIT];
    [RCL_CHARACTER_VALUE_STR]; [RCL_CHARACTER_VALUE_STR];
    [RCL_CHARACTER_VALUE_END]; [RCL_CHARACTER_VALUE_STR];
    [RCL_CHARACTER_KEY; RCL_CHARACTER_VALUE_STR]; [RCL_CHARACTER_VALUE_STR];
    [RCL_CHARACTER_KEY_START; RCL_CHARACTER_KEY; RCL_CHARACTER_VALUE_STR; RCL_CHARACTER_VALUE_DIGIT];
    [RCL_CHARACTER_KEY_START; RCL_CHARACTER_KEY; RCL_CHARACTER_VALUE_STR; RCL_CHARACTER_VALUE_DIGIT];
    [RCL_CHARACTER_KEY_START; RCL_CHARACTER_KEY; RCL_CHARACTER_VALUE_STR; RCL_CHARACTER_VALUE_DIGIT];
    [RCL_CHARACTER_KEY_START; RCL_CHARACTER_KEY; RCL_CHARACTER_VALUE_STR; RCL_CHARACTER_VALUE_DIGIT];
    [RCL_CHARACTER_KEY_START; RCL_CHARACTER_KEY; RCL_CHARACTER_VALUE_STR; RCL_CHARACTER_VALUE_DIGIT];
    [RCL_CHARACTER_KEY_START; RCL_CHARACTER_KEY; RCL_CHARACTER_VALUE_STR; RCL_CHARACTER_VALUE_DIGIT];
    [RCL_CHARACTER_KEY_START; RCL_CHARACTER_KEY; RCL_CHARACTER_VALUE_STR; RCL_CHARACTER_VALUE_DIGIT];
    [RCL_CHARACTER_KEY_START; RCL_CHARACTER_KEY; RCL_CHARACTER_VALUE_STR; RCL_CHARACTER_VALUE_DIGIT];
    [RCL_CHARACTER_KEY_START; RCL_CHARACTER_KEY; RCL_CHARACTER_VALUE_STR; RCL_CHARACTER_VALUE_DIGIT];
    [RCL_CHARACTER_KEY_START; RCL_CHARACTER_KEY; RCL_CHARACTER_VALUE_STR; RCL_CHARACTER_VALUE_DIGIT];
    [RCL_CHARACTER_KEY_START; RCL_CHARACTER_KEY; RCL_CHARACTER_VALUE_STR; RCL_CHARACTER_VALUE_DIGIT];
    [RCL_CHARACTER_KEY_START; RCL_CHARACTER_KEY; RCL_CHARACTER_VALUE_STR; RCL_CHARACTER_VALUE_DIGIT];
    [RCL_CHARACTER_KEY_START; RCL_CHARACTER_KEY; RCL_CHARACTER_VALUE_STR; RCL_CHARACTER_VALUE_DIGIT];
    [RCL_CHARACTER_KEY_START; RCL_CHARACTER_KEY; RCL_CHARACTER_VALUE_STR; RCL_CHARACTER_VALUE_DIGIT];
    [RCL_CHARACTER_KEY_START; RCL_CHARACTER_KEY; RCL_CHARACTER_VALUE_STR; RCL_CHARACTER_VALUE_DIGIT];
    [RCL_CHARACTER_KEY_START; RCL_CHARACTER_KEY; RCL_CHARACTER_VALUE_STR; RCL_CHARACTER_VALUE_DIGIT];
    [RCL_CHARACTER_KEY_START; RCL_CHARACTER_KEY; RCL_CHARACTER_VALUE_STR; RCL_CHARACTER_VALUE_DIGIT];
    [RCL_CHARACTER_KEY_START; RCL_CHARACTER_KEY; RCL_CHARACTER_VALUE_STR; RCL_CHARACTER_VALUE_DIGIT];
    [RCL_CHARACTER_KEY_START; RCL_CHARACTER_KEY; RCL_CHARACTER_VALUE_STR; RCL_CHARACTER_VALUE_DIGIT];
    [RCL_CHARACTER_KEY_START; RCL_CHARACTER_KEY; RCL_CHARACTER_VALUE_STR; RCL_CHARACTER_VALUE_DIGIT];
    [RCL_CHARACTER_KEY_START; RCL_CHARACTER_KEY; RCL_CHARACTER_VALUE_STR; RCL_CHARACTER_VALUE_DIGIT];
    [RCL_CHARACTER_KEY_START; RCL_CHARACTER_KEY; RCL_CHARACTER_VALUE_STR; RCL_CHARACTER_VALUE_DIGIT];
    [RCL_CHARACTER_KEY_START; RCL_CHARACTER_KEY; RCL_CHARACTER_VALUE_STR; RCL_CHARACTER_VALUE_DIGIT];
    [RCL_CHARACTER_KEY_START; RCL_CHARACTER_KEY; RCL_CHARACTER_VALUE_STR; RCL_CHARACTER_VALUE_DIGIT];
    [RCL_CHARACTER_KEY_START; RCL_CHARACTER_KEY; RCL_CHARACTER_VALUE_STR; RCL_CHARACTER_VALUE_DIGIT];
    [RCL_CHARACTER_KEY_START; RCL_CHARACTER_KEY; RCL_CHARACTER_VALUE_STR; RCL_CHARACTER_VALUE_DIGIT];
    [RCL_CHARACTER_VALUE_STR]; [RCL_CHARACTER_VALUE_STR];
    [RCL_CHARACTER_VALUE_END]; [RCL_CHARACTER_VALUE_STR];
    [RCL_CHARACTER_DENIED];
    [RCL_CHARACTER_KEY_START; RCL_CHARACTER_KEY; RCL_CHARACTER_VALUE_STR];
    [RCL_CHARACTER_KEY_START; RCL_CHARACTER_KEY; RCL_CHARACTER_VALUE_STR];
    [RCL_CHARACTER_KEY_START; RCL_CHARACTER_KEY; RCL_CHARACTER_VALUE_STR];
    [RCL_CHARACTER_KEY_START; RCL_CHARACTER_KEY; RCL_CHARACTER_VALUE_STR];
    [RCL_CHARACTER_KEY_START; RCL_CHARACTER_KEY; RCL_CHARACTER_VALUE_STR];
    [RCL_CHARACTER_KEY_START; RCL_CHARACTER_KEY; RCL_CHARACTER_VALUE_STR];
    [RCL_CHARACTER_KEY_START; RCL_CHARACTER_KEY; RCL_CHARACTER_VALUE_STR];
    [RCL_CHARACTER_KEY_START; RCL_CHARACTER_KEY; RCL_CHARACTER_VALUE_STR];
    [RCL_CHARACTER_KEY_START; RCL_CHARACTER_KEY; RCL_CHARACTER_VALUE_STR];
    [RCL_CHARACTER_KEY_START; RCL_CHARACTER_KEY; RCL_CHARACTER_VALUE_STR];
    [RCL_CHARACTER_KEY_START; RCL_CHARACTER_KEY; RCL_CHARACTER_VALUE_STR];
    [RCL_CHARACTER_KEY_START; RCL_CHARACTER_KEY; RCL_CHARACTER_VALUE_STR];
    [RCL_CHARACTER_KEY_START; RCL_CHARACTER_KEY; RCL_CHARACTER_VALUE_STR];
    [RCL_CHARACTER_KEY_START; RCL_CHARACTER_KEY; RCL_CHARACTER_VALUE_STR];
    [RCL_CHARACTER_KEY_START; RCL_CHARACTER_KEY; RCL_CHARACTER_VALUE_STR];
    [RCL_CHARACTER_KEY_START; RCL_CHARACTER_KEY; RCL_CHARACTER_VALUE_STR];
    [RCL_CHARACTER_KEY_START; RCL_CHARACTER_KEY; RCL_CHARACTER_VALUE_STR];
    [RCL_CHARACTER_KEY_START; RCL_CHARACTER_KEY; RCL_CHARACTER_VALUE_STR];
    [RCL_CHARACTER_KEY_START; RCL_CHARACTER_KEY; RCL_CHARACTER_VALUE_STR];
    [RCL_CHARACTER_KEY_START; RCL_CHARACTER_KEY; RCL_CHARACTER_VALUE_STR];
    [RCL_CHARACTER_KEY_START; RCL_CHARACTER_KEY; RCL_CHARACTER_VALUE_STR];
    [RCL_CHARACTER_KEY_START; RCL_CHARACTER_KEY; RCL_CHARACTER_VALUE_STR];
    [RCL_CHARACTER_KEY_START; RCL_CHARACTER_KEY; RCL_CHARACTER_VALUE_STR];
    [RCL_CHARACTER_KEY_START; RCL_CHARACTER_KEY; RCL_CHARACTER_VALUE_STR];
    [RCL_CHARACTER_KEY_START; RCL_CHARACTER_KEY; RCL_CHARACTER_VALUE_STR];
    [RCL_CHARACTER_KEY_START; RCL_CHARACTER_KEY; RCL_CHARACTER_VALUE_STR];
    [RCL_CHARACTER_KEY_START; RCL_CHARACTER_KEY; RCL_CHARACTER_VALUE_STR];
    [RCL_CHARACTER_KEY_START; RCL_CHARACTER_KEY; RCL_CHARACTER_VALUE_STR];
    [RCL_CHARACTER_KEY_START; RCL_CHARACTER_KEY; RCL_CHARACTER_VALUE_STR];
    [RCL_CHARACTER_KEY_START; RCL_CHARACTER_KEY; RCL_CHARACTER_VALUE_STR];
    [RCL_CHARACTER_KEY_START; RCL_CHARACTER_KEY; RCL_CHARACTER_VALUE_STR];
    [RCL_CHARACTER_KEY_START; RCL_CHARACTER_KEY; RCL_CHARACTER_VALUE_STR];
    [RCL_CHARACTER_KEY_START; RCL_CHARACTER_KEY; RCL_CHARACTER_VALUE_STR];
    [RCL_CHARACTER_KEY_START; RCL_CHARACTER_KEY; RCL_CHARACTER_VALUE_STR];
    [RCL_CHARACTER_KEY_START; RCL_CHARACTER_KEY; RCL_CHARACTER_VALUE_STR];
    [RCL_CHARACTER_KEY_START; RCL_CHARACTER_KEY; RCL_CHARACTER_VALUE_STR];
    [RCL_CHARACTER_KEY_START; RCL_CHARACTER_KEY; RCL_CHARACTER_VALUE_STR];
    [RCL_CHARACTER_KEY_START; RCL_CHARACTER_KEY; RCL_CHARACTER_VALUE_STR];
    [RCL_CHARACTER_KEY_START; RCL_CHARACTER_KEY; RCL_CHARACTER_VALUE_STR];
    [RCL_CHARACTER_KEY_START; RCL_CHARACTER_KEY; RCL_CHARACTER_VALUE_STR];
    [RCL_CHARACTER_KEY_START; RCL_CHARACTER_KEY; RCL_CHARACTER_VALUE_STR];
    [RCL_CHARACTER_KEY_START; RCL_CHARACTER_KEY; RCL_CHARACTER_VALUE_STR];
    [RCL_CHARACTER_KEY_START; RCL_CHARACTER_KEY; RCL_CHARACTER_VALUE_STR];
    [RCL_CHARACTER_KEY_START; RCL_CHARACTER_KEY; RCL_CHARACTER_VALUE_STR];
    [RCL_CHARACTER_KEY_START; RCL_CHARACTER_KEY; RCL_CHARACTER_VALUE_STR];
    [RCL_CHARACTER_KEY_START; RCL_CHARACTER_KEY; RCL_CHARACTER_VALUE_STR];
    [RCL_CHARACTER_KEY_START; RCL_CHARACTER_KEY; RCL_CHARACTER_VALUE_STR];
    [RCL_CHARACTER_KEY_START; RCL_CHARACTER_KEY; RCL_CHARACTER_VALUE_STR];
    [RCL_CHARACTER_KEY_START; RCL_CHARACTER_KEY; RCL_CHARACTER_VALUE_STR];
    [RCL_CHARACTER_KEY_START; RCL_CHARACTER_KEY; RCL_CHARACTER_VALUE_STR];
    [RCL_CHARACTER_KEY_START; RCL_CHARACTER_KEY; RCL_CHARACTER_VALUE_STR];
    [RCL_CHARACTER_KEY_START; RCL_CHARACTER_KEY; RCL_CHARACTER_VALUE_STR];
    [RCL_CHARACTER_KEY_START; RCL_CHARACTER_KEY; RCL_CHARACTER_VALUE_STR];
    [RCL_CHARACTER_KEY_START; RCL_CHARACTER_KEY; RCL_CHARACTER_VALUE_STR];
    [RCL_CHARACTER_KEY_START; RCL_CHARACTER_KEY; RCL_CHARACTER_VALUE_STR];
    [RCL_CHARACTER_KEY_START; RCL_CHARACTER_KEY; RCL_CHARACTER_VALUE_STR];
    [RCL_CHARACTER_KEY_START; RCL_CHARACTER_KEY; RCL_CHARACTER_VALUE_STR];
    [RCL_CHARACTER_KEY_START; RCL_CHARACTER_KEY; RCL_CHARACTER_VALUE_STR];
    [RCL_CHARACTER_KEY_START; RCL_CHARACTER_KEY; RCL_CHARACTER_VALUE_STR];
    [RCL_CHARACTER_KEY_START; RCL_CHARACTER_KEY; RCL_CHARACTER_VALUE_STR];
    [RCL_CHARACTER_KEY_START; RCL_CHARACTER_KEY; RCL_CHARACTER_VALUE_STR];
    [RCL_CHARACTER_KEY_START; RCL_CHARACTER_KEY; RCL_CHARACTER_VALUE_STR];
    [RCL_CHARACTER_KEY_START; RCL_CHARACTER_KEY; RCL_CHARACTER_VALUE_STR];
    [RCL_CHARACTER_KEY_START; RCL_CHARACTER_KEY; RCL_CHARACTER_VALUE_STR];
    [RCL_CHARACTER_KEY_START; RCL_CHARACTER_KEY; RCL_CHARACTER_VALUE_STR];
    [RCL_CHARACTER_KEY_START; RCL_CHARACTER_KEY; RCL_CHARACTER_VALUE_STR];
    [RCL_CHARACTER_KEY_START; RCL_CHARACTER_KEY; RCL_CHARACTER_VALUE_STR];
    [RCL_CHARACTER_KEY_START; RCL_CHARACTER_KEY; RCL_CHARACTER_VALUE_STR];
    [RCL_CHARACTER_KEY_START; RCL_CHARACTER_KEY; RCL_CHARACTER_VALUE_STR];
    [RCL_CHARACTER_KEY_START; RCL_CHARACTER_KEY; RCL_CHARACTER_VALUE_STR];
    [RCL_CHARACTER_KEY_START; RCL_CHARACTER_KEY; RCL_CHARACTER_VALUE_STR];
    [RCL_CHARACTER_KEY_START; RCL_CHARACTER_KEY; RCL_CHARACTER_VALUE_STR];
    [RCL_CHARACTER_KEY_START; RCL_CHARACTER_KEY; RCL_CHARACTER_VALUE_STR];
    [RCL_CHARACTER_KEY_START; RCL_CHARACTER_KEY; RCL_CHARACTER_VALUE_STR];
    [RCL_CHARACTER_KEY_START; RCL_CHARACTER_KEY; RCL_CHARACTER_VALUE_STR];
    [RCL_CHARACTER_KEY_START; RCL_CHARACTER_KEY; RCL_CHARACTER_VALUE_STR];
    [RCL_CHARACTER_KEY_START; RCL_CHARACTER_KEY; RCL_CHARACTER_VALUE_STR];
    [RCL_CHARACTER_KEY_START; RCL_CHARACTER_KEY; RCL_CHARACTER_VALUE_STR];
    [RCL_CHARACTER_KEY_START; RCL_CHARACTER_KEY; RCL_CHARACTER_VALUE_STR];
    [RCL_CHARACTER_KEY_START; RCL_CHARACTER_KEY; RCL_CHARACTER_VALUE_STR];
    [RCL_CHARACTER_KEY_START; RCL_CHARACTER_KEY; RCL_CHARACTER_VALUE_STR];
    [RCL_CHARACTER_KEY_START; RCL_CHARACTER_KEY; RCL_CHARACTER_VALUE_STR];
    [RCL_CHARACTER_KEY_START; RCL_CHARACTER_KEY; RCL_CHARACTER_VALUE_STR];
    [RCL_CHARACTER_KEY_START; RCL_CHARACTER_KEY; RCL_CHARACTER_VALUE_STR];
    [RCL_CHARACTER_KEY_START; RCL_CHARACTER_KEY; RCL_CHARACTER_VALUE_STR];
    [RCL_CHARACTER_KEY_START; RCL_CHARACTER_KEY; RCL_CHARACTER_VALUE_STR];
    [RCL_CHARACTER_KEY_START; RCL_CHARACTER_KEY; RCL_CHARACTER_VALUE_STR];
    [RCL_CHARACTER_KEY_START; RCL_CHARACTER_KEY; RCL_CHARACTER_VALUE_STR];
    [RCL_CHARACTER_KEY_START; RCL_CHARACTER_KEY; RCL_CHARACTER_VALUE_STR];
    [RCL_CHARACTER_KEY_START; RCL_CHARACTER_KEY; RCL_CHARACTER_VALUE_STR];
    [RCL_CHARACTER_KEY_START; RCL_CHARACTER_KEY; RCL_CHARACTER_VALUE_STR];
    [RCL_CHARACTER_KEY_START; RCL_CHARACTER_KEY; RCL_CHARACTER_VALUE_STR];
    [RCL_CHARACTER_KEY_START; RCL_CHARACTER_KEY; RCL_CHARACTER_VALUE_STR];
    [RCL_CHARACTER_KEY_START; RCL_CHARACTER_KEY; RCL_CHARACTER_VALUE_STR];
    [RCL_CHARACTER_KEY_START; RCL_CHARACTER_KEY; RCL_CHARACTER_VALUE_STR];
    [RCL_CHARACTER_KEY_START; RCL_CHARACTER_KEY; RCL_CHARACTER_VALUE_STR];
    [RCL_CHARACTER_KEY_START; RCL_CHARACTER_KEY; RCL_CHARACTER_VALUE_STR];
    [RCL_CHARACTER_KEY_START; RCL_CHARACTER_KEY; RCL_CHARACTER_VALUE_STR];
    [RCL_CHARACTER_KEY_START; RCL_CHARACTER_KEY; RCL_CHARACTER_VALUE_STR];
    [RCL_CHARACTER_KEY_START; RCL_CHARACTER_KEY; RCL_CHARACTER_VALUE_STR];
    [RCL_CHARACTER_KEY_START; RCL_CHARACTER_KEY; RCL_CHARACTER_VALUE_STR];
    [RCL_CHARACTER_KEY_START; RCL_CHARACTER_KEY; RCL_CHARACTER_VALUE_STR];
    [RCL_CHARACTER_KEY_START; RCL_CHARACTER_KEY; RCL_CHARACTER_VALUE_STR];
    [RCL_CHARACTER_KEY_START; RCL_CHARACTER_KEY; RCL_CHARACTER_VALUE_STR];
    [RCL_CHARACTER_KEY_START; RCL_CHARACTER_KEY; RCL_CHARACTER_VALUE_STR];
    [RCL_CHARACTER_KEY_START; RCL_CHARACTER_KEY; RCL_CHARACTER_VALUE_STR];
    [RCL_CHARACTER_KEY_START; RCL_CHARACTER_KEY; RCL_CHARACTER_VALUE_STR];
    [RCL_CHARACTER_KEY_START; RCL_CHARACTER_KEY; RCL_CHARACTER_VALUE_STR];
    [RCL_CHARACTER_KEY_START; RCL_CHARACTER_KEY; RCL_CHARACTER_VALUE_STR];
    [RCL_CHARACTER_KEY_START; RCL_CHARACTER_KEY; RCL_CHARACTER_VALUE_STR];
    [RCL_CHARACTER_KEY_START; RCL_CHARACTER_KEY; RCL_CHARACTER_VALUE_STR];
    [RCL_CHARACTER_KEY_START; RCL_CHARACTER_KEY; RCL_CHARACTER_VALUE_STR];
    [RCL_CHARACTER_KEY_START; RCL_CHARACTER_KEY; RCL_CHARACTER_VALUE_STR];
    [RCL_CHARACTER_KEY_START; RCL_CHARACTER_KEY; RCL_CHARACTER_VALUE_STR];
    [RCL_CHARACTER_KEY_START; RCL_CHARACTER_KEY; RCL_CHARACTER_VALUE_STR];
    [RCL_CHARACTER_KEY_START; RCL_CHARACTER_KEY; RCL_CHARACTER_VALUE_STR];
    [RCL_CHARACTER_KEY_START; RCL_CHARACTER_KEY; RCL_CHARACTER_VALUE_STR];
    [RCL_CHARACTER_KEY_START; RCL_CHARACTER_KEY; RCL_CHARACTER_VALUE_STR];
    [RCL_CHARACTER_KEY_START; RCL_CHARACTER_KEY; RCL_CHARACTER_VALUE_STR];
    [RCL_CHARACTER_KEY_START; RCL_CHARACTER_KEY; RCL_CHARACTER_VALUE_STR];
    [RCL_CHARACTER_KEY_START; RCL_CHARACTER_KEY; RCL_CHARACTER_VALUE_STR];
    [RCL_CHARACTER_KEY_START; RCL_CHARACTER_KEY; RCL_CHARACTER_VALUE_STR];
    [RCL_CHARACTER_KEY_START; RCL_CHARACTER_KEY; RCL_CHARACTER_VALUE_STR];
    [RCL_CHARACTER_KEY_START; RCL_CHARACTER_KEY; RCL_CHARACTER_VALUE_STR];
    [RCL_CHARACTER_KEY_START; RCL_CHARACTER_KEY; RCL_CHARACTER_VALUE_STR];
    [RCL_CHARACTER_KEY_START; RCL_CHARACTER_KEY; RCL_CHARACTER_VALUE_STR];
    [RCL_CHARACTER_KEY_START; RCL_CHARACTER_KEY; RCL_CHARACTER_VALUE_STR] ].

(** [rcl_chartable[c]]: an index outside the array is a fault. *)
Definition rcl_chartable_at (c : Z) : option (list rcl_character_type) :=
  if c <? 0 then None else rcl_chartable !! Z.to_nat c.

(** Whether the initializer of [rcl_chartable[c]] names the flag. *)
Definition rcl_names (c : Z) (f : rcl_character_type) : bool :=
  match rcl_chartable_at c with
  | Some e => bool_decide (f ∈ e)
  | None => false
  end.

(** A test of every index of the table. *)
Definition rcl_all (P : Z → bool) : bool :=
  forallb P (Z.of_nat <$> seq 0 255).

(** ** Stores of the examples *)

(** The store with a root node and one tag that no node carries. *)
Definition rooted_heap (t : html_tag) : heap :=
  {| tags := [t];
     nodes := [Some {| data := None; gparent := None; children := [] |}];
     blocks := []; urls := []; images := [] |}.

(** A content root whose tree is the root node of [rooted_heap]. *)
Definition rooted_content : html_content := set_html_tags (Some 0%nat) hc_zero.

(** The tag of an opening [<br>]. *)
Definition br_open : html_tag :=
  set_tag_flags (Z.lor CM_INLINE CM_EMPTY)
    (set_tag_id Tag_BR (set_tag_name (bytes_of_string "br") tag_zero)).

(** A block as [rspamd_html_process_block_tag] creates it. *)
Definition fresh_block : html_block :=
  {| bl_tag := 0%nat; font_color := color_set_alpha 255 color_zero;
     background_color := color_zero; bl_style := [];
     font_size := font_size_unset; visible := true; html_class := None |}.

(** * Properties *)

(** Case analysis along the binds of the option monad. *)
Ltac binds :=
  repeat first
    [ progress simplify_option_eq
    | case_match
    | match goal with
      | Hx : (?x ≫= _) = Some _ |- _ => destruct x eqn:?; simpl in Hx
      end ].


(** ** The default background color *)

(** C8, as the specification states it, fails on the code: the prologue of
    [rspamd_html_process_part_full] writes 0, not 255, to the alpha
    component of the global background color. *)
Lemma bgcolor_default_not_opaque :
  ¬ (let c := bgcolor (Tokenizer.tk_hc
                 (Tokenizer.process_part_init heap_empty hc_zero None None None)) in
     col_valid c = true ∧ col_r c = 255 ∧ col_g c = 255 ∧ col_b c = 255
     ∧ col_alpha c = 255).
Proof. simpl. intros (_ & _ & _ & _ & Halpha). discriminate Halpha. Qed.

(** C8, amended: at the start of processing, before any byte of the input
    is looked at, the global background color of the content root is valid
    and white, its red, green and blue components are 255, and its alpha
    component is 0; nothing else of the content root changes but
    [tags_seen], which is emptied. *)
Theorem bgcolor_default_white (h : heap) (hc : html_content)
    (exceptions : option (list rspamd_process_exception))
    (url_set part_urls : option (list nat)) :
  let s := Tokenizer.process_part_init h hc exceptions url_set part_urls in
  let c := bgcolor (Tokenizer.tk_hc s) in
  col_valid c = true ∧ col_r c = 255 ∧ col_g c = 255 ∧ col_b c = 255
  ∧ col_alpha c = 0
  ∧ Tokenizer.tk_state s = Tokenizer.parse_start
  ∧ Tokenizer.tk_p s = 0
  ∧ Tokenizer.tk_hc s
    = set_bgcolor {| col_r := 255; col_g := 255; col_b := 255;
                     col_alpha := 0; col_valid := true |}
        (set_tags_seen ∅ hc).
Proof. simpl. repeat split. Qed.

(** ** The short entry point *)

(** C9: [rspamd_html_process_part] returns the buffer and leaves the heap
    and the content root as [rspamd_html_process_part_full] does when it is
    called without an exceptions list, without a URL set, without
    [part_urls] and with CSS parsing off. *)
Theorem process_part_is_process_part_full
    `{html_tags_h} `{text_collaborators} `{url_collaborators}
    `{double_ops} `{style_collaborators} `{lexer_collaborator}
    (h : heap) (hc : html_content) (input : bytes) :
  Tokenizer.rspamd_html_process_part h hc input
  = Tokenizer.rspamd_html_process_part_full h hc input None None None false
  ∧ (Tokenizer.res_dest <$> Tokenizer.rspamd_html_process_part h hc input)
    = (Tokenizer.res_dest <$> Tokenizer.rspamd_html_process_part_full h hc input
                      None None None false)
  ∧ (Tokenizer.res_hc <$> Tokenizer.rspamd_html_process_part h hc input)
    = (Tokenizer.res_hc <$> Tokenizer.rspamd_html_process_part_full h hc input
                    None None None false).
Proof. unfold Tokenizer.rspamd_html_process_part. repeat split. Qed.

(** ** URLs found in the query of a URL *)

Section query_callback.
Context `{html_tags_h} `{url_collaborators}.

(** C10: a URL found in the query string of an href URL whose protocol is
    [mailto] and whose user part is empty is refused by the callback before
    anything is written: the callback returns [FALSE], the URL keeps its
    flags (it does not get [RSPAMD_URL_FLAG_QUERY]), and the URL set and
    [part_urls] are what they were; the finder stops there, so the query
    walk leaves the set and the list untouched as well. *)
Theorem query_callback_rejects_empty_mailto (u : rspamd_url) :
  url_protocol u = PROTOCOL_MAILTO →
  url_userlen u = 0 →
  (∀ h url cbd,
     load_url h url = Some u →
     rspamd_html_url_query_callback h url cbd = Some (h, cbd, false))
  ∧ (∀ h cbd rest,
       query_urls_iter (u :: rest) h cbd = Some (fst (alloc_url u h), cbd)).
Proof.
  intros Hproto Huser.
  assert (Hcb : ∀ h url cbd,
            load_url h url = Some u →
            rspamd_html_url_query_callback h url cbd = Some (h, cbd, false)).
  { intros h url cbd Hload. unfold rspamd_html_url_query_callback.
    rewrite Hload. simpl. rewrite Hproto, Huser, !Z.eqb_refl. reflexivity. }
  split; [exact Hcb|].
  intros h cbd rest. cbn [query_urls_iter].
  destruct (alloc_url u h) as [h1 p] eqn:Halloc.
  rewrite (Hcb h1 p cbd).
  - reflexivity.
  - unfold alloc_url in Halloc. injection Halloc as <- <-.
    unfold load_url. simpl. apply list_lookup_middle. reflexivity.
Qed.

End query_callback.

(** A [mailto] URL without a user part, as the finder of the scenario
    setting reports it. *)
Lemma query_callback_rejects_empty_mailto_witness :
  let u := set_url_flags 0 (snd (Scenario.url_parse
                                   (bytes_of_string "mailto://example.com"))) in
  (url_protocol u = PROTOCOL_MAILTO ∧ url_userlen u = 0)
  ∧ rspamd_html_url_query_callback (set_urls [u] heap_empty) 0
      {| cbd_url_set := Some []; cbd_url := 0; cbd_part_urls := Some [] |}
    = Some (set_urls [u] heap_empty,
            {| cbd_url_set := Some []; cbd_url := 0; cbd_part_urls := Some [] |},
            false).
Proof.
  split; [split; reflexivity|].
  apply (query_callback_rejects_empty_mailto
           (set_url_flags 0 (snd (Scenario.url_parse
                                    (bytes_of_string "mailto://example.com"))))
           eq_refl eq_refl).
  reflexivity.
Defined.

(** ** The state of the attribute lexer *)

(** C5 fails on the code.  On the first byte of [p>] the lexer moves from
    [parse_start] (0) to [parse_name] (1), but it has moved its own copy of
    the state: the struct of the caller still says [parse_start] after the
    call, so a second call on the next byte starts from [parse_start]
    again. *)
Theorem parse_tag_content_state_is_lost :
  let buf := bytes_of_string "p>" in
  let tag := {| TagParser.lt_tag := tag_zero; TagParser.name_start := None |} in
  (TagParser.cur_state ∘ snd <$>
     TagParser.parse_tag_content_body buf hc_zero tag 0 TagParser.reset)
  = Some 1
  ∧ (TagParser.cur_state ∘ snd <$>
       TagParser.parse_tag_content buf hc_zero tag 0 TagParser.reset)
    = Some 0
  ∧ (snd <$> TagParser.parse_tag_content buf hc_zero tag 0 TagParser.reset)
    = Some TagParser.reset.
Proof. vm_compute. repeat split. Qed.

(** ** Duplicate attributes *)

Section first_occurrence_wins.
Import TagParser.
Context `{html_tags_h} `{text_collaborators}.

Lemma list_to_map_first_occurrence (k : html_component_type)
    (occs : list (html_component_type * bytes)) :
  (list_to_map occs : gmap html_component_type bytes) !! k
  = first_occurrence k occs.
Proof.
  unfold first_occurrence.
  induction occs as [|[k' v] occs IH]; [done|].
  cbn [list_to_map foldr]. simpl.
  destruct (decide (k' = k)) as [->|Hne].
  - by rewrite lookup_insert_eq.
  - rewrite lookup_insert_ne by done. rewrite IH.
    by destruct (list_find _ occs) as [[i o]|].
Qed.

(** [store_tag_component] extends the map by the occurrence it is called
    on, and only where the kind has no value yet. *)
Lemma store_tag_component_parameters buf in_ t env :
  parameters (fst (store_tag_component buf in_ t env))
  = parameters t ∪ list_to_map (option_list (attribute_occurrence buf in_ env)).
Proof.
  unfold store_tag_component, attribute_occurrence.
  destruct (saved_p env) as [sp|], (cur_component env) as [k|]; simpl;
    try (by rewrite (right_id_L ∅ (∪))).
  destruct (sp <? in_); simpl; [|by rewrite (right_id_L ∅ (∪))].
  destruct (parameters t !! k) as [v|] eqn:Hk; simpl.
  - apply map_eq. intros i. rewrite lookup_union.
    destruct (decide (i = k)) as [->|Hne].
    + rewrite Hk, lookup_insert_eq. reflexivity.
    + rewrite lookup_insert_ne, lookup_empty by done.
      by destruct (parameters t !! i).
  - rewrite insert_union_singleton_r by done.
    by rewrite insert_empty.
Qed.

Local Opaque store_tag_component attribute_occurrence.

(** One call of the lexer changes the map by at most the occurrence that
    ends at this call. *)
Lemma parse_tag_content_body_parameters buf hc tag in_ env hc' tag' env' :
  parse_tag_content_body buf hc tag in_ env = Some (hc', tag', env') →
  parameters (lt_tag tag')
  = parameters (lt_tag tag)
    ∪ list_to_map (option_list (call_occurrence buf (in_, env))).
Proof.
  unfold parse_tag_content_body, call_occurrence, completes_value. simpl.
  intros Hb.
  destruct (state_of_int (cur_state env)) as [s|] eqn:Hst.
  2:{ simplify_eq. simpl. by rewrite (right_id_L ∅ (∪)). }
  destruct s; simpl in Hb.
  all: try (destruct (peek buf in_) as [c|] eqn:Hc; simpl in Hb; [|done]).
  all: repeat (case_match; simplify_option_eq); simplify_eq; simpl;
       rewrite ?(right_id_L ∅ (∪)); try done.
  all: try (match goal with
            | Hs : store_tag_component _ _ ?t _ = _ |- _ =>
                let Hp := fresh in
                pose proof (store_tag_component_parameters buf in_ t env) as Hp;
                rewrite Hs in Hp; simpl in Hp; rewrite Hp; simpl
            end).
  all: rewrite ?(right_id_L ∅ (∪)); try done.
  all: exfalso;
       repeat match goal with
              | Hq : (_ =? _) = true |- _ => apply Z.eqb_eq in Hq
              | Hq : (_ =? _) = false |- _ => apply Z.eqb_neq in Hq
              end; congruence.
Qed.

End first_occurrence_wins.

Section reads.

Lemma reads_peek buf o x l : reads buf o (x :: l) → peek buf o = Some x.
Proof.
  intros [Ho Hr]. unfold peek. rewrite (proj2 (Z.ltb_ge o 0)) by done.
  specialize (Hr 0%nat x eq_refl). by rewrite Nat.add_0_r in Hr.
Qed.

Lemma reads_tail buf o x l : reads buf o (x :: l) → reads buf (o + 1) l.
Proof.
  intros [Ho Hr]. split; [lia|]. intros i y Hi.
  specialize (Hr (S i) y Hi). rewrite <- Hr. f_equal. lia.
Qed.

Lemma reads_app buf o l1 l2 :
  reads buf o (l1 ++ l2) → reads buf o l1 ∧ reads buf (o + blen l1) l2.
Proof.
  intros [Ho Hr]. split; (split; [unfold blen; lia|]).
  - intros i x Hi. apply Hr. by apply lookup_app_l_Some.
  - intros i x Hi. specialize (Hr (length l1 + i)%nat x).
    rewrite lookup_app_r in Hr by lia.
    replace (length l1 + i - length l1)%nat with i in Hr by lia.
    rewrite <- (Hr Hi). f_equal. unfold blen. lia.
Qed.

Lemma reads_middle pre l post : reads (pre ++ l ++ post) (blen pre) l.
Proof.
  split; [unfold blen; lia|]. intros i x Hi. unfold blen.
  rewrite Nat2Z.id, lookup_app_r by lia.
  replace (length pre + i - length pre)%nat with i by lia.
  by apply lookup_app_l_Some.
Qed.

Lemma reads_slice buf o l : reads buf o l → slice buf o (o + blen l) = l.
Proof.
  intros [Ho Hr]. unfold slice, blen.
  replace (Z.to_nat (o + Z.of_nat (length l) - o)) with (length l) by lia.
  apply list_eq. intros i.
  destruct (decide (i < length l)%nat) as [Hlt|Hge].
  - rewrite lookup_take_lt by done. rewrite lookup_drop.
    destruct (lookup_lt_is_Some_2 l i Hlt) as [x Hx].
    rewrite Hx. by apply Hr.
  - rewrite lookup_take_ge by lia. symmetry. apply lookup_ge_None. lia.
Qed.

End reads.

Section lexer_steps.
Import TagParser.
Context `{html_tags_h} `{text_collaborators}.
Variable buf : bytes.

Lemma lexer_run_app n m in_ st :
  lexer_run buf (n + m) in_ st
  = lexer_run buf n in_ st ≫= lexer_run buf m (in_ + Z.of_nat n).
Proof.
  revert in_ st. induction n as [|n IH]; intros in_ st.
  - simpl. f_equal. lia.
  - cbn [lexer_run Nat.add].
    destruct (parse_tag_content_body buf st.1.1 st.1.2 in_ st.2) as [st'|];
      [|done].
    simpl. rewrite IH. do 2 f_equal. lia.
Qed.

Lemma lexer_run_one in_ st :
  lexer_run buf 1 in_ st
  = parse_tag_content_body buf st.1.1 st.1.2 in_ st.2.
Proof. simpl. by destruct (parse_tag_content_body _ _ _ _ _). Qed.

(** A state in which the bytes of [l] change nothing. *)
Lemma lexer_run_stay (P : Z → Prop) hc tag env l o :
  (∀ in_ x, peek buf in_ = Some x → P x →
     parse_tag_content_body buf hc tag in_ env = Some (hc, tag, env)) →
  reads buf o l → Forall P l →
  lexer_run buf (length l) o (hc, tag, env) = Some (hc, tag, env).
Proof.
  intros Hstep. revert o. induction l as [|x l IH]; intros o Hr Hl; [done|].
  apply Forall_cons in Hl as [Hx Hl]. cbn [lexer_run length fst snd].
  rewrite (Hstep o x (reads_peek _ _ _ _ Hr) Hx). simpl.
  apply IH; [by eapply reads_tail|done].
Qed.

Lemma name_byte_stays hc tag cc in_ x :
  peek buf in_ = Some x →
  g_ascii_isspace x = false ∧ x ≠ c_gt ∧ x ≠ c_slash →
  parse_tag_content_body buf hc tag in_
    {| cur_state := 1; saved_p := None; cur_component := cc |}
  = Some (hc, tag, {| cur_state := 1; saved_p := None; cur_component := cc |}).
Proof.
  intros Hp (Hs & Hg & Hl). unfold parse_tag_content_body. cbn.
  rewrite Hp. cbn. rewrite Hs.
  rewrite (proj2 (Z.eqb_neq _ _) Hg), (proj2 (Z.eqb_neq _ _) Hl). done.
Qed.

Lemma attr_name_byte_not_space x :
  attr_name_byte x → g_ascii_isspace x = false.
Proof.
  intros (Hg & _). unfold g_ascii_isgraph in Hg. unfold g_ascii_isspace.
  apply andb_true_iff in Hg as [H1 H2].
  apply Z.leb_le in H1. apply Z.leb_le in H2.
  repeat match goal with
         | |- context [?a =? ?b] =>
             rewrite (proj2 (Z.eqb_neq a b)) by (unfold c_space, c_nl, c_cr in *; lia)
         | |- context [?a <=? ?b] => destruct (Z.leb_spec a b)
         end; simpl; try done; try lia.
Qed.

Ltac step Hp := unfold parse_tag_content_body, env_of; cbn; rewrite Hp; cbn.
Ltac neqb := repeat match goal with
  | Hn : ?a ≠ ?b |- context [?a =? ?b] => rewrite (proj2 (Z.eqb_neq a b) Hn)
  end.

Lemma start_step hc tag in_ a :
  peek buf in_ = Some a → g_ascii_isalpha a = true →
  parse_tag_content_body buf hc tag in_ reset
  = Some (hc, {| lt_tag := set_tag_name [] (lt_tag tag);
                 name_start := Some in_ |}, env_of 1 None None).
Proof. intros Hp Ha. unfold reset. step Hp. by rewrite Ha. Qed.

Lemma attr_name_first_step hc tag s cc in_ x :
  s = 11 ∨ s = 14 → peek buf in_ = Some x → attr_name_byte x →
  parse_tag_content_body buf hc tag in_ (env_of s None cc)
  = Some (hc, tag, env_of 2 (Some in_) cc).
Proof.
  intros Hs Hp Hx. pose proof (attr_name_byte_not_space x Hx) as Hsp.
  destruct Hx as (_ & He & Hd & Hl & Hg).
  destruct Hs as [-> | ->]; step Hp; rewrite Hsp; cbn; neqb; done.
Qed.

Lemma attr_name_stays hc tag sp cc in_ x :
  peek buf in_ = Some x → attr_name_byte x →
  parse_tag_content_body buf hc tag in_ (env_of 2 (Some sp) cc)
  = Some (hc, tag, env_of 2 (Some sp) cc).
Proof.
  intros Hp Hx. pose proof (attr_name_byte_not_space x Hx) as Hsp.
  destruct Hx as (Hgr & He & Hd & Hl & Hg).
  step Hp. neqb. rewrite Hsp, Hgr. done.
Qed.

Lemma attr_name_eq_step hc tag sp cc in_ :
  peek buf in_ = Some c_eq →
  parse_tag_content_body buf hc tag in_ (env_of 2 (Some sp) cc)
  = Some (hc, tag,
          let comp := find_tag_component_name buf sp in_ in
          env_of 3 (match comp with Some _ => Some sp | None => None end) comp).
Proof.
  intros Hp. step Hp. by destruct (find_tag_component_name buf sp in_).
Qed.

Lemma quote_step hc tag sp cc in_ q :
  q = c_dquote ∨ q = c_squote → peek buf in_ = Some q →
  parse_tag_content_body buf hc tag in_ (env_of 3 sp cc)
  = Some (hc, tag, env_of (q_start q) sp cc).
Proof. intros [-> | ->] Hp; by step Hp. Qed.

Lemma empty_value_step hc tag sp cc in_ q :
  q = c_dquote ∨ q = c_squote → peek buf in_ = Some q →
  parse_tag_content_body buf hc tag in_ (env_of (q_start q) sp cc)
  = Some (hc, tag, env_of 14 None cc).
Proof. intros [-> | ->] Hp; by step Hp. Qed.

Lemma value_first_step hc tag sp cc in_ q x :
  q = c_dquote ∨ q = c_squote → peek buf in_ = Some x → x ≠ q →
  parse_tag_content_body buf hc tag in_ (env_of (q_start q) sp cc)
  = Some (hc, tag,
          env_of (q_value q) (match sp with Some _ => Some in_ | None => None end)
            cc).
Proof.
  intros [-> | ->] Hp Hx; step Hp; neqb; by destruct sp.
Qed.

Lemma value_stays hc tag sp cc in_ q x :
  q = c_dquote ∨ q = c_squote → peek buf in_ = Some x → x ≠ q →
  parse_tag_content_body buf hc tag in_ (env_of (q_value q) sp cc)
  = Some (hc, tag, env_of (q_value q) sp cc).
Proof. intros [-> | ->] Hp Hx; step Hp; neqb; done. Qed.

Lemma value_end_step hc tag sp cc in_ q :
  q = c_dquote ∨ q = c_squote → peek buf in_ = Some q →
  parse_tag_content_body buf hc tag in_ (env_of (q_value q) sp cc)
  = Some (hc,
          {| lt_tag := (store_tag_component buf in_ (lt_tag tag)
                         (env_of (q_value q) sp cc)).1;
             name_start := name_start tag |},
          env_of (q_end q) None None).
Proof. intros [-> | ->] Hp; by step Hp. Qed.

Lemma bare_value_first_step hc tag sp cc in_ x :
  peek buf in_ = Some x → bare_value_byte x → x ≠ c_squote →
  parse_tag_content_body buf hc tag in_ (env_of 3 sp cc)
  = Some (hc, tag,
          env_of 10 (match sp with Some _ => Some in_ | None => None end) cc).
Proof.
  intros Hp (Hs & Hg & Hd & Hl) Hq. step Hp. rewrite Hs. neqb.
  by destruct sp.
Qed.

Lemma bare_value_stays hc tag sp cc in_ x :
  peek buf in_ = Some x → bare_value_byte x →
  parse_tag_content_body buf hc tag in_ (env_of 10 sp cc)
  = Some (hc, tag, env_of 10 sp cc).
Proof.
  intros Hp (Hs & Hg & Hd & Hl). step Hp. neqb. cbn. rewrite Hs. neqb. done.
Qed.

Lemma slice_length st o x :
  peek buf o = Some x → 0 ≤ st < o →
  Z.of_nat (length (slice buf st o)) = o - st.
Proof.
  intros Hp Hst. unfold peek in Hp.
  rewrite (proj2 (Z.ltb_ge o 0)) in Hp by lia.
  apply lookup_lt_Some in Hp. unfold slice.
  rewrite length_take, length_drop. lia.
Qed.

Lemma delimiter_step hc tag env pend o c :
  c = c_space ∨ c = c_gt → peek buf o = Some c → at_boundary buf o tag env pend →
  ∃ hc' tag' env',
    parse_tag_content_body buf hc tag o env = Some (hc', tag', env')
    ∧ parameters (lt_tag tag')
      = parameters (lt_tag tag) ∪ list_to_map (option_list pend)
    ∧ (c = c_space → ∃ s cc, (s = 11 ∨ s = 14) ∧ env' = env_of s None cc).
Proof.
  intros Hc Hp (s & sp & cc & -> & Hs).
  destruct Hs as [(-> & -> & Hs)|(-> & <-)].
  - simpl (option_list None). simpl (list_to_map []).
    rewrite (right_id_L ∅ (∪)).
    destruct Hs as [-> | [-> | [-> | (-> & st & Hst & Ho)]]].
    + destruct Hc as [-> | ->]; step Hp; eexists _, _, _;
        (split; [reflexivity|split; [done|]]); [|done].
      intros _. exists 14, cc. by split; [right|].
    + destruct Hc as [-> | ->]; step Hp; eexists _, _, _;
        (split; [reflexivity|split; [done|]]); [|done].
      intros _. exists 14, cc. by split; [right|].
    + destruct Hc as [-> | ->]; step Hp; eexists _, _, _;
        (split; [reflexivity|split; [done|]]); [|done].
      intros _. exists 14, cc. by split; [right|].
    + pose proof (slice_length st o c Hp Ho) as Hlen.
      assert (Hsz : (Z.of_nat (length (slice buf st o)) =? 0) = false)
        by (apply Z.eqb_neq; lia).
      assert (Hlt : (o <? st) = false) by (apply Z.ltb_ge; lia).
      destruct Hc as [-> | ->]; step Hp; rewrite Hst; cbn; rewrite Hlt, Hsz;
        case_match; try case_match; eexists _, _, _;
        (split; [reflexivity|split; [done|]]); try done;
        intros _; exists 11, cc; by split; [left|].
  - pose proof (store_tag_component_parameters buf o (lt_tag tag)
                  (env_of 10 sp cc)) as Hst.
    destruct (store_tag_component buf o (lt_tag tag) (env_of 10 sp cc))
      as [t e] eqn:Hstore.
    assert (He : e = env_of 10 None None).
    { unfold store_tag_component in Hstore. by simplify_eq. }
    subst e. cbn [fst] in Hst.
    assert (Hbody : parse_tag_content_body buf hc tag o (env_of 10 sp cc)
                    = Some (hc, {| lt_tag := t; name_start := name_start tag |},
                            env_of 14 None None)).
    { unfold env_of in *.
      destruct Hc as [-> | ->]; unfold parse_tag_content_body;
        cbn -[store_tag_component]; rewrite Hp; cbn -[store_tag_component];
        by rewrite Hstore. }
    eexists _, _, _. split; [exact Hbody|]. split; [exact Hst|].
    intros _. exists 14, None. by split; [right|].
Qed.

Lemma union_singleton_first (P : gmap html_component_type bytes) k d :
  P ∪ list_to_map [(k, d)]
  = match P !! k with None => <[k := d]> P | Some _ => P end.
Proof.
  apply map_eq. intros i. rewrite lookup_union. simpl.
  destruct (decide (i = k)) as [->|Hne].
  - rewrite lookup_insert_eq. destruct (P !! k) eqn:Hk.
    + by rewrite Hk.
    + by rewrite lookup_insert_eq.
  - rewrite lookup_insert_ne, lookup_empty by done.
    destruct (P !! k) eqn:Hk.
    + by destruct (P !! i).
    + rewrite lookup_insert_ne by done. by destruct (P !! i).
Qed.

Ltac run_one :=
  rewrite lexer_run_app, lexer_run_one; change (Z.of_nat 1) with 1;
  cbn [fst snd].

(** The space, the name and the [=] of an attribute. *)
Lemma attribute_name_run hc tag env pend o n rest :
  n ≠ [] → Forall attr_name_byte n →
  reads buf o ([c_space] ++ n ++ [c_eq] ++ rest) →
  at_boundary buf o tag env pend →
  ∃ hc' tag',
    lexer_run buf (length ([c_space] ++ n ++ [c_eq])) o (hc, tag, env)
    = Some (hc', tag',
            let comp := components_find (decode_html_entitles_inplace n) in
            env_of 3 (match comp with Some _ => Some (o + 1) | None => None end)
              comp)
    ∧ parameters (lt_tag tag')
      = parameters (lt_tag tag) ∪ list_to_map (option_list pend).
Proof.
  intros Hn Hnb Hr Hb. destruct n as [|b n']; [done|]. clear Hn.
  apply Forall_cons in Hnb as [Hb0 Hnb].
  pose proof (reads_peek _ _ _ _ Hr) as Hp0.
  pose proof (reads_tail _ _ _ _ Hr) as Hr1.
  pose proof (reads_peek _ _ _ _ Hr1) as Hp1.
  pose proof (reads_app _ _ (b :: n') _ Hr1) as [Hname Hr3].
  pose proof (reads_tail _ _ _ _ Hname) as Hn'.
  pose proof (reads_peek _ _ _ _ Hr3) as Hp3.
  set (e := o + 1 + blen (b :: n')) in *.
  destruct (delimiter_step hc tag env pend o c_space (or_introl eq_refl)
              Hp0 Hb) as (hc1 & tag1 & env1 & Hs0 & Hpar1 & Henv1).
  destruct (Henv1 eq_refl) as (s1 & cc1 & Hs1 & ->). clear Henv1.
  exists hc1, tag1. split; [|done].
  change ([c_space] ++ (b :: n') ++ [c_eq])
    with ([c_space] ++ [b] ++ n' ++ [c_eq]).
  rewrite !length_app.
  change (length [c_space]) with 1%nat. change (length [b]) with 1%nat.
  change (length [c_eq]) with 1%nat.
  run_one. rewrite Hs0. cbn [mbind option_bind]. run_one.
  rewrite (attr_name_first_step hc1 tag1 s1 cc1 _ b Hs1 Hp1 Hb0).
  cbn [mbind option_bind]. rewrite lexer_run_app.
  rewrite (lexer_run_stay attr_name_byte hc1 tag1 (env_of 2 (Some (o + 1)) cc1)
             n' (o + 1 + 1)); [|by intros; eapply attr_name_stays|done|done].
  cbn [mbind option_bind]. rewrite lexer_run_one. cbn [fst snd].
  replace (o + 1 + 1 + Z.of_nat (length n')) with e
    by (unfold e, blen; simpl length; lia).
  rewrite (attr_name_eq_step hc1 tag1 (o + 1) cc1 e Hp3). cbv zeta.
  assert (Hcomp : find_tag_component_name buf (o + 1) e
                  = components_find (decode_html_entitles_inplace (b :: n'))).
  { unfold find_tag_component_name.
    rewrite (proj2 (Z.leb_gt e (o + 1))) by (unfold e, blen; simpl length; lia).
    unfold e. by rewrite (reads_slice _ _ _ Hname). }
  by rewrite Hcomp.
Qed.

(** A value between quotes, after the [=]. *)
Lemma quoted_value_run hc tag s0 comp p q v :
  q = c_dquote ∨ q = c_squote → q ∉ v → reads buf p ([q] ++ v ++ [q]) →
  ∃ tag' env',
    lexer_run buf (length ([q] ++ v ++ [q])) p
      (hc, tag,
       env_of 3 (match comp with Some _ => Some s0 | None => None end) comp)
    = Some (hc, tag', env')
    ∧ at_boundary buf (p + blen ([q] ++ v ++ [q])) tag' env' None
    ∧ parameters (lt_tag tag')
      = parameters (lt_tag tag)
        ∪ list_to_map
            (option_list
               (k ← comp;
                if bool_decide (v = []) then None
                else Some (k, decode_html_entitles_inplace v))).
Proof.
  intros Hq Hv Hr.
  pose proof (reads_peek _ _ _ _ Hr) as Hp4.
  pose proof (reads_tail _ _ _ _ Hr) as Hr5.
  pose proof (reads_app _ _ v [q] Hr5) as [Hval Hr6].
  pose proof (reads_peek _ _ _ _ Hr6) as Hp6.
  rewrite !length_app. change (length [q]) with 1%nat.
  run_one. rewrite (quote_step hc tag _ comp p q Hq Hp4).
  cbn [mbind option_bind].
  destruct v as [|x v'].
  - replace (p + 1 + blen []) with (p + 1) in Hp6
      by (unfold blen; simpl; lia).
    cbn [length Nat.add]. rewrite lexer_run_one. cbn [fst snd].
    rewrite (empty_value_step hc tag _ comp (p + 1) q Hq Hp6).
    eexists _, _. split; [reflexivity|]. split.
    + exists 14, None, comp. split; [done|]. left.
      repeat split. by right; right; left.
    + rewrite bool_decide_eq_true_2 by done.
      destruct comp; simpl; by rewrite (right_id ∅ (∪)).
  - apply not_elem_of_cons in Hv as [Hx Hv'].
    pose proof (reads_peek _ _ _ _ Hval) as Hpx.
    pose proof (reads_tail _ _ _ _ Hval) as Hv'r.
    change (length (x :: v')) with (1 + length v')%nat.
    rewrite <- Nat.add_assoc. run_one.
    rewrite (value_first_step hc tag _ comp (p + 1) q x Hq Hpx)
      by congruence.
    cbn [mbind option_bind]. rewrite lexer_run_app.
    rewrite (lexer_run_stay (λ y, y ≠ q) hc tag _ v' (p + 1 + 1));
      [|by intros; eapply value_stays|done|].
    2:{ apply Forall_forall. intros y Hy ->. done. }
    cbn [mbind option_bind]. rewrite lexer_run_one. cbn [fst snd].
    replace (p + 1 + 1 + Z.of_nat (length v'))
      with (p + 1 + blen (x :: v')) by (unfold blen; simpl length; lia).
    rewrite (value_end_step hc tag _ comp _ q Hq Hp6).
    eexists _, _. split; [reflexivity|]. split.
    + exists (q_end q), None, None. split; [done|]. left. repeat split.
      destruct Hq as [-> | ->]; [by left|by right; left].
    + cbn [lt_tag]. rewrite bool_decide_eq_false_2 by done.
      unfold store_tag_component. cbn [fst saved_p cur_component env_of].
      destruct comp as [k|]; cbn [mbind option_bind option_list].
      * rewrite (proj2 (Z.ltb_lt (p + 1) (p + 1 + blen (x :: v'))))
          by (unfold blen; simpl length; lia).
        rewrite (reads_slice _ _ _ Hval).
        simpl (option_list _). rewrite union_singleton_first.
        by destruct (parameters (lt_tag tag) !! k).
      * simpl. by rewrite (right_id ∅ (∪)).
Qed.

(** A bare value, after the [=]: the byte that follows stores it. *)
Lemma bare_value_run hc tag s0 comp p v :
  v ≠ [] → head v ≠ Some c_squote → Forall bare_value_byte v →
  reads buf p v →
  ∃ env',
    lexer_run buf (length v) p
      (hc, tag,
       env_of 3 (match comp with Some _ => Some s0 | None => None end) comp)
    = Some (hc, tag, env')
    ∧ at_boundary buf (p + blen v) tag env'
        (k ← comp; Some (k, decode_html_entitles_inplace v)).
Proof.
  intros Hne Hhd Hv Hr. destruct v as [|x v']; [done|]. clear Hne.
  apply Forall_cons in Hv as [Hx Hv'].
  pose proof (reads_peek _ _ _ _ Hr) as Hpx.
  pose proof (reads_tail _ _ _ _ Hr) as Hr'.
  eexists. split.
  - change (length (x :: v')) with (1 + length v')%nat. run_one.
    rewrite (bare_value_first_step hc tag _ comp p x Hpx Hx)
      by (intros ->; by apply Hhd).
    cbn [mbind option_bind].
    apply (lexer_run_stay bare_value_byte); [|done|done].
    intros. by eapply bare_value_stays.
  - eexists 10, _, comp. split; [reflexivity|]. right. split; [done|].
    unfold attribute_occurrence. cbn [saved_p cur_component env_of].
    destruct comp as [k|]; [|done]. cbn [mbind option_bind].
    rewrite (proj2 (Z.ltb_lt p (p + blen (x :: v'))))
      by (unfold blen; simpl length; lia).
    by rewrite (reads_slice _ _ _ Hr).
Qed.

(** One attribute, from the space before its name to the end of its
    value. *)
Lemma attribute_run hc tag env pend o a :
  attr_ok a → reads buf o (attr_text a) → at_boundary buf o tag env pend →
  ∃ hc' tag' env' pend',
    lexer_run buf (length (attr_text a)) o (hc, tag, env)
    = Some (hc', tag', env')
    ∧ at_boundary buf (o + blen (attr_text a)) tag' env' pend'
    ∧ parameters (lt_tag tag') ∪ list_to_map (option_list pend')
      = parameters (lt_tag tag) ∪ list_to_map (option_list pend)
        ∪ list_to_map (option_list (attr_stores a)).
Proof.
  destruct a as [n q v]. unfold attr_ok, attr_text, attr_stores, value_text.
  cbn [attr_name attr_quote attr_value].
  intros (Hn & Hnb & Hq) Hr Hb.
  destruct (attribute_name_run hc tag env pend o n _ Hn Hnb Hr Hb)
    as (hc1 & tag1 & Hrun1 & Hp1).
  set (rest := match q with Some q0 => [q0] ++ v ++ [q0] | None => v end) in *.
  assert (Hsplit : [c_space] ++ n ++ [c_eq] ++ rest
                   = ([c_space] ++ n ++ [c_eq]) ++ rest)
    by (by rewrite <- !(assoc_L (++))).
  rewrite Hsplit in Hr |- *. apply reads_app in Hr as [_ Hr].
  unfold blen in *.
  rewrite length_app, lexer_run_app, Hrun1. cbn [mbind option_bind].
  cbv zeta. rewrite Nat2Z.inj_add, Z.add_assoc.
  subst rest.
  destruct q as [q|].
  - destruct Hq as [Hq Hv].
    destruct (quoted_value_run hc1 tag1 (o + 1)
                (components_find (decode_html_entitles_inplace n))
                _ q v Hq Hv Hr) as (tag2 & env2 & Hrun2 & Hb2 & Hp2).
    exists hc1, tag2, env2, None. unfold blen in *.
    split; [exact Hrun2|]. split; [exact Hb2|].
    simpl (option_list None). simpl (list_to_map []).
    by rewrite (right_id_L ∅ (∪)), Hp2, Hp1.
  - destruct Hq as (Hne & Hhd & Hv).
    destruct (bare_value_run hc1 tag1 (o + 1)
                (components_find (decode_html_entitles_inplace n))
                _ v Hne Hhd Hv Hr) as (env2 & Hrun2 & Hb2).
    eexists hc1, tag1, env2, _. unfold blen in *.
    split; [exact Hrun2|]. split; [exact Hb2|].
    rewrite bool_decide_eq_false_2 by done. by rewrite Hp1.
Qed.

(** The attributes of a tag, one after the other. *)
Lemma attributes_run attrs : ∀ hc tag env pend o,
  Forall attr_ok attrs → reads buf o (flat_map attr_text attrs) →
  at_boundary buf o tag env pend →
  ∃ hc' tag' env' pend',
    lexer_run buf (length (flat_map attr_text attrs)) o (hc, tag, env)
    = Some (hc', tag', env')
    ∧ at_boundary buf (o + blen (flat_map attr_text attrs)) tag' env' pend'
    ∧ parameters (lt_tag tag') ∪ list_to_map (option_list pend')
      = parameters (lt_tag tag) ∪ list_to_map (option_list pend)
        ∪ list_to_map (omap attr_stores attrs).
Proof.
  induction attrs as [|a attrs IH]; intros hc tag env pend o Hok Hr Hb.
  - exists hc, tag, env, pend. split; [done|]. split.
    + by replace (o + blen (flat_map attr_text [])) with o
        by (unfold blen; simpl; lia).
    + simpl. by rewrite (right_id ∅ (∪)).
  - apply Forall_cons in Hok as [Ha Hok]. cbn [flat_map] in *.
    apply reads_app in Hr as [Hr1 Hr2].
    destruct (attribute_run hc tag env pend o a Ha Hr1 Hb)
      as (hc1 & tag1 & env1 & pend1 & Hrun1 & Hb1 & Hp1).
    destruct (IH hc1 tag1 env1 pend1 _ Hok Hr2 Hb1)
      as (hc2 & tag2 & env2 & pend2 & Hrun2 & Hb2 & Hp2).
    exists hc2, tag2, env2, pend2. split; [|split].
    + rewrite length_app, lexer_run_app, Hrun1. exact Hrun2.
    + replace (o + blen (attr_text a ++ flat_map attr_text attrs))
        with (o + blen (attr_text a) + blen (flat_map attr_text attrs));
        [done|]. unfold blen. rewrite length_app. lia.
    + rewrite Hp2, Hp1, <- !(assoc_L (∪)). do 2 f_equal.
      cbn [omap list_omap]. destruct (attr_stores a) as [[k v]|]; simpl.
      * by rewrite insert_empty, <- insert_union_singleton_l.
      * by rewrite (left_id_L ∅ (∪)).
Qed.

(** The name of the tag. *)
Lemma name_run hc tag o name :
  tag_name_ok name → reads buf o name →
  ∃ tag',
    lexer_run buf (length name) o (hc, tag, reset)
    = Some (hc, tag', env_of 1 None None)
    ∧ at_boundary buf (o + blen name) tag' (env_of 1 None None) None
    ∧ parameters (lt_tag tag') = parameters (lt_tag tag).
Proof.
  intros (a & r & -> & Ha & Hr) Hrd.
  pose proof (reads_peek _ _ _ _ Hrd) as Hp.
  pose proof (reads_tail _ _ _ _ Hrd) as Hrd'.
  eexists. split; [|split].
  - change (length (a :: r)) with (1 + length r)%nat. run_one.
    rewrite (start_step hc tag o a Hp Ha). cbn [mbind option_bind].
    apply (lexer_run_stay
             (λ b, g_ascii_isspace b = false ∧ b ≠ c_gt ∧ b ≠ c_slash));
      [|done|done].
    intros. by eapply name_byte_stays.
  - exists 1, None, None. split; [done|]. left. repeat split.
    right; right; right. split; [done|].
    exists o. split; [done|]. destruct Hrd as [Ho _].
    unfold blen. simpl length. lia.
  - done.
Qed.

(** A whole tag, from its name to the closing [>]. *)
Lemma tag_run hc tag o name attrs :
  tag_name_ok name → Forall attr_ok attrs →
  reads buf o (tag_text name attrs) →
  ∃ hc' tag' env',
    lexer_run buf (length (tag_text name attrs)) o (hc, tag, reset)
    = Some (hc', tag', env')
    ∧ parameters (lt_tag tag')
      = parameters (lt_tag tag) ∪ list_to_map (omap attr_stores attrs).
Proof.
  intros Hn Ha Hr. unfold tag_text in *.
  apply reads_app in Hr as [Hr1 Hr2]. apply reads_app in Hr2 as [Hr2 Hr3].
  pose proof (reads_peek _ _ _ _ Hr3) as Hp.
  destruct (name_run hc tag o name Hn Hr1) as (tag1 & Hrun1 & Hb1 & Hp1).
  destruct (attributes_run attrs hc tag1 _ _ _ Ha Hr2 Hb1)
    as (hc2 & tag2 & env2 & pend2 & Hrun2 & Hb2 & Hp2).
  destruct (delimiter_step hc2 tag2 env2 pend2 _ c_gt (or_intror eq_refl)
              Hp Hb2) as (hc3 & tag3 & env3 & Hrun3 & Hp3 & _).
  exists hc3, tag3, env3. unfold blen in *. split.
  - rewrite !length_app, lexer_run_app, Hrun1. cbn [mbind option_bind].
    rewrite lexer_run_app, Hrun2. cbn [mbind option_bind].
    change (length [c_gt]) with 1%nat. rewrite lexer_run_one. exact Hrun3.
  - rewrite Hp3, Hp2, Hp1. simpl (option_list None). simpl (list_to_map []).
    by rewrite (right_id_L ∅ (∪)).
Qed.

Lemma lexer_run_keeps_values n : ∀ in_ st st' k v,
  lexer_run buf n in_ st = Some st' →
  parameters (lt_tag st.1.2) !! k = Some v →
  parameters (lt_tag st'.1.2) !! k = Some v.
Proof.
  induction n as [|n IH]; intros in_ [[hc tag] env] st' k v Hrun Hk.
  - simpl in Hrun. by simplify_eq.
  - cbn [lexer_run fst snd] in *.
    destruct (parse_tag_content_body buf hc tag in_ env)
      as [[[hc1 tag1] env1]|] eqn:Hbody; [|done].
    cbn [mbind option_bind] in Hrun. apply (IH _ _ _ _ _ Hrun).
    cbn [fst snd]. rewrite (parse_tag_content_body_parameters _ _ _ _ _ _ _ _ Hbody).
    by apply lookup_union_Some_l.
Qed.

End lexer_steps.

Section duplicate_attributes.
Import TagParser.




End duplicate_attributes.

(** ** The URL resolver *)

Section url_resolver_properties.
Context `{html_tags_h} `{url_collaborators}.

Lemma url_filter_Some rc url saved_flags has_bad_chars no_prefix u :
  url_filter rc url saved_flags has_bad_chars no_prefix = Some u →
  rc = URI_ERRNO_OK
  ∧ 0 < url_hostlen u
  ∧ has_flag (url_protocol u) PROTOCOL_UNKNOWN = false
  ∧ url_hostlen u = url_hostlen url ∧ url_protocol u = url_protocol url
  ∧ url_tldlen u = url_tldlen url
  ∧ (no_prefix = true →
     url_tldlen u ≠ 0 ∧ has_flag (url_flags u) RSPAMD_URL_FLAG_NO_TLD = false).
Proof.
  unfold url_filter. intros Hf.
  destruct (rc =? URI_ERRNO_OK) eqn:Hrc; [|done].
  destruct (0 <? url_hostlen url) eqn:Hhost; [|done].
  destruct (has_flag (url_protocol url) PROTOCOL_UNKNOWN) eqn:Hproto; [done|].
  simpl in Hf. apply Z.eqb_eq in Hrc. apply Z.ltb_lt in Hhost.
  destruct no_prefix.
  - destruct (_ || _) eqn:Htld in Hf; [done|]. injection Hf as <-.
    apply orb_false_iff in Htld as [Htld Hno]. apply Z.eqb_neq in Htld.
    destruct has_bad_chars; simpl in *; repeat split; try done.
  - injection Hf as <-.
    destruct has_bad_chars; simpl in *; repeat split; try done.
Qed.

Lemma has_flag_lor_l x y m : has_flag x m = true → has_flag (Z.lor x y) m = true.
Proof.
  unfold has_flag. rewrite !negb_true_iff, !Z.eqb_neq.
  intros Hx Hxy. apply Hx. apply Z.bits_inj'. intros n Hn.
  apply (f_equal (λ z, Z.testbit z n)) in Hxy.
  rewrite Z.land_spec, Z.lor_spec, Z.bits_0 in Hxy.
  rewrite Z.land_spec, Z.bits_0.
  destruct (Z.testbit x n), (Z.testbit m n); simpl in *; done.
Qed.

Lemma url_filter_schemaless_no_tld rc url saved_flags has_bad_chars :
  url_tldlen url = 0
  ∨ has_flag (url_flags url) RSPAMD_URL_FLAG_NO_TLD = true →
  url_filter rc url saved_flags has_bad_chars true = None.
Proof.
  intros Htld. unfold url_filter.
  destruct (_ && _ && _); [|done].
  destruct Htld as [Hz|Hno].
  - destruct has_bad_chars; simpl; rewrite Hz; done.
  - assert (Hfl : ∀ a b c,
              has_flag (Z.lor (Z.lor (Z.lor (url_flags url) a) b) c)
                RSPAMD_URL_FLAG_NO_TLD = true)
      by (intros; by do 3 apply has_flag_lor_l).
    destruct has_bad_chars; simpl.
    + rewrite Hfl, orb_true_r. done.
    + unfold or_url_flags at 1. simpl.
      rewrite (has_flag_lor_l _ _ _ (has_flag_lor_l _ saved_flags _ Hno)).
      rewrite orb_true_r. done.
Qed.

(** What the resolver returns has passed the filter on the result of the
    parser. *)
Lemma process_url_Some h start comp h' p comp' :
  rspamd_html_process_url h start comp = (h', Some p, comp') →
  ∃ u decoded no_prefix,
    url_parser_input start = Some (decoded, no_prefix)
    ∧ fst (rspamd_url_parse decoded) = URI_ERRNO_OK
    ∧ h' = fst (alloc_url u h) ∧ p = length (urls h)
    ∧ urls h' !! p = Some u
    ∧ 0 < url_hostlen u
    ∧ has_flag (url_protocol u) PROTOCOL_UNKNOWN = false
    ∧ (no_prefix = true →
       url_tldlen u ≠ 0 ∧ has_flag (url_flags u) RSPAMD_URL_FLAG_NO_TLD = false).
Proof.
  unfold rspamd_html_process_url, url_parser_input. intros Hp.
  destruct (url_prefix_scan _) as [[prefix no_prefix]|]; [|done].
  destruct (url_encode _) as [body bad] eqn:Henc.
  simpl.
  destruct (rspamd_url_normalise_propagate_flags _ 0) as [decoded sf] eqn:Hn.
  destruct (rspamd_url_parse decoded) as [rc parsed] eqn:Hparse.
  destruct (url_filter rc parsed sf bad no_prefix) as [u|] eqn:Hf.
  - injection Hp as <- <- <-.
    apply url_filter_Some in Hf as (Hrc & Hh & Hpr & _ & _ & _ & Htld).
    exists u, decoded, no_prefix. simpl. rewrite ?Hparse. simpl.
    split; [done|]. split; [done|]. split; [done|]. split; [done|].
    split; [by apply list_lookup_middle|]. done.
  - by destruct (alloc_url parsed h).
Qed.

(** *** Accepted URLs stay accepted *)

Lemma urls_kept_refl h : urls_kept h h.
Proof. by intros q. Qed.

Lemma urls_kept_trans h1 h2 h3 :
  urls_kept h1 h2 → urls_kept h2 h3 → urls_kept h1 h3.
Proof. intros H12 H23 q Hq. by apply H23, H12. Qed.

Lemma urls_kept_same h h' : urls h' = urls h → urls_kept h h'.
Proof. intros Heq q (u & Hu & Hok). exists u. by rewrite Heq. Qed.

Lemma update_tag_urls f p h h' : update_tag f p h = Some h' → urls h' = urls h.
Proof.
  unfold update_tag. destruct (tags h !! p); simpl; [|done].
  by intros [= <-].
Qed.

Lemma urls_kept_alloc u h : urls_kept h (fst (alloc_url u h)).
Proof.
  intros q (v & Hv & Hok). exists v. split; [|done].
  simpl. by apply lookup_app_l_Some.
Qed.

Lemma urls_kept_update f q h h' :
  keeps_host_and_protocol f → update_url f q h = Some h' → urls_kept h h'.
Proof.
  intros Hf Hup p (v & Hv & Hhost & Hproto).
  unfold update_url in Hup.
  destruct (urls h !! q) as [x|] eqn:Hq; simpl in Hup; [|done].
  injection Hup as <-. unfold url_accepted_at. simpl.
  destruct (decide (p = q)) as [->|Hne].
  - exists (f x). rewrite list_lookup_insert_eq by by eapply lookup_lt_Some.
    rewrite Hq in Hv. injection Hv as ->.
    destruct (Hf v) as [-> ->]. done.
  - exists v. by rewrite list_lookup_insert_ne.
Qed.

Lemma process_url_kept h start comp h' r comp' :
  rspamd_html_process_url h start comp = (h', r, comp') → urls_kept h h'.
Proof.
  unfold rspamd_html_process_url.
  destruct (url_prefix_scan _) as [[prefix no_prefix]|];
    [|intros [= <- _ _]; apply urls_kept_refl].
  destruct (url_encode _) as [body bad].
  destruct (rspamd_url_normalise_propagate_flags _ 0) as [decoded sf].
  destruct (rspamd_url_parse decoded) as [rc parsed].
  destruct (url_filter rc parsed sf bad no_prefix) as [u|].
  - intros [= <- _ _]. apply urls_kept_alloc.
  - pose proof (urls_kept_alloc parsed h) as Hk.
    destruct (alloc_url parsed h). by intros [= <- _ _].
Qed.

Lemma process_url_tag_accepted h tag hc h' p :
  rspamd_html_process_url_tag h tag hc = Some (h', Some p) →
  url_accepted_at h' p ∧ urls_kept h h'.
Proof.
  unfold rspamd_html_process_url_tag. intros Hp.
  destruct (load_tag h tag) as [t|]; simpl in Hp; [|done].
  destruct (list_find _ (params t)) as [[i comp]|]; [|done].
  match type of Hp with (?r ≫= _) = _ => destruct r as [[start|]|] end;
    simpl in Hp; try done.
  destruct (rspamd_html_process_url h start (Some comp))
    as [[h1 url] comp'] eqn:Hurl.
  destruct (update_tag _ tag h1) as [h2|] eqn:Hu1; simpl in Hp; [|done].
  destruct url as [u|]; simpl in Hp.
  - destruct (update_tag _ tag h2) as [h3|] eqn:Hu2; simpl in Hp; [|done].
    injection Hp as <- <-.
    assert (Hk : urls_kept h1 h3).
    { apply urls_kept_same. apply update_tag_urls in Hu1, Hu2. congruence. }
    split.
    + apply Hk. apply process_url_Some in Hurl
        as (v & _ & _ & _ & _ & _ & _ & Hv & Hhost & Hproto & _).
      by exists v.
    + eapply urls_kept_trans; [by eapply process_url_kept|done].
  - by injection Hp.
Qed.

Lemma or_url_flags_keeps m : keeps_host_and_protocol (or_url_flags m).
Proof. by intros x. Qed.

Lemma count_flags_keeps m :
  keeps_host_and_protocol
    (λ e, set_url_count (url_count e + 1) (or_url_flags m e)).
Proof. by intros x. Qed.

Lemma count_keeps :
  keeps_host_and_protocol (λ x, set_url_count (url_count x + 1) x).
Proof. by intros x. Qed.

Lemma add_or_increase_kept h set p h' set' added :
  rspamd_url_set_add_or_increase h set p = Some (h', set', added) →
  urls_kept h h'.
Proof.
  unfold rspamd_url_set_add_or_increase. intros Ha.
  destruct set as [s|]; simpl in Ha; [|done].
  destruct (load_url h p) as [u|]; simpl in Ha; [|done].
  destruct (url_set_find h s u) as [q|].
  - destruct (update_url _ q h) as [h1|] eqn:Hup; simpl in Ha; [|done].
    injection Ha as <- _ _.
    eapply urls_kept_update; [|done]. apply count_flags_keeps.
  - injection Ha as <- _ _. apply urls_kept_refl.
Qed.

Lemma query_callback_kept h url cbd h' cbd' r :
  rspamd_html_url_query_callback h url cbd = Some (h', cbd', r) →
  urls_kept h h'
  ∧ ∀ l, cbd_part_urls cbd = Some l →
         ∃ added, cbd_part_urls cbd' = Some (l ++ added).
Proof.
  unfold rspamd_html_url_query_callback. intros Hc.
  destruct (load_url h url) as [u|]; simpl in Hc; [|done].
  destruct (_ && _).
  { injection Hc as <- <- _. split; [apply urls_kept_refl|].
    intros l ->. exists []. by rewrite app_nil_r. }
  destruct (update_url _ url h) as [h1|] eqn:Hup; simpl in Hc; [|done].
  destruct (rspamd_url_set_add_or_increase h1 _ url)
    as [[[h2 set] added]|] eqn:Hadd; simpl in Hc; [|done].
  injection Hc as <- <- _. split.
  - eapply urls_kept_trans.
    + eapply urls_kept_update; [apply or_url_flags_keeps|done].
    + by eapply add_or_increase_kept.
  - intros l Hl. simpl. rewrite Hl.
    destruct added; [by exists [url]|].
    exists []. by rewrite app_nil_r.
Qed.

Lemma query_urls_iter_kept found :
  ∀ h cbd h' cbd',
    query_urls_iter found h cbd = Some (h', cbd') →
    urls_kept h h'
    ∧ ∀ l, cbd_part_urls cbd = Some l →
           ∃ added, cbd_part_urls cbd' = Some (l ++ added).
Proof.
  induction found as [|u rest IH]; intros h cbd h' cbd' Hq.
  - injection Hq as <- <-. split; [apply urls_kept_refl|].
    intros l ->. exists []. by rewrite app_nil_r.
  - cbn [query_urls_iter] in Hq.
    pose proof (urls_kept_alloc u h) as Hk0.
    destruct (alloc_url u h) as [h0 p].
    destruct (rspamd_html_url_query_callback h0 p cbd)
      as [[[h1 cbd1] continue]|] eqn:Hcb; simpl in Hq; [|done].
    apply query_callback_kept in Hcb as [Hk1 Hl1].
    destruct continue.
    + apply IH in Hq as [Hk2 Hl2]. split.
      * eauto using urls_kept_trans.
      * intros l Hl. destruct (Hl1 l Hl) as [a1 Ha1].
        destruct (Hl2 _ Ha1) as [a2 Ha2].
        exists (a1 ++ a2). by rewrite app_assoc.
    + injection Hq as <- <-. split; [eauto using urls_kept_trans|done].
Qed.

Lemma process_html_url_pushes h url set l h' set' pu' :
  rspamd_process_html_url h url set (Some l) = Some (h', set', pu') →
  urls_kept h h' ∧ ∃ added, pu' = Some (l ++ added ++ [url]).
Proof.
  unfold rspamd_process_html_url. intros Hp.
  destruct (load_url h url) as [u|]; simpl in Hp; [|done].
  match type of Hp with (?r ≫= _) = _ => destruct r as [[h1 cbd]|] eqn:Hq end;
    simpl in Hp; [|done].
  injection Hp as <- _ <-.
  destruct (0 <? url_querylen u).
  - apply query_urls_iter_kept in Hq as [Hk Hl].
    split; [done|]. destruct (Hl l eq_refl) as [added ->].
    exists added. simpl. by rewrite app_assoc.
  - injection Hq as <- <-. split; [apply urls_kept_refl|].
    by exists [].
Qed.

End url_resolver_properties.

Section part_urls_properties.
Context `{html_tags_h} `{text_collaborators} `{url_collaborators}
        `{double_ops} `{style_collaborators} `{lexer_collaborator}.

Lemma pushes_accepted_refl h pu : pushes_accepted h pu pu.
Proof. intros l ->. exists []. by rewrite app_nil_r. Qed.

Lemma pushes_accepted_trans h2 h3 pu1 pu2 pu3 :
  urls_kept h2 h3 →
  pushes_accepted h2 pu1 pu2 → pushes_accepted h3 pu2 pu3 →
  pushes_accepted h3 pu1 pu3.
Proof.
  intros Hk H12 H23 l Hl.
  destruct (H12 l Hl) as (a1 & Hp2 & Ha1).
  destruct (H23 _ Hp2) as (a2 & Hp3 & Ha2).
  exists (a1 ++ a2). split; [by rewrite app_assoc|].
  apply Forall_app. split; [|done].
  eapply Forall_impl; [exact Ha1|]. apply Hk.
Qed.

Lemma img_external_pushes src w w' :
  img_external src w = Some w' →
  urls_kept (iw_heap w) (iw_heap w')
  ∧ pushes_accepted (iw_heap w') (iw_part_urls w) (iw_part_urls w').
Proof.
  unfold img_external. intros Hi.
  destruct (rspamd_html_process_url (iw_heap _) src None)
    as [[h1 url] comp] eqn:Hurl.
  simpl in Hurl.
  pose proof (process_url_kept _ _ _ _ _ _ Hurl) as Hk1.
  destruct url as [p|].
  2:{ injection Hi as <-. simpl. split; [done|apply pushes_accepted_refl]. }
  apply process_url_Some in Hurl
    as (v & _ & _ & _ & _ & _ & _ & Hv & Hhost & Hproto & _).
  assert (Hacc1 : url_accepted_at h1 p) by by exists v.
  destruct (update_url _ p h1) as [h2|] eqn:Hup; simpl in Hi; [|done].
  pose proof (urls_kept_update _ _ _ _ (or_url_flags_keeps _) Hup) as Hk2.
  destruct (rspamd_url_set_add_or_return h2 _ p) as [[set existing]|];
    simpl in Hi; [|done].
  destruct existing as [e|]; simpl in Hi; [|done].
  destruct (bool_decide (e ≠ p)); simpl in Hi.
  - destruct (load_url h2 p) as [u|]; simpl in Hi; [|done].
    destruct (update_url _ e h2) as [h3|] eqn:Hup3; simpl in Hi; [|done].
    injection Hi as <-. simpl.
    split; [|apply pushes_accepted_refl].
    eapply urls_kept_trans; [done|]. eapply urls_kept_trans; [done|].
    eapply urls_kept_update; [|done]. apply count_flags_keeps.
  - injection Hi as <-. simpl. split; [eauto using urls_kept_trans|].
    intros l ->. exists [p]. split; [done|].
    apply Forall_singleton. by apply Hk2.
Qed.

Lemma img_component_pushes comp w w' :
  img_component comp w = Some w' →
  urls_kept (iw_heap w) (iw_heap w')
  ∧ pushes_accepted (iw_heap w') (iw_part_urls w) (iw_part_urls w').
Proof.
  unfold img_component. intros Hi.
  destruct (comp_type comp);
    try (injection Hi as <-; split;
         [apply urls_kept_refl|apply pushes_accepted_refl]).
  - destruct (0 <? blen _);
      [|injection Hi as <-; split;
        [apply urls_kept_refl|apply pushes_accepted_refl]].
    destruct (_ && _);
      [injection Hi as <-; split;
       [apply urls_kept_refl|apply pushes_accepted_refl]|].
    destruct (_ && _);
      [injection Hi as <-; split;
       [apply urls_kept_refl|apply pushes_accepted_refl]|].
    apply img_external_pushes in Hi. exact Hi.
  - repeat case_match; simplify_eq; split;
      (apply urls_kept_refl || apply pushes_accepted_refl).
  - repeat case_match; simplify_eq; split;
      (apply urls_kept_refl || apply pushes_accepted_refl).
Qed.

Lemma img_components_pushes comps :
  ∀ w w', img_components comps w = Some w' →
          urls_kept (iw_heap w) (iw_heap w')
          ∧ pushes_accepted (iw_heap w') (iw_part_urls w) (iw_part_urls w').
Proof.
  induction comps as [|comp rest IH]; intros w w' Hi.
  - injection Hi as <-. split; [apply urls_kept_refl|apply pushes_accepted_refl].
  - cbn [img_components] in Hi.
    destruct (img_component comp w) as [w1|] eqn:Hc; simpl in Hi; [|done].
    apply img_component_pushes in Hc as [Hk1 Hp1].
    apply IH in Hi as [Hk2 Hp2].
    split; [eauto using urls_kept_trans|].
    eapply pushes_accepted_trans; done.
Qed.

(** The image handler enters into [part_urls] only URLs that the resolver
    has accepted. *)
Lemma process_img_tag_pushes h tag hc set pu dest h' hc' set' pu' dest' :
  rspamd_html_process_img_tag h tag hc set pu dest
  = Some (h', hc', set', pu', dest') →
  urls_kept h h' ∧ pushes_accepted h' pu pu'.
Proof.
  unfold rspamd_html_process_img_tag. intros Hi.
  destruct (load_tag h tag) as [t|]; simpl in Hi; [|done].
  destruct (update_tag _ tag h) as [h1|] eqn:Hu1; simpl in Hi; [|done].
  destruct (img_components _ _) as [w|] eqn:Hw; simpl in Hi; [|done].
  apply img_components_pushes in Hw as [Hk Hp]. simpl in Hk, Hp.
  match type of Hi with
  | (update_tag ?f tag ?h2 ≫= _) = _ =>
      destruct (update_tag f tag h2) as [h3|] eqn:Hu3; simpl in Hi; [|done]
  end.
  injection Hi as <- _ _ <- _.
  assert (Hk3 : urls_kept (iw_heap w) h3).
  { apply urls_kept_same. apply update_tag_urls in Hu3. by rewrite Hu3. }
  split.
  - apply (urls_kept_trans h h1 h3).
    + apply urls_kept_same. by apply update_tag_urls in Hu1.
    + exact (urls_kept_trans _ _ _ Hk Hk3).
  - eapply pushes_accepted_trans; [exact Hk3|exact Hp|].
    apply pushes_accepted_refl.
Qed.

Local Opaque rspamd_url_set_add_or_return rspamd_process_html_url.

(** The anchor path enters the URL of the attribute last, after the URLs
    that its query string has yielded. *)
Lemma tag_end_href_open_pushes tag s s' l :
  Tokenizer.tag_end_href_open tag s = Some s' →
  Tokenizer.tk_part_urls s = Some l →
  Tokenizer.tk_part_urls s' = Some l
  ∨ ∃ added p,
      Tokenizer.tk_part_urls s' = Some (l ++ added ++ [p])
      ∧ Tokenizer.tk_url s' = Some p
      ∧ url_accepted_at (Tokenizer.tk_heap s') p.
Proof.
  unfold Tokenizer.tag_end_href_open. intros Ht Hl.
  destruct (rspamd_html_process_url_tag _ tag _) as [[h1 url]|] eqn:Hurl;
    simpl in Ht; [|done].
  destruct url as [u|]; [|injection Ht as <-; left; exact Hl].
  apply process_url_tag_accepted in Hurl as [Hacc _].
  simpl in Ht.
  destruct (Tokenizer.tk_url_set s) as [set0|] eqn:Hset; simpl in Ht.
  2:{ injection Ht as <-. left. exact Hl. }
  destruct (rspamd_url_set_add_or_return h1 (Some set0) u)
    as [[set existing]|]; simpl in Ht; [|done].
  destruct existing as [e|]; simpl in Ht; [|done].
  destruct (bool_decide (e = u)); simpl in Ht.
  - rewrite Hl in Ht.
    destruct (rspamd_process_html_url h1 u set (Some l))
      as [[[h2 set2] pu2]|] eqn:Hp; simpl in Ht; [|done].
    apply process_html_url_pushes in Hp as [Hk (added & ->)].
    injection Ht as <-. right. exists added, u. simpl.
    split; [done|]. split; [done|]. by apply Hk.
  - destruct (update_url _ e h1) as [h2|]; simpl in Ht; [|done].
    injection Ht as <-. left. exact Hl.
Qed.

End part_urls_properties.

Section url_claim.
Context `{html_tags_h} `{text_collaborators} `{url_collaborators}
        `{double_ops} `{style_collaborators} `{lexer_collaborator}.

Lemma process_url_schemaless_no_tld h start comp decoded :
  url_parser_input start = Some (decoded, true) →
  url_tldlen (snd (rspamd_url_parse decoded)) = 0
  ∨ has_flag (url_flags (snd (rspamd_url_parse decoded)))
      RSPAMD_URL_FLAG_NO_TLD = true →
  snd (fst (rspamd_html_process_url h start comp)) = None.
Proof.
  unfold url_parser_input, rspamd_html_process_url. intros Hin Htld.
  destruct (url_prefix_scan _) as [[prefix no_prefix]|]; [|done].
  simpl in Hin. injection Hin as <- ->.
  destruct (url_encode _) as [body bad]. simpl in Htld.
  destruct (rspamd_url_normalise_propagate_flags _ 0) as [decoded sf].
  simpl in Htld.
  destruct (rspamd_url_parse decoded) as [rc parsed]. simpl in Htld.
  rewrite (url_filter_schemaless_no_tld rc parsed sf bad Htld).
  by destruct (alloc_url parsed h).
Qed.

(** C3: [rspamd_html_process_url] returns a URL only when the parser has
    returned [URI_ERRNO_OK] on the buffer it was given and the URL has a
    host of positive length and a protocol that is not unknown; it returns
    [NULL] for a URL whose scheme was synthesized when the parser reports a
    top-level domain of length zero or the flag [NO_TLD]; and so the URL
    that an [href], [src] or [action] attribute puts into [part_urls],
    through the anchor path as through the image handler, has a host and a
    known protocol. *)
Theorem html_urls_have_host_and_protocol :
  (∀ h start comp h' p comp',
     rspamd_html_process_url h start comp = (h', Some p, comp') →
     ∃ u decoded no_prefix,
       url_parser_input start = Some (decoded, no_prefix)
       ∧ fst (rspamd_url_parse decoded) = URI_ERRNO_OK
       ∧ urls h' !! p = Some u
       ∧ 0 < url_hostlen u
       ∧ has_flag (url_protocol u) PROTOCOL_UNKNOWN = false)
  ∧ (∀ h start comp decoded,
       url_parser_input start = Some (decoded, true) →
       url_tldlen (snd (rspamd_url_parse decoded)) = 0
       ∨ has_flag (url_flags (snd (rspamd_url_parse decoded)))
           RSPAMD_URL_FLAG_NO_TLD = true →
       snd (fst (rspamd_html_process_url h start comp)) = None)
  ∧ (∀ tag s s' l,
       Tokenizer.tag_end_href_open tag s = Some s' →
       Tokenizer.tk_part_urls s = Some l →
       Tokenizer.tk_part_urls s' = Some l
       ∨ ∃ added p,
           Tokenizer.tk_part_urls s' = Some (l ++ added ++ [p])
           ∧ Tokenizer.tk_url s' = Some p
           ∧ url_accepted_at (Tokenizer.tk_heap s') p)
  ∧ (∀ h tag hc set l dest h' hc' set' pu' dest',
       rspamd_html_process_img_tag h tag hc set (Some l) dest
       = Some (h', hc', set', pu', dest') →
       ∃ added, pu' = Some (l ++ added)
                ∧ Forall (url_accepted_at h') added).
Proof.
  split; [|split; [|split]].
  - intros h start comp h' p comp' Hp.
    apply process_url_Some in Hp
      as (u & decoded & np & Hin & Hrc & _ & _ & Hu & Hhost & Hproto & _).
    by exists u, decoded, np.
  - apply process_url_schemaless_no_tld.
  - apply tag_end_href_open_pushes.
  - intros h tag hc set l dest h' hc' set' pu' dest' Hi.
    apply process_img_tag_pushes in Hi as [_ Hp]. by apply Hp.
Qed.

End url_claim.

(** The resolver on [http://example.com/] in the scenario setting. *)
Lemma html_urls_have_host_and_protocol_witness :
  ∃ h' comp',
    rspamd_html_process_url heap_empty
      (bytes_of_string "http://example.com/") None = (h', Some 0%nat, comp')
    ∧ ∃ u, urls h' !! 0%nat = Some u ∧ 0 < url_hostlen u
           ∧ has_flag (url_protocol u) PROTOCOL_UNKNOWN = false.
Proof.
  destruct (rspamd_html_process_url heap_empty
              (bytes_of_string "http://example.com/") None)
    as [[h' r] comp'] eqn:Hp.
  assert (Hr : r = Some 0%nat)
    by (apply (f_equal (λ x, snd (fst x))) in Hp; vm_compute in Hp; congruence).
  subst r. exists h', comp'. split; [reflexivity|].
  destruct (proj1 html_urls_have_host_and_protocol _ _ _ _ _ _ Hp)
    as (u & _ & _ & _ & _ & Hu & Hhost & Hproto).
  by exists u.
Defined.

(** ** Line breaks in the visible text *)

Section line_breaks.
Context `{html_tags_h}.

Lemma touch_content_tag_synthetic_dest k s s' :
  Tokenizer.touch_content_tag_synthetic k s = Some s' →
  Tokenizer.dest s' = Tokenizer.dest s.
Proof.
  unfold Tokenizer.touch_content_tag_synthetic.
  destruct (Tokenizer.content_tag s) as [ct|]; [|by intros [= <-]].
  destruct (update_tag _ ct _) as [h|]; simpl; [|done].
  by intros [= <-].
Qed.

Lemma append_newline_dest s s' :
  Tokenizer.append_newline s = Some s' →
  Tokenizer.dest s'
  = if wants_newline (Tokenizer.dest s)
    then Tokenizer.dest s ++ [c_cr; c_nl] else Tokenizer.dest s.
Proof.
  unfold Tokenizer.append_newline, wants_newline.
  destruct (_ && _); [|by intros [= <-]].
  intros Ht. by apply touch_content_tag_synthetic_dest in Ht.
Qed.

Lemma wants_newline_after_break d : wants_newline (d ++ [c_cr; c_nl]) = false.
Proof.
  unfold wants_newline.
  replace (d ++ [c_cr; c_nl]) with ((d ++ [c_cr]) ++ [c_nl])
    by by rewrite <- app_assoc.
  rewrite last_snoc, bool_decide_eq_true_2 by done.
  apply andb_false_r.
Qed.

Lemma wants_newline_idem d :
  wants_newline (if wants_newline d then d ++ [c_cr; c_nl] else d) = false.
Proof.
  destruct (wants_newline d) eqn:Hw; [apply wants_newline_after_break|done].
Qed.

Lemma tag_end_newlines_dest id s s' :
  Tokenizer.tag_end_newlines id s = Some s' →
  Tokenizer.dest s'
  = if breaks_line id && wants_newline (Tokenizer.dest s)
    then Tokenizer.dest s ++ [c_cr; c_nl] else Tokenizer.dest s.
Proof.
  unfold Tokenizer.tag_end_newlines, breaks_line. intros Ht.
  destruct ((id =? Tag_BR) || (id =? Tag_HR)) eqn:Ha; simpl in *.
  - destruct (Tokenizer.append_newline s) as [s1|] eqn:H1; simpl in Ht; [|done].
    apply append_newline_dest in H1.
    destruct ((id =? Tag_P) || (id =? Tag_TR) || (id =? Tag_DIV)).
    + destruct (Tokenizer.append_newline _) as [s2|] eqn:H2; simpl in Ht;
        [|done].
      injection Ht as <-. apply append_newline_dest in H2. simpl in *.
      rewrite H2, H1, wants_newline_idem. done.
    + injection Ht as <-. done.
  - destruct ((id =? Tag_P) || (id =? Tag_TR) || (id =? Tag_DIV)) eqn:Hb;
      simpl in *.
    + destruct (Tokenizer.append_newline s) as [s1|] eqn:H1; simpl in Ht;
        [|done].
      injection Ht as <-. by apply append_newline_dest in H1.
    + by injection Ht as <-.
Qed.

End line_breaks.


(** ** Blocks that are not visible *)

Section invisible_blocks.
Context `{html_tags_h} `{text_collaborators} `{url_collaborators}
        `{double_ops} `{style_collaborators} `{lexer_collaborator}.

Lemma update_tag_load f p h h' :
  update_tag f p h = Some h' →
  ∃ t, load_tag h p = Some t ∧ load_tag h' p = Some (f t)
       ∧ blocks h' = blocks h.
Proof.
  unfold update_tag, load_tag.
  destruct (tags h !! p) as [t|] eqn:Ht; simpl; [|done].
  intros [= <-]. exists t. split; [done|]. split; [|done].
  simpl. apply list_lookup_insert_eq. by eapply lookup_lt_Some.
Qed.

Lemma update_block_load f p h h' :
  update_block f p h = Some h' →
  ∃ b, load_block h p = Some b ∧ load_block h' p = Some (f b)
       ∧ tags h' = tags h.
Proof.
  unfold update_block, load_block.
  destruct (blocks h !! p) as [b|] eqn:Hb; simpl; [|done].
  intros [= <-]. exists b. split; [done|]. split; [|done].
  simpl. apply list_lookup_insert_eq. by eapply lookup_lt_Some.
Qed.

Lemma process_block_tag_extra h tag hc h' hc' :
  rspamd_html_process_block_tag h tag hc = Some (h', hc') →
  ∃ t bl, load_tag h' tag = Some t ∧ extra t = Some (ExtraBlock bl).
Proof.
  unfold rspamd_html_process_block_tag. intros Hb.
  destruct (load_tag h tag) as [t|]; simpl in Hb; [|done].
  destruct (block_components _ _ _) as [[bl hc1]|]; simpl in Hb; [|done].
  match type of Hb with
  | (update_tag ?f tag ?h2 ≫= _) = _ =>
      destruct (update_tag f tag h2) as [h3|] eqn:Hu; simpl in Hb; [|done]
  end.
  injection Hb as <- _.
  apply update_tag_load in Hu as (t0 & _ & Hl & _).
  eexists _, _. split; [exact Hl|]. reflexivity.
Qed.

Lemma propagate_style_tags h hc tag bl queue h' queue' :
  rspamd_html_propagate_style h hc tag bl queue = Some (h', queue') →
  tags h' = tags h.
Proof.
  unfold rspamd_html_propagate_style. intros Hp.
  match type of Hp with
  | (?r ≫= _) = _ => destruct r as [bp|]; simpl in Hp; [|done]
  end.
  destruct (load_block h bl) as [b|]; simpl in Hp; [|done].
  destruct (propagate_style_block hc bp b) as [b' push].
  destruct (update_block _ bl h) as [h1|] eqn:Hu; simpl in Hp; [|done].
  apply update_block_load in Hu as (_ & _ & _ & Htags).
  destruct (load_tag h1 tag) as [t|]; simpl in Hp; [|done].
  destruct (_ && _); by injection Hp as <- _.
Qed.

Lemma block_visibility_spec b :
  font_size (Tokenizer.block_visibility b) = font_size b
  ∧ font_color (Tokenizer.block_visibility b) = font_color b
  ∧ ((font_size b <? 3) || (col_alpha (font_color b) <? 10) = true →
     visible (Tokenizer.block_visibility b) = false).
Proof.
  unfold Tokenizer.block_visibility.
  destruct ((font_size b <? 3) || (col_alpha (font_color b) <? 10)); done.
Qed.

(** In [content_ignore] a byte that is not [<] is skipped: nothing is
    emitted and the state stays. *)
Lemma content_ignore_skips input allow_css s t :
  Tokenizer.tk_state s = Tokenizer.content_ignore →
  peek input (Tokenizer.tk_p s) = Some t →
  t ≠ c_lt →
  Tokenizer.tokenizer_step input allow_css s = Some (Tokenizer.advance s).
Proof.
  intros Hst Hp Hne. unfold Tokenizer.tokenizer_step.
  rewrite Hp, Hst. simpl. apply Z.eqb_neq in Hne. by rewrite Hne.
Qed.

End invisible_blocks.

(** C7, as the specification states it, fails on the code.  The block of
    [<p style="font-size:2px">] has the font size 2 and is marked as not
    visible, and the text [x] that follows the tag is suppressed; but the
    next tag ends the suppression, and the visible text has the [y] and the
    [z] of the block, which are emitted before its closing tag. *)
Lemma invisible_block_content_emitted :
  let r := Tokenizer.rspamd_html_process_part heap_empty hc_zero
             (bytes_of_string "<p style=" ++ [34]
              ++ bytes_of_string "font-size:2px" ++ [34]
              ++ bytes_of_string ">x<b>y</b>z</p>") in
  (Tokenizer.res_dest <$> r) = Some (bytes_of_string "yz" ++ [c_cr; c_nl])
  ∧ ((λ x, (λ b, (font_size b, visible b)) <$> blocks (Tokenizer.res_heap x))
       <$> r) = Some [(2, false)].
Proof. vm_compute. split; reflexivity. Qed.

(** ** The tag limit *)

Section tree_count.
Context `{html_tags_h}.

Lemma count_tag_nodes_app ns x :
  count_tag_nodes (ns ++ [x]) = (count_tag_nodes ns + tagged x)%nat.
Proof. induction ns as [|n r IH]; simpl; [unfold tagged; lia|]. rewrite IH. lia. Qed.

Lemma count_tag_nodes_insert ns : ∀ i x y,
  ns !! i = Some y →
  (count_tag_nodes (<[i:=x]> ns) + tagged y = count_tag_nodes ns + tagged x)%nat.
Proof.
  induction ns as [|n r IH]; intros i x y Hy; [done|].
  destruct i as [|i]; simpl in *.
  - injection Hy as ->. unfold tagged. lia.
  - specialize (IH i x y Hy). lia.
Qed.

Lemma count_tag_nodes_insert_le ns i :
  (count_tag_nodes (<[i:=None]> ns) ≤ count_tag_nodes ns)%nat.
Proof.
  destruct (ns !! i) as [y|] eqn:Hy.
  - pose proof (count_tag_nodes_insert ns i None y Hy). unfold tagged in *. simpl in *. lia.
  - rewrite list_insert_ge; [done|]. by apply lookup_ge_None.
Qed.

Lemma g_nodes_free_count fuel :
  ∀ ns n, (count_tag_nodes (g_nodes_free fuel ns n) ≤ count_tag_nodes ns)%nat.
Proof.
  induction fuel as [|f IH]; intros ns n; simpl; [done|].
  destruct (ns !! n) as [[nd|]|]; try done.
  etransitivity; [apply count_tag_nodes_insert_le|].
  generalize (children nd). intros cs. revert ns.
  induction cs as [|c cs IHc]; intros ns; simpl; [done|].
  etransitivity; [apply IHc|]. apply IH.
Qed.

Lemma g_node_append_count parent node h h' :
  g_node_append parent node h = Some h' →
  count_tag_nodes (nodes h') = count_tag_nodes (nodes h) ∧ tags h' = tags h.
Proof.
  unfold g_node_append, load_node. intros Ha.
  destruct parent as [p|]; simpl in Ha; [|done].
  destruct (nodes h !! p) as [[pn|]|] eqn:Hp; simpl in Ha; try done.
  destruct (nodes h !! node) as [[nn|]|] eqn:Hn; simpl in Ha; try done.
  match type of Ha with
  | (mjoin (?l !! p) ≫= _) = _ => destruct (l !! p) as [[pn'|]|] eqn:Hp'; simpl in Ha; try done
  end.
  injection Ha as <-. simpl. split; [|done].
  pose proof (count_tag_nodes_insert _ p
                (Some {| data := data pn'; gparent := gparent pn'; children := children pn' ++ [node] |})
                _ Hp') as H1.
  pose proof (count_tag_nodes_insert _ node
                (Some {| data := data nn; gparent := Some p; children := children nn |})
                _ Hn) as H2.
  unfold tagged in *. simpl in *. lia.
Qed.

Lemma update_tag_nodes f p h h' : update_tag f p h = Some h' → nodes h' = nodes h.
Proof.
  unfold update_tag. destruct (tags h !! p); simpl; [|done]. by intros [= <-].
Qed.

Lemma g_node_destroy_count node h h' :
  g_node_destroy node h = Some h' →
  (count_tag_nodes (nodes h') ≤ count_tag_nodes (nodes h))%nat.
Proof.
  unfold g_node_destroy, load_node. intros Hd.
  destruct (nodes h !! node) as [[nd|]|] eqn:Hn; simpl in Hd; try done.
  injection Hd as <-. simpl.
  etransitivity; [apply g_nodes_free_count|].
  destruct (gparent nd) as [p|]; [|done].
  destruct (nodes h !! p) as [[pn|]|] eqn:Hp; try done.
  pose proof (count_tag_nodes_insert _ p
     (Some {| data := data pn; gparent := gparent pn;
              children := filter (λ c, c ≠ node) (children pn) |}) _ Hp) as H1.
  unfold tagged in *. simpl in *. lia.
Qed.

Lemma check_balance_count h node cl h' cl' ok :
  rspamd_html_check_balance h node cl = Some (h', cl', ok) →
  (count_tag_nodes (nodes h') ≤ count_tag_nodes (nodes h))%nat.
Proof.
  unfold rspamd_html_check_balance. intros Hc.
  destruct (load_node h node) as [nd|]; simpl in Hc; [|done].
  destruct (data nd) as [tp|]; simpl in Hc; [|done].
  destruct (load_tag h tp) as [arg|]; simpl in Hc; [|done].
  destruct (has_flag _ _); [|by injection Hc as <- _ _].
  destruct (balance_walk _ _ _ _) as [[cur|]|]; simpl in Hc; try done.
  - destruct (load_node h cur) as [cn|]; simpl in Hc; [|done].
    destruct (data cn) as [ctp|]; simpl in Hc; [|done].
    destruct (update_tag _ ctp h) as [h1|] eqn:Hu; simpl in Hc; [|done].
    destruct (g_node_destroy node h1) as [h2|] eqn:Hd; simpl in Hc; [|done].
    destruct (load_node h2 cur) as [cn'|]; simpl in Hc; [|done].
    injection Hc as <- _ _.
    apply g_node_destroy_count in Hd. apply update_tag_nodes in Hu.
    rewrite Hu in Hd. done.
  - by injection Hc as <- _ _.
Qed.

Lemma guint_incr_small x : 0 ≤ x < guint_max - 1 → guint_incr x = x + 1.
Proof. intros Hx. unfold guint_incr. apply Z.mod_small. lia. Qed.

Local Opaque g_node_append rspamd_html_check_balance update_tag load_tag
  load_node guint_incr.

Ltac tree_ops :=
  repeat match goal with
    | Hx : g_node_append _ _ _ = Some _ |- _ =>
        apply g_node_append_count in Hx as [? ?]
    | Hx : update_tag _ _ _ = Some _ |- _ => apply update_tag_nodes in Hx
    | Hx : rspamd_html_check_balance _ _ _ = Some _ |- _ =>
        apply check_balance_count in Hx
    end.

Ltac count_solve :=
  simpl in *;
  repeat match goal with
    | Hx : nodes _ = _ |- _ => rewrite Hx in *; clear Hx
    | Hx : count_tag_nodes (nodes _) = _ |- _ => rewrite Hx in *; clear Hx
    end;
  simpl in *;
  rewrite ?count_tag_nodes_app in *; unfold tagged in *; simpl in *;
  rewrite ?guint_incr_small by lia;
  unfold max_tags in *; lia.

Lemma process_tag_push_count h hc tag cl bal h' hc' cl' bal' ret :
  process_tag_push h hc tag cl bal = Some (h', hc', cl', bal', ret) →
  0 ≤ total_tags hc < guint_max - 1 →
  count_bound h hc →
  count_bound h' hc' ∧ total_tags hc ≤ total_tags hc' ≤ total_tags hc + 1.
Proof.
  unfold process_tag_push, count_bound. intros Hp Ht Hc.
  destruct (total_tags hc <? max_tags) eqn:Hlt; simpl in Hp.
  - apply Z.ltb_lt in Hlt.
    repeat first [progress simplify_option_eq | case_match]; tree_ops; count_solve.
  - apply Z.ltb_ge in Hlt.
    repeat first [progress simplify_option_eq | case_match]; tree_ops; count_solve.
Qed.

Lemma process_tag_bad_nesting_count h hc tag parent cl h' hc' cl' bal' ret :
  process_tag_bad_nesting h hc tag parent cl = Some (h', hc', cl', bal', ret) →
  0 ≤ total_tags hc < guint_max - 1 →
  count_bound h hc →
  count_bound h' hc' ∧ total_tags hc ≤ total_tags hc' ≤ total_tags hc + 1.
Proof.
  unfold process_tag_bad_nesting, count_bound. intros Hp Ht Hc.
  simpl in Hp.
  destruct (total_tags hc <? max_tags) eqn:Hlt; simpl in Hp.
  - apply Z.ltb_lt in Hlt. binds; tree_ops; count_solve.
  - apply Z.ltb_ge in Hlt. binds; tree_ops; count_solve.
Qed.

Local Opaque process_tag_bad_nesting process_tag_push.

Lemma process_tag_count h hc tag cl bal h' hc' cl' bal' ret :
  rspamd_html_process_tag h hc tag cl bal = Some (h', hc', cl', bal', ret) →
  0 ≤ total_tags hc < guint_max - 1 →
  count_bound h hc →
  count_bound h' hc' ∧ total_tags hc ≤ total_tags hc' ≤ total_tags hc + 1.
Proof.
  unfold rspamd_html_process_tag. intros Hp Ht Hc.
  assert (Hroot : ∃ h0 hc0 cl0,
    (match html_tags hc with
     | None =>
         let '(h', nnode) := g_node_new None h in
         (h', set_html_tags (Some nnode) hc, Some nnode)
     | Some _ => (h, hc, cl)
     end) = (h0, hc0, cl0)
    ∧ count_bound h0 hc0 ∧ total_tags hc0 = total_tags hc).
  { destruct (html_tags hc); simpl; eexists _, _, _; (split; [reflexivity|]).
    - done.
    - unfold count_bound in *. simpl. rewrite count_tag_nodes_app.
      unfold tagged. simpl. split; [lia|done]. }
  destruct Hroot as (h0 & hc0 & cl0 & Heq & Hc0 & Ht0).
  rewrite Heq in Hp. clear Heq.
  set (hc1 := if max_tags <? total_tags hc0
              then or_hc_flags RSPAMD_HTML_FLAG_TOO_MANY_TAGS hc0 else hc0) in *.
  assert (Ht1 : total_tags hc1 = total_tags hc)
    by (subst hc1; by destruct (max_tags <? total_tags hc0)).
  assert (Hc1 : count_bound h0 hc1)
    by (unfold count_bound in *; rewrite Ht1, <- Ht0; done).
  clearbody hc1. clear Hc Hc0 Ht0 hc0.
  rewrite <- Ht1 in Ht. rewrite <- Ht1. clear Ht1.
  unfold count_bound in *.
  destruct (total_tags hc1 <? max_tags) eqn:Hlt;
    [apply Z.ltb_lt in Hlt|apply Z.ltb_ge in Hlt];
    binds;
    try (match goal with
         | Hx : process_tag_push _ _ _ _ _ = Some _ |- _ =>
             apply process_tag_push_count in Hx as [? ?]; [|done|try done]
         | Hx : process_tag_bad_nesting _ _ _ _ _ = Some _ |- _ =>
             apply process_tag_bad_nesting_count in Hx as [? ?]; [|done|try done]
         end);
    unfold count_bound in *; tree_ops; count_solve.
Qed.

End tree_count.

(** ** What the tree builder leaves alone at the limit *)

Section tree_limit.
Context `{html_tags_h}.

Lemma has_flag_lor_same x m : m ≠ 0 → has_flag (Z.lor x m) m = true.
Proof.
  intros Hm. unfold has_flag.
  replace (Z.land (Z.lor x m) m) with m.
  - by apply negb_true_iff, Z.eqb_neq.
  - symmetry. apply Z.bits_inj'. intros n Hn.
    rewrite Z.land_spec, Z.lor_spec. destruct (Z.testbit m n), (Z.testbit x n); done.
Qed.

Lemma has_flag_lor_keep x m k : has_flag x m = true → has_flag (Z.lor x k) m = true.
Proof.
  unfold has_flag. rewrite !negb_true_iff, !Z.eqb_neq. intros Hx Hz. apply Hx.
  apply Z.bits_inj'. intros n Hn. rewrite Z.bits_0.
  apply (f_equal (λ z, Z.testbit z n)) in Hz.
  rewrite Z.land_spec, Z.lor_spec, Z.bits_0 in Hz. rewrite Z.land_spec.
  destruct (Z.testbit x n), (Z.testbit m n), (Z.testbit k n); done.
Qed.

Lemma tags_kept_refl tag h : tags_kept tag h h.
Proof. done. Qed.

Lemma tags_kept_trans tag h1 h2 h3 :
  tags_kept tag h1 h2 → tags_kept tag h2 h3 → tags_kept tag h1 h3.
Proof.
  intros (Hn1 & Hl1 & Ht1) (Hn2 & Hl2 & Ht2). repeat split.
  - congruence.
  - congruence.
  - intros p Hp. rewrite Ht2, Ht1; done.
Qed.

Lemma update_tag_kept f tag h h' : update_tag f tag h = Some h' → tags_kept tag h h'.
Proof.
  unfold update_tag. destruct (tags h !! tag) eqn:Ht; simpl; [|done].
  intros [= <-]. repeat split; simpl.
  - by rewrite length_insert.
  - intros p Hp. by rewrite list_lookup_insert_ne.
Qed.

Local Opaque update_tag load_tag load_node guint_incr g_node_append
  rspamd_html_check_balance.

Ltac kept :=
  repeat match goal with
    | Hx : update_tag _ _ _ = Some _ |- _ => apply update_tag_kept in Hx
    end;
  eauto using tags_kept_refl, tags_kept_trans.

Lemma process_tag_push_full h hc tag cl bal h' hc' cl' bal' ret :
  process_tag_push h hc tag cl bal = Some (h', hc', cl', bal', ret) →
  max_tags ≤ total_tags hc →
  tags_kept tag h h' ∧ hc' = hc ∧ cl' = cl.
Proof.
  unfold process_tag_push. intros Hp Hge.
  apply Z.ltb_ge in Hge. rewrite Hge in Hp. simpl in Hp.
  binds; (split; [kept|done]).
Qed.

Lemma process_tag_bad_nesting_full h hc tag parent cl h' hc' cl' bal' ret :
  process_tag_bad_nesting h hc tag parent cl = Some (h', hc', cl', bal', ret) →
  max_tags ≤ total_tags hc →
  tags_kept tag h h' ∧ cl' = cl
  ∧ hc' = or_hc_flags RSPAMD_HTML_FLAG_UNBALANCED hc.
Proof.
  unfold process_tag_bad_nesting. intros Hp Hge.
  apply Z.ltb_ge in Hge. simpl in Hp. rewrite Hge in Hp.
  binds; (split; [kept|done]).
Qed.

Local Opaque process_tag_bad_nesting process_tag_push.

Lemma process_tag_full h hc tag cl bal h' hc' cl' bal' ret :
  rspamd_html_process_tag h hc tag cl bal = Some (h', hc', cl', bal', ret) →
  is_Some (html_tags hc) →
  max_tags ≤ total_tags hc →
  tags_kept tag h h' ∧ cl' = cl ∧ html_tags hc' = html_tags hc
  ∧ (max_tags < total_tags hc →
     has_flag (hc_flags hc') RSPAMD_HTML_FLAG_TOO_MANY_TAGS = true).
Proof.
  unfold rspamd_html_process_tag. intros Hp [root Hroot] Hge.
  rewrite Hroot in Hp.
  set (hc1 := if max_tags <? total_tags hc
              then or_hc_flags RSPAMD_HTML_FLAG_TOO_MANY_TAGS hc else hc) in *.
  assert (Ht1 : total_tags hc1 = total_tags hc)
    by (subst hc1; by destruct (max_tags <? total_tags hc)).
  assert (Hr1 : html_tags hc1 = html_tags hc)
    by (subst hc1; by destruct (max_tags <? total_tags hc)).
  assert (Hf1 : max_tags < total_tags hc →
                has_flag (hc_flags hc1) RSPAMD_HTML_FLAG_TOO_MANY_TAGS = true).
  { intros Hlt. subst hc1. apply Z.ltb_lt in Hlt. rewrite Hlt. simpl.
    by apply has_flag_lor_same. }
  clearbody hc1.
  assert (Hge1 : (total_tags hc1 <? max_tags) = false)
    by (apply Z.ltb_ge; lia).
  rewrite <- Hr1. 
  binds;
    try (match goal with
         | Hx : process_tag_push _ _ _ _ _ = Some _ |- _ =>
             apply process_tag_push_full in Hx as (? & ? & ?); [|lia]
         | Hx : process_tag_bad_nesting _ _ _ _ _ = Some _ |- _ =>
             apply process_tag_bad_nesting_full in Hx as (? & ? & ?); [|lia]
         end); subst; simpl;
    (split; [kept|]); (split; [done|]); (split; [done|]); try done.
  all: intros Hlt; specialize (Hf1 Hlt); simpl; try done.
  all: by apply has_flag_lor_keep.
Qed.

Lemma process_tag_full_total h hc tag t cl bal h' hc' cl' bal' ret :
  rspamd_html_process_tag h hc tag cl bal = Some (h', hc', cl', bal', ret) →
  is_Some (html_tags hc) →
  max_tags ≤ total_tags hc →
  tags h !! tag = Some t →
  total_tags hc'
  = if tag_id t =? -1 then guint_incr (total_tags hc) else total_tags hc.
Proof.
  unfold rspamd_html_process_tag. intros Hp [root Hroot] Hge Htag.
  rewrite Hroot in Hp.
  set (hc1 := if max_tags <? total_tags hc
              then or_hc_flags RSPAMD_HTML_FLAG_TOO_MANY_TAGS hc else hc) in *.
  assert (Ht1 : total_tags hc1 = total_tags hc)
    by (subst hc1; by destruct (max_tags <? total_tags hc)).
  clearbody hc1.
  assert (Hge1 : (total_tags hc1 <? max_tags) = false)
    by (apply Z.ltb_ge; lia).
  change (tags h !! tag) with (load_tag h tag) in Htag.
  rewrite Htag in Hp. simpl in Hp.
  destruct (tag_id t =? -1).
  { injection Hp as _ <- _ _ _. simpl. by rewrite Ht1. }
  rewrite <- Ht1.
  binds;
    try (match goal with
         | Hx : process_tag_push _ _ _ _ _ = Some _ |- _ =>
             apply process_tag_push_full in Hx as (? & ? & ?); [|lia]
         | Hx : process_tag_bad_nesting _ _ _ _ _ = Some _ |- _ =>
             apply process_tag_bad_nesting_full in Hx as (? & ? & ?); [|lia]
         end); subst; simpl; done.
Qed.

End tree_limit.

(** ** The shape of the tree *)

Section tree_shape.
Context `{html_tags_h}.

Lemma g_node_new_append h p pn d :
  nodes h !! p = Some (Some pn) →
  g_node_append (Some p) (length (nodes h))
    (set_nodes (nodes h ++ [Some {| data := d; gparent := None; children := [] |}]) h)
  = Some (set_nodes (add_child (nodes h) p pn d) h).
Proof.
  intros Hp. unfold g_node_append, load_node. simpl.
  assert (Hlt : (p < length (nodes h))%nat) by (by eapply lookup_lt_Some).
  rewrite (lookup_app_l (nodes h) _ p), Hp by done. simpl.
  rewrite list_lookup_middle by done. simpl.
  rewrite insert_app_r_alt, Nat.sub_diag by done. simpl.
  rewrite (lookup_app_l (nodes h) _ p), Hp by done. simpl.
  rewrite insert_app_l by done. done.
Qed.

Lemma add_child_length ns p pn d :
  length (add_child ns p pn d) = S (length ns).
Proof. unfold add_child. rewrite length_app, length_insert. simpl. lia. Qed.

Lemma add_child_new ns p pn d :
  add_child ns p pn d !! length ns = Some (Some (leaf d p)).
Proof.
  unfold add_child. rewrite lookup_app_r; rewrite length_insert; [|done].
  by rewrite Nat.sub_diag.
Qed.

Lemma add_child_old ns p pn d i nd :
  ns !! p = Some (Some pn) →
  ns !! i = Some (Some nd) →
  ∃ nd', add_child ns p pn d !! i = Some (Some nd')
         ∧ data nd' = data nd ∧ gparent nd' = gparent nd.
Proof.
  intros Hp Hi. unfold add_child.
  assert (Hlt : (i < length ns)%nat) by (by eapply lookup_lt_Some).
  rewrite lookup_app_l by (by rewrite length_insert).
  destruct (decide (i = p)) as [->|Hne].
  - rewrite list_lookup_insert_eq by done. eexists; split; [done|].
    rewrite Hp in Hi. by injection Hi as <-.
  - rewrite list_lookup_insert_ne by done. eauto.
Qed.

Lemma add_child_inv ns p pn d i nd' :
  ns !! p = Some (Some pn) →
  add_child ns p pn d !! i = Some (Some nd') →
  (i = length ns ∧ nd' = leaf d p)
  ∨ ∃ nd, ns !! i = Some (Some nd) ∧ data nd' = data nd
          ∧ gparent nd' = gparent nd.
Proof.
  intros Hp Hi. unfold add_child in Hi.
  destruct (decide (i < length ns)%nat) as [Hlt|Hge].
  - right. rewrite lookup_app_l in Hi by (by rewrite length_insert).
    destruct (decide (i = p)) as [->|Hne].
    + rewrite list_lookup_insert_eq in Hi by done. injection Hi as <-. eauto.
    + rewrite list_lookup_insert_ne in Hi by done. eauto.
  - left. rewrite lookup_app_r in Hi by (rewrite length_insert; lia).
    rewrite length_insert in Hi.
    destruct (i - length ns)%nat as [|k] eqn:Hk; simpl in Hi; [|done].
    injection Hi as <-. split; [lia|done].
Qed.

(** ** The walk along the open tags *)

Lemma open_chain_length h hc cl : tree_wf h hc cl →
  ∀ cur l, open_chain h cur l →
  match cur with Some c => (length l ≤ c)%nat | None => l = [] end.
Proof.
  intros Hwf cur l Hch. induction Hch as [|c nd Hc Hd|c nd tp t l Hc Hd Ht Hch IH].
  - done.
  - simpl. lia.
  - destruct (wf_data _ _ _ Hwf c nd tp Hc Hd) as (t' & _ & _ & [p Hp]).
    rewrite Hp in IH. destruct (wf_parent _ _ _ Hwf c nd p Hc Hp) as [Hlt _].
    simpl. lia.
Qed.

Lemma open_chain_exists h hc cl : tree_wf h hc cl →
  ∀ c cn, nodes h !! c = Some (Some cn) → ∃ l, open_chain h (Some c) l.
Proof.
  intros Hwf c. induction (lt_wf c) as [c _ IH]. intros cn Hc.
  destruct (data cn) as [tp|] eqn:Hd.
  - destruct (wf_data _ _ _ Hwf c cn tp Hc Hd) as (t & Ht & _ & [p Hp]).
    destruct (wf_parent _ _ _ Hwf c cn p Hc Hp) as [Hlt [pn Hpn]].
    destruct (IH p Hlt pn Hpn) as [l Hl].
    exists ((c, t) :: l). eapply open_chain_node; eauto. by rewrite Hp.
  - exists []. by eapply open_chain_root.
Qed.

Lemma open_chain_fun h cur l1 : open_chain h cur l1 →
  ∀ l2, open_chain h cur l2 → l1 = l2.
Proof.
  induction 1 as [|c nd Hc Hd|c nd tp t l Hc Hd Ht Hch IH]; intros l2 H2.
  - by inversion H2.
  - inversion H2 as [|c' nd' Hc' Hd'|c' nd' tp' t' l' Hc' Hd' Ht' Hch']; subst;
      [done|].
    rewrite Hc in Hc'. injection Hc' as <-. rewrite Hd in Hd'. discriminate.
  - inversion H2 as [|c' nd' Hc' Hd'|c' nd' tp' t' l' Hc' Hd' Ht' Hch']; subst.
    + rewrite Hc in Hc'. injection Hc' as <-. rewrite Hd in Hd'. discriminate.
    + assert (nd' = nd) by congruence. subst nd'.
      assert (tp' = tp) by congruence. subst tp'.
      assert (t' = t) by congruence. subst t'.
      f_equal. by apply IH.
Qed.

Lemma open_chain_ext h h' :
  (∀ i nd, nodes h !! i = Some (Some nd) →
     ∃ nd', nodes h' !! i = Some (Some nd') ∧ data nd' = data nd
            ∧ gparent nd' = gparent nd) →
  (∀ i nd tp, nodes h !! i = Some (Some nd) → data nd = Some tp →
     tags h' !! tp = tags h !! tp) →
  ∀ cur l, open_chain h cur l → open_chain h' cur l.
Proof.
  intros Hn Ht cur l Hch.
  induction Hch as [|c nd Hc Hd|c nd tp t l Hc Hd Htp Hch IH].
  - constructor.
  - destruct (Hn c nd Hc) as (nd' & Hc' & Hd' & _).
    apply (open_chain_root h' c nd'); [done|congruence].
  - destruct (Hn c nd Hc) as (nd' & Hc' & Hd' & Hp').
    apply (open_chain_node h' c nd' tp t l); [done|congruence| |by rewrite Hp'].
    by rewrite (Ht c nd tp Hc Hd).
Qed.

Lemma balance_walk_chain h id : ∀ cur l, open_chain h cur l →
  ∀ fuel, (length l < fuel)%nat →
  balance_walk fuel h id cur = Some (fst <$> find (closes id) l).
Proof.
  induction 1 as [|c nd Hc Hd|c nd tp t l Hc Hd Ht Hch IH]; intros fuel Hf.
  - destruct fuel; [lia|done].
  - destruct fuel; [lia|]. simpl. unfold load_node. rewrite Hc. simpl.
    by rewrite Hd.
  - destruct fuel as [|f]; [simpl in Hf; lia|]. simpl in *.
    unfold load_node, load_tag. rewrite Hc. simpl. rewrite Hd, Ht. simpl.
    unfold closes at 1. simpl.
    destruct ((tag_id t =? id) && negb (has_flag (tag_flags t) FL_CLOSED)); [done|].
    apply IH. lia.
Qed.

Lemma find_closes_in h id : ∀ cur l, open_chain h cur l →
  ∀ a ta, find (closes id) l = Some (a, ta) →
  ∃ an atp, nodes h !! a = Some (Some an) ∧ data an = Some atp
            ∧ tags h !! atp = Some ta
            ∧ tag_id ta = id ∧ has_flag (tag_flags ta) FL_CLOSED = false.
Proof.
  induction 1 as [|c nd Hc Hd|c nd tp t l Hc Hd Ht Hch IH]; intros a ta Hf;
    try done.
  simpl in Hf. destruct (closes id (c, t)) eqn:Hcl.
  - injection Hf as <- <-. exists nd, tp. unfold closes in Hcl. simpl in Hcl.
    apply andb_true_iff in Hcl as [Hid Hfl].
    apply Z.eqb_eq in Hid. apply negb_true_iff in Hfl. done.
  - by apply IH.
Qed.


(** ** The operations on a well-formed store *)

Lemma update_tag_eq f p h t :
  tags h !! p = Some t →
  update_tag f p h = Some (set_tags (<[p := f t]> (tags h)) h).
Proof. intros Ht. unfold update_tag. by rewrite Ht. Qed.

Lemma g_node_destroy_leaf h n p nd pn :
  nodes h !! n = Some (Some nd) → gparent nd = Some p → children nd = [] →
  nodes h !! p = Some (Some pn) → n ≠ p →
  g_node_destroy n h
  = Some (set_nodes (<[n := None]> (<[p := Some (without_child pn n)]> (nodes h))) h).
Proof.
  intros Hn Hp Hc Hpn Hne. unfold g_node_destroy, load_node.
  rewrite Hn. simpl. rewrite Hp, Hpn. f_equal. f_equal.
  fold (without_child pn n).
  assert (Hlt : (n < length (nodes h))%nat) by (by eapply lookup_lt_Some).
  rewrite length_insert.
  destruct (length (nodes h)) as [|k] eqn:Hk; [lia|]. simpl.
  rewrite list_lookup_insert_ne by done. rewrite Hn, Hc. done.
Qed.

Lemma check_balance_found g ns c cn tag t1 l a ta an atp cl :
  nodes g = add_child ns c cn (Some tag) →
  ns !! c = Some (Some cn) →
  tags g !! tag = Some t1 →
  has_flag (tag_flags t1) FL_CLOSING = true →
  open_chain g (Some c) l → (length l ≤ c)%nat →
  find (closes (tag_id t1)) l = Some (a, ta) →
  nodes g !! a = Some (Some an) → data an = Some atp →
  tags g !! atp = Some ta → (a < length ns)%nat →
  rspamd_html_check_balance g (length ns) cl
  = Some (set_nodes
            (<[length ns := None]>
               (<[c := Some (without_child (with_child cn (length ns)) (length ns))]>
                  (nodes g)))
            (set_tags (<[atp := or_tag_flags FL_CLOSED ta]> (tags g)) g),
          gparent an, true).
Proof.
  intros Hg Hc Htag Hfl Hch Hlen Hfind Ha Hd Hatp Halt.
  assert (Hlt : (c < length ns)%nat) by (by eapply lookup_lt_Some).
  assert (Hn : nodes g !! length ns = Some (Some (leaf (Some tag) c)))
    by (rewrite Hg; apply add_child_new).
  assert (Hc' : nodes g !! c = Some (Some (with_child cn (length ns)))).
  { rewrite Hg. unfold add_child. rewrite lookup_app_l by (by rewrite length_insert).
    by rewrite list_lookup_insert_eq. }
  unfold rspamd_html_check_balance, load_node, load_tag.
  rewrite Hn. simpl. rewrite Htag. simpl. rewrite Hfl.
  rewrite (balance_walk_chain g (tag_id t1) (Some c) l Hch)
    by (rewrite Hg, add_child_length; lia).
  simpl. rewrite Hfind. simpl. rewrite Ha. simpl. rewrite Hd. simpl.
  rewrite (update_tag_eq _ _ _ _ Hatp). simpl.
  rewrite (g_node_destroy_leaf _ (length ns) c (leaf (Some tag) c)
             (with_child cn (length ns))); try done; [|lia].
  simpl.
  assert (Hne : a ≠ length ns) by lia.
  rewrite list_lookup_insert_ne by done.
  destruct (decide (a = c)) as [->|Hac].
  - rewrite list_lookup_insert_eq by (by eapply lookup_lt_Some).
    simpl. rewrite Hc' in Ha. by injection Ha as <-.
  - rewrite list_lookup_insert_ne by done. rewrite Ha. done.
Qed.


Lemma check_balance_not_found g ns c cn tag t1 l cl :
  nodes g = add_child ns c cn (Some tag) →
  ns !! c = Some (Some cn) →
  tags g !! tag = Some t1 →
  has_flag (tag_flags t1) FL_CLOSING = true →
  open_chain g (Some c) l → (length l ≤ c)%nat →
  find (closes (tag_id t1)) l = None →
  rspamd_html_check_balance g (length ns) cl = Some (g, cl, false).
Proof.
  intros Hg Hc Htag Hfl Hch Hlen Hfind.
  assert (Hlt : (c < length ns)%nat) by (by eapply lookup_lt_Some).
  assert (Hn : nodes g !! length ns = Some (Some (leaf (Some tag) c)))
    by (rewrite Hg; apply add_child_new).
  unfold rspamd_html_check_balance, load_node, load_tag.
  rewrite Hn. simpl. rewrite Htag. simpl. rewrite Hfl.
  rewrite (balance_walk_chain g (tag_id t1) (Some c) l Hch)
    by (rewrite Hg, add_child_length; lia).
  simpl. by rewrite Hfind.
Qed.

(** ** The shape is kept *)

Lemma tree_wf_ext h hc cl h' hc' cl' :
  tree_wf h hc cl →
  (∀ i nd', nodes h' !! i = Some (Some nd') →
     ∃ nd, nodes h !! i = Some (Some nd) ∧ data nd' = data nd
           ∧ gparent nd' = gparent nd) →
  (∀ i nd, nodes h !! i = Some (Some nd) →
     ∃ nd', nodes h' !! i = Some (Some nd')) →
  (∀ i nd tp t, nodes h !! i = Some (Some nd) → data nd = Some tp →
     tags h !! tp = Some t →
     ∃ t', tags h' !! tp = Some t' ∧ tag_parent t' = tag_parent t) →
  (is_Some (html_tags hc') →
   ∃ c cn, cl' = Some c ∧ nodes h !! c = Some (Some cn)) →
  tree_wf h' hc' cl'.
Proof.
  intros Hwf Hback Hfwd Htags Hlevel. split.
  - intros i nd' p Hi Hp.
    destruct (Hback i nd' Hi) as (nd & Hnd & _ & Hg). rewrite Hg in Hp.
    destruct (wf_parent _ _ _ Hwf i nd p Hnd Hp) as [Hlt [pn Hpn]].
    split; [done|]. destruct (Hfwd p pn Hpn) as [pn' Hpn']. eauto.
  - intros i nd' tp Hi Hd.
    destruct (Hback i nd' Hi) as (nd & Hnd & Hdd & Hg). rewrite Hdd in Hd.
    destruct (wf_data _ _ _ Hwf i nd tp Hnd Hd) as (t & Ht & Hpar & Hsome).
    destruct (Htags i nd tp t Hnd Hd Ht) as (t' & Ht' & Hpar').
    exists t'. rewrite Hg. split; [done|]. split; [congruence|done].
  - intros Hr. destruct (Hlevel Hr) as (c & cn & -> & Hc).
    destruct (Hfwd c cn Hc) as [cn' Hc']. eauto.
Qed.

Lemma tree_wf_hc h hc hc' cl :
  tree_wf h hc cl → html_tags hc' = html_tags hc → tree_wf h hc' cl.
Proof.
  intros [Hp Hd Hl] Hr. split; [done|done|]. rewrite Hr. done.
Qed.

Lemma tree_wf_add_child h hc cl p pn tag t cl' :
  tree_wf h hc cl →
  nodes h !! p = Some (Some pn) →
  tags h !! tag = Some t → tag_parent t = Some p →
  cl' = cl ∨ cl' = Some (length (nodes h)) →
  tree_wf (set_nodes (add_child (nodes h) p pn (Some tag)) h) hc cl'.
Proof.
  intros Hwf Hp Ht Hpar Hcl.
  assert (Hlt : (p < length (nodes h))%nat) by (by eapply lookup_lt_Some).
  split; simpl.
  - intros i nd' q Hi Hq.
    destruct (add_child_inv _ _ _ _ _ _ Hp Hi) as [[-> ->]|(nd & Hnd & _ & Hg)].
    + simpl in Hq. injection Hq as <-. split; [done|].
      destruct (add_child_old _ _ _ (Some tag) _ _ Hp Hp) as (x & Hx & _). eauto.
    + rewrite Hg in Hq.
      destruct (wf_parent _ _ _ Hwf i nd q Hnd Hq) as [Hlt' [qn Hqn]].
      split; [done|].
      destruct (add_child_old _ _ _ (Some tag) _ _ Hp Hqn) as (x & Hx & _). eauto.
  - intros i nd' tp Hi Hd.
    destruct (add_child_inv _ _ _ _ _ _ Hp Hi) as [[-> ->]|(nd & Hnd & Hdd & Hg)].
    + simpl in *. injection Hd as <-. exists t. eauto.
    + rewrite Hdd in Hd. rewrite Hg. by apply (wf_data _ _ _ Hwf i nd tp).
  - intros Hr. destruct Hcl as [->| ->].
    + destruct (wf_level _ _ _ Hwf Hr) as (c & cn & -> & Hc).
      destruct (add_child_old _ _ _ (Some tag) _ _ Hp Hc) as (x & Hx & _). eauto.
    + exists (length (nodes h)), (leaf (Some tag) p). split; [done|].
      apply add_child_new.
Qed.


Lemma has_flag_lor_mask x a b :
  has_flag x a = true → has_flag x (Z.lor a b) = true.
Proof.
  unfold has_flag. rewrite !negb_true_iff, !Z.eqb_neq. intros Hx Hz. apply Hx.
  apply Z.bits_inj'. intros n Hn. rewrite Z.bits_0.
  apply (f_equal (λ z, Z.testbit z n)) in Hz.
  rewrite Z.land_spec, Z.lor_spec, Z.bits_0 in Hz. rewrite Z.land_spec.
  destruct (Z.testbit x n), (Z.testbit a n), (Z.testbit b n); done.
Qed.

Local Opaque g_node_append rspamd_html_check_balance update_tag.

Lemma process_tag_closing h hc tag t c bal :
  tree_wf h hc (Some c) → is_Some (html_tags hc) →
  tags h !! tag = Some t → tag_unlinked h tag →
  tag_id t ≠ -1 →
  has_flag (tag_flags t) (Z.lor CM_INLINE CM_EMPTY) = false →
  has_flag (tag_flags t) FL_CLOSING = true →
  total_tags hc < max_tags →
  ∃ l h' hc' cl' ok,
    open_chain h (Some c) l
    ∧ rspamd_html_process_tag h hc tag (Some c) bal = Some (h', hc', cl', ok, true)
    ∧ tree_wf h' hc' cl'
    ∧ html_tags hc' = html_tags hc ∧ length (tags h') = length (tags h)
    ∧ match find (closes (tag_id t)) l with
      | Some (a, ta) =>
          ∃ an atp, nodes h !! a = Some (Some an) ∧ data an = Some atp
            ∧ tags h' !! atp = Some (or_tag_flags FL_CLOSED ta)
            ∧ cl' = gparent an ∧ ok = true
            ∧ nodes h' !! length (nodes h) = Some None
            ∧ tag_unlinked h' tag
            ∧ hc_flags hc' = hc_flags hc
      | None =>
          has_flag (hc_flags hc') RSPAMD_HTML_FLAG_UNBALANCED = true
          ∧ ok = false ∧ cl' = Some c
          ∧ nodes h' !! length (nodes h) = Some (Some (leaf (Some tag) c))
      end.
Proof.
  intros Hwf Hroot Htag Hun Hid Hblock Hclosing Htotal.
  destruct (wf_level _ _ _ Hwf Hroot) as (c' & cn & [= <-] & Hc).
  destruct (open_chain_exists _ _ _ Hwf c cn Hc) as [l Hl].
  pose proof (open_chain_length _ _ _ Hwf _ _ Hl) as Hlen. simpl in Hlen.
  assert (Htlt : (tag < length (tags h))%nat) by (by eapply lookup_lt_Some).
  set (t1 := set_tag_parent (Some c) t).
  set (h1 := set_tags (<[tag := t1]> (tags h)) h).
  set (g := set_nodes (add_child (nodes h) c cn (Some tag)) h1).
  assert (Hg1 : tags g !! tag = Some t1)
    by (simpl; by rewrite list_lookup_insert_eq).
  assert (Hgother : ∀ i nd tp, nodes h !! i = Some (Some nd) →
            data nd = Some tp → tags g !! tp = tags h !! tp).
  { intros i nd tp Hi Hd. simpl. rewrite list_lookup_insert_ne; [done|].
    intros <-. by apply (Hun i nd). }
  assert (Hlg : open_chain g (Some c) l).
  { apply (open_chain_ext h g); [|done|done].
    intros i nd Hi. by apply add_child_old. }
  assert (Hwf1 : tree_wf h1 hc (Some c)).
  { apply (tree_wf_ext h hc (Some c)); try done; simpl; eauto.
    intros i nd tp t0 Hi Hd Ht0. exists t0. split; [|done].
    rewrite list_lookup_insert_ne; [done|]. intros <-. by apply (Hun i nd). }
  assert (Hwfg : tree_wf g hc (Some c)).
  { apply (tree_wf_add_child h1 hc (Some c) c cn tag t1); try done. by left. }
  assert (Hstart :
    rspamd_html_process_tag h hc tag (Some c) bal
    = '(h2, cl2, ok) ← rspamd_html_check_balance g (length (nodes h)) (Some c);
      Some (h2, incr_total_tags
                  (if (ok : bool) then hc
                   else or_hc_flags RSPAMD_HTML_FLAG_UNBALANCED hc),
            cl2, ok, true)).
  { unfold rspamd_html_process_tag. destruct Hroot as [root ->].
    rewrite (proj2 (Z.ltb_ge max_tags (total_tags hc))) by lia.
    unfold load_tag. rewrite Htag. simpl.
    rewrite (proj2 (Z.eqb_neq (tag_id t) (-1))) by done.
    rewrite (update_tag_eq _ _ _ _ Htag). simpl.
    rewrite list_lookup_insert_eq by done. simpl.
    rewrite Hblock. simpl.
    rewrite (has_flag_lor_mask _ _ _ Hclosing).
    rewrite (proj2 (Z.ltb_lt (total_tags hc) max_tags)) by done.
    unfold g_node_new. simpl.
    pose proof (g_node_new_append (set_tags (<[tag := t1]> (tags h)) h) c cn
                  (Some tag) Hc) as Happ.
    simpl in Happ. unfold t1 in Happ. rewrite Happ. done. }
  exists l.
  destruct (find (closes (tag_id t)) l) as [[a ta]|] eqn:Hfind.
  - destruct (find_closes_in h _ _ _ Hl a ta Hfind)
      as (an & atp & Ha & Hd & Hatp & _ & _).
    destruct (add_child_old (nodes h) c cn (Some tag) a an Hc Ha)
      as (an' & Ha' & Hd' & Hp').
    assert (Halt : (a < length (nodes h))%nat) by (by eapply lookup_lt_Some).
    assert (Hatp' : tags g !! atp = Some ta)
      by (by rewrite (Hgother a an atp Ha Hd)).
    rewrite Hstart.
    rewrite (check_balance_found g (nodes h) c cn tag t1 l a ta an' atp (Some c));
      try done; [|congruence].
    simpl. eexists _, _, _, _. split; [done|]. split; [reflexivity|].
    assert (Hatlt : (atp < length (tags h))%nat) by (by eapply lookup_lt_Some).
    assert (Hclt : (c < length (nodes h))%nat) by (by eapply lookup_lt_Some).
    assert (Hnodes : ∀ i, i ≠ length (nodes h) →
      <[length (nodes h) := None]>
        (<[c := Some (without_child (with_child cn (length (nodes h)))
                        (length (nodes h)))]> (nodes g)) !! i
      = if decide (i = c)
        then Some (Some (without_child (with_child cn (length (nodes h)))
                           (length (nodes h))))
        else nodes g !! i).
    { intros i Hi. rewrite list_lookup_insert_ne by done.
      destruct (decide (i = c)) as [->|Hic].
      - rewrite list_lookup_insert_eq; [done|].
        simpl. rewrite add_child_length. lia.
      - by rewrite list_lookup_insert_ne. }
    assert (Hnew : <[length (nodes h) := None]>
        (<[c := Some (without_child (with_child cn (length (nodes h)))
                        (length (nodes h)))]> (nodes g)) !! length (nodes h)
      = Some None).
    { rewrite list_lookup_insert_eq; [done|].
      rewrite length_insert. simpl. rewrite add_child_length. lia. }
    assert (Hback : ∀ i nd',
      <[length (nodes h) := None]>
        (<[c := Some (without_child (with_child cn (length (nodes h)))
                        (length (nodes h)))]> (nodes g)) !! i = Some (Some nd') →
      ∃ nd, nodes h !! i = Some (Some nd) ∧ data nd' = data nd
            ∧ gparent nd' = gparent nd).
    { intros i nd' Hi.
      destruct (decide (i = length (nodes h))) as [->|Hin];
        [rewrite Hnew in Hi; done|].
      rewrite Hnodes in Hi by done.
      destruct (decide (i = c)) as [->|Hic].
      - injection Hi as <-. eauto.
      - simpl in Hi.
        destruct (add_child_inv _ _ _ _ _ _ Hc Hi) as [[-> _]|?]; done. }
    split; [|split; [done|]; split; [simpl; by rewrite !length_insert|];
             exists an, atp; repeat split; try done].
    + apply (tree_wf_ext h hc (Some c)); try done; simpl.
      * intros i nd Hi.
        assert (i ≠ length (nodes h))
          by (apply lookup_lt_Some in Hi; lia).
        rewrite Hnodes by done.
        destruct (decide (i = c)); [eauto|].
        destruct (add_child_old (nodes h) c cn (Some tag) i nd Hc Hi)
          as (x & Hx & _). eauto.
      * intros i nd tp t0 Hi Hdt Ht0.
        assert (tp ≠ tag) by (intros ->; by apply (Hun i nd)).
        destruct (decide (tp = atp)) as [->|Hne].
        -- rewrite list_lookup_insert_eq by (by rewrite length_insert).
           eexists; split; [done|]. simpl. congruence.
        -- rewrite !list_lookup_insert_ne by done. eauto.
      * intros _.
        destruct (wf_data _ _ _ Hwf a an atp Ha Hd) as (t0 & _ & _ & [p Hp]).
        destruct (wf_parent _ _ _ Hwf a an p Ha Hp) as [_ [pn Hpn]].
        exists p, pn. split; [congruence|done].
    + simpl. rewrite list_lookup_insert_eq; [done|]. by rewrite length_insert.
    + intros i nd' Hi. simpl in Hi.
      destruct (Hback i nd' Hi) as (nd & Hnd & Hdd & _). rewrite Hdd.
      by apply (Hun i nd).
  - rewrite Hstart.
    rewrite (check_balance_not_found g (nodes h) c cn tag t1 l (Some c)); try done.
    simpl. eexists _, _, _, _. split; [done|]. split; [reflexivity|].
    split; [|split; [done|]; split; [simpl; by rewrite length_insert|];
             repeat split].
    + by apply (tree_wf_hc g hc).
    + simpl. by apply has_flag_lor_same.
    + simpl. apply add_child_new.
Qed.

End tree_shape.

(** ** The tree builder returns *)

Section tree_total.
Context `{html_tags_h}.

Lemma tree_wf_update_tag h hc cl q t t' :
  tree_wf h hc cl → tags h !! q = Some t →
  tag_parent t' = tag_parent t ∨ tag_unlinked h q →
  tree_wf (set_tags (<[q := t']> (tags h)) h) hc cl.
Proof.
  intros Hwf Hq Hor.
  assert (Hlt : (q < length (tags h))%nat) by (by eapply lookup_lt_Some).
  apply (tree_wf_ext h hc cl); try done; simpl; eauto.
  - intros i nd tp t0 Hi Hd Ht0.
    destruct (decide (tp = q)) as [->|Hne].
    + destruct Hor as [Hpar|Hun]; [|by destruct (Hun i nd Hi)].
      rewrite list_lookup_insert_eq by done. eexists; split; [done|]. congruence.
    + rewrite list_lookup_insert_ne by done. eauto.
  - intros Hr. by apply (wf_level _ _ _ Hwf).
Qed.

Lemma tag_unlinked_update h q tag t' :
  tag_unlinked h tag → tag_unlinked (set_tags (<[q := t']> (tags h)) h) tag.
Proof. done. Qed.

Local Opaque g_node_append rspamd_html_check_balance update_tag.

(** The facts that the rest of a call needs about the pushed node. *)
Lemma push_node h hc c cn tag t :
  tree_wf h hc (Some c) → nodes h !! c = Some (Some cn) →
  tags h !! tag = Some t → tag_parent t = Some c →
  ∃ h', g_node_append (Some c) (length (nodes h))
          (set_nodes (nodes h ++ [Some {| data := Some tag; gparent := None;
                                          children := [] |}]) h) = Some h'
        ∧ tags h' = tags h
        ∧ nodes h' = add_child (nodes h) c cn (Some tag)
        ∧ tree_wf h' hc (Some c)
        ∧ tree_wf h' hc (Some (length (nodes h))).
Proof.
  intros Hwf Hc Ht Hpar. eexists. split; [by apply g_node_new_append|].
  split; [done|]. split; [done|].
  split; eapply tree_wf_add_child; eauto.
Qed.

Lemma process_tag_push_total h hc tag t c cn bal :
  tree_wf h hc (Some c) → nodes h !! c = Some (Some cn) →
  tags h !! tag = Some t → tag_parent t = Some c →
  ∃ h' hc' cl' ret,
    process_tag_push h hc tag (Some c) bal = Some (h', hc', cl', bal, ret)
    ∧ tree_wf h' hc' cl' ∧ html_tags hc' = html_tags hc
    ∧ length (tags h') = length (tags h).
Proof.
  intros Hwf Hc Ht Hpar. unfold process_tag_push.
  assert (Hlt : (tag < length (tags h))%nat) by (by eapply lookup_lt_Some).
  destruct (total_tags hc <? max_tags).
  - destruct (push_node h hc c cn tag t Hwf Hc Ht Hpar)
      as (h1 & Happ & Htags & Hnodes & Hwf1 & Hwf2).
    unfold g_node_new. rewrite Happ. simpl. unfold load_tag. rewrite Htags, Ht.
    simpl.
    set (cl1 := if negb (has_flag (tag_flags t) FL_CLOSED)
                then Some (length (nodes h)) else Some c).
    assert (Hwf3 : tree_wf h1 (incr_total_tags hc) cl1).
    { apply (tree_wf_hc h1 hc); [|done]. subst cl1. by destruct (negb _). }
    assert (Ht1 : tags h1 !! tag = Some t) by (by rewrite Htags).
    fold cl1. rewrite Ht1. simpl.
    destruct (has_flag (tag_flags t) (Z.lor (Z.lor CM_HEAD CM_UNKNOWN) FL_IGNORE)).
    + rewrite (update_tag_eq _ _ _ _ Ht1). simpl. eexists _, _, _, _.
      split; [reflexivity|]. split; [|split; [done|]].
      * apply (tree_wf_update_tag h1 _ cl1 tag t); auto.
      * simpl. by rewrite length_insert, Htags.
    + eexists _, _, _, _. split; [reflexivity|]. split; [done|]. split; [done|].
      by rewrite Htags.
  - simpl. unfold load_tag. rewrite Ht. simpl.
    destruct (has_flag (tag_flags t) (Z.lor (Z.lor CM_HEAD CM_UNKNOWN) FL_IGNORE)).
    + rewrite (update_tag_eq _ _ _ _ Ht). simpl. eexists _, _, _, _.
      split; [reflexivity|]. split; [|split; [done|]].
      * apply (tree_wf_update_tag h hc (Some c) tag t); auto.
      * simpl. by rewrite length_insert.
    + eexists _, _, _, _. done.
Qed.

Lemma process_tag_bad_nesting_total h hc tag t c cn parent p pn :
  tree_wf h hc (Some c) → nodes h !! c = Some (Some cn) →
  tags h !! tag = Some t → tag_unlinked h tag →
  tag_parent parent = Some p → nodes h !! p = Some (Some pn) →
  ∃ h' hc' cl' bal' ret,
    process_tag_bad_nesting h hc tag parent (Some c)
    = Some (h', hc', cl', bal', ret)
    ∧ tree_wf h' hc' cl' ∧ html_tags hc' = html_tags hc
    ∧ length (tags h') = length (tags h).
Proof.
  intros Hwf Hc Ht Hun Hpar Hp. unfold process_tag_bad_nesting.
  assert (Hlt : (tag < length (tags h))%nat) by (by eapply lookup_lt_Some).
  rewrite (update_tag_eq _ _ _ _ Ht). simpl.
  set (t1 := set_tag_parent (tag_parent parent) t).
  set (h1 := set_tags (<[tag := t1]> (tags h)) h).
  assert (Hwf1 : tree_wf h1 hc (Some c))
    by (apply (tree_wf_update_tag h hc (Some c) tag t); auto).
  destruct (total_tags hc <? max_tags).
  - assert (Hwfp : tree_wf h1 hc (Some p)).
    { destruct Hwf1 as [Hp1 Hd1 Hl1]. split; [done|done|]. eauto. }
    assert (Ht1 : tags h1 !! tag = Some t1)
      by (simpl; by rewrite list_lookup_insert_eq).
    destruct (push_node h1 hc p pn tag t1 Hwfp Hp Ht1)
      as (h2 & Happ & Htags & Hnodes & _ & Hwf2); [by rewrite <- Hpar|].
    unfold g_node_new. rewrite Hpar. simpl in *. rewrite Happ. simpl.
    eexists _, _, _, _, _. split; [reflexivity|]. split; [|split; [done|]].
    + by apply (tree_wf_hc h2 hc).
    + by rewrite Htags, length_insert.
  - eexists _, _, _, _, _. split; [reflexivity|]. split; [|split; [done|]].
    + by apply (tree_wf_hc h1 hc).
    + simpl. by rewrite length_insert.
Qed.


Local Transparent rspamd_html_check_balance.

Lemma check_balance_not_closing g n nd tag t cl :
  nodes g !! n = Some (Some nd) → data nd = Some tag →
  tags g !! tag = Some t → has_flag (tag_flags t) FL_CLOSING = false →
  rspamd_html_check_balance g n cl = Some (g, cl, true).
Proof.
  intros Hn Hd Ht Hfl.
  unfold rspamd_html_check_balance, load_node, load_tag.
  rewrite Hn. simpl. rewrite Hd. simpl. rewrite Ht. simpl. by rewrite Hfl.
Qed.

Local Opaque rspamd_html_check_balance.

Lemma has_flag_lor_mask_false x a b :
  has_flag x a = false → has_flag x b = false →
  has_flag x (Z.lor a b) = false.
Proof.
  unfold has_flag. rewrite !negb_false_iff, !Z.eqb_eq. intros Ha Hb.
  rewrite Z.land_lor_distr_r, Ha, Hb. done.
Qed.

Local Opaque process_tag_push process_tag_bad_nesting.

Lemma process_tag_rooted h hc tag t cl bal :
  tree_wf h hc cl → is_Some (html_tags hc) →
  tags h !! tag = Some t → tag_unlinked h tag →
  ∃ h' hc' cl' bal' ret,
    rspamd_html_process_tag h hc tag cl bal = Some (h', hc', cl', bal', ret)
    ∧ tree_wf h' hc' cl' ∧ is_Some (html_tags hc')
    ∧ length (tags h') = length (tags h).
Proof.
  intros Hwf Hroot Htag Hun.
  destruct (wf_level _ _ _ Hwf Hroot) as (c & cn & -> & Hc).
  assert (Htlt : (tag < length (tags h))%nat) by (by eapply lookup_lt_Some).
  destruct (decide (tag_id t ≠ -1
                    ∧ has_flag (tag_flags t) (Z.lor CM_INLINE CM_EMPTY) = false
                    ∧ has_flag (tag_flags t) FL_CLOSING = true
                    ∧ total_tags hc < max_tags)) as [(Hid & Hbl & Hcl & Htot)|Hnot].
  { destruct (process_tag_closing h hc tag t c bal Hwf Hroot Htag Hun Hid Hbl Hcl Htot)
      as (l & h' & hc' & cl' & ok & _ & Heq & Hwf' & Hr' & Hlen' & _).
    exists h', hc', cl', ok, true. rewrite Hr'. done. }
  unfold rspamd_html_process_tag. destruct Hroot as [root Hr]. rewrite Hr.
  set (hc1 := if max_tags <? total_tags hc
              then or_hc_flags RSPAMD_HTML_FLAG_TOO_MANY_TAGS hc else hc).
  assert (Hr1 : html_tags hc1 = Some root)
    by (subst hc1; by destruct (max_tags <? total_tags hc)).
  assert (Ht1 : total_tags hc1 = total_tags hc)
    by (subst hc1; by destruct (max_tags <? total_tags hc)).
  assert (Hwf1 : tree_wf h hc1 (Some c))
    by (apply (tree_wf_hc h hc); [done|congruence]).
  clearbody hc1.
  unfold load_tag. rewrite Htag. simpl.
  destruct (tag_id t =? -1) eqn:Hid.
  { eexists _, _, _, _, _. split; [reflexivity|]. split; [|split; [|done]].
    - by apply (tree_wf_hc h hc1).
    - simpl. rewrite Hr1. eauto. }
  apply Z.eqb_neq in Hid.
  rewrite (update_tag_eq _ _ _ _ Htag).
  set (t1 := set_tag_parent (Some c) t).
  set (h1 := set_tags (<[tag := t1]> (tags h)) h).
  assert (Hwfh1 : tree_wf h1 hc1 (Some c))
    by (apply (tree_wf_update_tag h hc1 (Some c) tag t); auto).
  assert (Htag1 : tags h1 !! tag = Some t1)
    by (unfold h1; simpl; by rewrite list_lookup_insert_eq).
  assert (Hun1 : tag_unlinked h1 tag) by done.
  assert (Hlen1 : length (tags h1) = length (tags h))
    by (unfold h1; simpl; by rewrite length_insert).
  assert (Hc1 : nodes h1 !! c = Some (Some cn)) by done.
  assert (Hfl1 : tag_flags t1 = tag_flags t) by done.
  assert (Hid1 : tag_id t1 = tag_id t) by done.
  assert (Hpar1 : tag_parent t1 = Some c) by done.
  clearbody h1 t1. clear Hwf Htag Hun Hc Htlt.
  simpl. rewrite Htag1. simpl.
  unfold load_node. rewrite Hc1. simpl. rewrite Hfl1.
  destruct (has_flag (tag_flags t) (Z.lor CM_INLINE CM_EMPTY)) eqn:Hbl; simpl.
  - (* Inline tag *)
    destruct (data cn) as [pp|] eqn:Hd.
    2: { eexists _, _, _, _, _. split; [reflexivity|]. rewrite Hr1. eauto. }
    destruct (wf_data _ _ _ Hwfh1 c cn pp Hc1 Hd) as (tp & Hpp & _ & _).
    destruct (total_tags hc1 <? max_tags).
    + destruct (push_node h1 hc1 c cn tag t1 Hwfh1 Hc1 Htag1 Hpar1)
        as (h2 & Happ & Htags & Hnodes & Hwf2 & _).
      unfold g_node_new. rewrite Happ. simpl.
      rewrite Htags, Hpp. simpl.
      assert (Htag2 : tags h2 !! tag = Some t1) by (by rewrite Htags).
      destruct (has_flag (tag_flags tp) _).
      * rewrite (update_tag_eq _ _ _ _ Htag2). simpl.
        eexists _, _, _, _, _. split; [reflexivity|].
        split; [|split; [simpl; rewrite Hr1; eauto|]].
        -- apply (tree_wf_update_tag h2 _ (Some c) tag t1); auto.
           by apply (tree_wf_hc h2 hc1).
        -- simpl. by rewrite length_insert, Htags.
      * eexists _, _, _, _, _. split; [reflexivity|].
        split; [|split; [simpl; rewrite Hr1; eauto|]].
        -- by apply (tree_wf_hc h2 hc1).
        -- by rewrite Htags.
    + simpl. rewrite Hpp. simpl.
      destruct (has_flag (tag_flags tp) _).
      * rewrite (update_tag_eq _ _ _ _ Htag1). simpl.
        eexists _, _, _, _, _. split; [reflexivity|].
        split; [|split; [rewrite Hr1; eauto|]].
        -- apply (tree_wf_update_tag h1 _ (Some c) tag t1); auto.
        -- simpl. by rewrite length_insert.
      * eexists _, _, _, _, _. split; [reflexivity|].
        split; [done|]. split; [rewrite Hr1; eauto|done].
  - (* Block tag *)
    destruct (has_flag (tag_flags t) (Z.lor FL_CLOSING FL_CLOSED)) eqn:Hcc.
    + destruct (total_tags hc1 <? max_tags) eqn:Htot.
      * assert (Hcl : has_flag (tag_flags t) FL_CLOSING = false).
        { destruct (has_flag (tag_flags t) FL_CLOSING) eqn:Hcl; [|done].
          destruct Hnot. apply Z.ltb_lt in Htot. repeat split; try done. lia. }
        destruct (push_node h1 hc1 c cn tag t1 Hwfh1 Hc1 Htag1 Hpar1)
          as (h2 & Happ & Htags & Hnodes & Hwf2 & _).
        unfold g_node_new. rewrite Happ. simpl.
        rewrite (check_balance_not_closing h2 (length (nodes h1))
                   (leaf (Some tag) c) tag t1); try done.
        -- simpl. eexists _, _, _, _, _. split; [reflexivity|].
           split; [|split; [simpl; rewrite Hr1; eauto|]].
           ++ by apply (tree_wf_hc h2 hc1).
           ++ by rewrite Htags.
        -- rewrite Hnodes. apply add_child_new.
        -- by rewrite Htags.
        -- by rewrite Hfl1.
      * eexists _, _, _, _, _. split; [reflexivity|].
        split; [done|]. split; [rewrite Hr1; eauto|done].
    + destruct (data cn) as [pp|] eqn:Hd.
      * destruct (wf_data _ _ _ Hwfh1 c cn pp Hc1 Hd) as (tp & Hpp & Hppar & [p Hp]).
        destruct (wf_parent _ _ _ Hwfh1 c cn p Hc1 Hp) as [_ [pn Hpn]].
        assert (Hne : pp ≠ tag) by (intros ->; by apply (Hun1 c cn)).
        assert (Hstep : ∃ h2 t2,
          (if has_flag (tag_flags tp) FL_IGNORE
           then update_tag (or_tag_flags FL_IGNORE) tag h1 else Some h1) = Some h2
          ∧ tree_wf h2 hc1 (Some c) ∧ tags h2 !! tag = Some t2
          ∧ tag_parent t2 = Some c ∧ tag_unlinked h2 tag
          ∧ tags h2 !! pp = Some tp ∧ nodes h2 = nodes h1
          ∧ length (tags h2) = length (tags h1)).
        { destruct (has_flag (tag_flags tp) FL_IGNORE).
          - rewrite (update_tag_eq _ _ _ _ Htag1).
            eexists _, _. split; [reflexivity|]. split.
            { apply (tree_wf_update_tag h1 _ (Some c) tag t1); auto. }
            simpl. rewrite list_lookup_insert_eq by (by eapply lookup_lt_Some).
            rewrite list_lookup_insert_ne by done.
            rewrite length_insert. done.
          - exists h1, t1. done. }
        destruct Hstep as (h2 & t2 & Hif & Hwf2 & Htag2 & Hpar2 & Hun2 & Hpp2
                           & Hn2 & Hlen2).
        rewrite Hpp. simpl. rewrite Hif. simpl. rewrite Htag2. simpl.
        rewrite Hpp2. simpl.
        assert (Hc2 : nodes h2 !! c = Some (Some cn)) by (by rewrite Hn2).
        destruct (negb (has_flag (tag_flags t2) FL_CLOSED)
                  && negb (has_flag (tag_flags tp) FL_BLOCK)
                  && (tag_id tp =? tag_id t2)).
        -- destruct (process_tag_bad_nesting_total h2 hc1 tag t2 c cn tp p pn)
             as (h' & hc' & cl' & bal' & ret & -> & Hwf' & Hr' & Hlen');
             try done; [congruence|by rewrite Hn2|].
           eexists _, _, _, _, _. split; [reflexivity|]. split; [done|].
           split; [rewrite Hr', Hr1; eauto|congruence].
        -- destruct (process_tag_push_total h2 hc1 tag t2 c cn bal)
             as (h' & hc' & cl' & ret & -> & Hwf' & Hr' & Hlen'); try done.
           eexists _, _, _, _, _. split; [reflexivity|]. split; [done|].
           split; [rewrite Hr', Hr1; eauto|congruence].
      * destruct (process_tag_push_total h1 hc1 tag t1 c cn bal)
          as (h' & hc' & cl' & ret & -> & Hwf' & Hr' & Hlen'); try done.
        eexists _, _, _, _, _. split; [reflexivity|]. split; [done|].
        split; [rewrite Hr', Hr1; eauto|congruence].
Qed.

End tree_total.

(** ** Runs of the tree builder *)

Section tree_run.
Context `{html_tags_h}.

Lemma tree_wf_root h hc cl :
  tree_wf h hc cl →
  tree_wf (set_nodes (nodes h ++ [Some {| data := None; gparent := None;
                                          children := [] |}]) h)
          (set_html_tags (Some (length (nodes h))) hc)
          (Some (length (nodes h))).
Proof.
  intros Hwf.
  assert (Hold : ∀ i nd',
    (nodes h ++ [Some {| data := None; gparent := None; children := [] |}]) !! i
      = Some (Some nd') →
    nodes h !! i = Some (Some nd')
    ∨ nd' = {| data := None; gparent := None; children := [] |}).
  { intros i nd' Hi. apply lookup_app_Some in Hi as [Hi|[_ Hi]]; [by left|right].
    destruct (i - length (nodes h))%nat; simpl in Hi; [|done]. by injection Hi as <-. }
  split; simpl.
  - intros i nd' p Hi Hp. destruct (Hold i nd' Hi) as [Hi'| ->]; [|done].
    destruct (wf_parent _ _ _ Hwf i nd' p Hi' Hp) as [Hlt [pn Hpn]].
    split; [done|]. exists pn. by apply lookup_app_l_Some.
  - intros i nd' tp Hi Hd. destruct (Hold i nd' Hi) as [Hi'| ->]; [|done].
    by apply (wf_data _ _ _ Hwf i nd' tp).
  - intros _. eexists _, _. split; [done|]. by apply list_lookup_middle.
Qed.

Lemma process_tag_total h hc tag t cl bal :
  tree_wf h hc cl → tags h !! tag = Some t → tag_unlinked h tag →
  ∃ h' hc' cl' bal' ret,
    rspamd_html_process_tag h hc tag cl bal = Some (h', hc', cl', bal', ret)
    ∧ tree_wf h' hc' cl' ∧ is_Some (html_tags hc')
    ∧ length (tags h') = length (tags h).
Proof.
  intros Hwf Htag Hun. destruct (html_tags hc) as [root|] eqn:Hr.
  - apply (process_tag_rooted h hc tag t cl bal); eauto.
  - pose proof (tree_wf_root h hc cl Hwf) as Hwf0.
    set (h0 := set_nodes (nodes h ++ [Some {| data := None; gparent := None;
                                              children := [] |}]) h) in *.
    set (hc0 := set_html_tags (Some (length (nodes h))) hc) in *.
    assert (Heq : rspamd_html_process_tag h hc tag cl bal
                  = rspamd_html_process_tag h0 hc0 tag (Some (length (nodes h))) bal).
    { unfold rspamd_html_process_tag. rewrite Hr. done. }
    rewrite Heq.
    apply (process_tag_rooted h0 hc0 tag t); try done.
    intros i nd' Hi. simpl in Hi.
    apply lookup_app_Some in Hi as [Hi|[_ Hi]]; [by apply (Hun i nd')|].
    destruct (i - length (nodes h))%nat; simpl in Hi; [|done]. by injection Hi as <-.
Qed.

Lemma tree_wf_alloc_tag h hc cl t :
  tree_wf h hc cl → tree_wf (alloc_tag t h).1 hc cl.
Proof.
  intros Hwf. apply (tree_wf_ext h hc cl); try done; simpl; eauto.
  - intros i nd tp t0 Hi Hd Ht0. exists t0. split; [|done].
    by apply lookup_app_l_Some.
  - intros Hr. by apply (wf_level _ _ _ Hwf).
Qed.

Lemma alloc_tag_unlinked h hc cl t :
  tree_wf h hc cl → tag_unlinked (alloc_tag t h).1 (alloc_tag t h).2.
Proof.
  intros Hwf i nd Hi Hd. simpl in *.
  destruct (wf_data _ _ _ Hwf i nd _ Hi Hd) as (t0 & Ht0 & _).
  apply lookup_lt_Some in Ht0. lia.
Qed.

Lemma tree_wf_empty : tree_wf heap_empty hc_zero None.
Proof. split; simpl; [done|done|]. by intros [? ?]. Qed.

Lemma process_tags_total ts : ∀ h hc cl,
  tree_wf h hc cl →
  ∃ h' hc' cl', process_tags ts h hc cl = Some (h', hc', cl')
                ∧ tree_wf h' hc' cl'
                ∧ length (tags h') = (length (tags h) + length ts)%nat.
Proof.
  induction ts as [|t ts IH]; intros h hc cl Hwf; simpl.
  - eexists _, _, _. split; [done|]. split; [done|lia].
  - destruct (process_tag_total (alloc_tag t h).1 hc (alloc_tag t h).2 t cl true)
      as (h1 & hc1 & cl1 & bal1 & ret1 & Heq & Hwf1 & _ & Hlen1).
    + by apply tree_wf_alloc_tag.
    + simpl. by apply list_lookup_middle.
    + by eapply alloc_tag_unlinked.
    + simpl in Heq. rewrite Heq. simpl.
      destruct (IH h1 hc1 cl1 Hwf1) as (h' & hc' & cl' & -> & Hwf' & Hlen').
      eexists _, _, _. split; [done|]. split; [done|].
      rewrite Hlen', Hlen1. simpl. rewrite length_app. simpl. lia.
Qed.

Lemma process_tags_count ts : ∀ h hc cl h' hc' cl',
  process_tags ts h hc cl = Some (h', hc', cl') →
  0 ≤ total_tags hc → total_tags hc + Z.of_nat (length ts) < guint_max →
  count_bound h hc →
  count_bound h' hc'
  ∧ total_tags hc ≤ total_tags hc' ≤ total_tags hc + Z.of_nat (length ts).
Proof.
  induction ts as [|t ts IH]; intros h hc cl h' hc' cl' Hrun Ht Hlen Hc.
  - simpl in *. injection Hrun as <- <- <-. split; [done|lia].
  - simpl in Hrun.
    destruct (rspamd_html_process_tag _ hc _ cl true)
      as [[[[[h1 hc1] cl1] bal1] ret1]|] eqn:Hstep; simpl in Hrun; [|done].
    apply process_tag_count in Hstep as [Hc1 Ht1];
      [|simpl length in Hlen; lia|done].
    apply IH in Hrun as [Hc' Ht']; [|lia|simpl length in Hlen; lia|done].
    split; [done|]. simpl length. lia.
Qed.

Lemma process_tags_unknown u (n : nat) : ∀ h hc cl,
  tag_id u = -1 → is_Some (html_tags hc) →
  0 ≤ total_tags hc → total_tags hc + Z.of_nat n ≤ max_tags →
  process_tags (replicate n u) h hc cl
  = Some (set_tags (tags h ++ replicate n u) h,
          set_total_tags (total_tags hc + Z.of_nat n) hc, cl).
Proof.
  intros h hc cl Hu. revert h hc.
  induction n as [|n IH]; intros h hc [root Hr] Ht Hle.
  - simpl. rewrite app_nil_r, Z.add_0_r. by destruct h, hc.
  - cbn [replicate process_tags alloc_tag].
    assert (Hstep : rspamd_html_process_tag (set_tags (tags h ++ [u]) h) hc
                      (length (tags h)) cl true
                    = Some (set_tags (tags h ++ [u]) h, incr_total_tags hc, cl,
                            true, false)).
    { unfold rspamd_html_process_tag. rewrite Hr.
      rewrite (proj2 (Z.ltb_ge max_tags (total_tags hc))) by lia.
      unfold load_tag. simpl. rewrite list_lookup_middle by done. simpl.
      by rewrite Hu. }
    rewrite Hstep. simpl.
    assert (Hinc : guint_incr (total_tags hc) = total_tags hc + 1).
    { apply guint_incr_small. unfold max_tags, guint_max in *. lia. }
    rewrite IH; simpl; rewrite ?Hinc; eauto; try lia.
    f_equal. f_equal. f_equal.
    + unfold set_tags. simpl. by rewrite <- app_assoc.
    + unfold set_total_tags. simpl. f_equal. lia.
Qed.

End tree_run.

(** ** Tags with a known id and the flag *)

Section known_tags.
Context `{html_tags_h}.

Lemma unbalanced_keeps_too_many x :
  has_flag (Z.lor x RSPAMD_HTML_FLAG_UNBALANCED) RSPAMD_HTML_FLAG_TOO_MANY_TAGS
  = has_flag x RSPAMD_HTML_FLAG_TOO_MANY_TAGS.
Proof.
  unfold has_flag, RSPAMD_HTML_FLAG_UNBALANCED, RSPAMD_HTML_FLAG_TOO_MANY_TAGS.
  rewrite Z.land_lor_distr_l. simpl (Z.land 4 64). by rewrite Z.lor_0_r.
Qed.

Lemma guint_incr_nonneg x : 0 ≤ guint_incr x.
Proof. unfold guint_incr. by apply Z.mod_pos_bound. Qed.

Lemma below_limit_incr hc :
  0 ≤ total_tags hc < max_tags → below_limit hc →
  below_limit (incr_total_tags hc).
Proof.
  intros Ht [_ Hf]. split; [|done]. simpl.
  rewrite guint_incr_small; unfold max_tags, guint_max in *; lia.
Qed.

Lemma below_limit_unbalanced hc :
  below_limit hc → below_limit (or_hc_flags RSPAMD_HTML_FLAG_UNBALANCED hc).
Proof.
  intros [Ht Hf]. split; [done|]. simpl. by rewrite unbalanced_keeps_too_many.
Qed.

Local Opaque g_node_append rspamd_html_check_balance update_tag load_node
  guint_incr.

Lemma process_tag_push_below h hc tag cl bal h' hc' cl' bal' ret :
  process_tag_push h hc tag cl bal = Some (h', hc', cl', bal', ret) →
  0 ≤ total_tags hc → below_limit hc →
  0 ≤ total_tags hc' ∧ below_limit hc'.
Proof.
  unfold process_tag_push. intros Hp Ht Hb.
  destruct (total_tags hc <? max_tags) eqn:Hlt; simpl in Hp;
    [apply Z.ltb_lt in Hlt|].
  - assert (Hi : 0 ≤ total_tags (incr_total_tags hc)
                 ∧ below_limit (incr_total_tags hc)).
    { split; [|by apply below_limit_incr].
      simpl. apply guint_incr_nonneg. }
    binds; done.
  - binds; done.
Qed.

Lemma process_tag_bad_nesting_below h hc tag parent cl h' hc' cl' bal' ret :
  process_tag_bad_nesting h hc tag parent cl = Some (h', hc', cl', bal', ret) →
  0 ≤ total_tags hc → below_limit hc →
  0 ≤ total_tags hc' ∧ below_limit hc'.
Proof.
  unfold process_tag_bad_nesting. intros Hp Ht Hb. simpl in Hp.
  pose proof (below_limit_unbalanced hc Hb) as Hu.
  destruct (total_tags hc <? max_tags) eqn:Hlt; simpl in Hp;
    [apply Z.ltb_lt in Hlt|].
  - assert (Hi : 0 ≤ total_tags (incr_total_tags
                                   (or_hc_flags RSPAMD_HTML_FLAG_UNBALANCED hc))
                 ∧ below_limit (incr_total_tags
                                  (or_hc_flags RSPAMD_HTML_FLAG_UNBALANCED hc))).
    { split; [|by apply below_limit_incr].
      simpl. apply guint_incr_nonneg. }
    binds; done.
  - binds; done.
Qed.

Local Opaque process_tag_bad_nesting process_tag_push.

Lemma process_tag_known_below h hc tag t cl bal h' hc' cl' bal' ret :
  rspamd_html_process_tag h hc tag cl bal = Some (h', hc', cl', bal', ret) →
  tags h !! tag = Some t → tag_id t ≠ -1 →
  0 ≤ total_tags hc → below_limit hc →
  0 ≤ total_tags hc' ∧ below_limit hc'.
Proof.
  unfold rspamd_html_process_tag. intros Hp Htag Hid Ht Hb.
  assert (Hroot : ∃ h0 hc0 cl0,
    (match html_tags hc with
     | None =>
         let '(h', nnode) := g_node_new None h in
         (h', set_html_tags (Some nnode) hc, Some nnode)
     | Some _ => (h, hc, cl)
     end) = (h0, hc0, cl0)
    ∧ 0 ≤ total_tags hc0 ∧ below_limit hc0 ∧ tags h0 !! tag = Some t).
  { destruct (html_tags hc); simpl; eexists _, _, _; (split; [reflexivity|]);
      done. }
  destruct Hroot as (h0 & hc0 & cl0 & Heq & Ht0 & Hb0 & Htag0).
  rewrite Heq in Hp. clear Heq Ht Hb Htag.
  rewrite (proj2 (Z.ltb_ge max_tags (total_tags hc0))) in Hp by apply Hb0.
  change (tags h0 !! tag) with (load_tag h0 tag) in Htag0.
  rewrite Htag0 in Hp. simpl in Hp.
  rewrite (proj2 (Z.eqb_neq (tag_id t) (-1))) in Hp by done.
  destruct (total_tags hc0 <? max_tags) eqn:Hlt;
    [apply Z.ltb_lt in Hlt|].
  - assert (Hi : ∀ hc1, total_tags hc1 = total_tags hc0 → below_limit hc1 →
                0 ≤ total_tags (incr_total_tags hc1)
                ∧ below_limit (incr_total_tags hc1)).
    { intros hc1 He Hb1. split; [|apply below_limit_incr; [lia|done]].
      simpl. apply guint_incr_nonneg. }
    pose proof (Hi hc0 eq_refl Hb0).
    pose proof (Hi (or_hc_flags RSPAMD_HTML_FLAG_UNBALANCED hc0) eq_refl
                  (below_limit_unbalanced hc0 Hb0)).
    binds;
      try (match goal with
           | Hx : process_tag_push _ _ _ _ _ = Some _ |- _ =>
               apply process_tag_push_below in Hx; [|done|done]
           | Hx : process_tag_bad_nesting _ _ _ _ _ = Some _ |- _ =>
               apply process_tag_bad_nesting_below in Hx; [|done|done]
           end); done.
  - binds;
      try (match goal with
           | Hx : process_tag_push _ _ _ _ _ = Some _ |- _ =>
               apply process_tag_push_below in Hx; [|done|done]
           | Hx : process_tag_bad_nesting _ _ _ _ _ = Some _ |- _ =>
               apply process_tag_bad_nesting_below in Hx; [|done|done]
           end); done.
Qed.

Lemma process_tags_known_below ts : ∀ h hc cl h' hc' cl',
  Forall (λ t, tag_id t ≠ -1) ts →
  process_tags ts h hc cl = Some (h', hc', cl') →
  0 ≤ total_tags hc → below_limit hc → count_bound h hc →
  0 ≤ total_tags hc' ∧ below_limit hc' ∧ count_bound h' hc'.
Proof.
  induction ts as [|t ts IH]; intros h hc cl h' hc' cl' Hk Hrun Ht Hb Hc.
  - simpl in Hrun. by injection Hrun as <- <- <-.
  - simpl in Hrun. apply Forall_cons in Hk as [Hid Hk].
    destruct (rspamd_html_process_tag _ hc _ cl true)
      as [[[[[h1 hc1] cl1] bal1] ret1]|] eqn:Hstep; simpl in Hrun; [|done].
    pose proof Hstep as Hcount.
    apply process_tag_count in Hcount as [Hc1 _];
      [|destruct Hb as [Hle _]; unfold max_tags, guint_max in *; lia|done].
    apply (process_tag_known_below _ _ _ t) in Hstep as [Ht1 Hb1]; try done.
    + by apply (IH h1 hc1 cl1 h' hc' cl').
    + simpl. by apply list_lookup_middle.
Qed.

End known_tags.

(** ** The state at the limit *)

Lemma limit_state_reached :
  process_tags (div_open :: replicate (Z.to_nat 8191) unknown_tag)
    heap_empty hc_zero None
  = Some (limit_heap, limit_content, Some 1%nat).
Proof.
  assert (Hfirst :
    rspamd_html_process_tag (set_tags [div_open] heap_empty) hc_zero 0 None true
    = Some ({| tags := [set_tag_parent (Some 0%nat) div_open];
               nodes := nodes limit_heap;
               blocks := []; urls := []; images := [] |},
            set_total_tags 1 (set_html_tags (Some 0%nat) hc_zero),
            Some 1%nat, true, true)) by (vm_compute; reflexivity).
  cbn [process_tags alloc_tag tags heap_empty app length].
  rewrite Hfirst. cbn [mbind option_bind].
  rewrite process_tags_unknown; [done|done|by eexists| |]; simpl;
    unfold max_tags; lia.
Qed.

Lemma process_tags_wf `{html_tags_h} ts h hc cl :
  process_tags ts heap_empty hc_zero None = Some (h, hc, cl) → tree_wf h hc cl.
Proof.
  intros Hrun.
  destruct (process_tags_total ts heap_empty hc_zero None tree_wf_empty)
    as (h' & hc' & cl' & Heq & Hwf & _).
  rewrite Hrun in Heq. by injection Heq as -> -> ->.
Qed.

(** ** What the handlers of the tokenizer leave alone *)

Section heap_frames.
Context `{html_tags_h} `{text_collaborators} `{url_collaborators}
        `{double_ops} `{style_collaborators}.

Lemma update_url_nodes f p h h' : update_url f p h = Some h' → nodes h' = nodes h.
Proof.
  unfold update_url. destruct (urls h !! p); simpl; [|done]. by intros [= <-].
Qed.

Lemma update_block_nodes f p h h' :
  update_block f p h = Some h' → nodes h' = nodes h.
Proof.
  unfold update_block. destruct (blocks h !! p); simpl; [|done]. by intros [= <-].
Qed.

Lemma process_url_nodes h start comp h' r comp' :
  rspamd_html_process_url h start comp = (h', r, comp') → nodes h' = nodes h.
Proof.
  unfold rspamd_html_process_url.
  destruct (url_prefix_scan _) as [[prefix no_prefix]|]; [|by intros [= <- _ _]].
  destruct (url_encode _) as [body bad].
  destruct (rspamd_url_normalise_propagate_flags _ 0) as [decoded sf].
  destruct (rspamd_url_parse decoded) as [rc parsed].
  destruct (url_filter rc parsed sf bad no_prefix) as [u|]; simpl;
    by intros [= <- _ _].
Qed.

Local Opaque update_tag update_url update_block rspamd_html_process_url
  load_tag load_url load_block.

Ltac frames0 :=
  repeat match goal with
    | Hx : update_tag _ _ _ = Some _ |- _ => apply update_tag_nodes in Hx
    | Hx : update_url _ _ _ = Some _ |- _ => apply update_url_nodes in Hx
    | Hx : update_block _ _ _ = Some _ |- _ => apply update_block_nodes in Hx
    | Hx : rspamd_html_process_url _ _ _ = _ |- _ => apply process_url_nodes in Hx
    end.

Ltac frame_solve := simpl in *; try done; try congruence.

Lemma process_url_tag_nodes h tag hc h' r :
  rspamd_html_process_url_tag h tag hc = Some (h', r) → nodes h' = nodes h.
Proof.
  unfold rspamd_html_process_url_tag. intros Hp.
  binds; frames0; frame_solve.
Qed.

Lemma add_or_increase_nodes h set p h' set' added :
  rspamd_url_set_add_or_increase h set p = Some (h', set', added) →
  nodes h' = nodes h.
Proof.
  unfold rspamd_url_set_add_or_increase. intros Hp.
  binds; frames0; frame_solve.
Qed.

Lemma query_callback_nodes h url cbd h' cbd' r :
  rspamd_html_url_query_callback h url cbd = Some (h', cbd', r) →
  nodes h' = nodes h.
Proof.
  unfold rspamd_html_url_query_callback. intros Hp.
  binds; frames0;
    repeat match goal with
      | Hx : rspamd_url_set_add_or_increase _ _ _ = Some _ |- _ =>
          apply add_or_increase_nodes in Hx
      end; frame_solve.
Qed.

Lemma query_urls_iter_nodes found : ∀ h cbd h' cbd',
  query_urls_iter found h cbd = Some (h', cbd') → nodes h' = nodes h.
Proof.
  induction found as [|u rest IH]; intros h cbd h' cbd' Hq.
  - by injection Hq as <- <-.
  - cbn [query_urls_iter] in Hq. simpl in Hq.
    destruct (rspamd_html_url_query_callback _ _ cbd)
      as [[[h1 cbd1] continue]|] eqn:Hcb; simpl in Hq; [|done].
    apply query_callback_nodes in Hcb. simpl in Hcb.
    destruct continue.
    + apply IH in Hq. congruence.
    + injection Hq as <- <-. done.
Qed.

Lemma process_html_url_nodes h url set pu h' set' pu' :
  rspamd_process_html_url h url set pu = Some (h', set', pu') →
  nodes h' = nodes h.
Proof.
  unfold rspamd_process_html_url. intros Hp.
  destruct (load_url h url) as [u|]; simpl in Hp; [|done].
  match type of Hp with (?r ≫= _) = _ => destruct r as [[h1 cbd]|] eqn:Hq end;
    simpl in Hp; [|done].
  injection Hp as <- _ _.
  destruct (0 <? url_querylen u).
  - by apply query_urls_iter_nodes in Hq.
  - by injection Hq as <- <-.
Qed.

Local Opaque rspamd_html_process_url_tag rspamd_url_set_add_or_increase
  rspamd_html_url_query_callback rspamd_process_html_url
  rspamd_url_set_add_or_return.

Ltac frames1 :=
  frames0;
  repeat match goal with
    | Hx : rspamd_html_process_url_tag _ _ _ = Some _ |- _ =>
        apply process_url_tag_nodes in Hx
    | Hx : rspamd_process_html_url _ _ _ _ = Some _ |- _ =>
        apply process_html_url_nodes in Hx
    end.

(** *** Images, links and blocks *)

Lemma img_external_frame src w w' :
  img_external src w = Some w' →
  nodes (iw_heap w') = nodes (iw_heap w)
  ∧ total_tags (iw_hc w') = total_tags (iw_hc w).
Proof.
  unfold img_external. intros Hp.
  binds; frames1; frame_solve; split; congruence.
Qed.

Local Opaque img_external.

Lemma img_component_frame comp w w' :
  img_component comp w = Some w' →
  nodes (iw_heap w') = nodes (iw_heap w)
  ∧ total_tags (iw_hc w') = total_tags (iw_hc w).
Proof.
  unfold img_component. intros Hp.
  destruct (comp_type comp); binds;
    try (match goal with
         | Hx : img_external _ _ = Some _ |- _ => apply img_external_frame in Hx
         end); frame_solve.
Qed.

Lemma img_components_frame comps : ∀ w w',
  img_components comps w = Some w' →
  nodes (iw_heap w') = nodes (iw_heap w)
  ∧ total_tags (iw_hc w') = total_tags (iw_hc w).
Proof.
  induction comps as [|comp rest IH]; intros w w' Hp; simpl in Hp.
  - by injection Hp as <-.
  - destruct (img_component comp w) as [w1|] eqn:Hc; simpl in Hp; [|done].
    apply img_component_frame in Hc as [? ?]. apply IH in Hp as [? ?].
    split; congruence.
Qed.

Lemma process_img_tag_frame h tag hc set pu dest h' hc' set' pu' dest' :
  rspamd_html_process_img_tag h tag hc set pu dest
  = Some (h', hc', set', pu', dest') →
  nodes h' = nodes h ∧ total_tags hc' = total_tags hc.
Proof.
  unfold rspamd_html_process_img_tag. intros Hp.
  destruct (load_tag h tag) as [t|]; simpl in Hp; [|done].
  destruct (update_tag _ tag h) as [h1|] eqn:Hu1; simpl in Hp; [|done].
  destruct (img_components _ _) as [w|] eqn:Hw; simpl in Hp; [|done].
  apply img_components_frame in Hw as [Hn Ht]. simpl in Hn, Ht.
  unfold alloc_image in Hp. simpl in Hp.
  match type of Hp with
  | (update_tag ?f tag ?h2 ≫= _) = _ =>
      destruct (update_tag f tag h2) as [h3|] eqn:Hu2; simpl in Hp; [|done]
  end.
  injection Hp as <- <- _ _ _.
  apply update_tag_nodes in Hu1, Hu2. simpl in *. split; congruence.
Qed.

Local Opaque rspamd_html_process_img_tag.

Lemma link_components_frame comps : ∀ h tag hc set pu h' hc' set' pu',
  link_components comps h tag hc set pu = Some (h', hc', set', pu') →
  nodes h' = nodes h ∧ total_tags hc' = total_tags hc.
Proof.
  induction comps as [|comp rest IH]; intros h tag hc set pu h' hc' set' pu' Hp;
    simpl in Hp.
  - by injection Hp as <- <- _ _.
  - match type of Hp with
    | (?r ≫= _) = _ => destruct r as [[[[h1 hc1] set1] pu1]|] eqn:Hr
    end; simpl in Hp; [|done].
    apply IH in Hp as [? ?].
    destruct (_ && _) in Hr.
    + destruct (rspamd_html_process_img_tag h tag hc set pu None)
        as [[[[[h2 hc2] set2] pu2] d2]|] eqn:Hi; simpl in Hr; [|done].
      injection Hr as <- <- _ _. apply process_img_tag_frame in Hi as [? ?].
      split; congruence.
    + injection Hr as <- <- _ _. done.
Qed.

Lemma process_link_tag_frame h tag hc set pu h' hc' set' pu' :
  rspamd_html_process_link_tag h tag hc set pu = Some (h', hc', set', pu') →
  nodes h' = nodes h ∧ total_tags hc' = total_tags hc.
Proof.
  unfold rspamd_html_process_link_tag. intros Hp.
  destruct (load_tag h tag) as [t|]; simpl in Hp; [|done].
  by apply link_components_frame in Hp.
Qed.

Lemma block_component_frame body comp bl hc bl' hc' :
  block_component body comp (bl, hc) = Some (bl', hc') →
  total_tags hc' = total_tags hc.
Proof.
  unfold block_component. intros Hp.
  destruct (0 <? blen (comp_val comp)); [|by injection Hp as <- <-].
  destruct (comp_type comp); simpl in Hp;
    repeat match type of Hp with
      | (?r ≫= _) = _ => destruct r; simpl in Hp; [|done]
      end;
    injection Hp as <- <-; try done.
  by destruct body.
Qed.

Lemma block_components_frame body comps : ∀ bl hc bl' hc',
  block_components body comps (bl, hc) = Some (bl', hc') →
  total_tags hc' = total_tags hc.
Proof.
  induction comps as [|comp rest IH]; intros bl hc bl' hc' Hp;
    cbn [block_components] in Hp.
  - by injection Hp as <- <-.
  - destruct (block_component body comp (bl, hc)) as [[bl1 hc1]|] eqn:Hc;
      simpl in Hp; [|done].
    apply block_component_frame in Hc. apply IH in Hp. congruence.
Qed.

Lemma process_block_tag_frame h tag hc h' hc' :
  rspamd_html_process_block_tag h tag hc = Some (h', hc') →
  nodes h' = nodes h ∧ total_tags hc' = total_tags hc.
Proof.
  unfold rspamd_html_process_block_tag. intros Hp.
  destruct (load_tag h tag) as [t|]; simpl in Hp; [|done].
  destruct (block_components _ _ _) as [[bl1 hc1]|] eqn:Hb; simpl in Hp; [|done].
  apply block_components_frame in Hb.
  destruct (update_tag _ tag _) as [h2|] eqn:Hu; simpl in Hp; [|done].
  injection Hp as <- <-. apply update_tag_nodes in Hu. simpl in *. done.
Qed.

Lemma propagate_style_nodes h hc tag bl queue h' queue' :
  rspamd_html_propagate_style h hc tag bl queue = Some (h', queue') →
  nodes h' = nodes h.
Proof.
  unfold rspamd_html_propagate_style. intros Hp.
  match type of Hp with (?r ≫= _) = _ => destruct r as [bp|] end;
    simpl in Hp; [|done].
  destruct (load_block h bl) as [b|]; simpl in Hp; [|done].
  destruct (propagate_style_block hc bp b) as [b' push].
  destruct (update_block _ bl h) as [h1|] eqn:Hu; simpl in Hp; [|done].
  apply update_block_nodes in Hu.
  destruct (load_tag h1 tag) as [t|]; simpl in Hp; [|done].
  destruct (_ && _); by injection Hp as <- _.
Qed.

Lemma check_displayed_url_nodes h ex set dest off url h' ex' set' :
  rspamd_html_check_displayed_url h ex set dest off url = Some (h', ex', set') →
  nodes h' = nodes h.
Proof.
  unfold rspamd_html_check_displayed_url. intros Hp.
  binds; frames1; frame_solve.
Qed.

Lemma add_children_lengths_nodes cs tp : ∀ h h',
  add_children_lengths cs tp h = Some h' → nodes h' = nodes h.
Proof.
  induction cs as [|c cs IH]; intros h h' Hp; simpl in Hp.
  - by injection Hp as <-.
  - destruct (load_node h c) as [cn|]; simpl in Hp; [|done].
    destruct (data cn) as [cp|]; simpl in Hp; [|done].
    destruct (load_tag h cp) as [ct|]; simpl in Hp; [|done].
    destruct (update_tag _ tp h) as [h1|] eqn:Hu; simpl in Hp; [|done].
    apply update_tag_nodes in Hu. apply IH in Hp. congruence.
Qed.

Lemma propagate_lengths_nodes h node h' :
  rspamd_html_propagate_lengths h node = Some h' → nodes h' = nodes h.
Proof.
  unfold rspamd_html_propagate_lengths. intros Hp.
  destruct (load_node h node) as [nd|]; simpl in Hp; [|done].
  destruct (data nd); [by apply add_children_lengths_nodes in Hp|].
  by injection Hp as <-.
Qed.

Lemma traverse_post_order_nodes fuel : ∀ node h h',
  g_node_traverse_post_order fuel node h = Some h' → nodes h' = nodes h.
Proof.
  induction fuel as [|f IH]; intros node h h' Hp; simpl in Hp; [done|].
  destruct (load_node h node) as [nd|]; simpl in Hp; [|done].
  match type of Hp with (?r ≫= _) = _ => destruct r as [h1|] eqn:Hf end;
    simpl in Hp; [|done].
  apply propagate_lengths_nodes in Hp. rewrite Hp. clear Hp.
  revert h h1 Hf. generalize (children nd). intros cs.
  induction cs as [|c cs IHc] using rev_ind; intros h h1 Hf; simpl in Hf.
  - by injection Hf as <-.
  - rewrite foldl_app in Hf. simpl in Hf.
    match type of Hf with (?r ≫= _) = _ => destruct r as [h2|] eqn:Hf2 end;
      simpl in Hf; [|done].
    apply IH in Hf. apply IHc in Hf2. congruence.
Qed.

End heap_frames.

Section tokenizer_frames.
Import Tokenizer.
Context `{html_tags_h} `{text_collaborators} `{url_collaborators}
        `{double_ops} `{style_collaborators} `{lexer_collaborator}.
Variable input : bytes.
Variable allow_css : bool.

Lemma tree_frame_refl s : tree_frame s s.
Proof. unfold tree_frame. split; [done|]. split; [done|lia]. Qed.

Lemma tree_frame_trans s1 s2 s3 :
  tree_frame s1 s2 → tree_frame s2 s3 → tree_frame s1 s3.
Proof.
  unfold tree_frame. intros (? & ? & ?) (? & ? & ?).
  split; [congruence|]. split; [congruence|lia].
Qed.

Local Opaque update_tag update_url update_block load_tag load_url load_block
  rspamd_html_process_url_tag rspamd_url_set_add_or_return
  rspamd_process_html_url rspamd_html_process_img_tag
  rspamd_html_process_link_tag rspamd_html_process_block_tag
  rspamd_html_propagate_style rspamd_html_check_displayed_url g_node_prev
  load_node.

Ltac ops :=
  repeat match goal with
    | Hx : update_tag _ _ _ = Some _ |- _ => apply update_tag_nodes in Hx
    | Hx : update_url _ _ _ = Some _ |- _ => apply update_url_nodes in Hx
    | Hx : update_block _ _ _ = Some _ |- _ => apply update_block_nodes in Hx
    | Hx : rspamd_html_process_url_tag _ _ _ = Some _ |- _ =>
        apply process_url_tag_nodes in Hx
    | Hx : rspamd_process_html_url _ _ _ _ = Some _ |- _ =>
        apply process_html_url_nodes in Hx
    | Hx : rspamd_html_process_img_tag _ _ _ _ _ _ = Some _ |- _ =>
        apply process_img_tag_frame in Hx as [? ?]
    | Hx : rspamd_html_process_link_tag _ _ _ _ _ = Some _ |- _ =>
        apply process_link_tag_frame in Hx as [? ?]
    | Hx : rspamd_html_process_block_tag _ _ _ = Some _ |- _ =>
        apply process_block_tag_frame in Hx as [? ?]
    | Hx : rspamd_html_propagate_style _ _ _ _ _ = Some _ |- _ =>
        apply propagate_style_nodes in Hx
    | Hx : rspamd_html_check_displayed_url _ _ _ _ _ _ = Some _ |- _ =>
        apply check_displayed_url_nodes in Hx
    end.

Ltac frame :=
  unfold tree_frame; simpl in *;
  repeat split; try done; try congruence; try lia.

Lemma touch_content_tag_frame off add s s' :
  touch_content_tag off add s = Some s' → tree_frame s s'.
Proof. unfold touch_content_tag. intros Hp. binds; ops; frame. Qed.

Lemma touch_content_tag_synthetic_frame k s s' :
  touch_content_tag_synthetic k s = Some s' → tree_frame s s'.
Proof. unfold touch_content_tag_synthetic. intros Hp. binds; ops; frame. Qed.

Local Opaque touch_content_tag touch_content_tag_synthetic.

Ltac ops1 :=
  ops;
  repeat match goal with
    | Hx : touch_content_tag _ _ _ = Some _ |- _ =>
        apply touch_content_tag_frame in Hx as (? & ? & ?)
    | Hx : touch_content_tag_synthetic _ _ = Some _ |- _ =>
        apply touch_content_tag_synthetic_frame in Hx as (? & ? & ?)
    end.

Lemma flush_text_frame s s' : flush_text input s = Some s' → tree_frame s s'.
Proof. unfold flush_text. intros Hp. binds; ops1; frame. Qed.

Local Opaque flush_text.

Ltac ops2 :=
  ops1;
  repeat match goal with
    | Hx : flush_text _ _ = Some _ |- _ =>
        apply flush_text_frame in Hx as (? & ? & ?)
    end.

Lemma step_content_write_frame t s s' :
  step_content_write input t s = Some s' → tree_frame s s'.
Proof. unfold step_content_write. intros Hp. binds; ops2; frame. Qed.

Lemma append_newline_frame s s' : append_newline s = Some s' → tree_frame s s'.
Proof. unfold append_newline. intros Hp. binds; ops2; frame. Qed.

Local Opaque append_newline.

Lemma tag_end_newlines_frame id s s' :
  tag_end_newlines id s = Some s' → tree_frame s s'.
Proof.
  unfold tag_end_newlines. intros Hp.
  binds;
    repeat match goal with
      | Hx : append_newline _ = Some _ |- _ =>
          apply append_newline_frame in Hx as (? & ? & ?)
      end; frame.
Qed.

Lemma tag_end_seen_frame tag s s' :
  tag_end_seen tag s = Some s' → tree_frame s s'.
Proof. unfold tag_end_seen. intros Hp. binds; frame. Qed.

Lemma tag_end_href_open_frame tag s s' :
  tag_end_href_open tag s = Some s' → tree_frame s s'.
Proof. unfold tag_end_href_open. intros Hp. binds; ops2; frame. Qed.

Lemma check_displayed_frame url s s' :
  check_displayed url s = Some s' → tree_frame s s'.
Proof. unfold check_displayed. intros Hp. binds; ops2; frame. Qed.

Local Opaque check_displayed tag_end_href_open.

Ltac ops3 :=
  ops2;
  repeat match goal with
    | Hx : check_displayed _ _ = Some _ |- _ =>
        apply check_displayed_frame in Hx as (? & ? & ?)
    | Hx : tag_end_href_open _ _ = Some _ |- _ =>
        apply tag_end_href_open_frame in Hx as (? & ? & ?)
    end.

Lemma tag_end_anchor_frame tag s s' :
  tag_end_anchor tag s = Some s' → tree_frame s s'.
Proof. unfold tag_end_anchor. intros Hp. binds; ops3; frame. Qed.

Local Opaque tag_end_anchor.

Lemma tag_end_href_frame tag s s' :
  tag_end_href tag s = Some s' → tree_frame s s'.
Proof.
  unfold tag_end_href. intros Hp.
  binds; ops3;
    repeat match goal with
      | Hx : tag_end_anchor _ _ = Some _ |- _ =>
          apply tag_end_anchor_frame in Hx as (? & ? & ?)
      end; frame.
Qed.

Lemma tag_end_semantic_frame tag s s' :
  tag_end_semantic tag s = Some s' → tree_frame s s'.
Proof. unfold tag_end_semantic. intros Hp. binds; ops3; frame. Qed.

End tokenizer_frames.

(** ** The tag counter along a run of the tokenizer *)

Section tokenizer_counter.
Import Tokenizer.
Context `{html_tags_h} `{text_collaborators} `{url_collaborators}
        `{double_ops} `{style_collaborators} `{lexer_collaborator}.
Variable input : bytes.
Variable allow_css : bool.

(** The attribute lexer and the substring search are not among the
    sources; the lexer leaves the tag counter alone, and the search
    returns an offset or -1. *)
Hypothesis lexer_keeps_total : ∀ buf hc tg p sub sp,
  total_tags (rspamd_html_parse_tag_content buf hc tg p sub sp).1.1.1
  = total_tags hc.
Hypothesis search_range : ∀ s pat, -1 ≤ rspamd_substring_search s pat.

Lemma counter_inv_frame s s' : tree_frame s s' → counter_inv s → counter_inv s'.
Proof.
  unfold tree_frame, counter_inv, count_bound.
  intros (Hn & Ht & Hp) [Hc Hr]. rewrite Hn, Ht. split; [done|lia].
Qed.

Local Opaque update_tag load_tag.

Lemma step_tag_begin_frame t s : tree_frame s (step_tag_begin t s).
Proof.
  unfold step_tag_begin, tree_frame, alloc_tag.
  repeat case_match; simplify_eq; simpl; repeat split; try done; lia.
Qed.

Lemma step_comment_tag_frame t s s' :
  step_comment_tag input t s = Some s' → tree_frame s s'.
Proof.
  unfold step_comment_tag, tree_frame. intros Hp.
  binds; simpl; repeat split; try done; lia.
Qed.

Lemma step_content_style_frame s s' :
  step_content_style input allow_css s = Some s' → tree_frame s s'.
Proof.
  unfold step_content_style, tree_frame. intros Hp.
  pose proof (search_range (drop (Z.to_nat (tk_p s)) input) (bytes_of_string "</"))
    as Hr.
  destruct (rspamd_substring_search _ _ =? -1) eqn:Hs; simpl in Hp.
  - injection Hp as <-. simpl. repeat split; try done; lia.
  - apply Z.eqb_neq in Hs.
    binds; simpl; repeat split; try done; lia.
Qed.

Lemma step_tag_content_frame t s s' :
  step_tag_content input t s = Some s' → tree_frame s s'.
Proof.
  unfold step_tag_content, tree_frame. intros Hp.
  destruct (cur_tag s) as [tag|]; simpl in Hp; [|done].
  destruct (load_tag (tk_heap s) tag) as [tg|]; simpl in Hp; [|done].
  pose proof (lexer_keeps_total input (tk_hc s) tg (tk_p s) (substate s) (savep s))
    as Hl.
  destruct (rspamd_html_parse_tag_content _ _ _ _ _ _) as [[[hc1 tg1] sub1] sp1].
  simpl in Hl.
  binds;
    repeat match goal with
      | Hx : update_tag _ _ _ = Some _ |- _ => apply update_tag_nodes in Hx
      end;
    simpl in *; repeat split; try done; try congruence; lia.
Qed.

Lemma tokenizer_step_frame s s' :
  tk_state s ≠ tag_end →
  tokenizer_step input allow_css s = Some s' → tree_frame s s'.
Proof.
  unfold tokenizer_step. intros Hst Hp.
  destruct (peek input (tk_p s)) as [t|]; simpl in Hp; [|done].
  destruct (tk_state s) eqn:Hk; try done.
  all: try (by apply step_comment_tag_frame in Hp).
  all: try (by apply step_content_style_frame in Hp).
  all: try (by apply step_tag_content_frame in Hp).
  all: try (by apply step_content_write_frame in Hp).
  all: try (injection Hp as <-; apply step_tag_begin_frame).
  all: unfold tree_frame; binds; simpl; repeat split; try done; lia.
Qed.

Lemma step_tag_end_counter s s' :
  step_tag_end s = Some s' →
  tk_p s < guint_max - 1 →
  counter_inv s → counter_inv s'.
Proof.
  unfold step_tag_end. intros Hp Hlt Hinv.
  match type of Hp with
  | (?r ≫= _) = _ => destruct r as [s1|] eqn:Hs1
  end; simpl in Hp; [|done].
  injection Hp as <-.
  assert (Hgoal : count_bound (tk_heap s1) (tk_hc s1)
                  ∧ 0 ≤ total_tags (tk_hc s1) ≤ tk_p s + 1
                  ∧ tk_p s ≤ tk_p s1).
  { destruct Hinv as [Hc Hr].
    cbn [cur_tag set_savep set_substate] in Hs1.
    destruct (cur_tag s) as [tag|] eqn:Hct.
    2: { injection Hs1 as <-. simpl. split; [done|]. split; lia. }
    set (s0 := set_savep None (set_substate 0 s)) in *.
    assert (Hs0 : tk_heap s0 = tk_heap s ∧ tk_hc s0 = tk_hc s
                  ∧ tk_p s0 = tk_p s ∧ cur_level s0 = cur_level s) by done.
    destruct Hs0 as (Hh0 & Hhc0 & Hp0 & Hcl0). clearbody s0.
    destruct (tag_end_process_tag tag _) as [s2|] eqn:Hq2; simpl in Hs1; [|done].
    destruct (tag_end_seen tag s2) as [s3|] eqn:Hq3; simpl in Hs1; [|done].
    destruct (load_tag (tk_heap s3) tag) as [t3|]; simpl in Hs1; [|done].
    destruct (tag_end_newlines (tag_id t3) s3) as [s4|] eqn:Hq4; simpl in Hs1;
      [|done].
    destruct (tag_end_href tag s4) as [s5|] eqn:Hq5; simpl in Hs1; [|done].
    apply tag_end_seen_frame in Hq3. apply tag_end_newlines_frame in Hq4.
    apply tag_end_href_frame in Hq5. apply tag_end_semantic_frame in Hs1.
    assert (Hq2' : count_bound (tk_heap s2) (tk_hc s2)
                   ∧ 0 ≤ total_tags (tk_hc s2) ≤ tk_p s + 1 ∧ tk_p s2 = tk_p s).
    { unfold tag_end_process_tag in Hq2. rewrite Hh0, Hhc0 in Hq2.
      destruct (rspamd_html_process_tag _ _ tag _ true)
        as [[[[[h1 hc1] cl1] bal1] ret1]|] eqn:Hpt; simpl in Hq2; [|done].
      apply process_tag_count in Hpt as [Hc1 Ht1]; [|lia|done].
      destruct ret1; simpl in Hq2.
      - injection Hq2 as <-. simpl. split; [done|]. split; [lia|done].
      - destruct (load_tag h1 tag) as [t1|]; simpl in Hq2; [|done].
        destruct (tag_id t1 =? Tag_STYLE); injection Hq2 as <-; simpl;
          (split; [done|]); (split; [lia|done]). }
    destruct Hq2' as (Hc2 & Ht2 & Hp2).
    pose proof (tree_frame_trans _ _ _ Hq3
                  (tree_frame_trans _ _ _ Hq4 (tree_frame_trans _ _ _ Hq5 Hs1)))
      as (Hn & Ht & Hp).
    unfold count_bound in *. rewrite Hn, Ht. split; [done|]. split; lia. }
  destruct Hgoal as (Hc1 & Ht1 & Hp1). split; simpl; [done|lia].
Qed.

Lemma tokenizer_step_counter s s' :
  blen input < guint_max →
  tokenizer_step input allow_css s = Some s' →
  counter_inv s → counter_inv s'.
Proof.
  intros Hlen Hp Hinv.
  assert (Hdec : tk_state s = tag_end ∨ tk_state s ≠ tag_end)
    by (destruct (tk_state s); (by left) || (by right)).
  destruct Hdec as [Hst|Hst].
  - unfold tokenizer_step in Hp.
    destruct (peek input (tk_p s)) as [t|] eqn:Hpeek; simpl in Hp; [|done].
    rewrite Hst in Hp. apply (step_tag_end_counter s s' Hp); [|done].
    unfold peek in Hpeek.
    destruct (tk_p s <? 0); [done|]. apply lookup_lt_Some in Hpeek.
    unfold blen in Hlen. lia.
  - apply (counter_inv_frame s s'); [|done]. by apply tokenizer_step_frame.
Qed.

Lemma tokenizer_loop_counter fuel : ∀ s s',
  blen input < guint_max →
  tokenizer_loop input allow_css fuel s = Some s' →
  counter_inv s → counter_inv s'.
Proof.
  induction fuel as [|f IH]; intros s s' Hlen Hp Hinv; simpl in Hp.
  - destruct (blen input <=? tk_p s); [|done]. by injection Hp as <-.
  - destruct (blen input <=? tk_p s); [by injection Hp as <-|].
    destruct (tokenizer_step input allow_css s) as [s1|] eqn:Hs; simpl in Hp;
      [|done].
    apply (IH s1 s'); [done|done|]. by apply (tokenizer_step_counter s s1).
Qed.

Lemma process_part_finish_counter s s' :
  process_part_finish s = Some s' → counter_inv s → counter_inv s'.
Proof.
  unfold process_part_finish. intros Hp.
  match type of Hp with
  | (?r ≫= _) = _ => destruct r as [h1|] eqn:Hh
  end; simpl in Hp; [|done].
  injection Hp as <-.
  assert (Hn : nodes h1 = nodes (tk_heap s)).
  { destruct (html_tags (tk_hc s)).
    - by apply traverse_post_order_nodes in Hh.
    - by injection Hh as <-. }
  unfold counter_inv, count_bound. simpl. by rewrite Hn.
Qed.

End tokenizer_counter.

Section part_counter.
Import Tokenizer.
Context `{html_tags_h} `{text_collaborators} `{url_collaborators}
        `{double_ops} `{style_collaborators} `{lexer_collaborator}.

Lemma process_part_full_count h hc input ex set pu css r :
  (∀ buf hc tg p sub sp,
     total_tags (rspamd_html_parse_tag_content buf hc tg p sub sp).1.1.1
     = total_tags hc) →
  (∀ s pat, -1 ≤ rspamd_substring_search s pat) →
  blen input < guint_max →
  total_tags hc = 0 → count_tag_nodes (nodes h) = 0%nat →
  rspamd_html_process_part_full h hc input ex set pu css = Some r →
  Z.of_nat (count_tag_nodes (nodes (res_heap r))) ≤ max_tags.
Proof.
  intros Hlex Hsearch Hlen Ht Hc. unfold rspamd_html_process_part_full.
  intros Hp.
  destruct (tokenizer_loop input css _ _) as [s1|] eqn:Hloop; simpl in Hp;
    [|done].
  destruct (process_part_finish s1) as [s2|] eqn:Hfin; simpl in Hp; [|done].
  injection Hp as <-. simpl.
  assert (Hinit : counter_inv (process_part_init h hc ex set pu)).
  { unfold counter_inv, count_bound. simpl. rewrite Ht, Hc.
    unfold max_tags. lia. }
  apply (tokenizer_loop_counter input css Hlex Hsearch) in Hloop; [|done|done].
  apply process_part_finish_counter in Hfin; [|done].
  destruct Hfin as [Hb _]. unfold count_bound in Hb. simpl in Hb. lia.
Qed.

End part_counter.

(** *** The laws of the scenario's collaborators *)

Lemma scenario_lexer_keeps_total buf hc tg p sub sp :
  total_tags (rspamd_html_parse_tag_content buf hc tg p sub sp).1.1.1
  = total_tags hc.
Proof.
  unfold rspamd_html_parse_tag_content, Scenario.lexer.
  destruct (bool_decide _); [|done].
  unfold Scenario.lex_tag.
  destruct (Scenario.span _ _) as [name rest].
  destruct name as [|b name]; [done|].
  destruct (Scenario.registry_by_name _) as [[id fl]|]; done.
Qed.

Lemma substring_search_from_range fuel : ∀ s pat off,
  0 ≤ off → -1 ≤ Scenario.substring_search_from fuel s pat off.
Proof.
  induction fuel as [|f IH]; intros s pat off Hoff; simpl.
  - destruct (bool_decide _); lia.
  - destruct (bool_decide _); [lia|].
    destruct s as [|b r]; [lia|]. apply IH. lia.
Qed.

Lemma scenario_search_range s pat : -1 ≤ rspamd_substring_search s pat.
Proof. apply substring_search_from_range. lia. Qed.

(** ** Closing block tags (C2) *)

(** C2, as stated, fails once the tag limit is reached.  After [<div>]
    and 8191 unknown tags the counter [total_tags] is 8192 and the [div] is
    the current open node, not closed.  The token [</div>] is a closing
    block tag with the id of that node, yet [rspamd_html_process_tag]
    returns with the heap as it was but for the [parent] field of the
    closing tag itself: the tag of the open [div] is not marked
    [FL_CLOSED], the current level stays at the [div] (node 1) and does not
    move to its parent (node 0), and [UNBALANCED] is not set either. *)
Lemma closing_tag_skipped_at_tag_limit :
  let t := set_tag_parent (Some 0%nat) div_open in
  process_tags (div_open :: replicate (Z.to_nat 8191) unknown_tag)
    heap_empty hc_zero None
  = Some (limit_heap, limit_content, Some 1%nat)
  ∧ open_chain limit_heap (Some 1%nat) [(1%nat, t)]
  ∧ closes (tag_id div_close) (1%nat, t) = true
  ∧ has_flag (tag_flags div_close) FL_CLOSING = true
  ∧ has_flag (tag_flags div_close) (Z.lor CM_INLINE CM_EMPTY) = false
  ∧ rspamd_html_process_tag (alloc_tag div_close limit_heap).1 limit_content
      (alloc_tag div_close limit_heap).2 (Some 1%nat) true
    = Some (set_tags (tags limit_heap ++ [set_tag_parent (Some 1%nat) div_close])
              limit_heap,
            limit_content, Some 1%nat, true, true)
  ∧ has_flag (hc_flags limit_content) RSPAMD_HTML_FLAG_UNBALANCED = false.
Proof.
  intros t. split; [exact limit_state_reached|].
  split.
  { apply (open_chain_node limit_heap 1
             {| data := Some 0%nat; gparent := Some 0%nat; children := [] |}
             0 t []); try done.
    by apply (open_chain_root limit_heap 0
                {| data := None; gparent := None; children := [1%nat] |}). }
  split; [done|]. split; [done|]. split; [done|].
  split; [|done]. vm_compute. reflexivity.
Qed.

(** C2, amended: for every closing block tag ([FL_CLOSING] set, a known id,
    neither inline nor empty) that reaches the tree builder while fewer
    than [max_tags] tags have been counted, with [l] the open tags from the
    current node [c] upwards, [rspamd_html_process_tag] returns, and
    - if [l] holds a tag with the id of the closing tag that is not
      [FL_CLOSED], then the first such tag, the one of the nearest node
      [a], is marked [FL_CLOSED], the current level becomes the parent of
      [a], [*balanced] is true, the node of the closing tag is destroyed
      (its slot is free and no node carries the tag), and the flags of the
      content root are as before;
    - otherwise [UNBALANCED] is set, [*balanced] is false, the current
      level stays and the node of the closing tag stays a leaf below it.
    The tree keeps its shape in both cases. *)
Theorem closing_block_tag_balance :
  ∀ (tags_h : html_tags_h) (h : heap) (hc : html_content) (tag : nat)
    (t : html_tag) (c : nat) (bal : bool),
    tree_wf h hc (Some c) → is_Some (html_tags hc) →
    tags h !! tag = Some t → tag_unlinked h tag →
    tag_id t ≠ -1 →
    has_flag (tag_flags t) (Z.lor CM_INLINE CM_EMPTY) = false →
    has_flag (tag_flags t) FL_CLOSING = true →
    total_tags hc < max_tags →
    ∃ l h' hc' cl' ok,
      open_chain h (Some c) l
      ∧ rspamd_html_process_tag h hc tag (Some c) bal
        = Some (h', hc', cl', ok, true)
      ∧ tree_wf h' hc' cl'
      ∧ match find (closes (tag_id t)) l with
        | Some (a, ta) =>
            ∃ an atp, nodes h !! a = Some (Some an) ∧ data an = Some atp
              ∧ tags h' !! atp = Some (or_tag_flags FL_CLOSED ta)
              ∧ cl' = gparent an ∧ ok = true
              ∧ nodes h' !! length (nodes h) = Some None
              ∧ tag_unlinked h' tag
              ∧ hc_flags hc' = hc_flags hc
        | None =>
            has_flag (hc_flags hc') RSPAMD_HTML_FLAG_UNBALANCED = true
            ∧ ok = false ∧ cl' = Some c
            ∧ nodes h' !! length (nodes h) = Some (Some (leaf (Some tag) c))
        end.
Proof.
  intros tags_h h hc tag t c bal Hwf Hroot Htag Hun Hid Hblock Hclosing Htotal.
  destruct (process_tag_closing h hc tag t c bal Hwf Hroot Htag Hun Hid Hblock
              Hclosing Htotal)
    as (l & h' & hc' & cl' & ok & Hl & Heq & Hwf' & _ & _ & Hm).
  by exists l, h', hc', cl', ok.
Qed.

(** [</div>] after [<div>]: the [div] is closed and the level is the root
    again. *)
Lemma closing_block_tag_balance_witness :
  let h := (alloc_tag div_close
              {| tags := [set_tag_parent (Some 0%nat) div_open];
                 nodes := nodes limit_heap;
                 blocks := []; urls := []; images := [] |}).1 in
  let hc := set_total_tags 1 (set_html_tags (Some 0%nat) hc_zero) in
  ∃ l h' hc' cl' ok,
    open_chain h (Some 1%nat) l
    ∧ rspamd_html_process_tag h hc 1 (Some 1%nat) true
      = Some (h', hc', cl', ok, true)
    ∧ tree_wf h' hc' cl'
    ∧ match find (closes (tag_id div_close)) l with
      | Some (a, ta) =>
          ∃ an atp, nodes h !! a = Some (Some an) ∧ data an = Some atp
            ∧ tags h' !! atp = Some (or_tag_flags FL_CLOSED ta)
            ∧ cl' = gparent an ∧ ok = true
            ∧ nodes h' !! length (nodes h) = Some None
            ∧ tag_unlinked h' 1
            ∧ hc_flags hc' = hc_flags hc
      | None =>
          has_flag (hc_flags hc') RSPAMD_HTML_FLAG_UNBALANCED = true
          ∧ ok = false ∧ cl' = Some 1%nat
          ∧ nodes h' !! length (nodes h) = Some (Some (leaf (Some 1%nat) 1))
      end.
Proof.
  intros h hc.
  apply (closing_block_tag_balance Scenario.tags_h h hc 1 div_close 1 true).
  - apply tree_wf_alloc_tag. apply (process_tags_wf [div_open]).
    vm_compute. reflexivity.
  - by eexists.
  - reflexivity.
  - intros i nd Hi Hd. destruct i as [|[|i]]; simpl in Hi; [| |done];
      injection Hi as <-; discriminate.
  - discriminate.
  - reflexivity.
  - reflexivity.
  - reflexivity.
Defined.

(** ** The tag limit (C1) *)

(** What holds of the tag limit: at most 8192 tag records are retained
    in the tag tree.
    - For every input of less than [2^32] bytes, when
      [rspamd_html_process_part_full] starts with a counter of zero and a
      store without tag nodes, the tree holds at most 8192 nodes that
      carry a tag when it returns.  The attribute lexer and the substring
      search are not among the sources: the lexer is taken to leave the
      counter alone, the search to return an offset or -1.
    - The tree builder alone, on any sequence of less than [2^32] tags,
      returns, with at most 8192 tag nodes.
    - Once the counter [total_tags] has reached [max_tags] a call of
      [rspamd_html_process_tag] leaves the nodes, the current level, the
      root and every tag but its argument as they are, and once the
      counter exceeds [max_tags] it sets [TOO_MANY_TAGS] on the content
      root.  The counter is the running total of the code: from
      [max_tags] on it advances for a tag with an unknown id only. *)
Theorem tag_limit_bounds_tree :
  (∀ (tags_h : html_tags_h) (text_c : text_collaborators)
     (url_c : url_collaborators) (dbl : double_ops)
     (style_c : style_collaborators) (lex : lexer_collaborator)
     (h : heap) (hc : html_content) (input : bytes)
     (exceptions : option (list rspamd_process_exception))
     (url_set part_urls : option (list nat)) (allow_css : bool)
     (r : Tokenizer.part_result),
     (∀ buf hc tg p sub sp,
        total_tags (rspamd_html_parse_tag_content buf hc tg p sub sp).1.1.1
        = total_tags hc) →
     (∀ s pat, -1 ≤ rspamd_substring_search s pat) →
     blen input < guint_max →
     total_tags hc = 0 → count_tag_nodes (nodes h) = 0%nat →
     Tokenizer.rspamd_html_process_part_full h hc input exceptions url_set
       part_urls allow_css = Some r →
     Z.of_nat (count_tag_nodes (nodes (Tokenizer.res_heap r))) ≤ 8192)
  ∧ (∀ (tags_h : html_tags_h) (ts : list html_tag),
       Z.of_nat (length ts) < guint_max →
       ∃ h hc cl,
         process_tags ts heap_empty hc_zero None = Some (h, hc, cl)
         ∧ Z.of_nat (count_tag_nodes (nodes h)) ≤ 8192)
  ∧ (∀ (tags_h : html_tags_h) (h : heap) (hc : html_content) (tag : nat)
       (cl : option nat) (bal : bool) (h' : heap) (hc' : html_content)
       (cl' : option nat) (bal' ret : bool),
       rspamd_html_process_tag h hc tag cl bal = Some (h', hc', cl', bal', ret) →
       is_Some (html_tags hc) →
       max_tags ≤ total_tags hc →
       nodes h' = nodes h ∧ cl' = cl ∧ html_tags hc' = html_tags hc
       ∧ (∀ p, p ≠ tag → tags h' !! p = tags h !! p)
       ∧ (max_tags < total_tags hc →
          has_flag (hc_flags hc') RSPAMD_HTML_FLAG_TOO_MANY_TAGS = true)
       ∧ (∀ t, tags h !! tag = Some t →
          total_tags hc'
          = if tag_id t =? -1 then guint_incr (total_tags hc)
            else total_tags hc)).
Proof.
  split; [|split].
  - intros tags_h text_c url_c dbl style_c lex h hc input exceptions url_set
      part_urls allow_css r Hlex Hsearch Hlen Ht Hc Hrun.
    by apply (process_part_full_count h hc input exceptions url_set part_urls
                allow_css r).
  - intros tags_h ts Hlen.
    destruct (process_tags_total ts heap_empty hc_zero None tree_wf_empty)
      as (h & hc & cl & Hrun & _ & _).
    exists h, hc, cl. split; [done|].
    apply process_tags_count in Hrun as [Hb _]; simpl; try lia.
    + unfold count_bound, max_tags in Hb. lia.
    + unfold count_bound, max_tags. simpl. lia.
  - intros tags_h h hc tag cl bal h' hc' cl' bal' ret Hrun Hroot Hge.
    pose proof (process_tag_full_total h hc tag) as Htotal.
    specialize (λ t, Htotal t cl bal h' hc' cl' bal' ret Hrun Hroot Hge).
    apply process_tag_full in Hrun as ((Hn & _ & Ht) & Hcl & Hr & Hf); done.
Qed.

(** The part [<div><p>x</p></div>], parsed with the collaborators of
    [Scenario]. *)
Lemma tag_limit_bounds_tree_witness :
  ∃ r, Tokenizer.rspamd_html_process_part_full heap_empty hc_zero
         (bytes_of_string "<div><p>x</p></div>") None None None false
       = Some r
       ∧ Z.of_nat (count_tag_nodes (nodes (Tokenizer.res_heap r))) ≤ 8192.
Proof.
  eexists. split; [vm_compute; reflexivity|].
  eapply (proj1 tag_limit_bounds_tree Scenario.tags_h Scenario.text
            Scenario.url Scenario.doubles Scenario.style Scenario.lexer
            heap_empty hc_zero (bytes_of_string "<div><p>x</p></div>")
            None None None false).
  - exact scenario_lexer_keeps_total.
  - exact scenario_search_range.
  - vm_compute. reflexivity.
  - reflexivity.
  - reflexivity.
  - vm_compute. reflexivity.
Defined.

(** C1 fails on the code in its second half: the flag is not set once
    more than 8192 tags have been emitted.  The counter [total_tags]
    advances for a tag with a known id only under
    [hc->total_tags < max_tags], so it stops at 8192 and the test
    [hc->total_tags > max_tags] never holds: on every sequence of tags with
    known ids, however long, the tree builder returns with the counter at
    most 8192 and [TOO_MANY_TAGS] not set (and with at most 8192 tag
    nodes, the half of the claim that holds). *)
Theorem known_tags_never_raise_too_many_tags :
  ∀ (tags_h : html_tags_h) (ts : list html_tag),
    Forall (λ t, tag_id t ≠ -1) ts →
    ∃ h hc cl,
      process_tags ts heap_empty hc_zero None = Some (h, hc, cl)
      ∧ total_tags hc ≤ 8192
      ∧ has_flag (hc_flags hc) RSPAMD_HTML_FLAG_TOO_MANY_TAGS = false
      ∧ Z.of_nat (count_tag_nodes (nodes h)) ≤ 8192.
Proof.
  intros tags_h ts Hknown.
  destruct (process_tags_total ts heap_empty hc_zero None tree_wf_empty)
    as (h & hc & cl & Hrun & _ & _).
  exists h, hc, cl. split; [done|].
  apply process_tags_known_below in Hrun as (_ & [Ht Hf] & Hc); try done.
  split; [done|]. split; [done|]. unfold count_bound, max_tags in Hc. lia.
Qed.

(** 8193 tokens [<div>]: more than 8192 tags are emitted and the flag is
    not set. *)
Lemma known_tags_never_raise_too_many_tags_witness :
  ∃ h hc cl,
    process_tags (replicate (Z.to_nat 8193) div_open) heap_empty hc_zero None
    = Some (h, hc, cl)
    ∧ total_tags hc ≤ 8192
    ∧ has_flag (hc_flags hc) RSPAMD_HTML_FLAG_TOO_MANY_TAGS = false
    ∧ Z.of_nat (count_tag_nodes (nodes h)) ≤ 8192.
Proof.
  apply (known_tags_never_raise_too_many_tags Scenario.tags_h).
  apply Forall_replicate. discriminate.
Defined.

(** ** The turn of [tag_end] *)

Section tag_flags.
Context `{html_tags_h}.

Lemma land_lor_absorb_l a b : Z.land a (Z.lor a b) = a.
Proof.
  apply Z.bits_inj'. intros n Hn. rewrite Z.land_spec, Z.lor_spec.
  by destruct (Z.testbit a n), (Z.testbit b n).
Qed.

Lemma land_lor_absorb_r a b : Z.land a (Z.lor b a) = a.
Proof. by rewrite Z.lor_comm, land_lor_absorb_l. Qed.

Lemma submask_lor m1 m2 a :
  Z.land m1 a = m1 → Z.land m2 a = m2 → Z.land (Z.lor m1 m2) a = Z.lor m1 m2.
Proof. intros H1 H2. by rewrite Z.land_lor_distr_l, H1, H2. Qed.

Lemma submask_lor_l m a b : Z.land m a = m → Z.land m (Z.lor a b) = m.
Proof.
  intros Hm. apply Z.bits_inj'. intros n Hn.
  apply (f_equal (λ x, Z.testbit x n)) in Hm.
  rewrite Z.land_spec in Hm. rewrite Z.land_spec, Z.lor_spec.
  by destruct (Z.testbit m n), (Z.testbit a n), (Z.testbit b n).
Qed.

Lemma submask_lor_r m a b : Z.land m b = m → Z.land m (Z.lor a b) = m.
Proof. intros Hm. rewrite Z.lor_comm. by apply submask_lor_l. Qed.

Lemma submask_refl m : Z.land m m = m.
Proof. apply Z.land_diag. Qed.

Lemma tag_grows_refl t : tag_grows t t.
Proof. split; [done|]. exists 0. by rewrite Z.lor_0_r. Qed.

Lemma tag_grows_same t t' :
  tag_id t' = tag_id t → tag_flags t' = tag_flags t → tag_grows t t'.
Proof. intros Hi Hf. split; [done|]. exists 0. by rewrite Z.lor_0_r. Qed.

Lemma tag_grows_trans t1 t2 t3 :
  tag_grows t1 t2 → tag_grows t2 t3 → tag_grows t1 t3.
Proof.
  intros [Hi1 (m1 & Hf1 & Hm1)] [Hi2 (m2 & Hf2 & Hm2)].
  split; [congruence|]. exists (Z.lor m1 m2).
  split; [by rewrite Hf2, Hf1, Z.lor_assoc|by apply submask_lor].
Qed.

Lemma tag_grows_by m t t' :
  tag_id t' = tag_id t → tag_flags t' = Z.lor (tag_flags t) m →
  Z.land m handler_flags = m → tag_grows t t'.
Proof. intros Hi Hf Hm. split; [done|]. by exists m. Qed.

Lemma tag_grows_flags m t :
  Z.land m handler_flags = m → tag_id (or_tag_flags m t) = tag_id t →
  tag_grows t (or_tag_flags m t).
Proof. intros Hm Hid. split; [done|]. by exists m. Qed.

Lemma handler_flags_ignore : Z.land FL_IGNORE handler_flags = FL_IGNORE.
Proof.
  unfold handler_flags.
  do 2 apply submask_lor_l. apply land_lor_absorb_l.
Qed.

Lemma handler_flags_closed : Z.land FL_CLOSED handler_flags = FL_CLOSED.
Proof.
  unfold handler_flags. do 2 apply submask_lor_l. apply land_lor_absorb_r.
Qed.

Lemma handler_flags_href : Z.land FL_HREF handler_flags = FL_HREF.
Proof. unfold handler_flags. apply submask_lor_l, land_lor_absorb_r. Qed.

Lemma handler_flags_image : Z.land FL_IMAGE handler_flags = FL_IMAGE.
Proof. unfold handler_flags. apply land_lor_absorb_r. Qed.

Lemma has_flag_false_land x m : has_flag x m = false ↔ Z.land x m = 0.
Proof.
  unfold has_flag. rewrite negb_false_iff. apply Z.eqb_eq.
Qed.

(** A flag that is none of the handlers' stays unset. *)
Lemma tag_grows_unset t t' c :
  tag_grows t t' → Z.land handler_flags c = 0 →
  has_flag (tag_flags t) c = false → has_flag (tag_flags t') c = false.
Proof.
  intros [_ (m & -> & Hm)] Hc Hf. apply has_flag_false_land in Hf.
  apply has_flag_false_land.
  rewrite Z.land_lor_distr_l, Hf, <- Hm, <- Z.land_assoc, Hc, Z.land_0_r.
  done.
Qed.

Lemma tag_grows_set t t' c :
  tag_grows t t' →
  has_flag (tag_flags t) c = true → has_flag (tag_flags t') c = true.
Proof. intros [_ (m & -> & _)]. apply has_flag_lor_keep. Qed.

Lemma tags_grow_refl l : tags_grow l l.
Proof. intros p t Ht. exists t. split; [done|apply tag_grows_refl]. Qed.

Lemma tags_grow_trans l1 l2 l3 :
  tags_grow l1 l2 → tags_grow l2 l3 → tags_grow l1 l3.
Proof.
  intros H12 H23 p t Ht. destruct (H12 p t Ht) as (t2 & Ht2 & Hg2).
  destruct (H23 p t2 Ht2) as (t3 & Ht3 & Hg3).
  exists t3. split; [done|]. by eapply tag_grows_trans.
Qed.


Lemma update_tag_grows f q h h' :
  (∀ t, tag_grows t (f t)) → update_tag f q h = Some h' →
  tags_grow (tags h) (tags h').
Proof.
  unfold update_tag. intros Hf Hu.
  destruct (tags h !! q) as [tq|] eqn:Hq; simpl in Hu; [|done].
  injection Hu as <-. intros p t Ht. simpl.
  destruct (decide (p = q)) as [->|Hne].
  - exists (f tq). rewrite list_lookup_insert_eq by (by eapply lookup_lt_Some).
    split; [done|]. rewrite Hq in Ht. injection Ht as <-. apply Hf.
  - exists t. rewrite list_lookup_insert_ne by done.
    split; [done|apply tag_grows_refl].
Qed.

Lemma g_node_append_tags parent node h h' :
  g_node_append parent node h = Some h' → tags h' = tags h.
Proof. unfold g_node_append. intros Hp. binds; done. Qed.

Lemma g_node_destroy_tags node h h' :
  g_node_destroy node h = Some h' → tags h' = tags h.
Proof. unfold g_node_destroy. intros Hp. binds; done. Qed.

Local Opaque g_node_append g_node_destroy update_tag.

Ltac grow_ops :=
  repeat match goal with
    | Hx : g_node_append _ _ _ = Some _ |- _ => apply g_node_append_tags in Hx
    | Hx : g_node_destroy _ _ = Some _ |- _ => apply g_node_destroy_tags in Hx
    | Hx : update_tag (set_tag_parent _) _ _ = Some _ |- _ =>
        apply update_tag_grows in Hx; [|intros; by apply tag_grows_same]
    | Hx : update_tag (or_tag_flags FL_IGNORE) _ _ = Some _ |- _ =>
        apply update_tag_grows in Hx;
          [|intros; by apply tag_grows_flags; [apply handler_flags_ignore|]]
    | Hx : update_tag (or_tag_flags FL_CLOSED) _ _ = Some _ |- _ =>
        apply update_tag_grows in Hx;
          [|intros; by apply tag_grows_flags; [apply handler_flags_closed|]]
    end.

Ltac grow_solve :=
  simpl in *;
  repeat match goal with
    | Hx : tags ?a = _ |- _ => rewrite Hx in *; clear Hx
    end;
  repeat match goal with
    | Hx : tags_grow ?a ?b |- tags_grow ?a _ =>
        apply (tags_grow_trans a b); [exact Hx|]; clear Hx
    end;
  try apply tags_grow_refl.

Lemma check_balance_grows h node cl h' cl' ok :
  rspamd_html_check_balance h node cl = Some (h', cl', ok) → tags_grow (tags h) (tags h').
Proof.
  unfold rspamd_html_check_balance. intros Hp. binds; grow_ops; grow_solve.
Qed.

Local Opaque rspamd_html_check_balance.

Lemma process_tag_push_grows h hc tag cl bal h' hc' cl' bal' ret :
  process_tag_push h hc tag cl bal = Some (h', hc', cl', bal', ret) →
  tags_grow (tags h) (tags h').
Proof.
  unfold process_tag_push, g_node_new. intros Hp.
  binds; grow_ops; grow_solve.
Qed.

Lemma process_tag_bad_nesting_grows h hc tag parent cl h' hc' cl' bal' ret :
  process_tag_bad_nesting h hc tag parent cl = Some (h', hc', cl', bal', ret) →
  tags_grow (tags h) (tags h').
Proof.
  unfold process_tag_bad_nesting, g_node_new. intros Hp.
  binds; grow_ops; grow_solve.
Qed.

Local Opaque process_tag_push process_tag_bad_nesting.

Lemma process_tag_grows h hc tag cl bal h' hc' cl' bal' ret :
  rspamd_html_process_tag h hc tag cl bal = Some (h', hc', cl', bal', ret) →
  tags_grow (tags h) (tags h').
Proof.
  unfold rspamd_html_process_tag, g_node_new. intros Hp.
  destruct (html_tags hc);
    binds;
    repeat match goal with
      | Hx : rspamd_html_check_balance _ _ _ = Some _ |- _ =>
          apply check_balance_grows in Hx
      | Hx : process_tag_push _ _ _ _ _ = Some _ |- _ =>
          apply process_tag_push_grows in Hx
      | Hx : process_tag_bad_nesting _ _ _ _ _ = Some _ |- _ =>
          apply process_tag_bad_nesting_grows in Hx
      end;
    grow_ops; grow_solve.
Qed.

End tag_flags.

Section url_tags.
Context `{html_tags_h} `{text_collaborators} `{url_collaborators}
        `{double_ops} `{style_collaborators}.

Lemma update_url_tags f p h h' : update_url f p h = Some h' → tags h' = tags h.
Proof.
  unfold update_url. destruct (urls h !! p); simpl; [|done]. by intros [= <-].
Qed.

Lemma update_block_tags f p h h' :
  update_block f p h = Some h' → tags h' = tags h.
Proof.
  unfold update_block. destruct (blocks h !! p); simpl; [|done]. by intros [= <-].
Qed.

Lemma process_url_tags h start comp h' r comp' :
  rspamd_html_process_url h start comp = (h', r, comp') → tags h' = tags h.
Proof.
  unfold rspamd_html_process_url.
  destruct (url_prefix_scan _) as [[prefix no_prefix]|]; [|by intros [= <- _ _]].
  destruct (url_encode _) as [body bad].
  destruct (rspamd_url_normalise_propagate_flags _ 0) as [decoded sf].
  destruct (rspamd_url_parse decoded) as [rc parsed].
  destruct (url_filter rc parsed sf bad no_prefix) as [u|]; simpl;
    by intros [= <- _ _].
Qed.

Local Opaque update_tag update_url update_block rspamd_html_process_url
  load_tag load_url load_block.

Ltac tags0 :=
  repeat match goal with
    | Hx : update_url _ _ _ = Some _ |- _ => apply update_url_tags in Hx
    | Hx : update_block _ _ _ = Some _ |- _ => apply update_block_tags in Hx
    | Hx : rspamd_html_process_url _ _ _ = _ |- _ => apply process_url_tags in Hx
    | Hx : update_tag _ _ _ = Some _ |- _ =>
        apply update_tag_grows in Hx;
          [|intros; first [ by apply tag_grows_same
                          | by (case_match; apply tag_grows_same)
                          | by eapply tag_grows_by;
                              [reflexivity|reflexivity
                              |first [ apply handler_flags_ignore
                                     | apply handler_flags_closed
                                     | apply handler_flags_href
                                     | apply handler_flags_image ]] ]]
    end.

Ltac tags_solve :=
  simpl in *;
  repeat match goal with
    | Hx : tags ?a = _ |- _ => rewrite Hx in *; clear Hx
    end;
  repeat match goal with
    | Hx : tags_grow ?a ?b |- tags_grow ?a _ =>
        apply (tags_grow_trans a b); [exact Hx|]; clear Hx
    end;
  try apply tags_grow_refl.

Lemma process_url_tag_grows h tag hc h' r :
  rspamd_html_process_url_tag h tag hc = Some (h', r) →
  tags_grow (tags h) (tags h').
Proof.
  unfold rspamd_html_process_url_tag. intros Hp.
  binds; tags0; tags_solve.
Qed.

Lemma add_or_increase_tags h set p h' set' added :
  rspamd_url_set_add_or_increase h set p = Some (h', set', added) →
  tags h' = tags h.
Proof.
  unfold rspamd_url_set_add_or_increase. intros Hp.
  binds; tags0; simpl in *; try done; congruence.
Qed.

Lemma query_callback_tags h url cbd h' cbd' r :
  rspamd_html_url_query_callback h url cbd = Some (h', cbd', r) →
  tags h' = tags h.
Proof.
  unfold rspamd_html_url_query_callback. intros Hp.
  binds; tags0;
    repeat match goal with
      | Hx : rspamd_url_set_add_or_increase _ _ _ = Some _ |- _ =>
          apply add_or_increase_tags in Hx
      end; simpl in *; try done; congruence.
Qed.

Lemma query_urls_iter_tags found : ∀ h cbd h' cbd',
  query_urls_iter found h cbd = Some (h', cbd') → tags h' = tags h.
Proof.
  induction found as [|u rest IH]; intros h cbd h' cbd' Hq.
  - by injection Hq as <- <-.
  - cbn [query_urls_iter] in Hq. simpl in Hq.
    destruct (rspamd_html_url_query_callback _ _ cbd)
      as [[[h1 cbd1] continue]|] eqn:Hcb; simpl in Hq; [|done].
    apply query_callback_tags in Hcb. simpl in Hcb.
    destruct continue.
    + apply IH in Hq. congruence.
    + injection Hq as <- <-. done.
Qed.

Lemma process_html_url_tags h url set pu h' set' pu' :
  rspamd_process_html_url h url set pu = Some (h', set', pu') →
  tags h' = tags h.
Proof.
  unfold rspamd_process_html_url. intros Hp.
  destruct (load_url h url) as [u|]; simpl in Hp; [|done].
  match type of Hp with (?r ≫= _) = _ => destruct r as [[h1 cbd]|] eqn:Hq end;
    simpl in Hp; [|done].
  injection Hp as <- _ _.
  destruct (0 <? url_querylen u).
  - by apply query_urls_iter_tags in Hq.
  - by injection Hq as <- <-.
Qed.

Local Opaque rspamd_html_process_url_tag rspamd_url_set_add_or_increase
  rspamd_html_url_query_callback rspamd_process_html_url
  rspamd_url_set_add_or_return.

Ltac tags1 :=
  tags0;
  repeat match goal with
    | Hx : rspamd_html_process_url_tag _ _ _ = Some _ |- _ =>
        apply process_url_tag_grows in Hx
    | Hx : rspamd_process_html_url _ _ _ _ = Some _ |- _ =>
        apply process_html_url_tags in Hx
    end.

Lemma check_displayed_url_tags h ex set dest off url h' ex' set' :
  rspamd_html_check_displayed_url h ex set dest off url = Some (h', ex', set') →
  tags h' = tags h.
Proof.
  unfold rspamd_html_check_displayed_url. intros Hp.
  binds; tags1; simpl in *; try done; congruence.
Qed.

(** *** The image handler *)

Lemma dest_grows_refl d : dest_grows d d.
Proof. destruct d; simpl; [reflexivity|done]. Qed.

Lemma dest_grows_trans d1 d2 d3 :
  dest_grows d1 d2 → dest_grows d2 d3 → dest_grows d1 d3.
Proof. destruct d1, d2, d3; simpl; try done. intros. by etrans. Qed.

Lemma img_external_walk src w w' :
  img_external src w = Some w' →
  iw_dest w' = iw_dest w ∧ tags (iw_heap w') = tags (iw_heap w).
Proof.
  unfold img_external. intros Hp.
  destruct (rspamd_html_process_url _ _ _) as [[h1 url] c1] eqn:Hu.
  apply process_url_tags in Hu. simpl in Hu.
  destruct url as [p|]; [|by injection Hp as <-].
  binds; tags1; simpl in *; split; try done; congruence.
Qed.

Local Opaque img_external.

Lemma img_component_walk comp w w' :
  img_component comp w = Some w' →
  dest_grows (iw_dest w) (iw_dest w') ∧ tags (iw_heap w') = tags (iw_heap w).
Proof.
  unfold img_component. intros Hp.
  destruct (comp_type comp);
    try (injection Hp as <-; split; [apply dest_grows_refl|done]).
  - destruct (0 <? blen (comp_val comp));
      [|injection Hp as <-; split; [apply dest_grows_refl|done]].
    destruct (_ && _);
      [injection Hp as <-; split; [apply dest_grows_refl|done]|].
    destruct (_ && _);
      [injection Hp as <-; split; [apply dest_grows_refl|done]|].
    apply img_external_walk in Hp as [Hd Ht]. simpl in *.
    rewrite Hd. split; [apply dest_grows_refl|done].
  - repeat case_match; injection Hp as <-; split;
      (apply dest_grows_refl || done).
  - destruct (iw_dest w) as [d|] eqn:Hd;
      [|injection Hp as <-; rewrite Hd; done].
    destruct (0 <? blen (comp_val comp));
      [|injection Hp as <-; rewrite Hd; simpl; split; [reflexivity|done]].
    injection Hp as <-. simpl. split; [|done].
    repeat case_match; rewrite <- ?app_assoc; by apply prefix_app_r.
Qed.

Lemma img_components_walk comps : ∀ w w',
  img_components comps w = Some w' →
  dest_grows (iw_dest w) (iw_dest w') ∧ tags (iw_heap w') = tags (iw_heap w).
Proof.
  induction comps as [|comp rest IH]; intros w w' Hp; simpl in Hp.
  - injection Hp as <-. split; [apply dest_grows_refl|done].
  - destruct (img_component comp w) as [w1|] eqn:Hc; simpl in Hp; [|done].
    apply img_component_walk in Hc as [Hd1 Ht1].
    apply IH in Hp as [Hd2 Ht2].
    split; [by eapply dest_grows_trans|congruence].
Qed.

Lemma process_img_tag_walk h tag hc set pu d h' hc' set' pu' d' :
  rspamd_html_process_img_tag h tag hc set pu d = Some (h', hc', set', pu', d') →
  dest_grows d d' ∧ tags_grow (tags h) (tags h').
Proof.
  unfold rspamd_html_process_img_tag. intros Hp.
  destruct (load_tag h tag) as [t|]; simpl in Hp; [|done].
  destruct (update_tag _ tag h) as [h1|] eqn:Hu1; simpl in Hp; [|done].
  destruct (img_components _ _) as [w|] eqn:Hw; simpl in Hp; [|done].
  apply img_components_walk in Hw as [Hd Ht]. simpl in Hd, Ht.
  unfold alloc_image in Hp. simpl in Hp.
  match type of Hp with
  | (update_tag ?f tag ?hh ≫= _) = _ =>
      destruct (update_tag f tag hh) as [h2|] eqn:Hu2; simpl in Hp; [|done]
  end.
  injection Hp as <- _ _ _ <-. split; [done|].
  tags0. tags_solve.
Qed.

Local Opaque rspamd_html_process_img_tag.

Lemma link_components_grows comps : ∀ h tag hc set pu h' hc' set' pu',
  link_components comps h tag hc set pu = Some (h', hc', set', pu') →
  tags_grow (tags h) (tags h').
Proof.
  induction comps as [|comp rest IH]; intros h tag hc set pu h' hc' set' pu' Hp;
    simpl in Hp.
  - injection Hp as <- _ _ _. apply tags_grow_refl.
  - match type of Hp with
    | (?r ≫= _) = _ => destruct r as [[[[h1 hc1] set1] pu1]|] eqn:Hq
    end; simpl in Hp; [|done].
    apply IH in Hp. apply (tags_grow_trans _ (tags h1)); [|done].
    destruct (_ && _); [|injection Hq as <- _ _ _; apply tags_grow_refl].
    destruct (rspamd_html_process_img_tag _ _ _ _ _ _)
      as [[[[[h2 hc2] set2] pu2] d2]|] eqn:Hi; simpl in Hq; [|done].
    injection Hq as <- _ _ _. by apply process_img_tag_walk in Hi as [_ ?].
Qed.

Lemma process_link_tag_grows h tag hc set pu h' hc' set' pu' :
  rspamd_html_process_link_tag h tag hc set pu = Some (h', hc', set', pu') →
  tags_grow (tags h) (tags h').
Proof.
  unfold rspamd_html_process_link_tag. intros Hp.
  destruct (load_tag h tag) as [t|]; simpl in Hp; [|done].
  by eapply link_components_grows.
Qed.

End url_tags.

Section tag_end_turn.
Import Tokenizer.
Context `{html_tags_h} `{text_collaborators} `{url_collaborators}
        `{double_ops} `{style_collaborators} `{lexer_collaborator}.
Variable input : bytes.
Variable allow_css : bool.

Lemma quiet_refl s : quiet s s.
Proof. split; [done|]. split; [done|apply tags_grow_refl]. Qed.

Lemma quiet_trans s1 s2 s3 : quiet s1 s2 → quiet s2 s3 → quiet s1 s3.
Proof.
  intros (Hd1 & Hp1 & Ht1) (Hd2 & Hp2 & Ht2).
  split; [congruence|]. split; [congruence|by eapply tags_grow_trans].
Qed.

Local Opaque update_tag update_url update_block load_tag load_url load_block
  rspamd_html_process_url_tag rspamd_url_set_add_or_return
  rspamd_process_html_url rspamd_html_process_img_tag
  rspamd_html_process_link_tag rspamd_html_process_block_tag
  rspamd_html_propagate_style rspamd_html_check_displayed_url g_node_prev
  load_node rspamd_html_process_tag.

Ltac qops :=
  repeat match goal with
    | Hx : update_url _ _ _ = Some _ |- _ => apply update_url_tags in Hx
    | Hx : update_block _ _ _ = Some _ |- _ => apply update_block_tags in Hx
    | Hx : rspamd_html_process_url_tag _ _ _ = Some _ |- _ =>
        apply process_url_tag_grows in Hx
    | Hx : rspamd_process_html_url _ _ _ _ = Some _ |- _ =>
        apply process_html_url_tags in Hx
    | Hx : rspamd_html_check_displayed_url _ _ _ _ _ _ = Some _ |- _ =>
        apply check_displayed_url_tags in Hx
    | Hx : rspamd_html_process_tag _ _ _ _ _ = Some _ |- _ =>
        apply process_tag_grows in Hx
    | Hx : update_tag _ _ _ = Some _ |- _ =>
        apply update_tag_grows in Hx;
          [|intros; first [ by apply tag_grows_same
                          | by (case_match; apply tag_grows_same)
                          | by eapply tag_grows_by;
                              [reflexivity|reflexivity
                              |first [ apply handler_flags_ignore
                                     | apply handler_flags_closed
                                     | apply handler_flags_href
                                     | apply handler_flags_image ]] ]]
    end.

Ltac qsolve :=
  unfold quiet in *; simpl in *;
  repeat match goal with Hx : _ ∧ _ |- _ => destruct Hx end;
  split; [try done; congruence|];
  split; [try done; congruence|];
  repeat match goal with
    | Hx : tags ?a = _ |- _ => rewrite Hx in *; clear Hx
    end;
  repeat match goal with
    | Hx : tags_grow ?a ?b |- tags_grow ?a _ =>
        apply (tags_grow_trans a b); [exact Hx|]; clear Hx
    end;
  try apply tags_grow_refl.

Lemma touch_content_tag_synthetic_quiet k s s' :
  touch_content_tag_synthetic k s = Some s' → quiet s s'.
Proof. unfold touch_content_tag_synthetic. intros Hp. binds; qops; qsolve. Qed.

Lemma append_newline_grows s s' :
  append_newline s = Some s' →
  tk_p s' = tk_p s ∧ tags_grow (tags (tk_heap s)) (tags (tk_heap s')).
Proof.
  unfold append_newline. intros Hp.
  destruct (_ && _); [|injection Hp as <-; split; [done|apply tags_grow_refl]].
  by apply touch_content_tag_synthetic_quiet in Hp as (_ & ? & ?).
Qed.

Lemma tag_end_newlines_grows id s s' :
  tag_end_newlines id s = Some s' →
  tk_p s' = tk_p s ∧ tags_grow (tags (tk_heap s)) (tags (tk_heap s')).
Proof.
  unfold tag_end_newlines. intros Hp.
  binds;
    repeat match goal with
      | Hx : append_newline _ = Some _ |- _ =>
          apply append_newline_grows in Hx as [? ?]
      end;
    simpl in *; (split; [congruence|]);
    repeat match goal with
      | Hx : tags_grow ?a ?b |- tags_grow ?a _ =>
          apply (tags_grow_trans a b); [exact Hx|]; clear Hx
      end;
    try apply tags_grow_refl.
Qed.

Lemma tag_end_process_tag_quiet tag s s' :
  tag_end_process_tag tag s = Some s' → quiet s s'.
Proof. unfold tag_end_process_tag. intros Hp. binds; qops; qsolve. Qed.

Lemma tag_end_seen_quiet tag s s' : tag_end_seen tag s = Some s' → quiet s s'.
Proof. unfold tag_end_seen. intros Hp. binds; qsolve. Qed.

Lemma tag_end_href_open_quiet tag s s' :
  tag_end_href_open tag s = Some s' → quiet s s'.
Proof. unfold tag_end_href_open. intros Hp. binds; qops; qsolve. Qed.

Lemma check_displayed_quiet url s s' :
  check_displayed url s = Some s' → quiet s s'.
Proof. unfold check_displayed. intros Hp. binds; qops; qsolve. Qed.

Local Opaque check_displayed tag_end_href_open.

Ltac qops3 :=
  qops;
  repeat match goal with
    | Hx : check_displayed _ _ = Some _ |- _ =>
        apply check_displayed_quiet in Hx as (? & ? & ?)
    | Hx : tag_end_href_open _ _ = Some _ |- _ =>
        apply tag_end_href_open_quiet in Hx as (? & ? & ?)
    end.

Lemma tag_end_anchor_quiet tag s s' :
  tag_end_anchor tag s = Some s' → quiet s s'.
Proof. unfold tag_end_anchor. intros Hp. binds; qops3; qsolve. Qed.

Local Opaque tag_end_anchor.

Lemma tag_end_href_quiet tag s s' :
  tag_end_href tag s = Some s' → quiet s s'.
Proof.
  unfold tag_end_href. intros Hp.
  binds; qops3;
    repeat match goal with
      | Hx : tag_end_anchor _ _ = Some _ |- _ =>
          apply tag_end_anchor_quiet in Hx as (? & ? & ?)
      end; qsolve.
Qed.

End tag_end_turn.

Section tag_end_step.
Import Tokenizer.
Context `{html_tags_h} `{text_collaborators} `{url_collaborators}
        `{double_ops} `{style_collaborators} `{lexer_collaborator}.
Variable input : bytes.
Variable allow_css : bool.

Lemma propagate_style_block_complete hc parent b :
  style_complete (propagate_style_block hc parent b).1.
Proof.
  unfold propagate_style_block, style_complete.
  destruct parent as [bp|]; simpl;
    repeat (case_match; simpl in * ); simplify_eq; simpl in *;
    repeat match goal with
           | Hx : negb _ = true |- _ => apply negb_true_iff in Hx
           | Hx : negb _ = false |- _ => apply negb_false_iff in Hx
           | Hx : (_ =? _) = true |- _ => apply Z.eqb_eq in Hx
           | Hx : (_ =? _) = false |- _ => apply Z.eqb_neq in Hx
           end;
    repeat split; try done; try congruence;
    unfold font_size_unset, guint_max in *; try lia.
Qed.

Lemma propagate_style_complete h hc tag bl queue h' queue' :
  rspamd_html_propagate_style h hc tag bl queue = Some (h', queue') →
  tags h' = tags h
  ∧ ∃ b, load_block h' bl = Some b ∧ style_complete b.
Proof.
  unfold rspamd_html_propagate_style. intros Hp.
  match type of Hp with
  | (?r ≫= _) = _ => destruct r as [bp|]; simpl in Hp; [|done]
  end.
  destruct (load_block h bl) as [b|]; simpl in Hp; [|done].
  pose proof (propagate_style_block_complete hc bp b) as Hc.
  destruct (propagate_style_block hc bp b) as [b' push]. simpl in Hc.
  destruct (update_block _ bl h) as [h1|] eqn:Hu; simpl in Hp; [|done].
  apply update_block_load in Hu as (b0 & _ & Hb1 & Htags).
  destruct (load_tag h1 tag) as [t|]; simpl in Hp; [|done].
  assert (h' = h1) as -> by (destruct (_ && _); by injection Hp as <- _).
  split; [done|]. by exists b'.
Qed.

(** The last handler of [tag_end] on an opening block tag: the block is
    measured after its style has been propagated, and a block below the
    thresholds is marked and sends the tokenizer to [content_ignore]. *)
Lemma tag_end_semantic_opening_block tag s s' t :
  load_tag (tk_heap s) tag = Some t →
  tag_id t ≠ Tag_IMG → tag_id t ≠ Tag_LINK →
  has_flag (tag_flags t) FL_BLOCK = true →
  has_flag (tag_flags t) FL_CLOSING = false →
  tag_end_semantic tag s = Some s' →
  ∃ t' bl b,
    load_tag (tk_heap s') tag = Some t'
    ∧ extra t' = Some (ExtraBlock bl)
    ∧ load_block (tk_heap s') bl = Some b
    ∧ style_complete b
    ∧ dest s' = dest s ∧ tk_p s' = tk_p s
    ∧ ((font_size b <? 3) || (col_alpha (font_color b) <? 10) = true →
       visible b = false ∧ tk_state s' = content_ignore)
    ∧ ((font_size b <? 3) || (col_alpha (font_color b) <? 10) = false →
       tk_state s' = if visible b then tk_state s else content_ignore).
Proof.
  intros Hload Himg Hlink Hblock Hclosing.
  unfold tag_end_semantic. rewrite Hload. simpl.
  rewrite Hclosing, Hblock. simpl.
  apply Z.eqb_neq in Himg, Hlink. rewrite Himg, Hlink. simpl.
  intros Hs.
  destruct (rspamd_html_process_block_tag _ tag _) as [[h1 hc1]|] eqn:Hb;
    simpl in Hs; [|done].
  apply process_block_tag_extra in Hb as (t1 & bl & Ht1 & Hextra).
  rewrite Ht1 in Hs. simpl in Hs. rewrite Hextra in Hs.
  destruct (rspamd_html_propagate_style h1 hc1 tag bl _)
    as [[h2 queue]|] eqn:Hp; simpl in Hs; [|done].
  apply propagate_style_complete in Hp as (Htags2 & b2 & Hb2 & [Hc1 Hc2]).
  destruct (update_block block_visibility bl h2) as [h3|] eqn:Hu;
    simpl in Hs; [|done].
  apply update_block_load in Hu as (b2' & Hb2' & Hb3 & Htags).
  rewrite Hb2 in Hb2'. injection Hb2' as <-.
  rewrite Hb3 in Hs. simpl in Hs.
  destruct (block_visibility_spec b2) as (Hfs & Hfc & Hvis).
  exists t1, bl, (block_visibility b2).
  assert (Hl3 : load_tag h3 tag = Some t1)
    by (unfold load_tag in *; congruence).
  assert (Hcomplete : style_complete (block_visibility b2)).
  { unfold style_complete. by rewrite Hfs, Hfc. }
  rewrite Hfs, Hfc.
  destruct (visible (block_visibility b2)) eqn:Hv; simpl in Hs;
    injection Hs as <-; simpl.
  - do 6 (split; [done|]). split; [|done].
    intros Hc. specialize (Hvis Hc). congruence.
  - do 6 (split; [done|]). split; done.
Qed.

(** The last handler of [tag_end] and the visible text: only the image
    handler appends, the text of an [alt] attribute. *)
Lemma tag_end_semantic_dest tag s s' :
  tag_end_semantic tag s = Some s' →
  tk_p s' = tk_p s
  ∧ ∃ alt, dest s' = dest s ++ alt
      ∧ ∀ t, tags (tk_heap s) !! tag = Some t → tag_id t ≠ Tag_IMG → alt = [].
Proof.
  unfold tag_end_semantic. intros Hp.
  destruct (load_tag (tk_heap s) tag) as [t|] eqn:Ht; simpl in Hp; [|done].
  destruct ((tag_id t =? Tag_IMG) && _) eqn:Himg.
  { apply andb_true_iff in Himg as [Himg _]. apply Z.eqb_eq in Himg.
    destruct (rspamd_html_process_img_tag _ _ _ _ _ _)
      as [[[[[h1 hc1] set1] pu1] d1]|] eqn:Hi; simpl in Hp; [|done].
    apply process_img_tag_walk in Hi as [Hd _]. injection Hp as <-. simpl.
    split; [done|].
    destruct d1 as [d1|]; simpl in *; [|done].
    destruct Hd as [alt ->]. exists alt. split; [done|].
    intros t0 Ht0 Hne. unfold load_tag in Ht. congruence. }
  split.
  - clear Himg. binds; done.
  - exists []. rewrite app_nil_r. split; [|done]. clear Himg. binds; done.
Qed.

Local Opaque tag_end_process_tag tag_end_seen tag_end_newlines tag_end_href
  tag_end_semantic.

(** The turn of [tag_end] on a token that carries a tag, handler by
    handler. *)
Lemma step_tag_end_handlers s s' tag :
  cur_tag s = Some tag → step_tag_end s = Some s' →
  ∃ s2 s3 t3 s4 s5 s6,
    tag_end_process_tag tag (set_savep None (set_substate 0 s)) = Some s2
    ∧ tag_end_seen tag s2 = Some s3
    ∧ load_tag (tk_heap s3) tag = Some t3
    ∧ tag_end_newlines (tag_id t3) s3 = Some s4
    ∧ tag_end_href tag s4 = Some s5
    ∧ tag_end_semantic tag s5 = Some s6
    ∧ s' = set_cur_tag None (set_tk_c (tk_p (advance s6)) (advance s6)).
Proof.
  unfold step_tag_end. intros Hct Hp.
  match type of Hp with
  | (?r ≫= _) = _ => destruct r as [s1|] eqn:Hs1
  end; simpl in Hp; [|done].
  injection Hp as <-.
  cbn [cur_tag set_savep set_substate] in Hs1. rewrite Hct in Hs1.
  destruct (tag_end_process_tag tag _) as [s2|] eqn:Hq2; simpl in Hs1; [|done].
  destruct (tag_end_seen tag s2) as [s3|] eqn:Hq3; simpl in Hs1; [|done].
  destruct (load_tag (tk_heap s3) tag) as [t3|] eqn:Ht3; simpl in Hs1; [|done].
  destruct (tag_end_newlines (tag_id t3) s3) as [s4|] eqn:Hq4; simpl in Hs1;
    [|done].
  destruct (tag_end_href tag s4) as [s5|] eqn:Hq5; simpl in Hs1; [|done].
  by exists s2, s3, t3, s4, s5, s1.
Qed.

(** The line break of the turn. *)
Lemma step_tag_end_line_break s s' tag t :
  cur_tag s = Some tag → load_tag (tk_heap s) tag = Some t →
  step_tag_end s = Some s' →
  ∃ alt,
    dest s'
    = (if breaks_line (tag_id t) && wants_newline (dest s)
       then dest s ++ [c_cr; c_nl] else dest s) ++ alt
    ∧ (tag_id t ≠ Tag_IMG → alt = []).
Proof.
  intros Hct Ht Hp.
  destruct (step_tag_end_handlers s s' tag Hct Hp)
    as (s2 & s3 & t3 & s4 & s5 & s6 & Hq2 & Hq3 & Ht3 & Hq4 & Hq5 & Hq6 & ->).
  apply tag_end_process_tag_quiet in Hq2 as (Hd2 & _ & Hg2).
  apply tag_end_seen_quiet in Hq3 as (Hd3 & _ & Hg3).
  pose proof (tag_end_newlines_grows _ _ _ Hq4) as [_ Hg4].
  apply tag_end_newlines_dest in Hq4.
  apply tag_end_href_quiet in Hq5 as (Hd5 & _ & Hg5).
  apply tag_end_semantic_dest in Hq6 as (_ & alt & Hd6 & Halt).
  simpl in Hd2, Hg2.
  unfold load_tag in Ht, Ht3.
  destruct (Hg2 tag t Ht) as (t2 & Ht2 & [Hi2 _]).
  destruct (Hg3 tag t2 Ht2) as (t3' & Ht3' & [Hi3 _]).
  rewrite Ht3 in Ht3'. injection Ht3' as <-.
  destruct (Hg4 tag t3 Ht3) as (t4 & Ht4 & [Hi4 _]).
  destruct (Hg5 tag t4 Ht4) as (t5 & Ht5 & [Hi5 _]).
  exists alt. simpl. split.
  - rewrite Hd6, Hd5, Hq4, Hd3, Hd2. by rewrite Hi3, Hi2.
  - intros Hne. apply (Halt t5 Ht5). congruence.
Qed.

(** The turn on an opening block tag. *)
Lemma step_tag_end_opening_block s s' tag t :
  Z.land handler_flags FL_CLOSING = 0 →
  cur_tag s = Some tag → load_tag (tk_heap s) tag = Some t →
  tag_id t ≠ Tag_IMG → tag_id t ≠ Tag_LINK →
  has_flag (tag_flags t) FL_BLOCK = true →
  has_flag (tag_flags t) FL_CLOSING = false →
  step_tag_end s = Some s' →
  ∃ t' bl b,
    load_tag (tk_heap s') tag = Some t'
    ∧ extra t' = Some (ExtraBlock bl)
    ∧ load_block (tk_heap s') bl = Some b
    ∧ style_complete b
    ∧ tk_p s' = tk_p s + 1
    ∧ ((font_size b <? 3) || (col_alpha (font_color b) <? 10) = true →
       visible b = false ∧ tk_state s' = content_ignore).
Proof.
  intros Hbits Hct Ht Himg Hlink Hblock Hclosing Hp.
  destruct (step_tag_end_handlers s s' tag Hct Hp)
    as (s2 & s3 & t3 & s4 & s5 & s6 & Hq2 & Hq3 & Ht3 & Hq4 & Hq5 & Hq6 & ->).
  apply tag_end_process_tag_quiet in Hq2 as (_ & Hp2 & Hg2).
  apply tag_end_seen_quiet in Hq3 as (_ & Hp3 & Hg3).
  apply tag_end_newlines_grows in Hq4 as [Hp4 Hg4].
  apply tag_end_href_quiet in Hq5 as (_ & Hp5 & Hg5).
  simpl in Hp2, Hg2. unfold load_tag in Ht.
  pose proof (tags_grow_trans _ _ _ Hg2
                (tags_grow_trans _ _ _ Hg3 (tags_grow_trans _ _ _ Hg4 Hg5)))
    as Hg.
  destruct (Hg tag t Ht) as (t5 & Ht5 & Hgrow).
  destruct (tag_end_semantic_opening_block tag s5 s6 t5)
    as (t' & bl & b & Hl & He & Hb & Hc & _ & Hp6 & Hv & _); try done.
  - destruct Hgrow as [-> _]. done.
  - destruct Hgrow as [-> _]. done.
  - by eapply tag_grows_set.
  - by eapply tag_grows_unset.
  - exists t', bl, b. simpl. do 4 (split; [done|]). split; [lia|done].
Qed.

(** In [content_ignore] the text up to the next [<] is skipped: nothing
    is emitted and the state stays. *)
Lemma content_ignore_run (k : nat) : ∀ s,
  tk_state s = content_ignore →
  (∀ i : nat, (i < k)%nat →
     ∃ c, peek input (tk_p s + Z.of_nat i) = Some c ∧ c ≠ c_lt) →
  ∃ s', tokenizer_turns input allow_css k s = Some s'
        ∧ dest s' = dest s ∧ tk_state s' = content_ignore
        ∧ tk_p s' = tk_p s + Z.of_nat k.
Proof.
  induction k as [|k IH]; intros s Hst Htext.
  - exists s. simpl. repeat split; try done. lia.
  - destruct (Htext 0%nat) as (c & Hc & Hne); [lia|].
    rewrite Z.add_0_r in Hc.
    cbn [tokenizer_turns].
    rewrite (content_ignore_skips input allow_css s c Hst Hc Hne). simpl.
    destruct (IH (advance s)) as (s' & Hrun & Hd & Hs & Hp); [done| |].
    + intros i Hi. destruct (Htext (S i)) as (c' & Hc' & Hne'); [lia|].
      exists c'. split; [|done]. simpl. rewrite <- Hc'. f_equal. lia.
    + exists s'. split; [done|]. split; [done|]. split; [done|].
      rewrite Hp. simpl. lia.
Qed.

End tag_end_step.



(** C7, amended: in the turn of [tag_end] on an opening block tag other
    than [img] and [link], the tokenizer gives the tag a block with a
    complete style, and if the style, after the propagation from the parent
    blocks, yields a font size below 3 or an alpha of the font color below
    10, the block is marked as not visible and the tokenizer goes to
    [content_ignore], where it emits nothing of the text that follows, up
    to the next tag (not up to the closing tag of the block); a
    [<p style="color:#ff0000;font-size:2px">] block that holds text only
    emits none of it.  The flag constants are those of a header that is not
    among the sources: that [FL_CLOSING] is none of the bits that the
    handlers set is a hypothesis. *)
Theorem invisible_block_suppresses_text :
  (∀ (tags_h : html_tags_h) (text_c : text_collaborators)
     (url_c : url_collaborators) (dbl : double_ops)
     (style_c : style_collaborators) (lex : lexer_collaborator)
     (input : bytes) (allow_css : bool) (s s' : Tokenizer.tokenizer)
     (tag : nat) (t : html_tag),
     Z.land handler_flags FL_CLOSING = 0 →
     Tokenizer.tk_state s = Tokenizer.tag_end →
     Tokenizer.cur_tag s = Some tag →
     load_tag (Tokenizer.tk_heap s) tag = Some t →
     has_flag (tag_flags t) FL_BLOCK = true →
     has_flag (tag_flags t) FL_CLOSING = false →
     tag_id t ≠ Tag_IMG → tag_id t ≠ Tag_LINK →
     Tokenizer.tokenizer_step input allow_css s = Some s' →
     ∃ t' bl b,
       load_tag (Tokenizer.tk_heap s') tag = Some t'
       ∧ extra t' = Some (ExtraBlock bl)
       ∧ load_block (Tokenizer.tk_heap s') bl = Some b
       ∧ style_complete b
       ∧ ((font_size b <? 3) || (col_alpha (font_color b) <? 10) = true →
          visible b = false
          ∧ Tokenizer.tk_state s' = Tokenizer.content_ignore
          ∧ ∀ k : nat,
              (∀ i : nat, (i < k)%nat →
                 ∃ c, peek input (Tokenizer.tk_p s' + Z.of_nat i) = Some c
                      ∧ c ≠ c_lt) →
              ∃ s'', tokenizer_turns input allow_css k s' = Some s''
                     ∧ Tokenizer.dest s'' = Tokenizer.dest s'
                     ∧ Tokenizer.tk_state s'' = Tokenizer.content_ignore
                     ∧ Tokenizer.tk_p s'' = Tokenizer.tk_p s' + Z.of_nat k))
  ∧ (Tokenizer.res_dest <$>
       Tokenizer.rspamd_html_process_part heap_empty hc_zero
         (bytes_of_string "<p style=" ++ [34]
          ++ bytes_of_string "color:#ff0000;font-size:2px" ++ [34]
          ++ bytes_of_string ">x</p>"))
    = Some [].
Proof.
  split.
  - intros tags_h text_c url_c dbl style_c lex input allow_css s s' tag t
      Hbits Hst Hct Ht Hblock Hclosing Himg Hlink Hstep.
    unfold Tokenizer.tokenizer_step in Hstep.
    destruct (peek input (Tokenizer.tk_p s)) as [c|]; simpl in Hstep; [|done].
    rewrite Hst in Hstep.
    destruct (step_tag_end_opening_block s s' tag t Hbits Hct Ht Himg Hlink
                Hblock Hclosing Hstep)
      as (t' & bl & b & Hl & He & Hb & Hc & _ & Hv).
    exists t', bl, b. do 4 (split; [done|]).
    intros Hlow. destruct (Hv Hlow) as [Hvis Hign].
    split; [done|]. split; [done|].
    intros k Htext. by apply content_ignore_run.
  - vm_compute. reflexivity.
Qed.

(** The turn of [tag_end] on the token [<div style="font-size:1px">]:
    after 29 turns the tokenizer is on its [>]; the turn gives the tag a
    block with the font size 1 that is not visible, and the next turn
    skips the [x]. *)
Lemma invisible_block_suppresses_text_witness :
  let input := bytes_of_string "<div style=" ++ [34]
               ++ bytes_of_string "font-size:1px" ++ [34]
               ++ bytes_of_string ">x</div>" in
  let init := Tokenizer.process_part_init heap_empty hc_zero None None None in
  let s := default init (tokenizer_turns input false 29 init) in
  let s' := default s (Tokenizer.tokenizer_step input false s) in
  tokenizer_turns input false 29 init = Some s
  ∧ Tokenizer.tokenizer_step input false s = Some s'
  ∧ Tokenizer.dest s = []
  ∧ ∃ t' bl b s'',
      load_tag (Tokenizer.tk_heap s') 0 = Some t'
      ∧ tag_id t' = Tag_DIV
      ∧ extra t' = Some (ExtraBlock bl)
      ∧ load_block (Tokenizer.tk_heap s') bl = Some b
      ∧ style_complete b
      ∧ font_size b = 1
      ∧ visible b = false
      ∧ Tokenizer.tk_state s' = Tokenizer.content_ignore
      ∧ peek input (Tokenizer.tk_p s') = Some 120
      ∧ tokenizer_turns input false 1 s' = Some s''
      ∧ Tokenizer.dest s'' = []
      ∧ Tokenizer.tk_state s'' = Tokenizer.content_ignore.
Proof.
  intros input init s s'.
  do 3 (split; [vm_compute; reflexivity|]).
  destruct (proj1 invisible_block_suppresses_text Scenario.tags_h
              Scenario.text Scenario.url Scenario.doubles Scenario.style
              Scenario.lexer input false s s' 0%nat
              (default tag_zero (tags (Tokenizer.tk_heap s) !! 0%nat)))
    as (t' & bl & b & Hl & He & Hb & Hc & Hlow).
  - vm_compute. reflexivity.
  - vm_compute. reflexivity.
  - vm_compute. reflexivity.
  - vm_compute. reflexivity.
  - vm_compute. reflexivity.
  - vm_compute. reflexivity.
  - vm_compute. discriminate.
  - vm_compute. discriminate.
  - vm_compute. reflexivity.
  - assert (Ht' : tag_id t' = Tag_DIV ∧ bl = 0%nat).
    { vm_compute in Hl. injection Hl as <-. vm_compute in He.
      injection He as <-. split; reflexivity. }
    destruct Ht' as [Hid ->].
    assert (Hfs : font_size b = 1).
    { vm_compute in Hb. injection Hb as <-. reflexivity. }
    destruct Hlow as (Hvis & Hign & Hrun).
    { rewrite Hfs. reflexivity. }
    destruct (Hrun 1%nat) as (s'' & Hturn & Hd & Hs'' & _).
    { intros i Hi. assert (i = 0%nat) as -> by lia. exists 120.
      split; [vm_compute; reflexivity|discriminate]. }
    exists t', 0%nat, b, s''. do 8 (split; [done|]).
    split; [vm_compute; reflexivity|]. split; [exact Hturn|].
    split; [|exact Hs'']. rewrite Hd. vm_compute. reflexivity.
Defined.

(** * Further properties *)

Section tree_extras.
Context `{html_tags_h}.

Local Opaque g_node_append rspamd_html_check_balance update_tag.

(** An unknown tag gets no node. *)
Lemma process_tag_unknown h hc tag t cl bal :
  is_Some (html_tags hc) → tags h !! tag = Some t → tag_id t = -1 →
  ∃ hc', rspamd_html_process_tag h hc tag cl bal = Some (h, hc', cl, bal, false)
         ∧ total_tags hc' = guint_incr (total_tags hc)
         ∧ html_tags hc' = html_tags hc.
Proof.
  intros [root Hr] Htag Hid. unfold rspamd_html_process_tag. rewrite Hr.
  unfold load_tag. rewrite Htag. simpl. rewrite Hid. simpl.
  eexists. split; [reflexivity|]. simpl.
  by destruct (max_tags <? total_tags hc).
Qed.

(** An inline or empty tag met at the root gets no node. *)
Lemma process_tag_inline_at_root h hc tag t c cn bal :
  is_Some (html_tags hc) → tags h !! tag = Some t → tag_id t ≠ -1 →
  has_flag (tag_flags t) (Z.lor CM_INLINE CM_EMPTY) = true →
  nodes h !! c = Some (Some cn) → data cn = None →
  ∃ hc', rspamd_html_process_tag h hc tag (Some c) bal
         = Some (set_tags (<[tag := set_tag_parent (Some c) t]> (tags h)) h,
                 hc', Some c, bal, true)
         ∧ total_tags hc' = total_tags hc
         ∧ html_tags hc' = html_tags hc.
Proof.
  intros [root Hr] Htag Hid Hinl Hc Hd. unfold rspamd_html_process_tag.
  rewrite Hr. unfold load_tag. rewrite Htag. simpl.
  rewrite (proj2 (Z.eqb_neq (tag_id t) (-1))) by done.
  rewrite (update_tag_eq _ _ _ _ Htag). simpl.
  rewrite list_lookup_insert_eq by (by eapply lookup_lt_Some). simpl.
  rewrite Hinl. simpl. unfold load_node. simpl. rewrite Hc. simpl. rewrite Hd.
  eexists. split; [reflexivity|]. by destruct (max_tags <? total_tags hc).
Qed.

(** A block tag that is closed in place ([FL_CLOSED] without
    [FL_CLOSING]) becomes a leaf below the current level. *)
Lemma process_tag_closed_in_place h hc tag t c cn bal :
  is_Some (html_tags hc) → tags h !! tag = Some t → tag_id t ≠ -1 →
  has_flag (tag_flags t) (Z.lor CM_INLINE CM_EMPTY) = false →
  has_flag (tag_flags t) FL_CLOSED = true →
  has_flag (tag_flags t) FL_CLOSING = false →
  nodes h !! c = Some (Some cn) →
  total_tags hc < max_tags →
  rspamd_html_process_tag h hc tag (Some c) bal
  = Some (set_nodes (add_child (nodes h) c cn (Some tag))
            (set_tags (<[tag := set_tag_parent (Some c) t]> (tags h)) h),
          incr_total_tags hc, Some c, true, true).
Proof.
  intros [root Hr] Htag Hid Hbl Hclosed Hclosing Hc Hlt.
  unfold rspamd_html_process_tag. rewrite Hr.
  rewrite (proj2 (Z.ltb_ge max_tags (total_tags hc))) by lia.
  unfold load_tag. rewrite Htag. simpl.
  rewrite (proj2 (Z.eqb_neq (tag_id t) (-1))) by done.
  rewrite (update_tag_eq _ _ _ _ Htag). simpl.
  rewrite list_lookup_insert_eq by (by eapply lookup_lt_Some). simpl.
  rewrite Hbl. simpl.
  assert (Hcc : has_flag (tag_flags t) (Z.lor FL_CLOSING FL_CLOSED) = true).
  { rewrite Z.lor_comm. by apply has_flag_lor_mask. }
  rewrite Hcc. rewrite (proj2 (Z.ltb_lt (total_tags hc) max_tags)) by done.
  unfold g_node_new. simpl.
  pose proof (g_node_new_append
                (set_tags (<[tag := set_tag_parent (Some c) t]> (tags h)) h)
                c cn (Some tag) Hc) as Happ.
  simpl in Happ. rewrite Happ. simpl.
  rewrite (check_balance_not_closing _ (length (nodes h)) (leaf (Some tag) c)
             tag (set_tag_parent (Some c) t)); try done.
  - simpl. apply add_child_new.
  - simpl. rewrite list_lookup_insert_eq; [done|]. by eapply lookup_lt_Some.
Qed.

End tree_extras.

Section url_encode_properties.
Context `{html_tags_h} `{url_collaborators}.

Lemma isspace_needs_encoding b : g_ascii_isspace b = true → needs_encoding b = true.
Proof.
  unfold g_ascii_isspace, needs_encoding, g_ascii_isgraph. intros Hs.
  apply orb_true_iff in Hs as [Hs|Hs].
  - apply Z.eqb_eq in Hs as ->. done.
  - apply andb_true_iff in Hs as [H1 H2].
    apply Z.leb_le in H1, H2.
    rewrite (proj2 (Z.ltb_lt b 128)) by lia.
    rewrite (proj2 (Z.leb_gt 33 b)) by lia. done.
Qed.

Lemma hexdigest_graphic n :
  needs_encoding (default 0 (hexdigests !! Z.to_nat (Z.land n 15))) = false.
Proof.
  assert (Hr : 0 ≤ Z.land n 15 < 16).
  { change 15 with (Z.ones 4). rewrite Z.land_ones by lia.
    apply Z.mod_pos_bound. lia. }
  assert (Hc : ∀ k, (k < 16)%nat →
                needs_encoding (default 0 (hexdigests !! k)) = false).
  { intros k Hk. do 16 (destruct k as [|k]; [done|]). lia. }
  apply Hc. lia.
Qed.

Lemma url_encode_safe s :
  Forall (λ b, needs_encoding b = false) (url_encode s).1.
Proof.
  induction s as [|b r IH]; simpl; [constructor|].
  destruct (url_encode r) as [d bad]. simpl in IH.
  destruct (g_ascii_isspace b) eqn:Hsp; [done|].
  fold (needs_encoding b).
  destruct (needs_encoding b) eqn:Hne; simpl.
  - repeat constructor; [apply hexdigest_graphic..|done].
  - by constructor.
Qed.

Lemma url_encode_no_space s :
  Forall (λ b, g_ascii_isspace b = false) (url_encode s).1.
Proof.
  eapply Forall_impl; [apply url_encode_safe|]. simpl. intros b Hb.
  destruct (g_ascii_isspace b) eqn:Hs; [|done].
  apply isspace_needs_encoding in Hs. congruence.
Qed.

Lemma url_encode_clean s :
  Forall (λ b, needs_encoding b = false) s → url_encode s = (s, false).
Proof.
  induction 1 as [|b r Hb Hr IH]; simpl; [done|].
  rewrite IH. fold (needs_encoding b). rewrite Hb.
  destruct (g_ascii_isspace b) eqn:Hs; [|done].
  apply isspace_needs_encoding in Hs. congruence.
Qed.

Lemma url_encode_idempotent s :
  url_encode (url_encode s).1 = ((url_encode s).1, false).
Proof. apply url_encode_clean, url_encode_safe. Qed.

Lemma url_encode_bad s :
  (url_encode s).2 = true
  ↔ Exists (λ b, g_ascii_isspace b = false ∧ needs_encoding b = true) s.
Proof.
  induction s as [|b r IH]; simpl.
  - split; [done|]. by intros ?%Exists_nil.
  - destruct (url_encode r) as [d bad]. simpl in IH.
    rewrite Exists_cons. fold (needs_encoding b).
    destruct (g_ascii_isspace b) eqn:Hs; simpl.
    + rewrite IH. split; [by right|]. intros [[? _]|?]; done.
    + destruct (needs_encoding b) eqn:Hne; simpl.
      * split; [by left|done].
      * rewrite IH. split; [by right|]. intros [[_ ?]|?]; done.
Qed.

Lemma url_encode_size s : blen (url_encode s).1 ≤ url_encoded_size s.
Proof.
  unfold blen. induction s as [|b r IH]; [done|].
  cbn [url_encode url_encoded_size foldr].
  fold (url_encoded_size r).
  destruct (url_encode r) as [d bad]. cbn [fst] in IH.
  fold (needs_encoding b).
  destruct (g_ascii_isspace b) eqn:Hs.
  - cbn [fst]. destruct (needs_encoding b); lia.
  - destruct (needs_encoding b); cbn [fst length]; lia.
Qed.

Lemma url_buffer_holds s prefix no_prefix n :
  url_prefix_scan s = Some (prefix, no_prefix) →
  url_buffer_size s = Some n →
  blen ((if no_prefix then prefix else []) ++ (url_encode s).1) + 1 ≤ n.
Proof.
  unfold url_buffer_size. intros -> [= <-]. simpl.
  pose proof (url_encode_size s). unfold blen in *.
  rewrite length_app. destruct no_prefix; simpl; lia.
Qed.

End url_encode_properties.

Section url_rejects.
Context `{html_tags_h} `{url_collaborators}.

Lemma process_url_no_valid_data h start comp b0 rest :
  strip_tail (strip_head start) = b0 :: rest →
  rspamd_substring_search (b0 :: rest) (bytes_of_string "://") = -1 →
  b0 < 128 → g_ascii_isalnum b0 = false → b0 ≠ c_at →
  (b0 = c_slash → rest !! 0%nat ≠ Some c_slash) →
  rspamd_html_process_url h start comp
  = (h, None,
     (λ c, {| comp_type := comp_type c; comp_val := b0 :: rest |}) <$> comp).
Proof.
  intros Hs Hsearch Hlt Hal Hat Hslash.
  unfold rspamd_html_process_url. rewrite Hs.
  assert (Hscan : url_prefix_scan (b0 :: rest) = None); [|by rewrite Hscan].
  unfold url_prefix_scan. rewrite Hsearch. simpl (-1 =? -1).
  cbv iota.
  assert (Hex : starts_with "mailto:" (b0 :: rest)
                || starts_with "tel:" (b0 :: rest)
                || starts_with "callto:" (b0 :: rest) = false).
  { apply orb_false_iff. split; [apply orb_false_iff; split|];
      apply not_true_is_false; intros Hst;
      unfold starts_with in Hst; apply bool_decide_eq_true in Hst;
      simpl in Hst; injection Hst as Hb _; rewrite Hb in Hal;
      vm_compute in Hal; discriminate. }
  rewrite Hex, andb_false_r.
  assert (Hfind : list_find (λ b, ¬ (128 ≤ b ∨ g_ascii_isalnum b = true))
                    (b0 :: rest) = Some (0%nat, b0)).
  { apply list_find_Some. split; [done|]. split; [|intros j y _ Hj; lia].
    intros [?|?]; [lia|congruence]. }
  rewrite Hfind. simpl.
  rewrite (proj2 (Z.eqb_neq b0 c_at)) by done. rewrite andb_false_r.
  destruct (b0 =? c_slash) eqn:Hsl.
  - apply Z.eqb_eq in Hsl. specialize (Hslash Hsl).
    by rewrite (bool_decide_eq_false_2 _ Hslash), andb_false_r.
  - by rewrite andb_false_r.
Qed.

End url_rejects.

Section color_properties.
Context `{html_tags_h} `{text_collaborators} `{url_collaborators}
        `{double_ops} `{style_collaborators}.

Lemma land_255 v : 0 ≤ Z.land v 255 < 256.
Proof.
  change 255 with (Z.ones 8). rewrite Z.land_ones by lia.
  apply Z.mod_pos_bound. lia.
Qed.

Lemma color_set_val_in_range v c a :
  0 ≤ a < 256 → color_in_range (color_set_alpha a (color_set_val v c)).
Proof.
  intros Ha. unfold color_in_range. simpl.
  pose proof (land_255 v). pose proof (land_255 (Z.shiftr v 8)).
  pose proof (land_255 (Z.shiftr v 16)). lia.
Qed.

Lemma process_color_Some line :
  line ≠ [] → is_Some (rspamd_html_process_color line).
Proof.
  intros Hne. unfold rspamd_html_process_color.
  destruct line as [|b0 r]; [done|]. simpl.
  repeat case_match; eauto.
Qed.

Lemma process_color_in_range line c :
  rspamd_html_process_color line = Some c → color_in_range c.
Proof.
  unfold rspamd_html_process_color. intros Hc.
  destruct (line !! 0%nat) as [b0|]; simpl in Hc; [|done].
  destruct (b0 =? c_hash).
  { injection Hc as <-. apply (color_set_val_in_range _ color_zero 255). lia. }
  destruct (_ && _).
  - destruct (rgb_valid _); injection Hc as <-.
    + unfold color_in_range. simpl.
      repeat split; apply Z.mod_pos_bound; lia.
    + unfold color_in_range. simpl. lia.
  - destruct (maybe_color_from_string line); injection Hc as <-.
    + apply (color_set_val_in_range _ color_zero 255). lia.
    + unfold color_in_range. simpl. lia.
Qed.

Lemma process_color_hex rest :
  rspamd_html_process_color (c_hash :: rest)
  = Some (color_set_valid true
            (color_set_alpha 255
               (color_set_val
                  (strtoul_hex (rspamd_strlcpy rest (Z.min 7 (blen rest + 1)))
                   mod guint_max) color_zero))).
Proof. done. Qed.

Lemma process_color_named line b0 c :
  line !! 0%nat = Some b0 → b0 ≠ c_hash →
  rspamd_lc_cmp_eq "rgb" line = false →
  rspamd_html_process_color line = Some c →
  col_valid c = false.
Proof.
  unfold rspamd_html_process_color. intros Hb Hh Hrgb Hc.
  rewrite Hb in Hc. simpl in Hc.
  rewrite (proj2 (Z.eqb_neq b0 c_hash)) in Hc by done.
  rewrite Hrgb, andb_false_r in Hc.
  destruct (maybe_color_from_string line); by injection Hc as <-.
Qed.

Lemma process_color_valid_alpha line c :
  rspamd_html_process_color line = Some c → col_valid c = true →
  (∃ rest, line = c_hash :: rest ∧ col_alpha c = 255)
  ∨ rspamd_lc_cmp_eq "rgb" line = true.
Proof.
  unfold rspamd_html_process_color. intros Hc Hv.
  destruct line as [|b0 r]; [done|]. simpl in Hc.
  destruct (b0 =? c_hash) eqn:Hh.
  { apply Z.eqb_eq in Hh as ->. injection Hc as <-. left. by exists r. }
  destruct (rspamd_lc_cmp_eq "rgb" (b0 :: r)); [by right|].
  rewrite andb_false_r in Hc.
  destruct (maybe_color_from_string _); injection Hc as <-; done.
Qed.

End color_properties.

Section style_properties.
Context `{html_tags_h} `{text_collaborators} `{url_collaborators}
        `{double_ops} `{style_collaborators}.

Lemma slice_value_start style c p x :
  peek style c = Some x → 0 < p - c →
  ∃ r, slice style c p = x :: r.
Proof.
  unfold peek, slice. intros Hx Hp.
  destruct (c <? 0) eqn:Hc; [done|].
  apply lookup_lt_is_Some_2 in Hx as Hlt || pose proof (lookup_lt_Some _ _ _ Hx) as Hlt.
  rewrite (drop_S _ _ _ Hx).
  destruct (Z.to_nat (p - c)) as [|n] eqn:Hn; [lia|].
  simpl. eauto.
Qed.

Lemma process_color_is_Some b r : is_Some (rspamd_html_process_color (b :: r)).
Proof.
  unfold rspamd_html_process_color. simpl. repeat case_match; eauto.
Qed.

Lemma process_font_size_is_Some b r css :
  g_ascii_isspace b = false →
  is_Some (rspamd_html_process_font_size (b :: r) css).
Proof.
  intros Hb. unfold rspamd_html_process_font_size. simpl strip_head.
  rewrite Hb. simpl. repeat case_match; eauto.
Qed.

Lemma style_pair_is_Some key b r bl :
  g_ascii_isspace b = false → is_Some (style_pair key (b :: r) bl).
Proof.
  intros Hb. unfold style_pair.
  destruct (process_color_is_Some b r) as [cl Hcl].
  destruct (process_font_size_is_Some b r true Hb) as [fs Hfs].
  rewrite Hcl, Hfs. simpl. repeat case_match; eauto.
Qed.

Lemma style_loop_is_Some fuel style : ∀ p c state next_state key klen bl,
  (state = read_value → value_start style c) →
  is_Some (style_loop fuel style p c state next_state key klen bl).
Proof.
  induction fuel as [|f IH]; intros p c state next_state key klen bl Hinv;
    simpl; [eauto|].
  destruct (blen style <? p); [eauto|].
  destruct state.
  - repeat case_match; apply IH; done.
  - repeat case_match; apply IH; done.
  - destruct (_ || _).
    + assert (Hpair : is_Some
        (match key with
         | Some k =>
             if negb (klen =? 0) && (0 <? p - c)
             then style_pair (slice style k (k + klen)) (slice style c p) bl
             else Some bl
         | None => Some bl
         end)).
      { destruct key as [k|]; [|eauto].
        destruct (negb (klen =? 0) && (0 <? p - c)) eqn:Hc; [|eauto].
        apply andb_true_iff in Hc as [_ Hc]. apply Z.ltb_lt in Hc.
        destruct (Hinv eq_refl) as (x & Hx & Hsp).
        destruct (slice_value_start style c p x Hx Hc) as [r ->].
        by apply style_pair_is_Some. }
      destruct Hpair as [bl' ->]. simpl. apply IH. done.
    + apply IH. done.
  - destruct (_ && _) eqn:Hc.
    + apply IH. intros ->.
      apply andb_true_iff in Hc as [_ Hc]. apply negb_true_iff in Hc.
      destruct (peek style p) as [x|] eqn:Hx; [|done]. by exists x.
    + apply IH. done.
Qed.

Lemma style_loop_fuel fuel1 style : ∀ fuel2 p c state next_state key klen bl,
  next_state ≠ ss_skip_spaces →
  (style_turns style p state ≤ fuel1)%nat →
  (style_turns style p state ≤ fuel2)%nat →
  style_loop fuel1 style p c state next_state key klen bl
  = style_loop fuel2 style p c state next_state key klen bl.
Proof.
  induction fuel1 as [|f1 IH];
    intros fuel2 p c state next_state key klen bl Hns Hf1 Hf2.
  - unfold style_turns in *.
    destruct (blen style <? p) eqn:Hp.
    + destruct fuel2; simpl; [done|]. by rewrite Hp.
    + apply Z.ltb_ge in Hp. destruct state; lia.
  - destruct fuel2 as [|f2].
    + unfold style_turns in *.
      destruct (blen style <? p) eqn:Hp.
      * simpl. by rewrite Hp.
      * apply Z.ltb_ge in Hp. destruct state; lia.
    + simpl. destruct (blen style <? p) eqn:Hp; [done|].
      apply Z.ltb_ge in Hp.
      assert (Hnext : ∀ st, (style_turns style (p + 1) st ≤ f1)%nat
                            ∧ (style_turns style (p + 1) st ≤ f2)%nat).
      { intros st. unfold style_turns in *.
        rewrite (proj2 (Z.ltb_ge (blen style) p)) in Hf1, Hf2 by done.
        destruct (blen style <? p + 1) eqn:Hp1; [lia|].
        apply Z.ltb_ge in Hp1. destruct state, st; lia. }
      destruct state.
      * repeat case_match; apply IH; done || apply Hnext.
      * repeat case_match; apply IH; done || apply Hnext.
      * destruct (_ || _); [|apply IH; done || apply Hnext].
        destruct (match key with Some _ => _ | None => _ end); simpl; [|done].
        apply IH; done || apply Hnext.
      * destruct (_ && _); [|apply IH; done || apply Hnext].
        assert (Hstay : (style_turns style p next_state ≤ f1)%nat
                        ∧ (style_turns style p next_state ≤ f2)%nat).
        { unfold style_turns in *.
          rewrite (proj2 (Z.ltb_ge (blen style) p)) in Hf1, Hf2 by done.
          rewrite (proj2 (Z.ltb_ge (blen style) p)) by done.
          destruct next_state; done || lia. }
        apply IH; done || apply Hstay.
Qed.

Lemma process_style_total bl style :
  is_Some (rspamd_html_process_style bl style).
Proof. apply style_loop_is_Some. done. Qed.

Lemma process_style_fuel bl style (n : nat) :
  style_loop (2 * length style + 3 + n) style 0 0 ss_skip_spaces read_key
    None 0 bl
  = rspamd_html_process_style bl style.
Proof.
  apply style_loop_fuel; [done|..]; unfold style_turns, blen; simpl;
    destruct (Z.of_nat (length style) <? 0) eqn:Hp; lia.
Qed.

(** A style never makes a block visible. *)
Lemma style_pair_visible key val bl bl' :
  style_pair key val bl = Some bl' → visible bl = false → visible bl' = false.
Proof.
  unfold style_pair. intros Hp Hv.
  repeat case_match; simplify_option_eq; done.
Qed.

Lemma style_loop_visible fuel style : ∀ p c state next_state key klen bl bl',
  style_loop fuel style p c state next_state key klen bl = Some bl' →
  visible bl = false → visible bl' = false.
Proof.
  induction fuel as [|f IH]; intros p c state next_state key klen bl bl' Hl Hv;
    simpl in Hl; [by injection Hl as <-|].
  destruct (blen style <? p); [by injection Hl as <-|].
  destruct state.
  - repeat case_match; eapply IH; eauto.
  - repeat case_match; eapply IH; eauto.
  - destruct (_ || _); [|eapply IH; eauto].
    destruct (match key with Some _ => _ | None => _ end) as [bl1|] eqn:Hpair;
      simpl in Hl; [|done].
    eapply IH; [exact Hl|].
    destruct key as [k|]; [|by injection Hpair as <-].
    destruct (negb (klen =? 0) && (0 <? p - c)); [|by injection Hpair as <-].
    by eapply style_pair_visible.
  - repeat case_match; eapply IH; eauto.
Qed.

(** Without a colon no declaration is complete. *)
Lemma style_loop_no_colon fuel style : ∀ p c state next_state key klen bl,
  c_colon ∉ style → 0 ≤ p →
  (state = read_value ∨ (state = ss_skip_spaces ∧ next_state = read_value) →
   blen style < p) →
  style_loop fuel style p c state next_state key klen bl = Some bl.
Proof.
  induction fuel as [|f IH]; intros p c state next_state key klen bl Hno Hp0 Hinv;
    simpl; [done|].
  destruct (blen style <? p) eqn:Hp; [done|]. apply Z.ltb_ge in Hp.
  assert (Hcol : bool_decide (peek style p = Some c_colon) = false).
  { apply bool_decide_eq_false_2. unfold peek.
    destruct (p <? 0); [done|]. intros Hx. apply Hno.
    by eapply list_elem_of_lookup_2. }
  rewrite Hcol.
  destruct state.
  - destruct (p =? blen style) eqn:He; simpl.
    + apply Z.eqb_eq in He. apply IH; [done|lia|]. intros _. lia.
    + destruct (from_option g_ascii_isspace false (peek style p));
        apply IH; try done; try lia; intros [?|[? ?]]; done.
  - destruct (p =? blen style) eqn:He; simpl.
    + apply Z.eqb_eq in He. apply IH; [done|lia|]. intros _. lia.
    + apply IH; try done; try lia. intros [?|[? ?]]; done.
  - specialize (Hinv (or_introl eq_refl)). lia.
  - destruct (_ && _).
    + apply IH; try done. intros [Hn|[_ Hn]]; apply Hinv; by right.
    + apply IH; try done; try lia. intros [?|[_ Hn]]; [done|].
      assert (blen style < p); [|lia]. apply Hinv. by right.
Qed.

Lemma process_style_no_colon bl style :
  c_colon ∉ style → rspamd_html_process_style bl style = Some bl.
Proof.
  intros Hno. apply style_loop_no_colon; [done|lia|].
  intros [?|[_ ?]]; done.
Qed.

End style_properties.

Section block_properties.
Context `{html_tags_h} `{text_collaborators} `{url_collaborators}
        `{double_ops} `{style_collaborators}.

Lemma propagate_style_block_keeps hc parent b :
  let b' := (propagate_style_block hc parent b).1 in
  style_complete b'
  ∧ (col_valid (bgcolor hc) = true → col_valid (background_color b') = true)
  ∧ (col_valid (font_color b) = true → font_color b' = font_color b)
  ∧ (col_valid (background_color b) = true
     → background_color b' = background_color b)
  ∧ (font_size b ≠ font_size_unset → font_size b' = font_size b)
  ∧ visible b' = visible b ∧ bl_tag b' = bl_tag b.
Proof.
  unfold propagate_style_block, style_complete.
  destruct parent as [bp|]; simpl;
    repeat (case_match; simpl in * ); simplify_eq; simpl in *;
    repeat match goal with
           | Hx : negb _ = true |- _ => apply negb_true_iff in Hx
           | Hx : negb _ = false |- _ => apply negb_false_iff in Hx
           | Hx : (_ =? _) = true |- _ => apply Z.eqb_eq in Hx
           | Hx : (_ =? _) = false |- _ => apply Z.eqb_neq in Hx
           end;
    repeat split; try done; try congruence;
    unfold font_size_unset, guint_max in *; try lia.
Qed.

Lemma propagate_style_block_pushed hc bp b :
  col_valid (font_color bp) = true →
  (propagate_style_block hc (Some bp) b).2 = true.
Proof.
  unfold propagate_style_block. intros Hv. simpl.
  repeat (case_match; simpl in * ); simplify_eq; simpl in *;
    rewrite ?orb_true_r; try done;
    repeat match goal with
           | Hx : negb _ = true |- _ => apply negb_true_iff in Hx
           | Hx : negb _ = false |- _ => apply negb_false_iff in Hx
           end; congruence.
Qed.

End block_properties.

Section block_heap_properties.
Context `{html_tags_h} `{text_collaborators} `{url_collaborators}
        `{double_ops} `{style_collaborators}.

Lemma propagate_style_queue h hc tag bl queue h' queue' :
  rspamd_html_propagate_style h hc tag bl queue = Some (h', queue') →
  queue_complete h queue →
  queue_complete h' queue'
  ∧ (∃ b', blocks h' !! bl = Some b' ∧ style_complete b')
  ∧ (queue' = queue ∨ queue' = queue ++ [bl])
  ∧ tags h' = tags h ∧ nodes h' = nodes h.
Proof.
  unfold rspamd_html_propagate_style, load_block, load_tag, update_block.
  intros Hp Hq.
  destruct (match last queue with Some q => _ | None => _ end)
    as [parent|] eqn:Hparent; simpl in Hp; [|done].
  destruct (blocks h !! bl) as [b|] eqn:Hb; simpl in Hp; [|done].
  pose proof (propagate_style_block_keeps hc parent b) as (Hc & _).
  destruct (propagate_style_block hc parent b) as [b' push] eqn:Hpb.
  simpl in Hc. simpl in Hp.
  destruct (tags h !! tag) as [t|]; simpl in Hp; [|done].
  assert (Hbl : <[bl := b']> (blocks h) !! bl = Some b').
  { apply list_lookup_insert_eq. by eapply lookup_lt_Some. }
  assert (Hq' : queue_complete (set_blocks (<[bl := b']> (blocks h)) h) queue).
  { eapply Forall_impl; [exact Hq|]. simpl. intros q (bq & Hbq & Hcq).
    destruct (decide (q = bl)) as [->|Hne].
    - by exists b'.
    - exists bq. by rewrite list_lookup_insert_ne. }
  destruct (push && _); injection Hp as <- <-; simpl.
  - split; [|split; [by exists b'|split; [by right|done]]].
    apply Forall_app. split; [done|]. apply Forall_singleton. by exists b'.
  - split; [done|]. split; [by exists b'|]. split; [by left|done].
Qed.

Lemma children_length_cons h c cs n :
  children_length h (c :: cs) = Some n →
  ∃ m cn cp ct, children_length h cs = Some m
    ∧ nodes h !! c = Some (Some cn) ∧ data cn = Some cp
    ∧ tags h !! cp = Some ct ∧ n = content_length ct + m.
Proof.
  intros Hn. unfold children_length in Hn. cbn [foldr] in Hn.
  change (foldr _ _ cs) with (children_length h cs) in Hn.
  unfold load_node, load_tag in Hn.
  destruct (children_length h cs) as [m|]; simpl in Hn; [|done].
  destruct (nodes h !! c) as [[cn|]|] eqn:Hc; simpl in Hn; try done.
  destruct (data cn) as [cp|] eqn:Hd; simpl in Hn; [|done].
  destruct (tags h !! cp) as [ct|] eqn:Hct; simpl in Hn; [|done].
  injection Hn as <-. by exists m, cn, cp, ct.
Qed.

Lemma add_children_lengths_sum cs : ∀ tp h t n,
  tags h !! tp = Some t →
  0 ≤ content_length t < guint_max →
  children_length h cs = Some n →
  Forall (λ c, ∀ cn, nodes h !! c = Some (Some cn) → data cn ≠ Some tp) cs →
  ∃ h' t', add_children_lengths cs tp h = Some h'
    ∧ nodes h' = nodes h
    ∧ (∀ p, p ≠ tp → tags h' !! p = tags h !! p)
    ∧ tags h' !! tp = Some t'
    ∧ content_length t' = (content_length t + n) mod guint_max.
Proof.
  induction cs as [|c cs IH]; intros tp h t n Ht Hr Hn Hne.
  - injection Hn as <-. exists h, t. simpl. repeat split; try done.
    rewrite Z.add_0_r, Z.mod_small; done.
  - apply children_length_cons in Hn as (m & cn & cp & ct & Hm & Hc & Hd & Hct & ->).
    apply Forall_cons in Hne as [Hne1 Hne2].
    simpl. unfold load_node, load_tag. rewrite Hc. simpl. rewrite Hd. simpl.
    rewrite Hct. simpl. unfold update_tag. rewrite Ht. simpl.
    set (t1 := set_content_length
                 ((content_length t + content_length ct) mod guint_max) t).
    set (h1 := set_tags (<[tp := t1]> (tags h)) h).
    assert (Ht1 : tags h1 !! tp = Some t1).
    { simpl. apply list_lookup_insert_eq. by eapply lookup_lt_Some. }
    assert (Hother : ∀ p, p ≠ tp → tags h1 !! p = tags h !! p).
    { intros p Hp. simpl. by apply list_lookup_insert_ne. }
    assert (Hm1 : children_length h1 cs = Some m).
    { clear IH Hc Hne1. revert m Hm Hne2.
      induction cs as [|c' cs' IH']; intros m Hm Hne2; [done|].
      apply children_length_cons in Hm
        as (m' & cn' & cp' & ct' & Hm' & Hc' & Hd' & Hct' & ->).
      apply Forall_cons in Hne2 as [Hn1 Hn2].
      unfold children_length. simpl. fold (children_length h1 cs').
      rewrite (IH' m' Hm' Hn2). simpl. unfold load_node, load_tag.
      change (nodes h1) with (nodes h). rewrite Hc'. simpl. rewrite Hd'. simpl.
      rewrite Hother, Hct'; [done|]. intros ->. by apply (Hn1 cn'). }
    destruct (IH tp h1 t1 m Ht1) as (h' & t' & Hrun & Hnodes & Htags & Ht' & Hlen).
    + simpl. apply Z.mod_pos_bound. unfold guint_max. lia.
    + done.
    + done.
    + exists h', t'. split; [done|]. split; [done|].
      split; [|split; [done|]].
      * intros p Hp. by rewrite Htags, Hother.
      * rewrite Hlen. simpl. rewrite Zplus_mod_idemp_l. f_equal. lia.
Qed.

Lemma propagate_lengths_sum h node nd tp t n :
  nodes h !! node = Some (Some nd) → data nd = Some tp →
  tags h !! tp = Some t →
  0 ≤ content_length t < guint_max →
  children_length h (children nd) = Some n →
  Forall (λ c, ∀ cn, nodes h !! c = Some (Some cn) → data cn ≠ Some tp)
         (children nd) →
  ∃ h' t', rspamd_html_propagate_lengths h node = Some h'
    ∧ nodes h' = nodes h
    ∧ (∀ p, p ≠ tp → tags h' !! p = tags h !! p)
    ∧ tags h' !! tp = Some t'
    ∧ content_length t' = (content_length t + n) mod guint_max.
Proof.
  intros Hn Hd Ht Hr Hsum Hne. unfold rspamd_html_propagate_lengths, load_node.
  rewrite Hn. simpl. rewrite Hd. by apply add_children_lengths_sum.
Qed.

End block_heap_properties.

Section img_dest.
Context `{html_tags_h} `{text_collaborators} `{url_collaborators}
        `{double_ops} `{style_collaborators}.

Lemma img_external_dest src w w' :
  img_external src w = Some w' → iw_dest w' = iw_dest w.
Proof.
  unfold img_external. intros Hp.
  destruct (rspamd_html_process_url _ _ _) as [[h1 url] c1].
  destruct url as [p|]; [|by injection Hp as <-].
  binds; done.
Qed.

Local Opaque img_external.

Lemma img_component_dest comp w w' :
  img_component comp w = Some w' → dest_grows (iw_dest w) (iw_dest w').
Proof.
  unfold img_component. intros Hp.
  destruct (comp_type comp);
    try (injection Hp as <-; apply dest_grows_refl).
  - destruct (0 <? blen (comp_val comp)); [|injection Hp as <-; apply dest_grows_refl].
    destruct (_ && _); [injection Hp as <-; apply dest_grows_refl|].
    destruct (_ && _); [injection Hp as <-; apply dest_grows_refl|].
    apply img_external_dest in Hp. simpl in Hp. rewrite Hp. apply dest_grows_refl.
  - repeat case_match; injection Hp as <-; apply dest_grows_refl.
  - destruct (iw_dest w) as [d|] eqn:Hd;
      [|injection Hp as <-; rewrite Hd; done].
    destruct (0 <? blen (comp_val comp));
      [|injection Hp as <-; rewrite Hd; simpl; reflexivity].
    injection Hp as <-. simpl.
    repeat case_match; rewrite <- ?app_assoc; by apply prefix_app_r.
Qed.

Lemma img_components_dest comps : ∀ w w',
  img_components comps w = Some w' → dest_grows (iw_dest w) (iw_dest w').
Proof.
  induction comps as [|comp rest IH]; intros w w' Hp; simpl in Hp.
  - injection Hp as <-. apply dest_grows_refl.
  - destruct (img_component comp w) as [w1|] eqn:Hc; simpl in Hp; [|done].
    eapply dest_grows_trans; [by eapply img_component_dest|by apply IH].
Qed.

Lemma process_img_tag_dest h tag hc set pu d h' hc' set' pu' d' :
  rspamd_html_process_img_tag h tag hc set pu d = Some (h', hc', set', pu', d') →
  dest_grows d d'.
Proof.
  unfold rspamd_html_process_img_tag. intros Hp.
  destruct (load_tag h tag) as [t|]; simpl in Hp; [|done].
  destruct (update_tag _ tag h) as [h1|]; simpl in Hp; [|done].
  destruct (img_components _ _) as [w|] eqn:Hw; simpl in Hp; [|done].
  apply img_components_dest in Hw. simpl in Hw.
  destruct (update_tag _ tag _) as [h2|]; simpl in Hp; [|done].
  by injection Hp as _ _ _ _ <-.
Qed.

End img_dest.

Section tokenizer_text.
Import Tokenizer.
Context `{html_tags_h} `{text_collaborators} `{url_collaborators}
        `{double_ops} `{style_collaborators} `{lexer_collaborator}.
Variable input : bytes.
Variable allow_css : bool.

Lemma emits_refl s : emits s s.
Proof. by split. Qed.

Lemma emits_trans s1 s2 s3 : emits s1 s2 → emits s2 s3 → emits s1 s3.
Proof. intros [? ?] [? ?]. split; [congruence|by etrans]. Qed.

Local Opaque update_tag update_url update_block load_tag load_url load_block
  rspamd_html_process_url_tag rspamd_url_set_add_or_return
  rspamd_process_html_url rspamd_html_process_img_tag
  rspamd_html_process_link_tag rspamd_html_process_block_tag
  rspamd_html_propagate_style rspamd_html_check_displayed_url g_node_prev
  load_node rspamd_html_process_tag.

Ltac emit :=
  unfold emits in *; simpl in *;
  repeat match goal with Hx : _ ∧ _ |- _ => destruct Hx end;
  repeat split; try done; try congruence;
  try (by apply prefix_app_r);
  try (etrans; [eassumption|]; try done; by apply prefix_app_r);
  try (etrans; [|eassumption]; try done; by apply prefix_app_r).

Lemma touch_content_tag_emits off add s s' :
  touch_content_tag off add s = Some s' → emits s s' ∧ dest s' = dest s.
Proof. unfold touch_content_tag. intros Hp. binds; emit. Qed.

Lemma touch_content_tag_synthetic_emits k s s' :
  touch_content_tag_synthetic k s = Some s' → emits s s' ∧ dest s' = dest s.
Proof. unfold touch_content_tag_synthetic. intros Hp. binds; emit. Qed.

Local Opaque touch_content_tag touch_content_tag_synthetic.

Ltac eops1 :=
  repeat match goal with
    | Hx : touch_content_tag _ _ _ = Some _ |- _ =>
        apply touch_content_tag_emits in Hx as ((? & ?) & ?)
    | Hx : touch_content_tag_synthetic _ _ = Some _ |- _ =>
        apply touch_content_tag_synthetic_emits in Hx as ((? & ?) & ?)
    end.

Lemma flush_text_emits s s' : flush_text input s = Some s' → emits s s'.
Proof.
  unfold flush_text. intros Hp.
  destruct (touch_content_tag _ _ s) as [s1|] eqn:Ht; simpl in Hp; [|done].
  injection Hp as <-. apply touch_content_tag_emits in Ht as [[Hp1 _] Hd].
  split; simpl; [done|]. rewrite Hd. by apply prefix_app_r.
Qed.

Local Opaque flush_text.

Ltac eops2 :=
  eops1;
  repeat match goal with
    | Hx : flush_text _ _ = Some _ |- _ =>
        apply flush_text_emits in Hx as (? & ?)
    end.

(** The turn of [content_write]: the cursor moves on, or the state is
    [tag_begin]. *)
Lemma step_content_write_text t s s' :
  step_content_write input t s = Some s' →
  dest s `prefix_of` dest s'
  ∧ (tk_p s' = tk_p s + 1 ∨ (tk_p s' = tk_p s ∧ tk_state s' = tag_begin)).
Proof.
  unfold step_content_write. intros Hp.
  destruct (negb (t =? c_lt)).
  - match type of Hp with
    | (?r ≫= _) = _ => destruct r as [s1|] eqn:Hs1
    end; simpl in Hp; [|done].
    injection Hp as <-. simpl.
    assert (emits s s1); [|unfold emits in *; split; [tauto|left; lia]].
    destruct (t =? c_amp); [by injection Hs1 as <-|].
    destruct (g_ascii_isspace t).
    + simpl in Hs1.
      destruct (tk_c s <? tk_p s).
      * destruct (flush_text input _) as [s2|] eqn:Hf; simpl in Hs1; [|done].
        injection Hs1 as <-. apply flush_text_emits in Hf. emit.
      * injection Hs1 as <-. emit.
    + destruct (save_space s); [|by injection Hs1 as <-].
      match type of Hs1 with
      | (?r ≫= _) = _ => destruct r as [s2|] eqn:Hs2
      end; simpl in Hs1; [|done].
      injection Hs1 as <-.
      destruct (_ && _).
      * apply touch_content_tag_synthetic_emits in Hs2 as [[Hp2 Hd2] Hd].
        simpl in *. split; simpl; [done|]. rewrite Hd. by apply prefix_app_r.
      * injection Hs2 as <-. emit.
  - match type of Hp with
    | (?r ≫= _) = _ => destruct r as [s1|] eqn:Hs1
    end; simpl in Hp; [|done].
    injection Hp as <-. simpl.
    assert (emits s s1); [|unfold emits in *; split; [tauto|right; tauto]].
    destruct (negb (tk_c s =? tk_p s)).
    + by apply flush_text_emits in Hs1.
    + injection Hs1 as <-. emit.
Qed.

Lemma append_newline_emits s s' : append_newline s = Some s' → emits s s'.
Proof.
  unfold append_newline. intros Hp.
  destruct (_ && _); [|injection Hp as <-; emit].
  apply touch_content_tag_synthetic_emits in Hp as [[Hp2 Hd2] Hd].
  simpl in *. split; [done|]. rewrite Hd. by apply prefix_app_r.
Qed.

Local Opaque append_newline.

Lemma tag_end_newlines_emits id s s' :
  tag_end_newlines id s = Some s' → emits s s'.
Proof.
  unfold tag_end_newlines. intros Hp.
  binds;
    repeat match goal with
      | Hx : append_newline _ = Some _ |- _ =>
          apply append_newline_emits in Hx as (? & ?)
      end; emit.
Qed.

Lemma tag_end_process_tag_emits tag s s' :
  tag_end_process_tag tag s = Some s' → emits s s'.
Proof. unfold tag_end_process_tag. intros Hp. binds; emit. Qed.

Lemma tag_end_seen_emits tag s s' :
  tag_end_seen tag s = Some s' → emits s s'.
Proof. unfold tag_end_seen. intros Hp. binds; emit. Qed.

Lemma tag_end_href_open_emits tag s s' :
  tag_end_href_open tag s = Some s' → emits s s'.
Proof. unfold tag_end_href_open. intros Hp. binds; emit. Qed.

Lemma check_displayed_emits url s s' :
  check_displayed url s = Some s' → emits s s'.
Proof. unfold check_displayed. intros Hp. binds; emit. Qed.

Local Opaque check_displayed tag_end_href_open.

Ltac eops3 :=
  eops2;
  repeat match goal with
    | Hx : check_displayed _ _ = Some _ |- _ =>
        apply check_displayed_emits in Hx as (? & ?)
    | Hx : tag_end_href_open _ _ = Some _ |- _ =>
        apply tag_end_href_open_emits in Hx as (? & ?)
    end.

Lemma tag_end_anchor_emits tag s s' :
  tag_end_anchor tag s = Some s' → emits s s'.
Proof. unfold tag_end_anchor. intros Hp. binds; eops3; emit. Qed.

Local Opaque tag_end_anchor.

Lemma tag_end_href_emits tag s s' :
  tag_end_href tag s = Some s' → emits s s'.
Proof.
  unfold tag_end_href. intros Hp.
  binds; eops3;
    repeat match goal with
      | Hx : tag_end_anchor _ _ = Some _ |- _ =>
          apply tag_end_anchor_emits in Hx as (? & ?)
      end; emit.
Qed.

Lemma tag_end_semantic_emits tag s s' :
  tag_end_semantic tag s = Some s' → emits s s'.
Proof.
  unfold tag_end_semantic. intros Hp.
  destruct (load_tag (tk_heap s) tag) as [t|]; simpl in Hp; [|done].
  destruct (_ && _).
  { destruct (rspamd_html_process_img_tag _ _ _ _ _ _)
      as [[[[[h1 hc1] set1] pu1] d1]|] eqn:Hi; simpl in Hp; [|done].
    apply process_img_tag_dest in Hi. injection Hp as <-.
    split; simpl; [done|]. by destruct d1. }
  clear -Hp. binds; emit.
Qed.

Local Opaque tag_end_process_tag tag_end_seen tag_end_newlines tag_end_href
  tag_end_semantic.

Lemma step_tag_end_text s s' :
  step_tag_end s = Some s' →
  dest s `prefix_of` dest s' ∧ tk_p s' = tk_p s + 1.
Proof.
  unfold step_tag_end. intros Hp.
  match type of Hp with
  | (?r ≫= _) = _ => destruct r as [s1|] eqn:Hs1
  end; simpl in Hp; [|done].
  injection Hp as <-. simpl.
  assert (emits s s1) as [Hp1 Hd1]; [|by rewrite Hp1].
  cbn [cur_tag set_savep set_substate] in Hs1.
  destruct (cur_tag s) as [tag|]; [|injection Hs1 as <-; by split].
  destruct (tag_end_process_tag tag _) as [s2|] eqn:Hq2; simpl in Hs1; [|done].
  destruct (tag_end_seen tag s2) as [s3|] eqn:Hq3; simpl in Hs1; [|done].
  destruct (load_tag (tk_heap s3) tag) as [t3|]; simpl in Hs1; [|done].
  destruct (tag_end_newlines (tag_id t3) s3) as [s4|] eqn:Hq4; simpl in Hs1;
    [|done].
  destruct (tag_end_href tag s4) as [s5|] eqn:Hq5; simpl in Hs1; [|done].
  apply tag_end_process_tag_emits in Hq2. apply tag_end_seen_emits in Hq3.
  apply tag_end_newlines_emits in Hq4. apply tag_end_href_emits in Hq5.
  apply tag_end_semantic_emits in Hs1.
  apply (emits_trans _ s2); [exact Hq2|].
  apply (emits_trans _ s3); [exact Hq3|].
  apply (emits_trans _ s4); [exact Hq4|].
  by apply (emits_trans _ s5).
Qed.

Lemma step_tag_content_text t s s' :
  step_tag_content input t s = Some s' →
  dest s' = dest s
  ∧ (tk_p s' = tk_p s + 1 ∨ (tk_p s' = tk_p s ∧ tk_state s' = tag_end)).
Proof.
  unfold step_tag_content. intros Hp.
  destruct (cur_tag s) as [tag|]; simpl in Hp; [|done].
  destruct (load_tag (tk_heap s) tag) as [tg|]; simpl in Hp; [|done].
  destruct (rspamd_html_parse_tag_content _ _ _ _ _ _) as [[[hc1 tg1] sub1] sp1].
  binds; simpl; split; try done; (by left) || (by right).
Qed.

Lemma step_content_style_dest s s' :
  step_content_style input allow_css s = Some s' → dest s' = dest s.
Proof. unfold step_content_style. intros Hp. binds; done. Qed.

(** One turn of the loop: the visible text grows. *)
Lemma tokenizer_step_dest s s' :
  tokenizer_step input allow_css s = Some s' → dest s `prefix_of` dest s'.
Proof.
  unfold tokenizer_step. intros Hp.
  destruct (peek input (tk_p s)) as [t|]; simpl in Hp; [|done].
  destruct (tk_state s) eqn:Hk.
  all: try (by apply step_tag_end_text in Hp as [Hd Hq]).
  all: try (by apply step_content_write_text in Hp as [Hd _]).
  all: try (apply step_tag_content_text in Hp as [Hd _]; by rewrite Hd).
  all: try (apply step_content_style_dest in Hp; by rewrite Hp).
  all: try (unfold step_comment_tag in Hp).
  all: try (injection Hp as <-; unfold step_tag_begin, alloc_tag).
  all: binds; simpl; done.
Qed.

Lemma tokenizer_loop_dest fuel : ∀ s s',
  tokenizer_loop input allow_css fuel s = Some s' →
  dest s `prefix_of` dest s'.
Proof.
  induction fuel as [|f IH]; intros s s' Hp; simpl in Hp.
  - destruct (blen input <=? tk_p s); [|done]. by injection Hp as <-.
  - destruct (blen input <=? tk_p s); [by injection Hp as <-|].
    destruct (tokenizer_step input allow_css s) as [s1|] eqn:Hs; simpl in Hp;
      [|done].
    apply tokenizer_step_dest in Hs. etrans; [exact Hs|by apply IH].
Qed.

Hypothesis search_range : ∀ s pat, -1 ≤ rspamd_substring_search s pat.

Lemma step_content_style_cursor s s' :
  step_content_style input allow_css s = Some s' →
  tk_p s ≤ tk_p s'
  ∧ (tk_state s' = content_ignore ∨ tk_state s' = tag_begin).
Proof.
  unfold step_content_style. intros Hp.
  pose proof (search_range (drop (Z.to_nat (tk_p s)) input) (bytes_of_string "</"))
    as Hr.
  destruct (rspamd_substring_search _ _ =? -1) eqn:Hs; simpl in Hp.
  - injection Hp as <-. simpl. split; [lia|by left].
  - apply Z.eqb_neq in Hs.
    binds; simpl; split; try lia; (by left) || (by right).
Qed.

(** One turn of the loop: the cursor moves on, or the state comes closer
    to one that moves it. *)
Lemma tokenizer_step_progress s s' :
  tokenizer_step input allow_css s = Some s' →
  tk_p s + 1 ≤ tk_p s'
  ∨ (tk_p s ≤ tk_p s' ∧ tk_rank (tk_state s') < tk_rank (tk_state s)).
Proof.
  unfold tokenizer_step. intros Hp.
  destruct (peek input (tk_p s)) as [t|]; simpl in Hp; [|done].
  destruct (tk_state s) eqn:Hk.
  all: try (apply step_tag_end_text in Hp as [Hd Hq]; left; lia).
  all: try (apply step_content_write_text in Hp as [Hd [Hq|[Hq Hst]]];
            [left; lia|right; rewrite Hst; simpl; lia]).
  all: try (apply step_tag_content_text in Hp as [Hd [Hq|[Hq Hst]]];
            [left; lia|right; rewrite Hst; simpl; lia]).
  all: try (apply step_content_style_cursor in Hp as (Hq & [Hst|Hst]);
            right; rewrite Hst; simpl; lia).
  all: try (unfold step_comment_tag in Hp).
  all: try (injection Hp as <-; unfold step_tag_begin, alloc_tag).
  all: binds; simpl; try rewrite Hk; simpl; (left; lia) || (right; lia).
Qed.

Lemma tokenizer_loop_fuel fuel1 : ∀ fuel2 s,
  (tk_turns input s ≤ fuel1)%nat → (tk_turns input s ≤ fuel2)%nat →
  tokenizer_loop input allow_css fuel1 s
  = tokenizer_loop input allow_css fuel2 s.
Proof.
  induction fuel1 as [|f1 IH]; intros fuel2 s Hf1 Hf2.
  - unfold tk_turns in *. destruct (blen input <=? tk_p s) eqn:Hp.
    + destruct fuel2; simpl; by rewrite Hp.
    + apply Z.leb_gt in Hp. destruct (tk_state s); simpl in *; lia.
  - destruct fuel2 as [|f2].
    + unfold tk_turns in *. destruct (blen input <=? tk_p s) eqn:Hp.
      * simpl; by rewrite Hp.
      * apply Z.leb_gt in Hp. destruct (tk_state s); simpl in *; lia.
    + simpl. destruct (blen input <=? tk_p s) eqn:Hp; [done|].
      apply Z.leb_gt in Hp.
      destruct (tokenizer_step input allow_css s) as [s1|] eqn:Hs; simpl;
        [|done].
      apply tokenizer_step_progress in Hs as Hq.
      assert (Hr : ∀ st, 0 ≤ tk_rank st ≤ 4) by (intros st; destruct st; simpl; lia).
      pose proof (Hr (tk_state s)). pose proof (Hr (tk_state s1)).
      apply IH; unfold tk_turns in *;
        rewrite (proj2 (Z.leb_gt (blen input) (tk_p s))) in Hf1, Hf2 by done;
        destruct (blen input <=? tk_p s1) eqn:Hp1; try lia;
        apply Z.leb_gt in Hp1; lia.
Qed.

End tokenizer_text.

Section plain_text.
Import Tokenizer.
Context `{html_tags_h} `{text_collaborators} `{url_collaborators}
        `{double_ops} `{style_collaborators} `{lexer_collaborator}.
Variable input : bytes.
Variable allow_css : bool.

Lemma content_write_plain fuel : ∀ s,
  Forall plain_byte input →
  tk_state s = content_write → save_space s = false → 0 ≤ tk_p s →
  (Z.to_nat (blen input - tk_p s) ≤ fuel)%nat →
  ∃ s', tokenizer_loop input allow_css fuel s = Some s'
        ∧ dest s' = dest s ∧ tk_heap s' = tk_heap s ∧ tk_hc s' = tk_hc s.
Proof.
  induction fuel as [|f IH]; intros s Hplain Hst Hsp Hp0 Hfuel; simpl.
  - rewrite (proj2 (Z.leb_le (blen input) (tk_p s))) by lia. by exists s.
  - destruct (blen input <=? tk_p s) eqn:Hp; [by exists s|].
    apply Z.leb_gt in Hp.
    unfold tokenizer_step, peek.
    rewrite (proj2 (Z.ltb_ge (tk_p s) 0)) by done.
    destruct (input !! Z.to_nat (tk_p s)) as [t|] eqn:Ht.
    2: { apply lookup_ge_None in Ht. unfold blen in Hp. lia. }
    simpl. rewrite Hst.
    assert (Hpl : plain_byte t).
    { eapply Forall_forall; [exact Hplain|]. by eapply list_elem_of_lookup_2. }
    destruct Hpl as [Hlt Hns].
    unfold step_content_write.
    rewrite (proj2 (Z.eqb_neq t c_lt)) by done. simpl.
    rewrite Hns, Hsp.
    destruct (t =? c_amp); simpl.
    + destruct (IH (advance (set_need_decode true s))) as (s' & Hrun & Hd & Hh & Hc);
        simpl; try done; try lia.
      exists s'. by rewrite Hrun.
    + destruct (IH (advance s)) as (s' & Hrun & Hd & Hh & Hc);
        simpl; try done; try lia.
      exists s'. by rewrite Hrun.
Qed.

End plain_text.

Section plain_part.
Import Tokenizer.
Context `{html_tags_h} `{text_collaborators} `{url_collaborators}
        `{double_ops} `{style_collaborators} `{lexer_collaborator}.

Lemma process_part_plain h hc input ex set pu css :
  Forall plain_byte input → input ≠ [] → html_tags hc = None →
  ∃ r, rspamd_html_process_part_full h hc input ex set pu css = Some r
       ∧ res_dest r = [] ∧ res_heap r = h
       ∧ parsed (res_hc r) = Some []
       ∧ hc_flags (res_hc r) = Z.lor (hc_flags hc) RSPAMD_HTML_FLAG_BAD_START
       ∧ html_tags (res_hc r) = None.
Proof.
  intros Hplain Hne Hroot. unfold rspamd_html_process_part_full.
  destruct input as [|b0 rest] eqn:Hin; [done|]. rewrite <- Hin in *.
  assert (Hb0 : plain_byte b0).
  { rewrite Hin in Hplain. by apply Forall_cons in Hplain as [? _]. }
  set (s0 := process_part_init h hc ex set pu).
  assert (Hlen : 0 < blen input) by (rewrite Hin; unfold blen; simpl; lia).
  assert (Hfuel : (5 * length input + 5 = S (5 * length input + 4))%nat) by lia.
  rewrite Hfuel. clear Hfuel.
  set (fuel := (5 * length input + 4)%nat).
  assert (Hfuel : (length input ≤ fuel)%nat) by (unfold fuel; lia).
  clearbody fuel. cbn [tokenizer_loop].
  rewrite (proj2 (Z.leb_gt (blen input) (tk_p s0))) by (simpl; lia).
  assert (Hstep : tokenizer_step input css s0
                  = Some (set_tk_state content_write
                            (hc_or RSPAMD_HTML_FLAG_BAD_START s0))).
  { unfold tokenizer_step, peek. simpl. rewrite Hin. simpl.
    destruct Hb0 as [Hlt _]. by rewrite (proj2 (Z.eqb_neq b0 c_lt)). }
  rewrite Hstep.
  set (s1 := set_tk_state content_write (hc_or RSPAMD_HTML_FLAG_BAD_START s0)).
  destruct (content_write_plain input css fuel s1)
    as (s' & Hrun & Hd & Hh & Hc); simpl; try done; try (unfold blen; lia).
  rewrite Hrun. simpl. unfold process_part_finish.
  assert (Hr' : html_tags (tk_hc s') = None) by (by rewrite Hc).
  rewrite Hr'. simpl.
  eexists. split; [reflexivity|]. simpl. rewrite Hd, Hh, Hc. simpl.
  by rewrite Hroot.
Qed.

End plain_part.

Lemma rcl_all_spec P : rcl_all P = true → ∀ c, 0 ≤ c < 255 → P c = true.
Proof.
  unfold rcl_all. rewrite forallb_forall. intros Hall c Hc. apply Hall.
  apply list_elem_of_In. apply list_elem_of_fmap. exists (Z.to_nat c).
  split; [lia|]. apply elem_of_seq. lia.
Qed.

Lemma rcl_chartable_bounds :
  length rcl_chartable = 255%nat
  ∧ (∀ c, is_Some (rcl_chartable_at c) ↔ 0 ≤ c < 255).
Proof.
  split; [reflexivity|]. intros c. unfold rcl_chartable_at.
  destruct (c <? 0) eqn:Hc.
  - apply Z.ltb_lt in Hc. split; [by intros [? ?]|lia].
  - apply Z.ltb_ge in Hc. rewrite lookup_lt_is_Some.
    change (length rcl_chartable) with 255%nat. lia.
Qed.

Lemma rcl_whitespace c :
  0 ≤ c < 255 → rcl_names c RCL_CHARACTER_WHITESPACE = g_ascii_isspace c.
Proof.
  intros Hc.
  assert (Hall : rcl_all (λ c, Bool.eqb (rcl_names c RCL_CHARACTER_WHITESPACE)
                                 (g_ascii_isspace c)) = true)
    by (vm_compute; reflexivity).
  apply Bool.eqb_prop. by apply (rcl_all_spec _ Hall).
Qed.

Lemma rcl_keys c :
  0 ≤ c < 255 →
  rcl_names c RCL_CHARACTER_KEY
  = g_ascii_isalnum c || (c =? c_minus) || (c =? 95) || (128 <=? c)
  ∧ rcl_names c RCL_CHARACTER_KEY_START = g_ascii_isalpha c || (128 <=? c).
Proof.
  intros Hc.
  assert (Hall : rcl_all
    (λ c, Bool.eqb (rcl_names c RCL_CHARACTER_KEY)
            (g_ascii_isalnum c || (c =? c_minus) || (c =? 95) || (128 <=? c))
          && Bool.eqb (rcl_names c RCL_CHARACTER_KEY_START)
               (g_ascii_isalpha c || (128 <=? c))) = true)
    by (vm_compute; reflexivity).
  pose proof (rcl_all_spec _ Hall c Hc) as Hx. simpl in Hx.
  apply andb_true_iff in Hx as [Hx1 Hx2].
  split; by apply Bool.eqb_prop.
Qed.

Lemma rcl_values c :
  0 ≤ c < 255 →
  rcl_names c RCL_CHARACTER_VALUE_DIGIT_START
  = g_ascii_isdigit c || (c =? c_minus)
  ∧ rcl_names c RCL_CHARACTER_VALUE_DIGIT
    = g_ascii_isalnum c || (c =? 43) || (c =? c_minus) || (c =? 46)
  ∧ rcl_names c RCL_CHARACTER_VALUE_END
    = bool_decide (c ∈ [0; c_nl; c_cr; c_hash; c_comma; c_semicolon;
                        c_rbracket; 125])
  ∧ rcl_names c RCL_CHARACTER_DENIED
    = negb (rcl_names c RCL_CHARACTER_VALUE_STR)
      && negb (rcl_names c RCL_CHARACTER_VALUE_END)
      && negb (rcl_names c RCL_CHARACTER_WHITESPACE).
Proof.
  intros Hc.
  assert (Hall : rcl_all
    (λ c, Bool.eqb (rcl_names c RCL_CHARACTER_VALUE_DIGIT_START)
            (g_ascii_isdigit c || (c =? c_minus))
          && Bool.eqb (rcl_names c RCL_CHARACTER_VALUE_DIGIT)
               (g_ascii_isalnum c || (c =? 43) || (c =? c_minus) || (c =? 46))
          && Bool.eqb (rcl_names c RCL_CHARACTER_VALUE_END)
               (bool_decide (c ∈ [0; c_nl; c_cr; c_hash; c_comma; c_semicolon;
                                  c_rbracket; 125]))
          && Bool.eqb (rcl_names c RCL_CHARACTER_DENIED)
               (negb (rcl_names c RCL_CHARACTER_VALUE_STR)
                && negb (rcl_names c RCL_CHARACTER_VALUE_END)
                && negb (rcl_names c RCL_CHARACTER_WHITESPACE))) = true)
    by (vm_compute; reflexivity).
  pose proof (rcl_all_spec _ Hall c Hc) as Hx. simpl in Hx.
  apply andb_true_iff in Hx as [Hx Hx4].
  apply andb_true_iff in Hx as [Hx Hx3].
  apply andb_true_iff in Hx as [Hx1 Hx2].
  repeat split; by apply Bool.eqb_prop.
Qed.

(** ** The tree builder *)

(** X1: on a well-formed tree and a tag that no node carries yet,
    [rspamd_html_process_tag] returns, and it leaves a well-formed tree
    with a root and the same tags. *)
Theorem tree_builder_keeps_tree_shape :
  ∀ (tags_h : html_tags_h) (h : heap) (hc : html_content) (tag : nat)
    (t : html_tag) (cl : option nat) (bal : bool),
    tree_wf h hc cl → tags h !! tag = Some t → tag_unlinked h tag →
    ∃ h' hc' cl' bal' ret,
      rspamd_html_process_tag h hc tag cl bal = Some (h', hc', cl', bal', ret)
      ∧ tree_wf h' hc' cl' ∧ is_Some (html_tags hc')
      ∧ length (tags h') = length (tags h).
Proof. intros tags_h h hc tag t cl bal. apply process_tag_total. Qed.

(** The first tag of a part, an opening [<div>]. *)
Lemma tree_builder_keeps_tree_shape_witness :
  ∃ h' hc' cl' bal' ret,
    rspamd_html_process_tag (alloc_tag div_open heap_empty).1 hc_zero 0 None true
    = Some (h', hc', cl', bal', ret)
    ∧ tree_wf h' hc' cl' ∧ is_Some (html_tags hc')
    ∧ length (tags h') = length (tags (alloc_tag div_open heap_empty).1).
Proof.
  apply (tree_builder_keeps_tree_shape Scenario.tags_h
           (alloc_tag div_open heap_empty).1 hc_zero 0 div_open None true).
  - apply tree_wf_alloc_tag, tree_wf_empty.
  - reflexivity.
  - intros i nd Hi. destruct i; simpl in Hi; discriminate.
Defined.



(** X3: an inline or empty tag met while the current level is the root
    node gets its parent recorded and no node, and is not counted. *)
Theorem inline_tag_below_root_gets_no_node :
  ∀ (tags_h : html_tags_h) (h : heap) (hc : html_content) (tag : nat)
    (t : html_tag) (c : nat) (cn : GNode) (bal : bool),
    is_Some (html_tags hc) → tags h !! tag = Some t → tag_id t ≠ -1 →
    has_flag (tag_flags t) (Z.lor CM_INLINE CM_EMPTY) = true →
    nodes h !! c = Some (Some cn) → data cn = None →
    ∃ hc', rspamd_html_process_tag h hc tag (Some c) bal
           = Some (set_tags (<[tag := set_tag_parent (Some c) t]> (tags h)) h,
                   hc', Some c, bal, true)
           ∧ total_tags hc' = total_tags hc
           ∧ html_tags hc' = html_tags hc.
Proof. intros tags_h h hc tag t c cn bal. apply process_tag_inline_at_root. Qed.

(** An opening [<br>] below the root. *)
Lemma inline_tag_below_root_gets_no_node_witness :
  ∃ hc', rspamd_html_process_tag (rooted_heap br_open) rooted_content 0
           (Some 0%nat) true
         = Some (set_tags (<[0%nat := set_tag_parent (Some 0%nat) br_open]>
                             (tags (rooted_heap br_open)))
                   (rooted_heap br_open),
                 hc', Some 0%nat, true, true)
         ∧ total_tags hc' = total_tags rooted_content
         ∧ html_tags hc' = html_tags rooted_content.
Proof.
  apply (inline_tag_below_root_gets_no_node Scenario.tags_h
           (rooted_heap br_open) rooted_content 0 br_open 0
           {| data := None; gparent := None; children := [] |} true).
  - by eexists.
  - reflexivity.
  - vm_compute. discriminate.
  - vm_compute. reflexivity.
  - reflexivity.
  - reflexivity.
Defined.

(** X4: below the tag limit, a block tag that is closed in place
    ([FL_CLOSED] without [FL_CLOSING]) becomes a leaf below the current
    level: it is counted, the current level stays, and the tree is
    balanced. *)
Theorem self_closed_block_tag_is_leaf :
  ∀ (tags_h : html_tags_h) (h : heap) (hc : html_content) (tag : nat)
    (t : html_tag) (c : nat) (cn : GNode) (bal : bool),
    is_Some (html_tags hc) → tags h !! tag = Some t → tag_id t ≠ -1 →
    has_flag (tag_flags t) (Z.lor CM_INLINE CM_EMPTY) = false →
    has_flag (tag_flags t) FL_CLOSED = true →
    has_flag (tag_flags t) FL_CLOSING = false →
    nodes h !! c = Some (Some cn) →
    total_tags hc < max_tags →
    rspamd_html_process_tag h hc tag (Some c) bal
    = Some (set_nodes (add_child (nodes h) c cn (Some tag))
              (set_tags (<[tag := set_tag_parent (Some c) t]> (tags h)) h),
            incr_total_tags hc, Some c, true, true).
Proof. intros tags_h h hc tag t c cn bal. apply process_tag_closed_in_place. Qed.

(** A [<div/>] below the root. *)
Lemma self_closed_block_tag_is_leaf_witness :
  rspamd_html_process_tag (rooted_heap (or_tag_flags FL_CLOSED div_open))
    rooted_content 0 (Some 0%nat) false
  = Some (set_nodes
            (add_child (nodes (rooted_heap (or_tag_flags FL_CLOSED div_open))) 0
               {| data := None; gparent := None; children := [] |} (Some 0%nat))
            (set_tags
               (<[0%nat := set_tag_parent (Some 0%nat)
                             (or_tag_flags FL_CLOSED div_open)]>
                  (tags (rooted_heap (or_tag_flags FL_CLOSED div_open))))
               (rooted_heap (or_tag_flags FL_CLOSED div_open))),
          incr_total_tags rooted_content, Some 0%nat, true, true).
Proof.
  apply (self_closed_block_tag_is_leaf Scenario.tags_h
           (rooted_heap (or_tag_flags FL_CLOSED div_open)) rooted_content 0
           (or_tag_flags FL_CLOSED div_open) 0
           {| data := None; gparent := None; children := [] |} false).
  - by eexists.
  - reflexivity.
  - vm_compute. discriminate.
  - vm_compute. reflexivity.
  - vm_compute. reflexivity.
  - vm_compute. reflexivity.
  - reflexivity.
  - vm_compute. reflexivity.
Defined.

(** ** The URL resolver *)

(** X5: what [rspamd_html_process_url] copies into [decoded] has no white
    space and no ASCII byte that is not graphic, and encoding it again
    changes nothing. *)
Theorem url_encode_output_is_clean :
  ∀ s : bytes,
    Forall (λ b, needs_encoding b = false ∧ g_ascii_isspace b = false)
           (url_encode s).1
    ∧ url_encode (url_encode s).1 = ((url_encode s).1, false).
Proof.
  intros s. split; [|apply url_encode_idempotent].
  apply Forall_and. split; [apply url_encode_safe|apply url_encode_no_space].
Qed.

(** X6: [has_bad_chars] is set exactly when the URL has an ASCII byte
    that is neither graphic nor white space. *)
Theorem url_encode_flags_control_bytes :
  ∀ s : bytes,
    (url_encode s).2 = true
    ↔ Exists (λ b, g_ascii_isspace b = false ∧ needs_encoding b = true) s.
Proof. apply url_encode_bad. Qed.

(** X7: the buffer of [dlen + 1] bytes that line 743 reserves holds the
    prefix, the encoded URL and the terminator. *)
Theorem url_buffer_holds_decoded :
  ∀ (tags_h : html_tags_h) (url_c : url_collaborators) (s : bytes) (n : Z),
    url_buffer_size s = Some n →
    ∃ prefix no_prefix,
      url_prefix_scan s = Some (prefix, no_prefix)
      ∧ blen ((if no_prefix : bool then prefix else []) ++ (url_encode s).1) + 1
        ≤ n.
Proof.
  intros tags_h url_c s n Hn.
  destruct (url_prefix_scan s) as [[prefix no_prefix]|] eqn:Hscan.
  - exists prefix, no_prefix. split; [done|]. by eapply url_buffer_holds.
  - unfold url_buffer_size in Hn. by rewrite Hscan in Hn.
Qed.

(** A URL without a scheme and with a space to encode. *)
Lemma url_buffer_holds_decoded_witness :
  ∃ prefix no_prefix,
    url_prefix_scan (bytes_of_string "example.com/a b") = Some (prefix, no_prefix)
    ∧ blen ((if no_prefix : bool then prefix else [])
            ++ (url_encode (bytes_of_string "example.com/a b")).1) + 1
      ≤ 25.
Proof.
  apply (url_buffer_holds_decoded Scenario.tags_h Scenario.url
           (bytes_of_string "example.com/a b") 25).
  vm_compute. reflexivity.
Defined.

(** X8: a URL without [://] whose first byte, after the white space around
    it is cut, is an ASCII byte that is no letter, no digit and no [@], and
    that does not begin with [//], is rejected as no valid data: the heap
    stays, and the component holds the URL without the white space. *)
Theorem href_without_scheme_or_name_is_rejected :
  ∀ (tags_h : html_tags_h) (url_c : url_collaborators) (h : heap)
    (start : bytes) (comp : option html_tag_component) (b0 : Z) (rest : bytes),
    strip_tail (strip_head start) = b0 :: rest →
    rspamd_substring_search (b0 :: rest) (bytes_of_string "://") = -1 →
    b0 < 128 → g_ascii_isalnum b0 = false → b0 ≠ c_at →
    (b0 = c_slash → rest !! 0%nat ≠ Some c_slash) →
    rspamd_html_process_url h start comp
    = (h, None,
       (λ c, {| comp_type := comp_type c; comp_val := b0 :: rest |}) <$> comp).
Proof.
  intros tags_h url_c h start comp b0 rest.
  apply process_url_no_valid_data.
Qed.

(** A path between spaces. *)
Lemma href_without_scheme_or_name_is_rejected_witness :
  rspamd_html_process_url heap_empty (bytes_of_string " /index.html ") None
  = (heap_empty, None, None).
Proof.
  apply (href_without_scheme_or_name_is_rejected Scenario.tags_h Scenario.url
           heap_empty (bytes_of_string " /index.html ") None c_slash
           (bytes_of_string "index.html")).
  - vm_compute. reflexivity.
  - vm_compute. reflexivity.
  - vm_compute. reflexivity.
  - vm_compute. reflexivity.
  - vm_compute. discriminate.
  - intros _. vm_compute. discriminate.
Defined.

(** ** Colors and styles *)

(** X9: [rspamd_html_process_color] marks a color as valid only for a
    [#] form, whose alpha is 255, and for an [rgb] form of more than four
    bytes; a color found by name is not marked. *)
Theorem color_is_valid_only_as_hex_or_rgb :
  ∀ (text_c : text_collaborators) (style_c : style_collaborators)
    (line : bytes) (c : html_color),
    rspamd_html_process_color line = Some c →
    (∀ rest, line = c_hash :: rest → col_valid c = true ∧ col_alpha c = 255)
    ∧ (col_valid c = true →
       (∃ rest, line = c_hash :: rest)
       ∨ (4 < blen line ∧ rspamd_lc_cmp_eq "rgb" line = true)).
Proof.
  intros text_c style_c line c Hc. split.
  - intros rest ->. rewrite process_color_hex in Hc. by injection Hc as <-.
  - intros Hv. unfold rspamd_html_process_color in Hc.
    destruct line as [|b0 r]; [done|]. simpl in Hc.
    destruct (b0 =? c_hash) eqn:Hh.
    { apply Z.eqb_eq in Hh as ->. left. by exists r. }
    destruct ((4 <? blen (b0 :: r)) && rspamd_lc_cmp_eq "rgb" (b0 :: r)) eqn:Hrgb.
    { apply andb_true_iff in Hrgb as [Hl Hr]. apply Z.ltb_lt in Hl. by right. }
    destruct (maybe_color_from_string _); injection Hc as <-; done.
Qed.

(** The color name [red]. *)
Lemma color_is_valid_only_as_hex_or_rgb_witness :
  ∃ c, rspamd_html_process_color (bytes_of_string "red") = Some c
       ∧ (∀ rest, bytes_of_string "red" = c_hash :: rest →
          col_valid c = true ∧ col_alpha c = 255)
       ∧ (col_valid c = true →
          (∃ rest, bytes_of_string "red" = c_hash :: rest)
          ∨ (4 < blen (bytes_of_string "red")
             ∧ rspamd_lc_cmp_eq "rgb" (bytes_of_string "red") = true)).
Proof.
  destruct (rspamd_html_process_color (bytes_of_string "red")) as [c|] eqn:Hc;
    [|vm_compute in Hc; discriminate Hc].
  exists c. split; [reflexivity|].
  exact (color_is_valid_only_as_hex_or_rgb Scenario.text Scenario.style
           (bytes_of_string "red") c Hc).
Defined.



(** X11: the loop of [rspamd_html_process_style] ends on every style:
    the function returns a block, and more turns than two per byte and
    three change nothing. *)
Theorem style_parser_returns :
  ∀ (text_c : text_collaborators) (url_c : url_collaborators)
    (dbl : double_ops) (style_c : style_collaborators) (bl : html_block)
    (style : bytes) (n : nat),
    is_Some (rspamd_html_process_style bl style)
    ∧ style_loop (2 * length style + 3 + n) style 0 0 ss_skip_spaces read_key
        None 0 bl
      = rspamd_html_process_style bl style.
Proof.
  intros text_c url_c dbl style_c bl style n.
  split; [apply process_style_total|apply process_style_fuel].
Qed.

(** X12: a style without a colon has no declaration: the block stays as
    it is. *)
Theorem style_without_colon_changes_nothing :
  ∀ (text_c : text_collaborators) (url_c : url_collaborators)
    (dbl : double_ops) (style_c : style_collaborators) (bl : html_block)
    (style : bytes),
    c_colon ∉ style → rspamd_html_process_style bl style = Some bl.
Proof.
  intros text_c url_c dbl style_c bl style. apply process_style_no_colon.
Qed.

(** The style [color red;]. *)
Lemma style_without_colon_changes_nothing_witness :
  rspamd_html_process_style fresh_block (bytes_of_string "color red;")
  = Some fresh_block.
Proof.
  apply (style_without_colon_changes_nothing Scenario.text Scenario.url
           Scenario.doubles Scenario.style).
  apply (bool_decide_unpack _). vm_compute. reflexivity.
Defined.

(** X13: a style never makes a block visible: a block that is not visible
    before [rspamd_html_process_style] is not visible after it. *)
Theorem style_never_makes_visible :
  ∀ (text_c : text_collaborators) (url_c : url_collaborators)
    (dbl : double_ops) (style_c : style_collaborators) (bl bl' : html_block)
    (style : bytes),
    rspamd_html_process_style bl style = Some bl' →
    visible bl = false → visible bl' = false.
Proof.
  intros text_c url_c dbl style_c bl bl' style.
  unfold rspamd_html_process_style. apply style_loop_visible.
Qed.

(** The style [visibility:visible;display:block] on a block that is not
    visible. *)
Lemma style_never_makes_visible_witness :
  ∃ bl', rspamd_html_process_style (set_visible false fresh_block)
           (bytes_of_string "visibility:visible;display:block") = Some bl'
         ∧ visible bl' = false.
Proof.
  destruct (rspamd_html_process_style (set_visible false fresh_block)
              (bytes_of_string "visibility:visible;display:block"))
    as [bl'|] eqn:Hs; [|vm_compute in Hs; discriminate Hs].
  exists bl'. split; [reflexivity|].
  exact (style_never_makes_visible Scenario.text Scenario.url Scenario.doubles
           Scenario.style (set_visible false fresh_block) bl' _ Hs eq_refl).
Defined.

(** ** Blocks and content lengths *)

(** X14: [rspamd_html_propagate_style] leaves the block with a valid font
    color and a font size, keeps every block of the queue so, pushes the
    block on the queue or leaves the queue as it is, and changes no tag and
    no node. *)
Theorem propagated_style_is_complete :
  ∀ (tags_h : html_tags_h) (h : heap) (hc : html_content) (tag bl : nat)
    (queue : list nat) (h' : heap) (queue' : list nat),
    rspamd_html_propagate_style h hc tag bl queue = Some (h', queue') →
    queue_complete h queue →
    queue_complete h' queue'
    ∧ (∃ b', blocks h' !! bl = Some b' ∧ style_complete b')
    ∧ (queue' = queue ∨ queue' = queue ++ [bl])
    ∧ tags h' = tags h ∧ nodes h' = nodes h.
Proof.
  intros tags_h h hc tag bl queue h' queue'. apply propagate_style_queue.
Qed.

(** A block without a font size and an empty queue: the block gets the
    default size 16. *)
Lemma propagated_style_is_complete_witness :
  let h := {| tags := [tag_zero]; nodes := []; blocks := [fresh_block];
              urls := []; images := [] |} in
  ∃ h' queue',
    rspamd_html_propagate_style h hc_zero 0 0 [] = Some (h', queue')
    ∧ (font_size <$> blocks h') = [16]
    ∧ queue_complete h' queue'
    ∧ (∃ b', blocks h' !! 0%nat = Some b' ∧ style_complete b')
    ∧ (queue' = [] ∨ queue' = [] ++ [0%nat])
    ∧ tags h' = tags h ∧ nodes h' = nodes h.
Proof.
  intros h.
  destruct (rspamd_html_propagate_style h hc_zero 0 0 [])
    as [[h' queue']|] eqn:Hp; [|vm_compute in Hp; discriminate Hp].
  exists h', queue'. split; [reflexivity|]. split.
  - vm_compute in Hp. injection Hp as <- <-. reflexivity.
  - apply (propagated_style_is_complete Scenario.tags_h h hc_zero 0 0 []
             h' queue' Hp).
    constructor.
Defined.

(** X15: [rspamd_html_propagate_lengths] adds to the content length of
    the tag of a node the content lengths of the tags of its children,
    modulo 2^32, and changes no other tag and no node. *)
Theorem content_length_sums_children :
  ∀ (h : heap) (node : nat) (nd : GNode) (tp : nat) (t : html_tag) (n : Z),
    nodes h !! node = Some (Some nd) → data nd = Some tp →
    tags h !! tp = Some t →
    0 ≤ content_length t < guint_max →
    children_length h (children nd) = Some n →
    Forall (λ c, ∀ cn, nodes h !! c = Some (Some cn) → data cn ≠ Some tp)
           (children nd) →
    ∃ h' t', rspamd_html_propagate_lengths h node = Some h'
      ∧ nodes h' = nodes h
      ∧ (∀ p, p ≠ tp → tags h' !! p = tags h !! p)
      ∧ tags h' !! tp = Some t'
      ∧ content_length t' = (content_length t + n) mod guint_max.
Proof. intros h node nd tp t n. apply propagate_lengths_sum. Qed.

(** A node with the content length 1 and two children with 2 and 3. *)
Lemma content_length_sums_children_witness :
  let leaf d := Some {| data := Some d; gparent := Some 0%nat;
                        children := [] |} in
  let top := {| data := Some 0%nat; gparent := None;
                children := [1%nat; 2%nat] |} in
  let h := {| tags := [set_content_length 1 tag_zero;
                       set_content_length 2 tag_zero;
                       set_content_length 3 tag_zero];
              nodes := [Some top; leaf 1%nat; leaf 2%nat];
              blocks := []; urls := []; images := [] |} in
  ∃ h' t', rspamd_html_propagate_lengths h 0 = Some h'
    ∧ nodes h' = nodes h
    ∧ (∀ p, p ≠ 0%nat → tags h' !! p = tags h !! p)
    ∧ tags h' !! 0%nat = Some t'
    ∧ content_length t' = (1 + 5) mod guint_max.
Proof.
  intros leaf top h.
  apply (content_length_sums_children h 0 top 0 (set_content_length 1 tag_zero) 5).
  - reflexivity.
  - reflexivity.
  - reflexivity.
  - unfold guint_max. simpl. lia.
  - vm_compute. reflexivity.
  - repeat constructor; intros cn Hcn; vm_compute in Hcn;
      injection Hcn as <-; discriminate.
Defined.

(** ** The tokenizer *)

(** X16: the visible text only grows: what a turn of the tokenizer, and
    what the whole loop, leaves in [dest] begins with what was there. *)
Theorem visible_text_only_grows :
  ∀ (tags_h : html_tags_h) (text_c : text_collaborators)
    (url_c : url_collaborators) (dbl : double_ops)
    (style_c : style_collaborators) (lex : lexer_collaborator)
    (input : bytes) (allow_css : bool),
    (∀ s s', Tokenizer.tokenizer_step input allow_css s = Some s' →
             Tokenizer.dest s `prefix_of` Tokenizer.dest s')
    ∧ (∀ fuel s s', Tokenizer.tokenizer_loop input allow_css fuel s = Some s' →
                    Tokenizer.dest s `prefix_of` Tokenizer.dest s').
Proof.
  intros tags_h text_c url_c dbl style_c lex input allow_css. split.
  - apply tokenizer_step_dest.
  - apply tokenizer_loop_dest.
Qed.

(** The loop on [<b>a b</b>] from a text that holds [x]. *)
Lemma visible_text_only_grows_witness :
  let input := bytes_of_string "<b>a b</b>" in
  let s := Tokenizer.set_dest (bytes_of_string "x")
             (Tokenizer.process_part_init heap_empty hc_zero None None None) in
  ∃ s', Tokenizer.tokenizer_loop input false 60 s = Some s'
        ∧ Tokenizer.dest s `prefix_of` Tokenizer.dest s'
        ∧ Tokenizer.dest s' = bytes_of_string "xa b".
Proof.
  intros input s.
  destruct (Tokenizer.tokenizer_loop input false 60 s) as [s'|] eqn:Hl;
    [|vm_compute in Hl; discriminate Hl].
  exists s'. split; [reflexivity|]. split.
  - exact (proj2 (visible_text_only_grows Scenario.tags_h Scenario.text
                    Scenario.url Scenario.doubles Scenario.style Scenario.lexer
                    input false) 60%nat s s' Hl).
  - vm_compute in Hl. injection Hl as <-. reflexivity.
Defined.

(** X17: a turn of the tokenizer moves the cursor on, or leaves it and
    takes the state closer to one that moves it; so five turns per byte of
    the input and four are enough, and more fuel than that changes nothing.
    That the substring search returns -1 or an offset is a hypothesis about
    the search of libutil. *)
Theorem tokenizer_loop_ends :
  ∀ (tags_h : html_tags_h) (text_c : text_collaborators)
    (url_c : url_collaborators) (dbl : double_ops)
    (style_c : style_collaborators) (lex : lexer_collaborator)
    (input : bytes) (allow_css : bool),
    (∀ s pat, -1 ≤ rspamd_substring_search s pat) →
    (∀ s s', Tokenizer.tokenizer_step input allow_css s = Some s' →
       Tokenizer.tk_p s + 1 ≤ Tokenizer.tk_p s'
       ∨ (Tokenizer.tk_p s ≤ Tokenizer.tk_p s'
          ∧ tk_rank (Tokenizer.tk_state s') < tk_rank (Tokenizer.tk_state s)))
    ∧ (∀ fuel1 fuel2 s,
         (tk_turns input s ≤ fuel1)%nat → (tk_turns input s ≤ fuel2)%nat →
         Tokenizer.tokenizer_loop input allow_css fuel1 s
         = Tokenizer.tokenizer_loop input allow_css fuel2 s).
Proof.
  intros tags_h text_c url_c dbl style_c lex input allow_css Hsearch. split.
  - by apply tokenizer_step_progress.
  - by apply tokenizer_loop_fuel.
Qed.

(** The loop on [<b>a b</b>]: 54 turns are enough. *)
Lemma tokenizer_loop_ends_witness :
  let input := bytes_of_string "<b>a b</b>" in
  let s := Tokenizer.process_part_init heap_empty hc_zero None None None in
  tk_turns input s = 54%nat
  ∧ Tokenizer.tokenizer_loop input false 54 s
    = Tokenizer.tokenizer_loop input false 1000 s.
Proof.
  intros input s. split; [vm_compute; reflexivity|].
  apply (proj2 (tokenizer_loop_ends Scenario.tags_h Scenario.text Scenario.url
                  Scenario.doubles Scenario.style Scenario.lexer input false
                  scenario_search_range) 54%nat 1000%nat s).
  - vm_compute. lia.
  - vm_compute. lia.
Defined.

(** X18: a part of running text only, without [<] and without white
    space, leaves no visible text: the text is copied at the next space or
    tag, and none comes; the part is marked with [BAD_START], and the heap
    and the tree stay. *)
Theorem text_without_space_or_tag_is_dropped :
  ∀ (tags_h : html_tags_h) (text_c : text_collaborators)
    (url_c : url_collaborators) (dbl : double_ops)
    (style_c : style_collaborators) (lex : lexer_collaborator)
    (h : heap) (hc : html_content) (input : bytes)
    (ex : option (list rspamd_process_exception)) (set pu : option (list nat))
    (css : bool),
    Forall plain_byte input → input ≠ [] → html_tags hc = None →
    ∃ r, Tokenizer.rspamd_html_process_part_full h hc input ex set pu css
         = Some r
         ∧ Tokenizer.res_dest r = [] ∧ Tokenizer.res_heap r = h
         ∧ parsed (Tokenizer.res_hc r) = Some []
         ∧ hc_flags (Tokenizer.res_hc r)
           = Z.lor (hc_flags hc) RSPAMD_HTML_FLAG_BAD_START
         ∧ html_tags (Tokenizer.res_hc r) = None.
Proof.
  intros tags_h text_c url_c dbl style_c lex h hc input ex set pu css.
  apply process_part_plain.
Qed.

(** The part [hello]. *)
Lemma text_without_space_or_tag_is_dropped_witness :
  ∃ r, Tokenizer.rspamd_html_process_part_full heap_empty hc_zero
         (bytes_of_string "hello") None None None false = Some r
       ∧ Tokenizer.res_dest r = [] ∧ Tokenizer.res_heap r = heap_empty
       ∧ parsed (Tokenizer.res_hc r) = Some []
       ∧ hc_flags (Tokenizer.res_hc r)
         = Z.lor (hc_flags hc_zero) RSPAMD_HTML_FLAG_BAD_START
       ∧ html_tags (Tokenizer.res_hc r) = None.
Proof.
  apply (text_without_space_or_tag_is_dropped Scenario.tags_h Scenario.text
           Scenario.url Scenario.doubles Scenario.style Scenario.lexer
           heap_empty hc_zero (bytes_of_string "hello") None None None false).
  - repeat constructor; vm_compute; discriminate.
  - discriminate.
  - reflexivity.
Defined.

(** ** The character table of the configuration parser *)

(** X19: [rcl_chartable] has 255 entries, so the index 255 is outside
    it, and the entries that name [RCL_CHARACTER_WHITESPACE] are those of
    the bytes of [g_ascii_isspace]: the space and the bytes 9 to 13. *)
Theorem rcl_chartable_whitespace :
  length rcl_chartable = 255%nat
  ∧ (∀ c, is_Some (rcl_chartable_at c) ↔ 0 ≤ c < 255)
  ∧ (∀ c, 0 ≤ c < 255 →
          rcl_names c RCL_CHARACTER_WHITESPACE = g_ascii_isspace c).
Proof.
  split; [apply rcl_chartable_bounds|].
  split; [apply rcl_chartable_bounds|]. apply rcl_whitespace.
Qed.

(** The tabulator. *)
Lemma rcl_chartable_whitespace_witness :
  rcl_names 9 RCL_CHARACTER_WHITESPACE = g_ascii_isspace 9
  ∧ rcl_names 9 RCL_CHARACTER_WHITESPACE = true.
Proof.
  split; [|vm_compute; reflexivity].
  apply (proj2 (proj2 rcl_chartable_whitespace) 9). lia.
Defined.

(** X20: the entries that name [RCL_CHARACTER_KEY] are those of the
    letters, the digits, [-], [_] and the bytes from 128 on, and the
    entries that name [RCL_CHARACTER_KEY_START] those of the letters and
    the bytes from 128 on. *)
Theorem rcl_chartable_keys :
  ∀ c, 0 ≤ c < 255 →
    rcl_names c RCL_CHARACTER_KEY
    = g_ascii_isalnum c || (c =? c_minus) || (c =? 95) || (128 <=? c)
    ∧ rcl_names c RCL_CHARACTER_KEY_START = g_ascii_isalpha c || (128 <=? c).
Proof. apply rcl_keys. Qed.

(** The digit [7]: a byte of a key, not the start of one. *)
Lemma rcl_chartable_keys_witness :
  (rcl_names 55 RCL_CHARACTER_KEY
   = g_ascii_isalnum 55 || (55 =? c_minus) || (55 =? 95) || (128 <=? 55)
   ∧ rcl_names 55 RCL_CHARACTER_KEY_START = g_ascii_isalpha 55 || (128 <=? 55))
  ∧ rcl_names 55 RCL_CHARACTER_KEY = true
  ∧ rcl_names 55 RCL_CHARACTER_KEY_START = false.
Proof.
  split; [|vm_compute; split; reflexivity].
  apply (rcl_chartable_keys 55). lia.
Defined.

(** X21: the entries that name [RCL_CHARACTER_VALUE_DIGIT_START] are
    those of the digits and [-]; [RCL_CHARACTER_VALUE_DIGIT] those of the
    letters, the digits, [+], [-] and [.]; [RCL_CHARACTER_VALUE_END] those
    of the bytes 0, newline, carriage return, [#], [,], [;], the closing
    bracket and the closing brace; and an entry is [RCL_CHARACTER_DENIED]
    exactly when it names none of [VALUE_STR], [VALUE_END] and
    [WHITESPACE]. *)
Theorem rcl_chartable_values :
  ∀ c, 0 ≤ c < 255 →
    rcl_names c RCL_CHARACTER_VALUE_DIGIT_START
    = g_ascii_isdigit c || (c =? c_minus)
    ∧ rcl_names c RCL_CHARACTER_VALUE_DIGIT
      = g_ascii_isalnum c || (c =? 43) || (c =? c_minus) || (c =? 46)
    ∧ rcl_names c RCL_CHARACTER_VALUE_END
      = bool_decide (c ∈ [0; c_nl; c_cr; c_hash; c_comma; c_semicolon;
                          c_rbracket; 125])
    ∧ rcl_names c RCL_CHARACTER_DENIED
      = negb (rcl_names c RCL_CHARACTER_VALUE_STR)
        && negb (rcl_names c RCL_CHARACTER_VALUE_END)
        && negb (rcl_names c RCL_CHARACTER_WHITESPACE).
Proof. apply rcl_values. Qed.

(** The semicolon ends a value; the byte 1 is denied. *)
Lemma rcl_chartable_values_witness :
  (rcl_names c_semicolon RCL_CHARACTER_VALUE_DIGIT_START
   = g_ascii_isdigit c_semicolon || (c_semicolon =? c_minus)
   ∧ rcl_names c_semicolon RCL_CHARACTER_VALUE_DIGIT
     = g_ascii_isalnum c_semicolon || (c_semicolon =? 43)
       || (c_semicolon =? c_minus) || (c_semicolon =? 46)
   ∧ rcl_names c_semicolon RCL_CHARACTER_VALUE_END
     = bool_decide (c_semicolon ∈ [0; c_nl; c_cr; c_hash; c_comma;
                                   c_semicolon; c_rbracket; 125])
   ∧ rcl_names c_semicolon RCL_CHARACTER_DENIED
     = negb (rcl_names c_semicolon RCL_CHARACTER_VALUE_STR)
       && negb (rcl_names c_semicolon RCL_CHARACTER_VALUE_END)
       && negb (rcl_names c_semicolon RCL_CHARACTER_WHITESPACE))
  ∧ rcl_names c_semicolon RCL_CHARACTER_VALUE_END = true
  ∧ rcl_names 1 RCL_CHARACTER_DENIED = true.
Proof.
  split; [|vm_compute; split; reflexivity].
  apply (rcl_chartable_values c_semicolon). unfold c_semicolon. lia.
Defined.
